(** * ResponseSession (src/lib/responses.ts): a shallow embedding

    The session reconstructs a transcript and a response snapshot from a
    stream of Responses-API events.  The class is modelled as a record of its
    private fields threaded through a small state monad; objects that the
    source shares by reference (output items, raw events) live in explicit
    stores, so that aliasing between the transcript, the snapshot and the
    caller is visible in the model.

    Modelling conventions
    - [output_index], [content_index], ... are JavaScript numbers used as
      array indices; they are modelled as [nat].
    - A JavaScript array that is written by index ([a[i] = v]) is a
      [list (option A)]: [None] is a hole (or the [null] a hole becomes
      after a JSON round trip).
    - [clone] is a JSON round trip; on the typed values below it is a copy
      into a fresh cell of the item store.
    - Raw events are caller-owned objects; the session keeps their
      addresses ([EvRef]) wherever the source stores the event itself.
      Of an event's payload the source reads fields or takes a [clone],
      so [handleEvent] gets the payload as it reads at the call.
    - The item store is the heap of item objects of the whole program:
      the item objects that the caller builds and refers to from its
      events live in it next to those of the session (see [World]).
    - [makeId] reads the clock and the random generator; the model draws
      the suffix from an oracle [idSource] carried by the state. *)

From stdpp Require Import gmap strings list sorting.

Open Scope string_scope.

(** ** JSON-shaped data *)

(** Payloads the session never looks into (annotations, tool descriptors). *)
Abbreviation Json := string.

(** Address of an output item in the session's item store. *)
Abbreviation Ref := nat.

(** Address of a raw event object owned by the caller. *)
Abbreviation EvRef := nat.

Definition arr_get {A} (a : list (option A)) (i : nat) : option A :=
  match a !! i with Some (Some v) => Some v | _ => None end.

(** [a[i] = v]: in range the slot is overwritten, out of range the array
    grows and the skipped slots are holes. *)
Definition arr_set {A} (a : list (option A)) (i : nat) (v : A) : list (option A) :=
  if decide (i < length a) then <[i := Some v]> a
  else a ++ replicate (i - length a) None ++ [Some v].

(** [while (a.length <= i) a.push(d)] *)
Definition pad_to {A} (a : list (option A)) (i : nat) (d : A) : list (option A) :=
  a ++ replicate (S i - length a) (Some d).

(** JavaScript truthiness of an optional string ([if (itemId)]). *)
Definition truthy (o : option string) : bool :=
  match o with Some s => negb (String.eqb s "") | None => false end.

Inductive ContentPart :=
| OutputText (text : string) (annotations : option (list (option Json)))
| Refusal (refusal : string).

(** The [part] of a content-part event: a content part the message stores,
    or a part of another type. *)
Inductive EventPart :=
| PContent (c : ContentPart)
| POtherPart (type : string).

Record SummaryPart := mkSummaryPart {
  summary_type : string;
  summary_text : option string }.

Inductive ItemType :=
| TMessage | TReasoning | TFunctionCall | TCustomToolCall | TMcpCall
| TMcpListTools | TCodeInterpreterCall | TImageGenerationCall
| TOther (name : string).

#[export] Instance ItemType_eq_dec : EqDecision ItemType.
Proof. solve_decision. Defined.

Definition type_name (t : ItemType) : string :=
  match t with
  | TMessage => "message"
  | TReasoning => "reasoning"
  | TFunctionCall => "function_call"
  | TCustomToolCall => "custom_tool_call"
  | TMcpCall => "mcp_call"
  | TMcpListTools => "mcp_list_tools"
  | TCodeInterpreterCall => "code_interpreter_call"
  | TImageGenerationCall => "image_generation_call"
  | TOther n => n
  end.

(** [ResponseOutputItem]: the discriminated union, with the fields the
    session reads or writes.  [id] is optional where the SDK type has
    [id?: string]. *)
Inductive OutputItem :=
| IMessage (id : string) (role status : string) (content : list (option ContentPart))
| IReasoning (id : string) (summary : list (option SummaryPart)) (status : option string)
| IFunctionCall (id : option string) (call_id name arguments : string) (status : option string)
| ICustomToolCall (id : option string) (call_id name input : string)
| IMcpCall (id : string) (name server_label arguments : string)
| IMcpListTools (id : string) (server_label : string) (tools : list Json)
| ICodeInterpreterCall (id : string) (code : string) (outputs : list Json)
    (container_id status : string)
| IImageGenerationCall (id : string) (status : string) (result : option string)
| IOther (type : string) (id : option string).

Definition item_type (it : OutputItem) : ItemType :=
  match it with
  | IMessage _ _ _ _ => TMessage
  | IReasoning _ _ _ => TReasoning
  | IFunctionCall _ _ _ _ _ => TFunctionCall
  | ICustomToolCall _ _ _ _ => TCustomToolCall
  | IMcpCall _ _ _ _ => TMcpCall
  | IMcpListTools _ _ _ => TMcpListTools
  | ICodeInterpreterCall _ _ _ _ _ => TCodeInterpreterCall
  | IImageGenerationCall _ _ _ => TImageGenerationCall
  | IOther t _ => TOther t
  end.

(** [(item as { id?: string }).id] *)
Definition item_id (it : OutputItem) : option string :=
  match it with
  | IMessage i _ _ _ | IReasoning i _ _ | IMcpCall i _ _ _ | IMcpListTools i _ _
  | ICodeInterpreterCall i _ _ _ _ | IImageGenerationCall i _ _ => Some i
  | IFunctionCall i _ _ _ _ | ICustomToolCall i _ _ _ | IOther _ i => i
  end.

(** [item.id = itemId] *)
Definition set_item_id (i : string) (it : OutputItem) : OutputItem :=
  match it with
  | IMessage _ r s c => IMessage i r s c
  | IReasoning _ su s => IReasoning i su s
  | IFunctionCall _ c n a s => IFunctionCall (Some i) c n a s
  | ICustomToolCall _ c n inp => ICustomToolCall (Some i) c n inp
  | IMcpCall _ n l a => IMcpCall i n l a
  | IMcpListTools _ l t => IMcpListTools i l t
  | ICodeInterpreterCall _ c o k s => ICodeInterpreterCall i c o k s
  | IImageGenerationCall _ s r => IImageGenerationCall i s r
  | IOther t _ => IOther t (Some i)
  end.

(** [ResponseInputItem]: an optional id and an uninterpreted body. *)
Record InputItem := mkInputItem {
  input_id : option string;
  input_body : Json }.

Inductive ResponseStatus :=
| Idle | Queued | InProgress | Completed | Failed | Incomplete | Cancelled.

(** [event.response]: the caller's object, read by value. *)
Record ResponsePayload := mkResponsePayload {
  rp_id : option string;
  rp_status : option ResponseStatus;
  rp_output : list OutputItem }.

(** The stored [Response]: its output array holds item addresses. *)
Record Response := mkResponse {
  resp_id : option string;
  resp_status : option ResponseStatus;
  resp_output : list (option Ref) }.

Record OutputAugmentations := mkAug {
  partialImages : option (list EvRef);
  customToolInput : option string;
  reasoningText : option (list EvRef);
  reasoningSummaryText : option (list EvRef) }.

Record SessionAudio := mkAudio {
  chunks : list EvRef;
  transcript : list EvRef }.

Record SessionAugmentations := mkSessionAug {
  audio : option SessionAudio }.

(** [ResponseSessionMessage] *)
Inductive Message :=
| MInput (item : InputItem)
| MOutput (item : Ref) (outputIndex : nat) (events : list EvRef)
    (augmentations : option OutputAugmentations).

Definition is_output (m : Message) : bool :=
  match m with MOutput _ _ _ _ => true | MInput _ => false end.

(** ** Events *)

Inductive LifecycleKind := LCreated | LInProgress | LCompleted | LFailed | LIncomplete.

#[export] Instance LifecycleKind_eq_dec : EqDecision LifecycleKind.
Proof. solve_decision. Defined.

Inductive CallPhase := PhInProgress | PhWorking | PhCompleted.

Inductive McpPhase := McpInProgress | McpCompleted | McpFailed.

(** [ResponseStreamEvent].  Constructors that the router treats in one
    [case] group share a constructor with a flag. *)
Inductive Event :=
| EvLifecycle (kind : LifecycleKind) (response : ResponsePayload)
| EvQueued (response : ResponsePayload)
| EvError (message : string) (code param : option string) (sequence_number : nat)
| EvOutputItemAdded (output_index : nat) (item : OutputItem)
| EvOutputItemDone (output_index : nat) (item : OutputItem)
| EvContentPart (done : bool) (output_index : nat) (item_id : option string)
    (content_index : nat) (part : EventPart)
| EvOutputTextDelta (output_index : nat) (item_id : option string)
    (content_index : nat) (delta : string)
| EvOutputTextDone (output_index : nat) (item_id : option string)
    (content_index : nat) (text : string)
| EvAnnotationAdded (output_index : nat) (item_id : option string)
    (content_index annotation_index : nat) (annotation : Json)
| EvRefusalDelta (output_index : nat) (item_id : option string)
    (content_index : nat) (delta : string)
| EvRefusalDone (output_index : nat) (item_id : option string)
    (content_index : nat) (refusal : string)
| EvFunctionCallArgumentsDelta (output_index : nat) (item_id : option string) (delta : string)
| EvFunctionCallArgumentsDone (output_index : nat) (item_id : option string) (arguments : string)
| EvCustomToolCallInputDelta (output_index : nat) (item_id : option string) (delta : string)
| EvCustomToolCallInputDone (output_index : nat) (item_id : option string) (input : string)
| EvMcpCallArgumentsDelta (output_index : nat) (item_id : option string) (delta : string)
| EvMcpCallArgumentsDone (output_index : nat) (item_id : option string) (arguments : string)
| EvMcpStatus (list_tools : bool) (phase : McpPhase) (output_index : nat)
    (item_id : option string)
| EvReasoningSummaryPart (done : bool) (output_index : nat) (item_id : option string)
    (summary_index : nat) (part : SummaryPart)
| EvReasoningSummaryTextDelta (output_index : nat) (item_id : option string)
    (summary_index : nat) (delta : string)
| EvReasoningSummaryTextDone (output_index : nat) (item_id : option string)
    (summary_index : nat) (text : string)
| EvReasoningTextDelta (output_index : nat) (item_id : option string)
    (content_index : nat) (delta : string)
| EvReasoningTextDone (output_index : nat) (item_id : option string)
    (content_index : nat) (text : string)
| EvCodeInterpreterCodeDelta (output_index : nat) (item_id : option string) (delta : string)
| EvCodeInterpreterCodeDone (output_index : nat) (item_id : option string) (code : string)
| EvCodeInterpreterCall (phase : CallPhase) (output_index : nat) (item_id : option string)
| EvImageGenerationCall (phase : CallPhase) (output_index : nat) (item_id : option string)
| EvPartialImage (output_index : nat) (item_id : option string) (partial_image_b64 : string)
| EvAudioDelta (delta : string)
| EvAudioTranscriptDelta (delta : string)
| EvAudioDone
| EvAudioTranscriptDone
| EvOther (type : string) (output_index : option nat) (item_id : option string).

(** ** The session *)

(** [ResponseSessionSnapshot], as handed to [change] listeners. *)
Record ResponseSessionSnapshot := mkSnapshot {
  snap_messages : list Message;
  snap_status : ResponseStatus;
  snap_response : option Response;
  snap_error : option EvRef;
  snap_sessionAugmentations : option SessionAugmentations }.

(** One [emitter.emit(channel, payload)]. *)
Inductive Signal :=
| SigEvent (event : EvRef)
| SigChange (snapshot : ResponseSessionSnapshot)
| SigStatus (status : ResponseStatus)
| SigError (error : EvRef)
| SigEnd (response : option Response).

Record Session := mkSession {
  messages : list Message;
  idToIndex : gmap string nat;
  outputIndexToMessageIndex : gmap nat nat;
  responseSnapshot : option Response;
  status : ResponseStatus;
  lastError : option EvRef;
  sessionAugmentations : option SessionAugmentations;
  ended : bool;
  endEmitted : bool;
  currentResponseId : option string;
  (** item store: the objects behind [entry.item] and [response.output[i]] *)
  heap : list OutputItem;
  (** everything passed to [emitter.emit], oldest first *)
  emitted : list Signal;
  (** clock and random generator behind [makeId] *)
  idSource : nat → string;
  ticks : nat }.

Definition set_messages (v : list Message) (s : Session) : Session :=
  mkSession v (idToIndex s) (outputIndexToMessageIndex s) (responseSnapshot s) (status s)
    (lastError s) (sessionAugmentations s) (ended s) (endEmitted s) (currentResponseId s)
    (heap s) (emitted s) (idSource s) (ticks s).

Definition set_idToIndex (v : gmap string nat) (s : Session) : Session :=
  mkSession (messages s) v (outputIndexToMessageIndex s) (responseSnapshot s) (status s)
    (lastError s) (sessionAugmentations s) (ended s) (endEmitted s) (currentResponseId s)
    (heap s) (emitted s) (idSource s) (ticks s).

Definition set_outputIndexToMessageIndex (v : gmap nat nat) (s : Session) : Session :=
  mkSession (messages s) (idToIndex s) v (responseSnapshot s) (status s)
    (lastError s) (sessionAugmentations s) (ended s) (endEmitted s) (currentResponseId s)
    (heap s) (emitted s) (idSource s) (ticks s).

Definition set_responseSnapshot (v : option Response) (s : Session) : Session :=
  mkSession (messages s) (idToIndex s) (outputIndexToMessageIndex s) v (status s)
    (lastError s) (sessionAugmentations s) (ended s) (endEmitted s) (currentResponseId s)
    (heap s) (emitted s) (idSource s) (ticks s).

Definition set_status (v : ResponseStatus) (s : Session) : Session :=
  mkSession (messages s) (idToIndex s) (outputIndexToMessageIndex s) (responseSnapshot s) v
    (lastError s) (sessionAugmentations s) (ended s) (endEmitted s) (currentResponseId s)
    (heap s) (emitted s) (idSource s) (ticks s).

Definition set_lastError (v : option EvRef) (s : Session) : Session :=
  mkSession (messages s) (idToIndex s) (outputIndexToMessageIndex s) (responseSnapshot s) (status s)
    v (sessionAugmentations s) (ended s) (endEmitted s) (currentResponseId s)
    (heap s) (emitted s) (idSource s) (ticks s).

Definition set_sessionAugmentations (v : option SessionAugmentations) (s : Session) : Session :=
  mkSession (messages s) (idToIndex s) (outputIndexToMessageIndex s) (responseSnapshot s) (status s)
    (lastError s) v (ended s) (endEmitted s) (currentResponseId s)
    (heap s) (emitted s) (idSource s) (ticks s).

Definition set_ended (v : bool) (s : Session) : Session :=
  mkSession (messages s) (idToIndex s) (outputIndexToMessageIndex s) (responseSnapshot s) (status s)
    (lastError s) (sessionAugmentations s) v (endEmitted s) (currentResponseId s)
    (heap s) (emitted s) (idSource s) (ticks s).

Definition set_endEmitted (v : bool) (s : Session) : Session :=
  mkSession (messages s) (idToIndex s) (outputIndexToMessageIndex s) (responseSnapshot s) (status s)
    (lastError s) (sessionAugmentations s) (ended s) v (currentResponseId s)
    (heap s) (emitted s) (idSource s) (ticks s).

Definition set_currentResponseId (v : option string) (s : Session) : Session :=
  mkSession (messages s) (idToIndex s) (outputIndexToMessageIndex s) (responseSnapshot s) (status s)
    (lastError s) (sessionAugmentations s) (ended s) (endEmitted s) v
    (heap s) (emitted s) (idSource s) (ticks s).

Definition set_heap (v : list OutputItem) (s : Session) : Session :=
  mkSession (messages s) (idToIndex s) (outputIndexToMessageIndex s) (responseSnapshot s) (status s)
    (lastError s) (sessionAugmentations s) (ended s) (endEmitted s) (currentResponseId s)
    v (emitted s) (idSource s) (ticks s).

Definition set_emitted (v : list Signal) (s : Session) : Session :=
  mkSession (messages s) (idToIndex s) (outputIndexToMessageIndex s) (responseSnapshot s) (status s)
    (lastError s) (sessionAugmentations s) (ended s) (endEmitted s) (currentResponseId s)
    (heap s) v (idSource s) (ticks s).

Definition set_ticks (v : nat) (s : Session) : Session :=
  mkSession (messages s) (idToIndex s) (outputIndexToMessageIndex s) (responseSnapshot s) (status s)
    (lastError s) (sessionAugmentations s) (ended s) (endEmitted s) (currentResponseId s)
    (heap s) (emitted s) (idSource s) v.

(** ** The state monad of the class's methods *)

Definition M (A : Type) : Type := Session → A * Session.

Definition ret {A} (a : A) : M A := λ s, (a, s).

Definition bind {A B} (m : M A) (k : A → M B) : M B :=
  λ s, let '(a, s') := m s in k a s'.

Definition gets {A} (f : Session → A) : M A := λ s, (f s, s).

Definition modify (f : Session → Session) : M unit := λ s, (tt, f s).

Definition exec {A} (m : M A) (s : Session) : Session := (m s).2.

Declare Scope session_scope.
Delimit Scope session_scope with session.
Notation "x <- m ;; k" := (bind m (λ x, k))
  (at level 100, m at next level, right associativity) : session_scope.
Notation "m ;; k" := (bind m (λ _, k))
  (at level 100, right associativity) : session_scope.
Open Scope session_scope.

(** [for (const x of xs) body(x)] *)
Fixpoint for_each {A} (xs : list A) (body : A → M unit) : M unit :=
  match xs with
  | [] => ret tt
  | x :: rest => body x ;; for_each rest body
  end.

(** ** Emitter, item store, accessors *)

(** [this.emitter.emit(channel, payload)] *)
Definition emit (sig : Signal) : M unit :=
  modify (λ s, set_emitted (emitted s ++ [sig]) s).

(** A new object in the item store. *)
Definition alloc (v : OutputItem) : M Ref :=
  λ s, (length (heap s), set_heap (heap s ++ [v]) s).

(** [clone(value)]: the JSON round trip builds a fresh object. *)
Definition clone (v : OutputItem) : M Ref := alloc v.

Definition deref (r : Ref) : M (option OutputItem) := gets (λ s, heap s !! r).

(** In-place mutation of the object at [r]. *)
Definition update_item (r : Ref) (f : OutputItem → OutputItem) : M unit :=
  modify (λ s, set_heap (alter f r (heap s)) s).

(** In-place mutation of the transcript entry at position [i]. *)
Definition update_message (i : nat) (f : Message → Message) : M unit :=
  modify (λ s, set_messages (alter f i (messages s)) s).

Definition getMessages (s : Session) : list Message := messages s.
Definition getStatus (s : Session) : ResponseStatus := status s.
Definition getResponse (s : Session) : option Response := responseSnapshot s.
Definition getError (s : Session) : option EvRef := lastError s.

Definition getSnapshot (s : Session) : ResponseSessionSnapshot :=
  mkSnapshot (messages s) (status s) (responseSnapshot s) (lastError s)
    (sessionAugmentations s).

Definition emitChange : M unit :=
  snapshot <- gets getSnapshot ;;
  emit (SigChange snapshot) ;;
  st <- gets status ;;
  emit (SigStatus st) ;;
  isEnded <- gets ended ;;
  wasEmitted <- gets endEmitted ;;
  if isEnded && negb wasEmitted then
    (modify (set_endEmitted true) ;;
     response <- gets responseSnapshot ;;
     emit (SigEnd response))
  else ret tt.

Definition emitError (error : EvRef) : M unit := emit (SigError error).

(** [registerItemId(item, index)]; the argument is [item.id]. *)
Definition registerItemId (id : option string) (index : nat) : M unit :=
  match id with
  | Some i =>
      if String.eqb i "" then ret tt
      else modify (λ s, set_idToIndex (<[i := index]> (idToIndex s)) s)
  | None => ret tt
  end.

Definition addInput (input : InputItem) : M unit :=
  index <- gets (λ s, length (messages s)) ;;
  modify (λ s, set_messages (messages s ++ [MInput input]) s) ;;
  registerItemId (input_id input) index ;;
  emitChange.

Definition makeId (prefix : string) : M string :=
  λ s, (prefix +:+ "-" +:+ idSource s (ticks s), set_ticks (S (ticks s)) s).

Definition placeholder (type : ItemType) (id : string) : OutputItem :=
  match type with
  | TMessage => IMessage id "assistant" "in_progress" []
  | TReasoning => IReasoning id [] (Some "in_progress")
  | TFunctionCall => IFunctionCall (Some id) id "" "" (Some "in_progress")
  | TCustomToolCall => ICustomToolCall (Some id) id "" ""
  | TMcpCall => IMcpCall id "" "" ""
  | TMcpListTools => IMcpListTools id "" []
  | TCodeInterpreterCall => ICodeInterpreterCall id "" [] "" "in_progress"
  | TImageGenerationCall => IImageGenerationCall id "in_progress" None
  | TOther n => IOther n None
  end.

(** The placeholder literal; the caller holds it as a new object. *)
Definition createPlaceholderOutput (type : ItemType) (itemId : option string) : M OutputItem :=
  id <- match itemId with Some i => ret i | None => makeId (type_name type) end ;;
  ret (placeholder type id).

Definition setSnapshotOutput (outputIndex : nat) (item : OutputItem) : M unit :=
  snap <- gets responseSnapshot ;;
  match snap with
  | None => ret tt
  | Some resp =>
      copy <- clone item ;;
      modify (set_responseSnapshot (Some
        (mkResponse (resp_id resp) (resp_status resp)
           (arr_set (resp_output resp) outputIndex copy))))
  end.

(** [this.responseSnapshot?.output[outputIndex]], with the object behind it. *)
Definition snapshot_item (outputIndex : nat) (s : Session) : option (Ref * OutputItem) :=
  match responseSnapshot s with
  | Some resp =>
      match arr_get (resp_output resp) outputIndex with
      | Some r => match heap s !! r with Some it => Some (r, it) | None => None end
      | None => None
      end
  | None => None
  end.

(** The result is the address of the item the caller goes on to mutate:
    the stored item when it has the requested type, otherwise the
    placeholder just built, of which the snapshot holds a clone. *)
Definition ensureSnapshotOutputItem (outputIndex : nat) (type : ItemType)
    (itemId : option string) : M (option Ref) :=
  snap <- gets responseSnapshot ;;
  match snap with
  | None => ret None
  | Some _ =>
      stored <- gets (snapshot_item outputIndex) ;;
      item <- match stored with
              | Some (r, it) =>
                  if decide (item_type it = type) then
                    ((match itemId, item_id it with
                      | Some i, Some j =>
                          if truthy itemId && negb (String.eqb j i)
                          then update_item r (set_item_id i) else ret tt
                      | _, _ => ret tt
                      end) ;;
                     ret r)
                  else
                    (v <- createPlaceholderOutput type itemId ;;
                     p <- alloc v ;;
                     setSnapshotOutput outputIndex v ;;
                     ret p)
              | None =>
                  (v <- createPlaceholderOutput type itemId ;;
                   p <- alloc v ;;
                   setSnapshotOutput outputIndex v ;;
                   ret p)
              end ;;
      it <- deref item ;;
      registerItemId (it ≫= item_id) outputIndex ;;
      ret (Some item)
  end.

(** First loop of [findInsertionPoint]: the leading input messages. *)
Fixpoint skip_inputs (ms : list Message) : nat :=
  match ms with
  | MInput _ :: rest => S (skip_inputs rest)
  | _ => 0
  end.

(** Second loop: stop at the first output with a larger [outputIndex]. *)
Fixpoint scan_outputs (outputIndex : nat) (ms : list Message) : nat :=
  match ms with
  | [] => 0
  | MOutput _ k _ _ :: rest =>
      if decide (outputIndex < k) then 0 else S (scan_outputs outputIndex rest)
  | MInput _ :: rest => S (scan_outputs outputIndex rest)
  end.

Definition findInsertionPoint (outputIndex : nat) (s : Session) : nat :=
  let n := skip_inputs (messages s) in
  n + scan_outputs outputIndex (drop n (messages s)).

(** [(message.item as { id?: string }).id] *)
Definition message_item_id (m : Message) (s : Session) : option string :=
  match m with
  | MInput it => input_id it
  | MOutput r _ _ _ => heap s !! r ≫= item_id
  end.

(** The [for] loop of [updateMappingsAfterInsertion], from position [i]. *)
Fixpoint shift_mappings (i : nat) (ms : list Message) : M unit :=
  match ms with
  | [] => ret tt
  | message :: rest =>
      (match message with
       | MOutput _ k _ _ =>
           modify (λ s, set_outputIndexToMessageIndex
                          (<[k := i]> (outputIndexToMessageIndex s)) s)
       | MInput _ => ret tt
       end) ;;
      id <- gets (message_item_id message) ;;
      (match id with
       | Some j =>
           if String.eqb j "" then ret tt
           else modify (λ s, set_idToIndex (<[j := i]> (idToIndex s)) s)
       | None => ret tt
       end) ;;
      shift_mappings (S i) rest
  end.

Definition updateMappingsAfterInsertion (insertionIndex newOutputIndex : nat) : M unit :=
  modify (λ s, set_outputIndexToMessageIndex
                 (<[newOutputIndex := insertionIndex]> (outputIndexToMessageIndex s)) s) ;;
  shifted <- gets (λ s, drop (S insertionIndex) (messages s)) ;;
  shift_mappings (S insertionIndex) shifted.

(** [this.messages.splice(i, 0, entry)] *)
Definition splice_in (i : nat) (entry : Message) (ms : list Message) : list Message :=
  take i ms ++ entry :: drop i ms.

(** Second half of [ensureOutputEntry] and of
    [ensureOutputEntryFromSnapshot]: a new entry whose [item] is the
    object at [r], with [id] the id of that item. *)
Definition insertOutputEntry (r : Ref) (id : option string) (outputIndex : nat) : M nat :=
  insertionIndex <- gets (findInsertionPoint outputIndex) ;;
  modify (λ s, set_messages (splice_in insertionIndex (MOutput r outputIndex [] None) (messages s)) s) ;;
  updateMappingsAfterInsertion insertionIndex outputIndex ;;
  registerItemId id insertionIndex ;;
  ret insertionIndex.

(** [this.messages[idx]] when it is an output entry. *)
Definition output_at (idx : nat) (s : Session) : option nat :=
  match messages s !! idx with
  | Some (MOutput _ _ _ _) => Some idx
  | _ => None
  end.

(** The position of the mapped entry for [outputIndex], when it is an
    output entry. *)
Definition existing_entry (outputIndex : nat) (s : Session) : option nat :=
  match outputIndexToMessageIndex s !! outputIndex with
  | Some idx => output_at idx s
  | None => None
  end.

(** The entry is returned as its position in [messages]. *)
Definition ensureOutputEntry (item : OutputItem) (outputIndex : nat) : M nat :=
  existing <- gets (existing_entry outputIndex) ;;
  match existing with
  | Some existingIndex =>
      copy <- clone item ;;
      update_message existingIndex (λ m,
        match m with
        | MOutput _ _ events aug => MOutput copy outputIndex events aug
        | MInput _ => m
        end) ;;
      registerItemId (item_id item) existingIndex ;;
      ret existingIndex
  | None =>
      copy <- clone item ;;
      insertOutputEntry copy (item_id item) outputIndex
  end.

Definition ensureOutputItemPresence (outputIndex : nat) (type : ItemType)
    (itemId : option string) : M (option nat) :=
  snapshotItem <- ensureSnapshotOutputItem outputIndex type itemId ;;
  match snapshotItem with
  | None => ret None
  | Some r =>
      v <- deref r ;;
      match v with
      | Some item =>
          entry <- ensureOutputEntry item outputIndex ;;
          ret (Some entry)
      | None => ret None
      end
  end.

Definition findOutputEntry (itemId : option string) (outputIndex : option nat)
    (s : Session) : option nat :=
  let byId :=
    match itemId with
    | Some i =>
        if truthy itemId then
          match idToIndex s !! i with Some idx => output_at idx s | None => None end
        else None
    | None => None
    end in
  match byId with
  | Some idx => Some idx
  | None =>
      match outputIndex with
      | Some k => existing_entry k s
      | None => None
      end
  end.

(** The new or re-used entry holds the snapshot's own object: no clone. *)
Definition ensureOutputEntryFromSnapshot (outputIndex : nat) : M (option nat) :=
  snapshotItem <- gets (snapshot_item outputIndex) ;;
  match snapshotItem with
  | None => ret None
  | Some (r, it) =>
      existing <- gets (existing_entry outputIndex) ;;
      match existing with
      | Some existingIndex =>
          update_message existingIndex (λ m,
            match m with
            | MOutput _ k events aug => MOutput r k events aug
            | MInput _ => m
            end) ;;
          registerItemId (item_id it) existingIndex ;;
          ret (Some existingIndex)
      | None =>
          i <- insertOutputEntry r (item_id it) outputIndex ;;
          ret (Some i)
      end
  end.

(** [entry.events.push(event)] *)
Definition push_event (i : nat) (event : EvRef) : M unit :=
  update_message i (λ m,
    match m with
    | MOutput r k events aug => MOutput r k (events ++ [event]) aug
    | MInput _ => m
    end).

(** The item of the output entry at position [i], with its address. *)
Definition entry_item (i : nat) (s : Session) : option (Ref * OutputItem) :=
  match messages s !! i with
  | Some (MOutput r _ _ _) =>
      match heap s !! r with Some it => Some (r, it) | None => None end
  | _ => None
  end.

Definition recordOutputEvent (outputIndex : option nat) (itemId : option string)
    (event : EvRef) : M (option nat) :=
  byId <- gets (findOutputEntry itemId None) ;;
  match byId with
  | Some i => push_event i event ;; ret (Some i)
  | None =>
      match outputIndex with
      | None => ret None
      | Some k =>
          entry <- ensureOutputEntryFromSnapshot k ;;
          match entry with
          | Some i =>
              push_event i event ;;
              (if truthy itemId then
                 idx <- gets (λ s, default i (outputIndexToMessageIndex s !! k)) ;;
                 e <- gets (entry_item i) ;;
                 registerItemId (e ≫= (λ p, item_id p.2)) idx
               else ret tt) ;;
              ret (Some i)
          | None => ret None
          end
      end
  end.

Definition resetCurrentResponseOutputs : M unit :=
  indices <- gets (λ s, (map_to_list (outputIndexToMessageIndex s)).*2) ;;
  modify (set_outputIndexToMessageIndex ∅) ;;
  for_each indices (λ index,
    e <- gets (entry_item index) ;;
    match e ≫= (λ p, item_id p.2) with
    | Some outputId => modify (λ s, set_idToIndex (delete outputId (idToIndex s)) s)
    | None => ret tt
    end).

Definition syncOutputsFromSnapshot : M unit :=
  snap <- gets responseSnapshot ;;
  match snap with
  | None => ret tt
  | Some resp =>
      for_each (seq 0 (length (resp_output resp)))
        (λ index, ensureOutputEntryFromSnapshot index ;; ret tt)
  end.

(** [clone(event.response)]: every output item becomes a fresh object. *)
Fixpoint clone_items (items : list OutputItem) : M (list (option Ref)) :=
  match items with
  | [] => ret []
  | it :: rest =>
      r <- clone it ;;
      rs <- clone_items rest ;;
      ret (Some r :: rs)
  end.

Definition clone_response (response : ResponsePayload) : M Response :=
  out <- clone_items (rp_output response) ;;
  ret (mkResponse (rp_id response) (rp_status response) out).

(** ** Incremental item builders: the fields of one item *)

Definition empty_text : ContentPart := OutputText "" (Some []).

Definition is_refusal (p : ContentPart) : bool :=
  match p with Refusal _ => true | OutputText _ _ => false end.

(** [a[i]] is mutated in place by [f] (when it is there). *)
Definition at_index {A} (i : nat) (f : A → A) (a : list (option A)) : list (option A) :=
  alter (fmap f) i a.

Definition with_text (f : string → string) (p : ContentPart) : ContentPart :=
  match p with
  | OutputText t a => OutputText (f t) a
  | Refusal r => Refusal r
  end.

Definition with_refusal (f : string → string) (p : ContentPart) : ContentPart :=
  match p with
  | Refusal r => Refusal (f r)
  | OutputText t a => OutputText t a
  end.

(** [x.annotations = x.annotations ?? []] *)
Definition norm_annotations (p : ContentPart) : ContentPart :=
  match p with
  | OutputText t a => OutputText t (Some (default [] a))
  | Refusal r => Refusal r
  end.

(** [annotations[i] = annotation] on the (normalised) annotations array. *)
Definition put_annotation (i : nat) (annotation : Json) (p : ContentPart) : ContentPart :=
  match p with
  | OutputText t a => OutputText t (Some (arr_set (default [] a) i annotation))
  | Refusal r => Refusal r
  end.

Definition ensureMessageContentSlot (content : list (option ContentPart)) (index : nat)
    (refusal : bool) : list (option ContentPart) :=
  let c := pad_to content index empty_text in
  let fresh := if refusal then Refusal "" else empty_text in
  match arr_get c index with
  | Some current =>
      if bool_decide (is_refusal current = refusal) then c else arr_set c index fresh
  | None => arr_set c index fresh
  end.

Definition ensureMessageText (content : list (option ContentPart)) (index : nat)
    : list (option ContentPart) :=
  at_index index norm_annotations (ensureMessageContentSlot content index false).

Definition ensureMessageRefusal (content : list (option ContentPart)) (index : nat)
    : list (option ContentPart) :=
  ensureMessageContentSlot content index true.

Definition ensureSnapshotText (content : list (option ContentPart)) (contentIndex : nat)
    : list (option ContentPart) :=
  let c := pad_to content contentIndex empty_text in
  match arr_get c contentIndex with
  | Some (OutputText _ _) => at_index contentIndex norm_annotations c
  | _ => arr_set c contentIndex empty_text
  end.

Definition ensureSnapshotRefusal (content : list (option ContentPart)) (contentIndex : nat)
    : list (option ContentPart) :=
  let c := pad_to content contentIndex (Refusal "") in
  match arr_get c contentIndex with
  | Some (Refusal _) => c
  | _ => arr_set c contentIndex (Refusal "")
  end.

(** [summary.text = f(summary.text)] under the guard ["text" in summary]. *)
Definition with_summary_text (f : string → string) (p : SummaryPart) : SummaryPart :=
  match summary_text p with
  | Some t => mkSummaryPart (summary_type p) (Some (f t))
  | None => p
  end.

(** Field updates on an item of the kind the call site has checked. *)
Definition on_content (f : list (option ContentPart) → list (option ContentPart))
    (it : OutputItem) : OutputItem :=
  match it with IMessage i r s c => IMessage i r s (f c) | _ => it end.

Definition on_summary (f : list (option SummaryPart) → list (option SummaryPart))
    (it : OutputItem) : OutputItem :=
  match it with IReasoning i su s => IReasoning i (f su) s | _ => it end.

Definition on_function_arguments (f : string → string) (it : OutputItem) : OutputItem :=
  match it with IFunctionCall i c n a s => IFunctionCall i c n (f a) s | _ => it end.

Definition on_input (f : string → string) (it : OutputItem) : OutputItem :=
  match it with ICustomToolCall i c n inp => ICustomToolCall i c n (f inp) | _ => it end.

Definition on_mcp_arguments (f : string → string) (it : OutputItem) : OutputItem :=
  match it with IMcpCall i n l a => IMcpCall i n l (f a) | _ => it end.

Definition on_code (f : string → string) (it : OutputItem) : OutputItem :=
  match it with ICodeInterpreterCall i c o k s => ICodeInterpreterCall i (f c) o k s | _ => it end.

Definition set_call_status (st : string) (it : OutputItem) : OutputItem :=
  match it with
  | ICodeInterpreterCall i c o k _ => ICodeInterpreterCall i c o k st
  | IImageGenerationCall i _ r => IImageGenerationCall i st r
  | _ => it
  end.

Definition code_status (p : CallPhase) : string :=
  match p with
  | PhCompleted => "completed"
  | PhWorking => "interpreting"
  | PhInProgress => "in_progress"
  end.

Definition image_status (p : CallPhase) : string :=
  match p with
  | PhCompleted => "completed"
  | PhWorking => "generating"
  | PhInProgress => "in_progress"
  end.

(** [ensureAugmentations(entry)] followed by an update of the result. *)
Definition ensureAugmentations (a : option OutputAugmentations) : OutputAugmentations :=
  default (mkAug None None None None) a.

Definition update_augmentations (i : nat) (f : OutputAugmentations → OutputAugmentations)
    : M unit :=
  update_message i (λ m,
    match m with
    | MOutput r k events aug => MOutput r k events (Some (f (ensureAugmentations aug)))
    | MInput _ => m
    end).

Definition ensureSessionAudio (sa : option SessionAugmentations) : SessionAudio :=
  match sa with
  | Some (mkSessionAug (Some a)) => a
  | _ => mkAudio [] []
  end.

Definition appendAudioChunk (event : EvRef) : M unit :=
  modify (λ s,
    let a := ensureSessionAudio (sessionAugmentations s) in
    set_sessionAugmentations
      (Some (mkSessionAug (Some (mkAudio (chunks a ++ [event]) (transcript a))))) s).

Definition appendAudioTranscript (event : EvRef) : M unit :=
  modify (λ s,
    let a := ensureSessionAudio (sessionAugmentations s) in
    set_sessionAugmentations
      (Some (mkSessionAug (Some (mkAudio (chunks a) (transcript a ++ [event]))))) s).

(** ** The snapshot projection *)

(** The shape shared by the item cases of [mutateSnapshot]:
    [const x = ensureSnapshotOutputItem(..); if (!x) return;
     ensureOutputItemPresence(..); <mutate x>].
    The cases that test [x?.type === type] pass [checked = true]. *)
Definition onSnapshotItem (checked : bool) (outputIndex : nat) (type : ItemType)
    (itemId : option string) (f : OutputItem → OutputItem) : M unit :=
  x <- ensureSnapshotOutputItem outputIndex type itemId ;;
  match x with
  | None => ret tt
  | Some r =>
      v <- deref r ;;
      if negb checked || bool_decide (item_type <$> v = Some type) then
        (ensureOutputItemPresence outputIndex type itemId ;;
         update_item r f)
      else ret tt
  end.

Definition lifecycle_ends (kind : LifecycleKind) : bool :=
  match kind with
  | LCreated | LInProgress => false
  | LCompleted | LFailed | LIncomplete => true
  end.

Definition mutateSnapshot (event : Event) : M unit :=
  match event with
  | EvLifecycle kind response =>
      let nextResponseId := rp_id response in
      current <- gets currentResponseId ;;
      (if bool_decide (kind = LCreated)
          || (truthy nextResponseId && negb (bool_decide (nextResponseId = current)))
       then resetCurrentResponseOutputs else ret tt) ;;
      modify (λ s, set_currentResponseId
                     (match nextResponseId with
                      | Some i => Some i
                      | None => currentResponseId s
                      end) s) ;;
      snap <- clone_response response ;;
      modify (set_responseSnapshot (Some snap)) ;;
      modify (set_status (default Idle (rp_status response))) ;;
      modify (set_ended (lifecycle_ends kind)) ;;
      syncOutputsFromSnapshot
  | EvOutputItemAdded k item | EvOutputItemDone k item =>
      setSnapshotOutput k item
  | EvContentPart _ k itemId ci part =>
      onSnapshotItem false k TMessage itemId
        (match part with
         | PContent c => on_content (λ content, arr_set content ci c)
         | POtherPart _ => id
         end)
  | EvOutputTextDelta k itemId ci delta =>
      onSnapshotItem false k TMessage itemId
        (on_content (λ content,
           at_index ci (with_text (λ t, t +:+ delta)) (ensureSnapshotText content ci)))
  | EvOutputTextDone k itemId ci text =>
      onSnapshotItem false k TMessage itemId
        (on_content (λ content,
           at_index ci (with_text (λ _, text)) (ensureSnapshotText content ci)))
  | EvAnnotationAdded k itemId ci ai annotation =>
      onSnapshotItem false k TMessage itemId
        (on_content (λ content,
           at_index ci (put_annotation ai annotation) (ensureSnapshotText content ci)))
  | EvRefusalDelta k itemId ci delta =>
      onSnapshotItem false k TMessage itemId
        (on_content (λ content,
           at_index ci (with_refusal (λ t, t +:+ delta)) (ensureSnapshotRefusal content ci)))
  | EvRefusalDone k itemId ci refusal =>
      onSnapshotItem false k TMessage itemId
        (on_content (λ content,
           at_index ci (with_refusal (λ _, refusal)) (ensureSnapshotRefusal content ci)))
  | EvFunctionCallArgumentsDelta k itemId delta =>
      onSnapshotItem true k TFunctionCall itemId (on_function_arguments (λ a, a +:+ delta))
  | EvFunctionCallArgumentsDone k itemId arguments =>
      onSnapshotItem true k TFunctionCall itemId (on_function_arguments (λ _, arguments))
  | EvCustomToolCallInputDelta k itemId delta =>
      onSnapshotItem true k TCustomToolCall itemId (on_input (λ a, a +:+ delta))
  | EvCustomToolCallInputDone k itemId input =>
      onSnapshotItem true k TCustomToolCall itemId (on_input (λ _, input))
  | EvMcpCallArgumentsDelta k itemId delta =>
      onSnapshotItem true k TMcpCall itemId (on_mcp_arguments (λ a, a +:+ delta))
  | EvMcpCallArgumentsDone k itemId arguments =>
      onSnapshotItem true k TMcpCall itemId (on_mcp_arguments (λ _, arguments))
  | EvCodeInterpreterCodeDelta k itemId delta =>
      onSnapshotItem true k TCodeInterpreterCall itemId (on_code (λ c, c +:+ delta))
  | EvCodeInterpreterCodeDone k itemId code =>
      onSnapshotItem true k TCodeInterpreterCall itemId (on_code (λ _, code))
  | EvCodeInterpreterCall phase k itemId =>
      onSnapshotItem true k TCodeInterpreterCall itemId (set_call_status (code_status phase))
  | EvImageGenerationCall phase k itemId =>
      onSnapshotItem true k TImageGenerationCall itemId (set_call_status (image_status phase))
  | EvReasoningSummaryPart _ k itemId si part =>
      onSnapshotItem true k TReasoning itemId (on_summary (λ su, arr_set su si part))
  | EvReasoningSummaryTextDelta k itemId si delta =>
      onSnapshotItem true k TReasoning itemId
        (on_summary (at_index si (with_summary_text (λ t, t +:+ delta))))
  | EvReasoningSummaryTextDone k itemId si text =>
      onSnapshotItem true k TReasoning itemId
        (on_summary (at_index si (with_summary_text (λ _, text))))
  | EvReasoningTextDelta k itemId ci delta =>
      onSnapshotItem true k TReasoning itemId
        (on_summary (at_index ci (with_summary_text (λ t, t +:+ delta))))
  | EvReasoningTextDone k itemId ci text =>
      onSnapshotItem true k TReasoning itemId
        (on_summary (at_index ci (with_summary_text (λ _, text))))
  | _ => ret tt
  end.

(** ** The transcript projection *)

(** [let entry = findOutputEntry(findId, outputIndex);
     if (!entry) entry = ensureOutputItemPresence(outputIndex, type, itemId);] *)
Definition findOrEnsure (findId : option string) (outputIndex : nat) (type : ItemType)
    (itemId : option string) : M (option nat) :=
  entry <- gets (findOutputEntry findId (Some outputIndex)) ;;
  match entry with
  | Some i => ret (Some i)
  | None => ensureOutputItemPresence outputIndex type itemId
  end.

(** [if (entry && entry.item.type === type) { body }]; the body gets the
    entry's position and the address of its item. *)
Definition whenEntryOfType (entry : option nat) (type : ItemType)
    (body : nat → Ref → M unit) : M unit :=
  match entry with
  | None => ret tt
  | Some i =>
      e <- gets (entry_item i) ;;
      match e with
      | Some (r, it) => if decide (item_type it = type) then body i r else ret tt
      | None => ret tt
      end
  end.

(** [entry.item = clone(item)] *)
Definition replace_entry_item (i : nat) (item : OutputItem) : M unit :=
  copy <- clone item ;;
  update_message i (λ m,
    match m with
    | MOutput _ k events aug => MOutput copy k events aug
    | MInput _ => m
    end).

Definition applyToMessages (ref : EvRef) (event : Event) : M unit :=
  match event with
  | EvOutputItemAdded k item =>
      entry <- ensureOutputEntry item k ;;
      push_event entry ref
  | EvOutputItemDone k item =>
      entry <- ensureOutputEntry item k ;;
      replace_entry_item entry item ;;
      push_event entry ref
  | EvContentPart _ k itemId ci part =>
      entry <- findOrEnsure itemId k TMessage itemId ;;
      whenEntryOfType entry TMessage (λ i r,
        match part with
        | PContent c =>
            update_item r (on_content (λ content,
              arr_set (ensureMessageContentSlot content ci (is_refusal c)) ci c)) ;;
            push_event i ref
        | POtherPart _ => ret tt
        end)
  | EvOutputTextDelta k itemId ci delta =>
      entry <- findOrEnsure itemId k TMessage itemId ;;
      whenEntryOfType entry TMessage (λ i r,
        update_item r (on_content (λ content,
          at_index ci (with_text (λ t, t +:+ delta)) (ensureMessageText content ci))) ;;
        push_event i ref)
  | EvOutputTextDone k itemId ci text =>
      entry <- findOrEnsure itemId k TMessage itemId ;;
      whenEntryOfType entry TMessage (λ i r,
        update_item r (on_content (λ content,
          at_index ci (with_text (λ _, text)) (ensureMessageText content ci))) ;;
        push_event i ref)
  | EvAnnotationAdded k itemId ci ai annotation =>
      entry <- findOrEnsure itemId k TMessage itemId ;;
      whenEntryOfType entry TMessage (λ i r,
        update_item r (on_content (λ content,
          at_index ci (put_annotation ai annotation) (ensureMessageText content ci))) ;;
        push_event i ref)
  | EvRefusalDelta k itemId ci delta =>
      entry <- findOrEnsure itemId k TMessage itemId ;;
      whenEntryOfType entry TMessage (λ i r,
        update_item r (on_content (λ content,
          at_index ci (with_refusal (λ t, t +:+ delta)) (ensureMessageRefusal content ci))) ;;
        push_event i ref)
  | EvRefusalDone k itemId ci refusal =>
      entry <- findOrEnsure itemId k TMessage itemId ;;
      whenEntryOfType entry TMessage (λ i r,
        update_item r (on_content (λ content,
          at_index ci (with_refusal (λ _, refusal)) (ensureMessageRefusal content ci))) ;;
        push_event i ref)
  | EvFunctionCallArgumentsDelta k itemId delta =>
      entry <- findOrEnsure itemId k TFunctionCall itemId ;;
      whenEntryOfType entry TFunctionCall (λ i r,
        update_item r (on_function_arguments (λ a, a +:+ delta)) ;;
        push_event i ref)
  | EvFunctionCallArgumentsDone k itemId arguments =>
      entry <- findOrEnsure itemId k TFunctionCall itemId ;;
      whenEntryOfType entry TFunctionCall (λ i r,
        update_item r (on_function_arguments (λ _, arguments)) ;;
        push_event i ref)
  | EvCustomToolCallInputDelta k itemId delta =>
      entry <- findOrEnsure itemId k TCustomToolCall itemId ;;
      whenEntryOfType entry TCustomToolCall (λ i r,
        update_augmentations i (λ a,
          mkAug (partialImages a) (Some (default "" (customToolInput a) +:+ delta))
            (reasoningText a) (reasoningSummaryText a)) ;;
        push_event i ref)
  | EvCustomToolCallInputDone k itemId input =>
      entry <- findOrEnsure itemId k TCustomToolCall itemId ;;
      whenEntryOfType entry TCustomToolCall (λ i r,
        update_augmentations i (λ a,
          mkAug (partialImages a) (Some input) (reasoningText a) (reasoningSummaryText a)) ;;
        push_event i ref)
  | EvMcpCallArgumentsDelta k itemId delta =>
      entry <- findOrEnsure itemId k TMcpCall itemId ;;
      whenEntryOfType entry TMcpCall (λ i r,
        update_item r (on_mcp_arguments (λ a, a +:+ delta)) ;;
        push_event i ref)
  | EvMcpCallArgumentsDone k itemId arguments =>
      entry <- findOrEnsure itemId k TMcpCall itemId ;;
      whenEntryOfType entry TMcpCall (λ i r,
        update_item r (on_mcp_arguments (λ _, arguments)) ;;
        push_event i ref)
  | EvMcpStatus list_tools _ k itemId =>
      let ensuredType := if list_tools then TMcpListTools else TMcpCall in
      ensureOutputItemPresence k ensuredType itemId ;;
      recordOutputEvent (Some k) itemId ref ;;
      ret tt
  | EvReasoningSummaryPart _ k itemId si part =>
      entry <- findOrEnsure itemId k TReasoning itemId ;;
      whenEntryOfType entry TReasoning (λ i r,
        update_item r (on_summary (λ su, arr_set su si part)) ;;
        push_event i ref)
  | EvReasoningSummaryTextDone k itemId si text =>
      entry <- findOrEnsure itemId k TReasoning itemId ;;
      whenEntryOfType entry TReasoning (λ i r,
        update_item r (on_summary (at_index si (with_summary_text (λ _, text)))) ;;
        push_event i ref)
  | EvReasoningTextDone k itemId ci text =>
      entry <- findOrEnsure itemId k TReasoning itemId ;;
      whenEntryOfType entry TReasoning (λ i r,
        update_item r (on_summary (at_index ci (with_summary_text (λ _, text)))) ;;
        push_event i ref)
  | EvCodeInterpreterCodeDelta k itemId delta =>
      entry <- findOrEnsure None k TCodeInterpreterCall itemId ;;
      whenEntryOfType entry TCodeInterpreterCall (λ i r,
        update_item r (on_code (λ c, c +:+ delta)) ;;
        push_event i ref)
  | EvCodeInterpreterCodeDone k itemId code =>
      entry <- findOrEnsure None k TCodeInterpreterCall itemId ;;
      whenEntryOfType entry TCodeInterpreterCall (λ i r,
        update_item r (on_code (λ _, code)) ;;
        push_event i ref)
  | EvCodeInterpreterCall phase k itemId =>
      entry <- findOrEnsure None k TCodeInterpreterCall itemId ;;
      whenEntryOfType entry TCodeInterpreterCall (λ i r,
        update_item r (set_call_status (code_status phase)) ;;
        push_event i ref)
  | EvImageGenerationCall phase k itemId =>
      entry <- findOrEnsure itemId k TImageGenerationCall itemId ;;
      whenEntryOfType entry TImageGenerationCall (λ i r,
        update_item r (set_call_status (image_status phase)) ;;
        push_event i ref)
  | EvPartialImage k itemId _ =>
      entry <- recordOutputEvent (Some k) itemId ref ;;
      match entry with
      | Some i =>
          update_augmentations i (λ a,
            mkAug (Some (default [] (partialImages a) ++ [ref])%list) (customToolInput a)
              (reasoningText a) (reasoningSummaryText a))
      | None => ret tt
      end
  | EvReasoningTextDelta k itemId ci delta =>
      entry <- gets (findOutputEntry itemId (Some k)) ;;
      whenEntryOfType entry TReasoning (λ i r,
        update_item r (on_summary (at_index ci (with_summary_text (λ t, t +:+ delta)))) ;;
        update_augmentations i (λ a,
          mkAug (partialImages a) (customToolInput a)
            (Some (default [] (reasoningText a) ++ [ref])%list) (reasoningSummaryText a)) ;;
        push_event i ref)
  | EvReasoningSummaryTextDelta k itemId si delta =>
      entry <- gets (findOutputEntry itemId (Some k)) ;;
      whenEntryOfType entry TReasoning (λ i r,
        update_item r (on_summary (at_index si (with_summary_text (λ t, t +:+ delta)))) ;;
        update_augmentations i (λ a,
          mkAug (partialImages a) (customToolInput a) (reasoningText a)
            (Some (default [] (reasoningSummaryText a) ++ [ref])%list)) ;;
        push_event i ref)
  | EvAudioDelta _ => appendAudioChunk ref
  | EvAudioTranscriptDelta _ => appendAudioTranscript ref
  | EvAudioDone | EvAudioTranscriptDone | EvQueued _ | EvLifecycle _ _
  | EvError _ _ _ _ => ret tt
  | EvOther _ outputIndex itemId =>
      match outputIndex with
      | Some k => recordOutputEvent (Some k) itemId ref ;; ret tt
      | None => ret tt
      end
  end.

(** ** Public write surface *)

(** [handleEvent(event)]: [ref] is the address of the caller's event
    object, [event] its content at the time of the call. *)
Definition handleEvent (ref : EvRef) (event : Event) : M unit :=
  emit (SigEvent ref) ;;
  mutateSnapshot event ;;
  applyToMessages ref event ;;
  (match event with
   | EvError _ _ _ _ =>
       modify (set_lastError (Some ref)) ;;
       modify (set_ended true) ;;
       emitError ref
   | _ => ret tt
   end) ;;
  (match event with
   | EvQueued _ => modify (set_status Queued)
   | _ => ret tt
   end) ;;
  emitChange.

(** The fields of a [ResponseSession] before its constructor body runs. *)
Definition fresh_session (source : nat → string) : Session :=
  mkSession [] ∅ ∅ None Idle None None false false None [] [] source 0.

(** [new ResponseSession({ inputs, response })] *)
Definition construct (inputs : list InputItem) (response : option ResponsePayload) : M unit :=
  for_each inputs addInput ;;
  match response with
  | Some r =>
      snap <- clone_response r ;;
      modify (set_responseSnapshot (Some snap)) ;;
      modify (set_status (default Idle (rp_status r))) ;;
      syncOutputsFromSnapshot
  | None => ret tt
  end.

Definition new_session (source : nat → string) (inputs : list InputItem)
    (response : option ResponsePayload) : Session :=
  exec (construct inputs response) (fresh_session source).

(** One call on the public write surface. *)
Inductive Call :=
| CallAddInput (input : InputItem)
| CallHandleEvent (ref : EvRef) (event : Event).

Definition call (c : Call) : M unit :=
  match c with
  | CallAddInput input => addInput input
  | CallHandleEvent ref event => handleEvent ref event
  end.

(** The session after a sequence of calls. *)
Definition run (cs : list Call) (s : Session) : Session :=
  foldl (λ s c, exec (call c) s) s cs.

(** [consume(stream)], for a stream that yields the given events (each
    with the address of its object) and then ends. *)
Definition consume (stream : list (EvRef * Event)) : M (option Response) :=
  for_each stream (λ e, handleEvent e.1 e.2) ;;
  gets responseSnapshot.

(** ** TinyEmitter *)

(** [TinyEmitter]: a [Map] from event names to [Set]s of listeners.  A
    set is the list of its elements in insertion order, which is the
    order [forEach] visits them in.  Listeners are compared by identity
    ([L] with decidable equality); calling one is recorded as the pair of
    the listener and the payload, under the assumption that a listener
    does not subscribe or unsubscribe while it is called. *)
Module TinyEmitter.
Section Emitter.
Context {L P : Type} `{EqDecision L}.

(** [bucket.add(listener)] *)
Definition set_add (listener : L) (bucket : list L) : list L :=
  if decide (listener ∈ bucket) then bucket else bucket ++ [listener].

(** [bucket.delete(listener)] *)
Definition set_delete (listener : L) (bucket : list L) : list L :=
  filter (λ x, x ≠ listener) bucket.

Definition on (event : string) (listener : L) (listeners : gmap string (list L))
    : gmap string (list L) :=
  let bucket := default [] (listeners !! event) in
  <[event := set_add listener bucket]> listeners.

Definition off (event : string) (listener : L) (listeners : gmap string (list L))
    : gmap string (list L) :=
  match listeners !! event with
  | None => listeners
  | Some bucket =>
      let rest := set_delete listener bucket in
      match rest with
      | [] => delete event listeners
      | _ :: _ => <[event := rest]> listeners
      end
  end.

(** The calls [emit(event, payload)] makes, in order. *)
Definition emit (event : string) (payload : P) (listeners : gmap string (list L))
    : list (L * P) :=
  match listeners !! event with
  | None => []
  | Some bucket => (λ listener, (listener, payload)) <$> bucket
  end.

(** One call of [on] or of [off] (the function [on] returns calls [off]
    with the same arguments). *)
Inductive Op :=
| On (event : string) (listener : L)
| Off (event : string) (listener : L).

Definition apply (op : Op) (listeners : gmap string (list L)) : gmap string (list L) :=
  match op with
  | On event listener => on event listener listeners
  | Off event listener => off event listener listeners
  end.

(** The emitter after a sequence of subscriptions and unsubscriptions,
    starting with no listener. *)
Definition after (ops : list Op) : gmap string (list L) :=
  foldl (λ listeners op, apply op listeners) ∅ ops.

(** No bucket is empty and no listener is twice in a bucket. *)
Definition tidy (listeners : gmap string (list L)) : Prop :=
  ∀ event bucket, listeners !! event = Some bucket → bucket ≠ [] ∧ NoDup bucket.

(** Whether the operations leave the listener subscribed to the event:
    what its last [on] or [off] for that event says. *)
Fixpoint subscribed (event : string) (listener : L) (ops : list Op) (now : bool) : bool :=
  match ops with
  | [] => now
  | On e l :: rest =>
      subscribed event listener rest
        (if decide (e = event ∧ l = listener) then true else now)
  | Off e l :: rest =>
      subscribed event listener rest
        (if decide (e = event ∧ l = listener) then false else now)
  end.
End Emitter.
End TinyEmitter.

(** ** Vocabulary of the properties *)

(** The [outputIndex] of an output message. *)
Definition out_key (m : Message) : option nat :=
  match m with
  | MOutput _ k _ _ => Some k
  | MInput _ => None
  end.

(** The [outputIndex] fields of the transcript's output messages, in
    transcript order. *)
Definition output_indices (ms : list Message) : list nat := omap out_key ms.

(** Same place in the transcript order: the same input, or an output with
    the same [outputIndex]. *)
Definition same_shape (m m' : Message) : Prop :=
  match m, m' with
  | MInput a, MInput b => a = b
  | MOutput _ k _ _, MOutput _ k' _ _ => k = k'
  | _, _ => False
  end.

(** Every entry of the position map points at an output message carrying
    that [outputIndex]. *)
Definition map_ok (s : Session) : Prop :=
  ∀ k i, outputIndexToMessageIndex s !! k = Some i →
    ∃ m, messages s !! i = Some m ∧ out_key m = Some k.

Definition ordered (s : Session) : Prop :=
  StronglySorted le (output_indices (messages s)) ∧ map_ok s.

(** The first messages of the transcript are exactly the inputs [pre]. *)
Definition input_prefix (pre : list InputItem) (s : Session) : Prop :=
  take (length pre) (messages s) = MInput <$> pre.

Definition is_end (sig : Signal) : bool :=
  match sig with SigEnd _ => true | _ => false end.

(** How many times the [end] notification was emitted. *)
Fixpoint count_end (log : list Signal) : nat :=
  match log with
  | [] => 0
  | sig :: rest => (if is_end sig then 1 else 0) + count_end rest
  end.

(** The terminal events: a [response.completed], [response.failed] or
    [response.incomplete] lifecycle event, or an [error] event. *)
Definition is_terminal (event : Event) : bool :=
  match event with
  | EvLifecycle LCompleted _ | EvLifecycle LFailed _ | EvLifecycle LIncomplete _ => true
  | EvError _ _ _ _ => true
  | _ => false
  end.

Definition is_lifecycle (event : Event) : bool :=
  match event with EvLifecycle _ _ => true | _ => false end.

Definition call_is_terminal (c : Call) : bool :=
  match c with
  | CallHandleEvent _ event => is_terminal event
  | CallAddInput _ => false
  end.

(** The id map after [registerItemId(item, index)]. *)
Definition registered (id : option string) (index : nat) (ids : gmap string nat)
    : gmap string nat :=
  match id with
  | Some i => if String.eqb i "" then ids else <[i := index]> ids
  | None => ids
  end.

(** The stored item after the [else if] branch of
    [ensureSnapshotOutputItem]: an item that has an id takes the event's
    (truthy) id. *)
Definition adopt_id (itemId : option string) (it : OutputItem) : OutputItem :=
  match itemId, item_id it with
  | Some i, Some j =>
      if truthy itemId && negb (String.eqb j i) then set_item_id i it else it
  | _, _ => it
  end.

(** The text of a content part, when it is an [output_text] part. *)
Definition part_text (p : option ContentPart) : option string :=
  match p with
  | Some (OutputText t _) => Some t
  | _ => None
  end.

(** The text stored at content index [ci] of a message item. *)
Definition item_text (ci : nat) (it : OutputItem) : option string :=
  match it with
  | IMessage _ _ _ content => part_text (arr_get content ci)
  | _ => None
  end.

(** ... in the response snapshot, for the item at output index [k]. *)
Definition snapshot_text (k ci : nat) (s : Session) : option string :=
  match snapshot_item k s with
  | Some (_, it) => item_text ci it
  | None => None
  end.

(** ... in the transcript, for the entry the position map gives for [k]. *)
Definition transcript_text (k ci : nat) (s : Session) : option string :=
  match existing_entry k s with
  | Some p =>
      match entry_item p s with
      | Some (_, it) => item_text ci it
      | None => None
      end
  | None => None
  end.

(** The events that the router resolves to one output item of a known
    kind: the output index, the kind the event implies, and its item id. *)
Definition item_event (event : Event) : option (nat * ItemType * option string) :=
  match event with
  | EvContentPart _ k itemId _ _ | EvOutputTextDelta k itemId _ _
  | EvOutputTextDone k itemId _ _ | EvAnnotationAdded k itemId _ _ _
  | EvRefusalDelta k itemId _ _ | EvRefusalDone k itemId _ _ =>
      Some (k, TMessage, itemId)
  | EvFunctionCallArgumentsDelta k itemId _ | EvFunctionCallArgumentsDone k itemId _ =>
      Some (k, TFunctionCall, itemId)
  | EvCustomToolCallInputDelta k itemId _ | EvCustomToolCallInputDone k itemId _ =>
      Some (k, TCustomToolCall, itemId)
  | EvMcpCallArgumentsDelta k itemId _ | EvMcpCallArgumentsDone k itemId _ =>
      Some (k, TMcpCall, itemId)
  | EvMcpStatus list_tools _ k itemId =>
      Some (k, if list_tools then TMcpListTools else TMcpCall, itemId)
  | EvReasoningSummaryPart _ k itemId _ _ | EvReasoningSummaryTextDelta k itemId _ _
  | EvReasoningSummaryTextDone k itemId _ _ | EvReasoningTextDelta k itemId _ _
  | EvReasoningTextDone k itemId _ _ =>
      Some (k, TReasoning, itemId)
  | EvCodeInterpreterCodeDelta k itemId _ | EvCodeInterpreterCodeDone k itemId _
  | EvCodeInterpreterCall _ k itemId =>
      Some (k, TCodeInterpreterCall, itemId)
  | EvImageGenerationCall _ k itemId => Some (k, TImageGenerationCall, itemId)
  | _ => None
  end.

(** The delta events, with the item kind each implies. *)
Definition delta_event (event : Event) : option (nat * ItemType * option string) :=
  match event with
  | EvOutputTextDelta k itemId _ _ | EvRefusalDelta k itemId _ _ =>
      Some (k, TMessage, itemId)
  | EvFunctionCallArgumentsDelta k itemId _ => Some (k, TFunctionCall, itemId)
  | EvCustomToolCallInputDelta k itemId _ => Some (k, TCustomToolCall, itemId)
  | EvMcpCallArgumentsDelta k itemId _ => Some (k, TMcpCall, itemId)
  | EvReasoningSummaryTextDelta k itemId _ _ | EvReasoningTextDelta k itemId _ _ =>
      Some (k, TReasoning, itemId)
  | EvCodeInterpreterCodeDelta k itemId _ => Some (k, TCodeInterpreterCall, itemId)
  | _ => None
  end.

Definition is_mcp_status (event : Event) : bool :=
  match event with EvMcpStatus _ _ _ _ => true | _ => false end.

(** An update of an item's fields that leaves its kind and id alone. *)
Definition keeps_identity (g : OutputItem → OutputItem) : Prop :=
  ∀ it, item_type (g it) = item_type it ∧ item_id (g it) = item_id it.

(** An update of a transcript entry that leaves its item address and its
    [outputIndex] alone. *)
Definition keeps_entry (f : Message → Message) : Prop :=
  ∀ m, match m, f m with
       | MInput a, MInput b => a = b
       | MOutput r k _ _, MOutput r' k' _ _ => r = r' ∧ k = k'
       | _, _ => False
       end.

(** A property that survives the field updates of the transcript cases. *)
Record quiet_stable (I : Session → Prop) : Prop := mkQuietStable {
  qs_item : ∀ r g s, keeps_identity g → I s → I (set_heap (alter g r (heap s)) s);
  qs_entry : ∀ i f s, keeps_entry f → I s →
               I (set_messages (alter f i (messages s)) s) }.

(** The id a new placeholder gets. *)
Definition placeholder_id (type : ItemType) (itemId : option string) (s : Session) : string :=
  match itemId with
  | Some i => i
  | None => type_name type +:+ "-" +:+ idSource s (ticks s)
  end.

(** The session after [ensureSnapshotOutputItem] has built a placeholder
    for output index [k]: the placeholder, its clone in the snapshot, the
    id registered under [k]. *)
Definition with_placeholder (k : nat) (type : ItemType) (itemId : option string)
    (resp : Response) (s : Session) : Session :=
  let v := placeholder type (placeholder_id type itemId s) in
  set_idToIndex (registered (item_id v) k (idToIndex s))
    (set_responseSnapshot
       (Some (mkResponse (resp_id resp) (resp_status resp)
                (arr_set (resp_output resp) k (S (length (heap s))))))
       (set_heap ((heap s ++ [v]) ++ [v])
          (match itemId with
           | Some _ => s
           | None => set_ticks (S (ticks s)) s
           end))).

(** Output index [k] is settled on an item of kind [type] and id [oid]:
    the position map sends [k] to the output entry at [p], the snapshot
    stores an item of that kind and id at [k], the entry's item has that
    kind, and a non-empty id resolves to [p]. *)
Definition settled (k : nat) (type : ItemType) (oid : option string) (p : nat)
    (s : Session) : Prop :=
  existing_entry k s = Some p ∧
  (∃ rs its, snapshot_item k s = Some (rs, its) ∧
             item_type its = type ∧ item_id its = oid) ∧
  (∃ rc itc, entry_item p s = Some (rc, itc) ∧ item_type itc = type) ∧
  (∀ i, oid = Some i → i ≠ "" → idToIndex s !! i = Some p).

(** The item that [ensureSnapshotOutputItem] settles on for output index
    [k]: the stored item of the requested kind with the event's id written
    into it, or else a new placeholder. *)
Definition ensured_item (k : nat) (type : ItemType) (itemId : option string)
    (s : Session) : OutputItem :=
  match snapshot_item k s with
  | Some (_, it) =>
      if decide (item_type it = type) then adopt_id itemId it
      else placeholder type (placeholder_id type itemId s)
  | None => placeholder type (placeholder_id type itemId s)
  end.

(** Event [event] is for output index [k] and supplies the item id [i]
    in a way the router interprets: as the [item_id] of an item event, or
    as the id of the item of an [output_item] event. *)
Definition supplies_id (event : Event) (k : nat) (i : string) : Prop :=
  (∃ type, item_event event = Some (k, type, Some i)) ∨
  (∃ item, (event = EvOutputItemAdded k item ∨ event = EvOutputItemDone k item) ∧
           item_id item = Some i).

(** What the [end] guard of [emitChange] depends on, with the log. *)
Definition emitter_state (s : Session) : bool * bool * list Signal :=
  (ended s, endEmitted s, emitted s).

(** The guard of [emitChange] cannot fire when no event is being handled,
    and the log holds one [end] exactly when the guard has fired. *)
Definition end_guarded (s : Session) : Prop :=
  (ended s = true → endEmitted s = true) ∧
  count_end (emitted s) = (if endEmitted s then 1 else 0).

(** [m] always ends in a state with property [Q]. *)
Definition establishes (Q : Session → Prop) {A} (m : M A) : Prop :=
  ∀ s, Q (exec m s).

(** [m] keeps the property [I] of the session. *)
Definition preserves (I : Session → Prop) {A} (m : M A) : Prop :=
  ∀ s, I s → I (m s).2.

(** A property of the session that only the transcript order and the
    position map can break. *)
Record frame_stable (I : Session → Prop) : Prop := mkFrameStable {
  fs_heap : ∀ v s, I s → I (set_heap v s);
  fs_ids : ∀ v s, I s → I (set_idToIndex v s);
  fs_snapshot : ∀ v s, I s → I (set_responseSnapshot v s);
  fs_audio : ∀ v s, I s → I (set_sessionAugmentations v s);
  fs_ticks : ∀ v s, I s → I (set_ticks v s);
  fs_shape : ∀ i f s, (∀ m, same_shape (f m) m) → I s →
               I (set_messages (alter f i (messages s)) s);
  fs_entry : ∀ item k, preserves I (ensureOutputEntry item k);
  fs_from_snapshot : ∀ k, preserves I (ensureOutputEntryFromSnapshot k) }.

(** ... that the fields written by a lifecycle event do not break either, *)
Record lifecycle_stable (I : Session → Prop) : Prop := mkLifecycleStable {
  ls_status : ∀ v s, I s → I (set_status v s);
  ls_ended : ∀ v s, I s → I (set_ended v s);
  ls_current : ∀ v s, I s → I (set_currentResponseId v s);
  ls_reset : ∀ s, I s → I (set_outputIndexToMessageIndex ∅ s) }.

(** ... and that notifications and new inputs keep as well. *)
Record call_stable (I : Session → Prop) : Prop := mkCallStable {
  cs_frame : frame_stable I;
  cs_lifecycle : lifecycle_stable I;
  cs_emitted : ∀ v s, I s → I (set_emitted v s);
  cs_endEmitted : ∀ v s, I s → I (set_endEmitted v s);
  cs_lastError : ∀ v s, I s → I (set_lastError v s);
  cs_input : ∀ x s, I s → I (set_messages (messages s ++ [MInput x]) s) }.

(** The state just before the closing [emitChange] of [handleEvent]. *)
Definition before_change (ref : EvRef) (event : Event) (s : Session) : Session :=
  exec (match event with
        | EvQueued _ => modify (set_status Queued)
        | _ => ret tt
        end)
    (exec (match event with
           | EvError _ _ _ _ =>
               (modify (set_lastError (Some ref)) ;;
                modify (set_ended true) ;;
                emitError ref)%session
           | _ => ret tt
           end)
       (exec (applyToMessages ref event)
          (exec (mutateSnapshot event) (exec (emit (SigEvent ref)) s)))).

(** The reset condition of a lifecycle event, as [mutateSnapshot] tests it. *)
Definition resets (kind : LifecycleKind) (response : ResponsePayload) (s : Session) : bool :=
  bool_decide (kind = LCreated)
  || (truthy (rp_id response)
      && negb (bool_decide (rp_id response = currentResponseId s))).

(** What a session stores: the transcript, the response snapshot, the
    objects behind both, and the two lookup maps. *)
Definition store (s : Session) :
    list Message * list OutputItem * option Response * gmap string nat * gmap nat nat :=
  (messages s, heap s, responseSnapshot s, idToIndex s, outputIndexToMessageIndex s).

(** The response snapshot stores a message at output index [k]. *)
Definition stores_message (k : nat) (s : Session) : Prop :=
  ∃ r it, snapshot_item k s = Some (r, it) ∧ item_type it = TMessage.

(** The call that ingests one [response.output_text.delta] for content
    index [ci] of output index [k]: the event's address, its item id and
    its delta. *)
Definition text_delta (k ci : nat) (d : EvRef * option string * string) : Call :=
  CallHandleEvent d.1.1 (EvOutputTextDelta k d.1.2 ci d.2).

(** The text stored at content index [ci] of the item of the transcript
    entry at position [p]. *)
Definition entry_text (p ci : nat) (s : Session) : option string :=
  match entry_item p s with
  | Some (_, it) => item_text ci it
  | None => None
  end.

(** The transcript entry at position [p] holds a message, and it is the
    entry that [findOutputEntry] gives for output index [k] under each of
    the item ids [ids]. *)
Definition resolve_to_message (k : nat) (ids : list (option string)) (p : nat)
    (s : Session) : Prop :=
  (∃ r it, entry_item p s = Some (r, it) ∧ item_type it = TMessage) ∧
  Forall (λ fid, findOutputEntry fid (Some k) s = Some p) ids.

(** An action that touches at most the transcript entry at position [i]
    and the object at [r]: every other entry and object, the position map
    and the response snapshot are as before. *)
Definition touches_only (i : nat) (r : Ref) (m : M unit) : Prop :=
  ∀ s,
    (∀ j, j ≠ i → messages (exec m s) !! j = messages s !! j) ∧
    (∀ r', r' ≠ r → heap (exec m s) !! r' = heap s !! r') ∧
    outputIndexToMessageIndex (exec m s) = outputIndexToMessageIndex s ∧
    responseSnapshot (exec m s) = responseSnapshot s.

(** The number of messages with output index [k]. *)
Definition count_key (k : nat) (ms : list Message) : nat :=
  length (filter (λ m, out_key m = Some k) ms).

(** The rank of the entry at position [p] among the messages with output
    index [k]: how many of them the transcript holds up to and including
    position [p].  Messages are never removed or reordered, and a new
    message for an output index is inserted after those the transcript
    holds for it, so the rank names one entry for good. *)
Definition entry_rank (k p : nat) (s : Session) : nat :=
  count_key k (take (S p) (messages s)).

(** The position map sends an output index to the last message that
    carries it. *)
Definition last_mapped (s : Session) : Prop :=
  ∀ k p, outputIndexToMessageIndex s !! k = Some p →
    ∀ j m, p < j → messages s !! j = Some m → out_key m ≠ Some k.

(** None of the calls [cs], made in turn from [s], resets the outputs of
    the current response: no lifecycle event among them meets the reset
    condition in the state it is handled in. *)
Fixpoint no_reset (cs : list Call) (s : Session) : bool :=
  match cs with
  | [] => true
  | c :: rest =>
      negb (match c with
            | CallHandleEvent _ (EvLifecycle kind response) => resets kind response s
            | _ => false
            end)
      && no_reset rest (exec (call c) s)
  end.

(** The session has a response snapshot. *)
Definition has_snapshot (s : Session) : Prop := is_Some (responseSnapshot s).

(** Output index [k] is in the position map, and the transcript holds [n]
    messages for it. *)
Definition tracked (k n : nat) (s : Session) : Prop :=
  ordered s ∧ is_Some (outputIndexToMessageIndex s !! k) ∧
  count_key k (messages s) = n.

(** ** The caller's objects *)

(** An event object as its caller holds it.  The item of an
    [output_item] event and the output items of the response of a
    lifecycle event are objects of their own, which the event object
    refers to by address; [ObjEvent] is an event object read as a
    whole. *)
Inductive EventObject :=
| ObjOutputItem (done : bool) (output_index : nat) (item : Ref)
| ObjLifecycle (kind : LifecycleKind) (id : option string)
    (status : option ResponseStatus) (output : list Ref)
| ObjEvent (event : Event).

(** What an event object reads as, through the item store [h]. *)
Definition read_event (h : list OutputItem) (o : EventObject) : option Event :=
  match o with
  | ObjOutputItem done k a =>
      match h !! a with
      | Some it => Some (if done then EvOutputItemDone k it else EvOutputItemAdded k it)
      | None => None
      end
  | ObjLifecycle kind id st outs =>
      match mapM (λ a, h !! a) outs with
      | Some items => Some (EvLifecycle kind (mkResponsePayload id st items))
      | None => None
      end
  | ObjEvent event => Some event
  end.

(** The session next to the objects of its caller.  The item store is
    the heap of the program: the item objects that the caller builds
    live in it next to those that the session allocates, and [owned]
    lists the addresses of the caller's.  An event object is known to the
    session by its address only. *)
Record World := mkWorld {
  caller : gmap EvRef EventObject;
  owned : list Ref;
  session : Session }.

(** [session.handleEvent(e)], where [e] is the caller's object at [ref]. *)
Definition ingest (ref : EvRef) (w : World) : World :=
  match caller w !! ref ≫= read_event (heap (session w)) with
  | Some event =>
      mkWorld (caller w) (owned w) (exec (handleEvent ref event) (session w))
  | None => w
  end.

(** What the program does next: a call on the session, or a write of the
    caller to an object of its own. *)
Inductive Move :=
| Ingest (ref : EvRef)
| AddInput (input : InputItem)
| NewItem (v : OutputItem)
| SetItem (a : Ref) (v : OutputItem)
| SetEvent (ref : EvRef) (o : EventObject).

Definition move (m : Move) (w : World) : World :=
  match m with
  | Ingest ref => ingest ref w
  | AddInput input => mkWorld (caller w) (owned w) (exec (addInput input) (session w))
  | NewItem v =>
      mkWorld (caller w) (owned w ++ [length (heap (session w))])
        (set_heap (heap (session w) ++ [v]) (session w))
  | SetItem a v =>
      if decide (a ∈ owned w) then
        mkWorld (caller w) (owned w) (set_heap (<[a := v]> (heap (session w))) (session w))
      else w
  | SetEvent ref o => mkWorld (<[ref := o]> (caller w)) (owned w) (session w)
  end.






(** The addresses of the item objects that the session stores: those of
    the output entries of the transcript, then those of the output array
    of the response snapshot. *)
Definition entry_refs (ms : list Message) : list Ref :=
  omap (λ m, match m with MOutput r _ _ _ => Some r | MInput _ => None end) ms.

Definition snapshot_refs (snap : option Response) : list Ref :=
  match snap with
  | Some resp => omap (λ x, x) (resp_output resp)
  | None => []
  end.

Definition stored_refs (s : Session) : list Ref :=
  entry_refs (messages s) ++ snapshot_refs (responseSnapshot s).

(** The objects at the addresses [O] exist, and so does every object
    that the session stores, none of which is at an address of [O]. *)
Definition apart (O : list Ref) (s : Session) : Prop :=
  Forall (λ a, a < length (heap s)) O ∧
  Forall (λ r, r < length (heap s) ∧ r ∉ O) (stored_refs s).

(** What every call and every write of the caller keeps: an ordered
    transcript, and a session whose objects are apart from those at [O]. *)
Definition world_ok (O : list Ref) (s : Session) : Prop := ordered s ∧ apart O s.

(** ** Vocabulary of the session-wide properties *)

Definition is_error (event : Event) : bool :=
  match event with EvError _ _ _ _ => true | _ => false end.

Definition is_queued (event : Event) : bool :=
  match event with EvQueued _ => true | _ => false end.

(** The addresses of the [error] events among the calls, oldest first. *)
Definition error_refs (cs : list Call) : list EvRef :=
  omap (λ c, match c with
             | CallHandleEvent ref event => if is_error event then Some ref else None
             | CallAddInput _ => None
             end) cs.

(** What a call passes to the emitter before the closing [emitChange]. *)
Definition announced (c : Call) : list Signal :=
  match c with
  | CallAddInput _ => []
  | CallHandleEvent ref event =>
      SigEvent ref :: (if is_error event then [SigError ref] else [])
  end.

(** The place a message takes in the transcript order: an input, or an
    output with its [outputIndex]. *)
Definition place (m : Message) : InputItem + nat :=
  match m with
  | MInput x => inl x
  | MOutput _ k _ _ => inr k
  end.

(** The input items of the transcript, in transcript order. *)
Definition input_items (ms : list Message) : list InputItem :=
  omap (λ m, match m with MInput x => Some x | MOutput _ _ _ _ => None end) ms.

(** The inputs that the calls add, in call order. *)
Definition added_inputs (cs : list Call) : list InputItem :=
  omap (λ c, match c with CallAddInput x => Some x | CallHandleEvent _ _ => None end) cs.

(** The audio chunks and the audio transcript events the session holds. *)
Definition audio_chunks (s : Session) : list EvRef :=
  chunks (ensureSessionAudio (sessionAugmentations s)).

Definition audio_transcript (s : Session) : list EvRef :=
  transcript (ensureSessionAudio (sessionAugmentations s)).

(** The addresses of the [response.audio.delta] events among the calls,
    and those of the [response.audio.transcript.delta] events. *)
Definition chunk_refs (cs : list Call) : list EvRef :=
  omap (λ c, match c with
             | CallHandleEvent ref (EvAudioDelta _) => Some ref
             | _ => None
             end) cs.

Definition transcript_refs (cs : list Call) : list EvRef :=
  omap (λ c, match c with
             | CallHandleEvent ref (EvAudioTranscriptDelta _) => Some ref
             | _ => None
             end) cs.

Definition is_audio_delta (event : Event) : bool :=
  match event with
  | EvAudioDelta _ | EvAudioTranscriptDelta _ => true
  | _ => false
  end.

(** The events that write the text part of a message: the output index
    and the item id they carry. *)
Definition text_event (event : Event) : option (nat * option string) :=
  match event with
  | EvOutputTextDelta k itemId _ _ | EvOutputTextDone k itemId _ _
  | EvAnnotationAdded k itemId _ _ _ => Some (k, itemId)
  | _ => None
  end.

(** The transcript entry that the position map gives for output index
    [i] holds the object at [r] as its item. *)
Definition holds_object (i : nat) (r : Ref) (s : Session) : Prop :=
  ∃ p e a, existing_entry i s = Some p ∧ messages s !! p = Some (MOutput r i e a).

(** The arguments of a function call item, in the snapshot at output
    index [k] and in the transcript entry of [k]. *)
Definition item_arguments (it : OutputItem) : option string :=
  match it with IFunctionCall _ _ _ a _ => Some a | _ => None end.

Definition snapshot_arguments (k : nat) (s : Session) : option string :=
  match snapshot_item k s with
  | Some (_, it) => item_arguments it
  | None => None
  end.

Definition transcript_arguments (k : nat) (s : Session) : option string :=
  match existing_entry k s with
  | Some p =>
      match entry_item p s with
      | Some (_, it) => item_arguments it
      | None => None
      end
  | None => None
  end.

(** The response snapshot stores at output index [k] a function call
    that has an id and the arguments [a]. *)
Definition stores_call (k : nat) (a : string) (s : Session) : Prop :=
  ∃ r it, snapshot_item k s = Some (r, it) ∧ is_Some (item_id it) ∧
          item_arguments it = Some a.

(** The call that ingests one [response.function_call_arguments.delta]
    for output index [k]: the event's address, its item id and its
    delta. *)
Definition arguments_delta (k : nat) (d : EvRef * option string * string) : Call :=
  CallHandleEvent d.1.1 (EvFunctionCallArgumentsDelta k d.1.2 d.2).

(** ** Sample sessions *)

(** An id source for the samples, and the response of a
    [response.created] event with no output yet. *)
Definition sample_ids (n : nat) : string := "n".

Definition sample_response (items : list OutputItem) : ResponsePayload :=
  mkResponsePayload (Some "resp_1") (Some InProgress) items.

(** A function call item, as a response or an [output_item] event
    carries it. *)
Definition sample_call : OutputItem :=
  IFunctionCall (Some "fc_1") "call_1" "lookup" "{}" (Some "in_progress").

(** A session that tracks response [resp_1] and holds one output message
    for output index 0. *)
Definition sample_stream : Session :=
  run [CallHandleEvent 0 (EvLifecycle LCreated (sample_response []));
       CallHandleEvent 1
         (EvOutputItemAdded 0 (IMessage "msg_1" "assistant" "in_progress" []))]
    (new_session sample_ids [] None).

(** A session constructed over an empty response. *)
Definition sample_session : Session :=
  new_session sample_ids [] (Some (sample_response [])).

(** * Properties *)

Close Scope string_scope.

(** ** The monad *)

Lemma preserves_ret I {A} (a : A) : preserves I (ret a).
Proof. intros s Hs. exact Hs. Qed.

Lemma preserves_gets I {A} (f : Session → A) : preserves I (gets f).
Proof. intros s Hs. exact Hs. Qed.

Lemma preserves_modify I (f : Session → Session) :
  (∀ s, I s → I (f s)) → preserves I (modify f).
Proof. intros Hf s Hs. simpl. auto. Qed.

Lemma preserves_bind I {A B} (m : M A) (k : A → M B) :
  preserves I m → (∀ a, preserves I (k a)) → preserves I (bind m k).
Proof.
  intros Hm Hk s Hs. unfold bind.
  specialize (Hm s Hs). destruct (m s) as [a s1]. simpl in Hm.
  apply Hk, Hm.
Qed.

Lemma preserves_for_each I {A} (xs : list A) (body : A → M unit) :
  (∀ x, preserves I (body x)) → preserves I (for_each xs body).
Proof.
  intros Hb. induction xs as [|x xs IH]; simpl.
  - apply preserves_ret.
  - apply preserves_bind; auto.
Qed.

Lemma exec_bind {A B} (m : M A) (k : A → M B) s :
  exec (bind m k) s = exec (k (m s).1) (m s).2.
Proof. unfold exec, bind. destruct (m s); reflexivity. Qed.

Lemma exec_bind_unit {B} (m : M unit) (k : unit → M B) s :
  exec (bind m k) s = exec (k tt) (exec m s).
Proof. unfold exec, bind. destruct (m s) as [[] s1]; reflexivity. Qed.

Lemma bind_snd {A B} (m : M A) (k : A → M B) s :
  (bind m k s).2 = (k (m s).1 (m s).2).2.
Proof. unfold bind. destruct (m s); reflexivity. Qed.

Lemma bind_fst {A B} (m : M A) (k : A → M B) s :
  (bind m k s).1 = (k (m s).1 (m s).2).1.
Proof. unfold bind. destruct (m s); reflexivity. Qed.

Lemma preserves_exec I {A} (m : M A) s : preserves I m → I s → I (exec m s).
Proof. intros Hm Hs. apply Hm, Hs. Qed.

Create HintDb pres.

Ltac pres_step :=
  lazymatch goal with
  | |- preserves _ (ret _) => apply preserves_ret
  | |- preserves _ (gets _) => apply preserves_gets
  | |- preserves _ (bind _ _) => apply preserves_bind; [| intros ?]
  | |- preserves _ (for_each _ _) => apply preserves_for_each; intros ?
  | |- preserves _ (modify _) =>
      apply preserves_modify; intros ? ?; cbv beta; solve [eauto with pres]
  | |- preserves _ (match ?x with _ => _ end) => destruct x
  end.

Ltac pres := repeat first [ solve [eauto with pres] | pres_step ].

(** ** Frame: what the two projections leave alone

    Every step of [mutateSnapshot] and [applyToMessages] either goes
    through [ensureOutputEntry] / [ensureOutputEntryFromSnapshot], or
    clears the position map, or leaves the transcript order and the
    position map untouched. *)

Section Frame.
Variable I : Session → Prop.
Hypothesis HI : frame_stable I.

Let Hheap := fs_heap I HI.
Let Hids := fs_ids I HI.
Let Hsnapshot := fs_snapshot I HI.
Let Haudio := fs_audio I HI.
Let Hticks := fs_ticks I HI.
Let Hentry := fs_entry I HI.
Let Hfrom := fs_from_snapshot I HI.

Local Hint Resolve Hheap Hids Hsnapshot Haudio Hticks Hentry Hfrom : pres.

Lemma alloc_pres v : preserves I (alloc v).
Proof. intros s Hs. simpl. eauto with pres. Qed.

Lemma clone_pres v : preserves I (clone v).
Proof. apply alloc_pres. Qed.

Lemma update_item_pres r f : preserves I (update_item r f).
Proof. unfold update_item. pres. Qed.

Lemma update_message_pres i f :
  (∀ m, same_shape (f m) m) → preserves I (update_message i f).
Proof.
  intros Hf. unfold update_message. apply preserves_modify.
  intros s Hs. apply (fs_shape I HI); assumption.
Qed.

Lemma push_event_pres i event : preserves I (push_event i event).
Proof. apply update_message_pres. intros [x|r k e a]; simpl; reflexivity. Qed.

Lemma update_augmentations_pres i f : preserves I (update_augmentations i f).
Proof. apply update_message_pres. intros [x|r k e a]; simpl; reflexivity. Qed.

Local Hint Resolve alloc_pres clone_pres update_item_pres push_event_pres
  update_augmentations_pres : pres.

Lemma replace_entry_item_pres i item : preserves I (replace_entry_item i item).
Proof.
  unfold replace_entry_item. pres.
  apply update_message_pres. intros [x|r k e aug]; simpl; reflexivity.
Qed.

Lemma registerItemId_pres id index : preserves I (registerItemId id index).
Proof. unfold registerItemId. pres. Qed.

Lemma makeId_pres prefix : preserves I (makeId prefix).
Proof. intros s Hs. simpl. eauto with pres. Qed.

Local Hint Resolve replace_entry_item_pres registerItemId_pres makeId_pres : pres.

Lemma createPlaceholderOutput_pres type itemId :
  preserves I (createPlaceholderOutput type itemId).
Proof. unfold createPlaceholderOutput. pres. Qed.

Lemma setSnapshotOutput_pres k item : preserves I (setSnapshotOutput k item).
Proof. unfold setSnapshotOutput. pres. Qed.

Local Hint Resolve createPlaceholderOutput_pres setSnapshotOutput_pres : pres.

Lemma ensureSnapshotOutputItem_pres k type itemId :
  preserves I (ensureSnapshotOutputItem k type itemId).
Proof. unfold ensureSnapshotOutputItem, deref. pres. Qed.

Local Hint Resolve ensureSnapshotOutputItem_pres : pres.

Lemma ensureOutputItemPresence_pres k type itemId :
  preserves I (ensureOutputItemPresence k type itemId).
Proof. unfold ensureOutputItemPresence, deref. pres. Qed.

Local Hint Resolve ensureOutputItemPresence_pres : pres.

Lemma recordOutputEvent_pres k itemId event :
  preserves I (recordOutputEvent k itemId event).
Proof. unfold recordOutputEvent. pres. Qed.

Lemma resetCurrentResponseOutputs_pres :
  (∀ s, I s → I (set_outputIndexToMessageIndex ∅ s)) →
  preserves I resetCurrentResponseOutputs.
Proof. intros Hreset. unfold resetCurrentResponseOutputs. pres. Qed.

Lemma syncOutputsFromSnapshot_pres : preserves I syncOutputsFromSnapshot.
Proof. unfold syncOutputsFromSnapshot. pres. Qed.

Lemma clone_items_pres items : preserves I (clone_items items).
Proof. induction items as [|it rest IH]; simpl; pres. Qed.

Local Hint Resolve recordOutputEvent_pres syncOutputsFromSnapshot_pres
  clone_items_pres : pres.

Lemma clone_response_pres response : preserves I (clone_response response).
Proof. unfold clone_response. pres. Qed.

Lemma onSnapshotItem_pres checked k type itemId f :
  preserves I (onSnapshotItem checked k type itemId f).
Proof. unfold onSnapshotItem, deref. pres. Qed.

Lemma findOrEnsure_pres findId k type itemId :
  preserves I (findOrEnsure findId k type itemId).
Proof. unfold findOrEnsure. pres. Qed.

Lemma appendAudioChunk_pres event : preserves I (appendAudioChunk event).
Proof. unfold appendAudioChunk. pres. Qed.

Lemma appendAudioTranscript_pres event : preserves I (appendAudioTranscript event).
Proof. unfold appendAudioTranscript. pres. Qed.

Local Hint Resolve clone_response_pres onSnapshotItem_pres findOrEnsure_pres
  appendAudioChunk_pres appendAudioTranscript_pres : pres.

Lemma mutateSnapshot_pres event :
  lifecycle_stable I → preserves I (mutateSnapshot event).
Proof.
  intros [Hstatus Hended Hcurrent Hreset].
  pose proof (resetCurrentResponseOutputs_pres Hreset).
  unfold mutateSnapshot. destruct event; pres.
Qed.

Lemma mutateSnapshot_item_pres event :
  is_lifecycle event = false → preserves I (mutateSnapshot event).
Proof. intros Hev. unfold mutateSnapshot. destruct event; try discriminate; pres. Qed.

Lemma applyToMessages_pres ref event : preserves I (applyToMessages ref event).
Proof. unfold applyToMessages, whenEntryOfType. destruct event; pres. Qed.
End Frame.

Section Calls.
Variable I : Session → Prop.
Hypothesis HI : call_stable I.

Let Hemitted := cs_emitted I HI.
Let HendEmitted := cs_endEmitted I HI.
Let HlastError := cs_lastError I HI.
Let Hinput := cs_input I HI.
Let Hstatus' := ls_status I (cs_lifecycle I HI).
Let Hended' := ls_ended I (cs_lifecycle I HI).
Let Hids' := fs_ids I (cs_frame I HI).
Let Hsnapshot' := fs_snapshot I (cs_frame I HI).

Local Hint Resolve Hemitted HendEmitted HlastError Hinput Hstatus' Hended' Hids'
  Hsnapshot' : pres.

Lemma emit_pres sig : preserves I (emit sig).
Proof. unfold emit. pres. Qed.

Local Hint Resolve emit_pres : pres.

Lemma emitChange_pres : preserves I emitChange.
Proof. unfold emitChange. pres. Qed.

Local Hint Resolve emitChange_pres : pres.

Lemma addInput_pres input : preserves I (addInput input).
Proof. unfold addInput, registerItemId. pres. Qed.

Lemma handleEvent_pres ref event : preserves I (handleEvent ref event).
Proof.
  unfold handleEvent, emitError.
  pose proof (mutateSnapshot_pres I (cs_frame I HI) event (cs_lifecycle I HI)).
  pose proof (applyToMessages_pres I (cs_frame I HI) ref event).
  pres.
Qed.

Lemma call_pres c : preserves I (call c).
Proof. destruct c; simpl; [apply addInput_pres | apply handleEvent_pres]. Qed.

Lemma run_pres cs s : I s → I (run cs s).
Proof.
  revert s. induction cs as [|c cs IH]; intros s Hs; simpl; [exact Hs|].
  apply IH, call_pres, Hs.
Qed.

Lemma construct_pres inputs response :
  preserves I (construct inputs response).
Proof.
  unfold construct.
  pose proof (clone_response_pres I (cs_frame I HI)).
  pose proof (syncOutputsFromSnapshot_pres I (cs_frame I HI)).
  pose proof addInput_pres.
  pres.
Qed.
End Calls.

(** ** Ordered insertion *)

Lemma same_shape_out_key m m' : same_shape m m' → out_key m = out_key m'.
Proof. destruct m, m'; simpl; intros H; try contradiction; congruence. Qed.

Lemma output_indices_alter f i (ms : list Message) :
  (∀ m, ms !! i = Some m → out_key (f m) = out_key m) →
  output_indices (alter f i ms) = output_indices ms.
Proof.
  unfold output_indices. revert i.
  induction ms as [|m ms IH]; intros i Hf; [reflexivity|].
  destruct i as [|i]; simpl.
  - rewrite (Hf m eq_refl). reflexivity.
  - destruct (out_key m); [f_equal|]; apply IH; intros m' Hm'; apply Hf; exact Hm'.
Qed.

Lemma out_key_alter_lookup f i j (ms : list Message) m :
  (∀ m, ms !! i = Some m → out_key (f m) = out_key m) →
  ms !! j = Some m →
  ∃ m', alter f i ms !! j = Some m' ∧ out_key m' = out_key m.
Proof.
  intros Hf Hj. destruct (decide (i = j)) as [->|Hne].
  - rewrite list_lookup_alter_eq, Hj. simpl. eauto.
  - rewrite list_lookup_alter_ne by done. eauto.
Qed.

Lemma ordered_alter f i s :
  (∀ m, messages s !! i = Some m → out_key (f m) = out_key m) →
  ordered s → ordered (set_messages (alter f i (messages s)) s).
Proof.
  intros Hf [Hsorted Hmap]. split; simpl.
  - rewrite output_indices_alter by exact Hf. exact Hsorted.
  - intros k j Hk. destruct (Hmap k j Hk) as (m & Hm & Hkey).
    destruct (out_key_alter_lookup f i j _ m Hf Hm) as (m' & Hm' & Hkey').
    exists m'. split; [exact Hm'|congruence].
Qed.

Lemma skip_inputs_le ms : skip_inputs ms ≤ length ms.
Proof. induction ms as [|[x|r k e a] ms IH]; simpl; lia. Qed.

Lemma skip_inputs_no_output ms : output_indices (take (skip_inputs ms) ms) = [].
Proof. induction ms as [|[x|r k e a] ms IH]; simpl; auto. Qed.

Lemma skip_inputs_take ms :
  ∃ pre, take (skip_inputs ms) ms = MInput <$> pre.
Proof.
  induction ms as [|[x|r k e a] ms IH]; simpl.
  - exists []. reflexivity.
  - destruct IH as [pre Hpre]. exists (x :: pre). simpl. rewrite Hpre. reflexivity.
  - exists []. reflexivity.
Qed.

Lemma scan_outputs_le k ms : scan_outputs k ms ≤ length ms.
Proof.
  induction ms as [|[x|r k' e a] ms IH]; simpl; [lia|lia|].
  destruct (decide (k < k')); simpl; lia.
Qed.

Lemma scan_outputs_before k ms x :
  x ∈ output_indices (take (scan_outputs k ms) ms) → x ≤ k.
Proof.
  unfold output_indices.
  induction ms as [|[y|r k' e a] ms IH]; simpl.
  - intros H. inversion H.
  - exact IH.
  - destruct (decide (k < k')) as [Hlt|Hge]; simpl.
    + intros H. inversion H.
    + intros H. apply elem_of_cons in H as [->|H]; [lia|auto].
Qed.

Lemma scan_outputs_stop k ms :
  drop (scan_outputs k ms) ms = [] ∨
  ∃ r k' e a rest, drop (scan_outputs k ms) ms = MOutput r k' e a :: rest ∧ k < k'.
Proof.
  induction ms as [|[y|r k' e a] ms IH]; simpl; [by left|exact IH|].
  destruct (decide (k < k')) as [Hlt|Hge]; simpl; [|exact IH].
  right. by exists r, k', e, a, ms.
Qed.

(** Before the insertion point no output has a larger [outputIndex]. *)
Lemma findInsertionPoint_before k s x :
  x ∈ output_indices (take (findInsertionPoint k s) (messages s)) → x ≤ k.
Proof.
  unfold findInsertionPoint. cbv zeta.
  rewrite <- take_take_drop. unfold output_indices.
  rewrite omap_app. fold (output_indices (take (skip_inputs (messages s)) (messages s))).
  rewrite skip_inputs_no_output. simpl. apply scan_outputs_before.
Qed.

(** The message at the insertion point, if any, is an output with a
    larger [outputIndex]. *)
Lemma findInsertionPoint_stop k s :
  drop (findInsertionPoint k s) (messages s) = [] ∨
  ∃ r k' e a rest,
    drop (findInsertionPoint k s) (messages s) = MOutput r k' e a :: rest ∧ k < k'.
Proof.
  unfold findInsertionPoint. cbv zeta. rewrite <- drop_drop. apply scan_outputs_stop.
Qed.

Lemma findInsertionPoint_le k s : findInsertionPoint k s ≤ length (messages s).
Proof.
  unfold findInsertionPoint. cbv zeta.
  pose proof (skip_inputs_le (messages s)).
  pose proof (scan_outputs_le k (drop (skip_inputs (messages s)) (messages s))) as H2.
  rewrite length_drop in H2. lia.
Qed.

Lemma findInsertionPoint_after_inputs k s :
  skip_inputs (messages s) ≤ findInsertionPoint k s.
Proof. unfold findInsertionPoint. cbv zeta. lia. Qed.

Lemma splice_in_sorted k r (ms : list Message) p :
  StronglySorted le (output_indices ms) →
  (∀ x, x ∈ output_indices (take p ms) → x ≤ k) →
  (drop p ms = [] ∨ ∃ r' k' e a rest, drop p ms = MOutput r' k' e a :: rest ∧ k < k') →
  StronglySorted le (output_indices (splice_in p (MOutput r k [] None) ms)).
Proof.
  intros Hsorted Hbefore Hstop. unfold splice_in, output_indices in *.
  rewrite <- (take_drop p ms) in Hsorted.
  rewrite omap_app in *. simpl.
  apply StronglySorted_app in Hsorted as (Hcross & Hl & Hr).
  assert (Hafter : Forall (le k) (omap out_key (drop p ms))).
  { destruct Hstop as [Hd|(r' & k' & e & a & rest & Hd & Hlt)];
      rewrite Hd in *; simpl; [constructor|].
    simpl in Hr. apply StronglySorted_cons in Hr as [Hall _].
    constructor; [lia|]. eapply Forall_impl; [exact Hall|]. simpl. intros; lia. }
  apply StronglySorted_app_2; [|exact Hl|].
  - intros x1 x2 H1 H2. apply elem_of_cons in H2 as [->|H2]; [auto|].
    apply Hcross; assumption.
  - apply StronglySorted_cons. split; assumption.
Qed.

(** The loop of [updateMappingsAfterInsertion] leaves the transcript
    alone and only writes positions of the messages it walks over. *)
Lemma shift_mappings_spec ms i s :
  messages (exec (shift_mappings i ms) s) = messages s ∧
  ∀ k v, outputIndexToMessageIndex (exec (shift_mappings i ms) s) !! k = Some v →
    (∃ j m, ms !! j = Some m ∧ out_key m = Some k ∧ v = i + j) ∨
    (outputIndexToMessageIndex s !! k = Some v ∧
     ∀ j m, ms !! j = Some m → out_key m ≠ Some k).
Proof.
  revert i s. induction ms as [|m ms IH]; intros i s.
  - split; [reflexivity|]. intros k v Hk. right. split; [exact Hk|].
    intros j m Hj. inversion Hj.
  - simpl shift_mappings. rewrite exec_bind.
    set (s1 := ((match m with
                 | MOutput _ k _ _ =>
                     modify (λ s0, set_outputIndexToMessageIndex
                                     (<[k:=i]> (outputIndexToMessageIndex s0)) s0)
                 | MInput _ => ret tt
                 end) s).2).
    assert (Hs1 : messages s1 = messages s ∧
                  outputIndexToMessageIndex s1 =
                    match out_key m with
                    | Some k => <[k:=i]> (outputIndexToMessageIndex s)
                    | None => outputIndexToMessageIndex s
                    end).
    { subst s1. destruct m; simpl; auto. }
    destruct Hs1 as [Hm1 Ho1].
    rewrite exec_bind. simpl (gets _ _).1. simpl (gets _ _).2.
    rewrite exec_bind.
    set (s2 := ((match message_item_id m s1 with
                 | Some j =>
                     if String.eqb j ""%string then ret tt
                     else modify (λ s0, set_idToIndex (<[j:=i]> (idToIndex s0)) s0)
                 | None => ret tt
                 end) s1).2).
    assert (Hs2 : messages s2 = messages s1 ∧
                  outputIndexToMessageIndex s2 = outputIndexToMessageIndex s1).
    { subst s2. destruct (message_item_id m s1) as [j|]; [|auto].
      destruct (String.eqb j ""%string); auto. }
    destruct Hs2 as [Hm2 Ho2].
    destruct (IH (S i) s2) as [IHm IHo]. split; [congruence|].
    intros k v Hk. destruct (IHo k v Hk) as [(j & m' & Hj & Hkey & ->)|[Hold Hnone]].
    + left. exists (S j), m'. simpl. split; [exact Hj|]. split; [exact Hkey|lia].
    + rewrite Ho2, Ho1 in Hold.
      destruct (out_key m) as [k0|] eqn:Hkm.
      * destruct (decide (k0 = k)) as [->|Hne].
        -- rewrite lookup_insert_eq in Hold. left. exists 0, m. simpl.
           split; [reflexivity|]. split; [exact Hkm|]. inversion Hold. lia.
        -- rewrite lookup_insert_ne in Hold by done. right. split; [exact Hold|].
           intros [|j] m' Hj; simpl in Hj; [|eauto]. inversion Hj; subst. congruence.
      * right. split; [exact Hold|].
        intros [|j] m' Hj; simpl in Hj; [|eauto]. inversion Hj; subst. congruence.
Qed.

Lemma ordered_ext s s' :
  messages s' = messages s →
  outputIndexToMessageIndex s' = outputIndexToMessageIndex s →
  ordered s → ordered s'.
Proof. unfold ordered, map_ok. intros -> ->. auto. Qed.

Lemma registerItemId_frame id index s :
  messages (exec (registerItemId id index) s) = messages s ∧
  outputIndexToMessageIndex (exec (registerItemId id index) s)
    = outputIndexToMessageIndex s.
Proof.
  unfold registerItemId.
  destruct id as [i|]; [destruct (String.eqb i ""%string)|]; auto.
Qed.

Lemma updateMappingsAfterInsertion_spec p k s :
  messages (exec (updateMappingsAfterInsertion p k) s) = messages s ∧
  ∀ k' v,
    outputIndexToMessageIndex (exec (updateMappingsAfterInsertion p k) s) !! k' = Some v →
    (∃ j m, drop (S p) (messages s) !! j = Some m ∧ out_key m = Some k' ∧ v = S p + j) ∨
    (<[k:=p]> (outputIndexToMessageIndex s) !! k' = Some v ∧
     ∀ j m, drop (S p) (messages s) !! j = Some m → out_key m ≠ Some k').
Proof.
  unfold updateMappingsAfterInsertion.
  rewrite exec_bind. cbn [modify fst snd].
  rewrite exec_bind. cbn [gets fst snd].
  match goal with
  | |- context [exec (shift_mappings ?i ?ms) ?s0] =>
      destruct (shift_mappings_spec ms i s0) as [Hm Ho]
  end.
  split; [exact Hm|]. exact Ho.
Qed.

Lemma splice_in_lookup_lt p (entry : Message) ms i :
  i < p → p ≤ length ms → splice_in p entry ms !! i = ms !! i.
Proof.
  intros Hi Hp. unfold splice_in.
  rewrite lookup_app_l by (rewrite length_take; lia).
  apply lookup_take_lt. exact Hi.
Qed.

Lemma splice_in_lookup_eq p (entry : Message) ms :
  p ≤ length ms → splice_in p entry ms !! p = Some entry.
Proof.
  intros Hp. unfold splice_in.
  rewrite lookup_app_r by (rewrite length_take; lia).
  rewrite length_take, Nat.min_l by lia. by rewrite Nat.sub_diag.
Qed.

Lemma splice_in_lookup_gt p (entry : Message) ms i :
  p ≤ length ms → splice_in p entry ms !! (S p + i) = ms !! (p + i).
Proof.
  intros Hp. unfold splice_in.
  rewrite lookup_app_r by (rewrite length_take; lia).
  rewrite length_take, Nat.min_l by lia.
  replace (S p + i - p) with (S i) by lia. simpl. apply lookup_drop.
Qed.

Lemma splice_in_drop p (entry : Message) ms :
  p ≤ length ms → drop (S p) (splice_in p entry ms) = drop p ms.
Proof.
  intros Hp. unfold splice_in.
  rewrite drop_app_ge by (rewrite length_take; lia).
  rewrite length_take, Nat.min_l by lia.
  replace (S p - p) with 1 by lia. reflexivity.
Qed.

(** Inserting a new output entry keeps the outputs sorted and the
    position map exact. *)
Lemma insertOutputEntry_ordered r id k : preserves ordered (insertOutputEntry r id k).
Proof.
  intros s [Hsorted Hmap]. change (ordered (exec (insertOutputEntry r id k) s)).
  unfold insertOutputEntry.
  rewrite exec_bind. cbn [gets fst snd].
  rewrite exec_bind. cbn [modify fst snd].
  rewrite exec_bind.
  set (p := findInsertionPoint k s).
  set (s1 := set_messages (splice_in p (MOutput r k [] None) (messages s)) s).
  assert (Hp : p ≤ length (messages s)) by apply findInsertionPoint_le.
  destruct (updateMappingsAfterInsertion_spec p k s1) as [Hm Ho].
  fold (exec (updateMappingsAfterInsertion p k) s1).
  set (s2 := exec (updateMappingsAfterInsertion p k) s1) in *.
  rewrite exec_bind.
  destruct (registerItemId_frame id p s2) as [Hm3 Ho3].
  fold (exec (registerItemId id p) s2).
  set (s3 := exec (registerItemId id p) s2) in *.
  apply (ordered_ext s2); [exact Hm3|exact Ho3|].
  split.
  - rewrite Hm. subst s1. simpl.
    apply splice_in_sorted; [exact Hsorted|apply findInsertionPoint_before|
                             apply findInsertionPoint_stop].
  - intros k' v Hk'. rewrite Hm. subst s1. simpl messages in *.
    simpl outputIndexToMessageIndex in Ho.
    rewrite splice_in_drop in Ho by exact Hp.
    destruct (Ho k' v Hk') as [(j & m & Hj & Hkey & ->)|[Hold Hnone]].
    + exists m. split; [|exact Hkey].
      rewrite splice_in_lookup_gt by exact Hp. rewrite <- lookup_drop. exact Hj.
    + destruct (decide (k = k')) as [<-|Hne].
      * rewrite lookup_insert_eq in Hold. inversion Hold; subst v.
        exists (MOutput r k [] None). split; [|reflexivity].
        apply splice_in_lookup_eq. exact Hp.
      * rewrite lookup_insert_ne in Hold by done.
        destruct (Hmap k' v Hold) as (m & Hv & Hkey).
        exists m. split; [|exact Hkey].
        destruct (decide (v < p)) as [Hlt|Hge].
        -- rewrite splice_in_lookup_lt by assumption. exact Hv.
        -- exfalso. apply (Hnone (v - p) m); [|exact Hkey].
           rewrite lookup_drop. replace (p + (v - p)) with v by lia. exact Hv.
Qed.

Lemma existing_entry_Some k s i :
  existing_entry k s = Some i →
  outputIndexToMessageIndex s !! k = Some i ∧
  ∃ r k' e a, messages s !! i = Some (MOutput r k' e a).
Proof.
  unfold existing_entry, output_at.
  destruct (outputIndexToMessageIndex s !! k) as [j|]; [|discriminate].
  destruct (messages s !! j) as [[x|r k' e a]|] eqn:Hj; try discriminate.
  intros [= <-]. split; [reflexivity|]. eauto.
Qed.

(** Under [map_ok] the mapped entry already carries the [outputIndex]
    that [ensureOutputEntry] writes into it. *)
Lemma existing_entry_key k s i m :
  map_ok s → existing_entry k s = Some i → messages s !! i = Some m →
  out_key m = Some k.
Proof.
  intros Hmap He Hm. apply existing_entry_Some in He as [Hk _].
  destruct (Hmap k i Hk) as (m' & Hm' & Hkey). congruence.
Qed.

Lemma ensureOutputEntry_ordered item k : preserves ordered (ensureOutputEntry item k).
Proof.
  intros s Hs. change (ordered (exec (ensureOutputEntry item k) s)).
  unfold ensureOutputEntry.
  rewrite exec_bind. cbn [gets fst snd].
  destruct (existing_entry k s) as [i|] eqn:He.
  - rewrite exec_bind. cbn [clone alloc fst snd].
    rewrite exec_bind. cbn [update_message modify fst snd].
    rewrite exec_bind.
    match goal with
    | |- context [(registerItemId ?a ?b ?s0).2] =>
        fold (exec (registerItemId a b) s0);
        destruct (registerItemId_frame a b s0) as [Hm Ho];
        apply (ordered_ext s0); [exact Hm|exact Ho|]
    end.
    simpl messages.
    apply (ordered_alter _ i (set_heap (heap s ++ [item]) s)).
    + simpl. intros m Hm'.
      pose proof (existing_entry_key k s i m (proj2 Hs) He Hm') as Hkey.
      destruct m; simpl in *; congruence.
    + apply (ordered_ext s); [reflexivity|reflexivity|exact Hs].
  - rewrite exec_bind. cbn [clone alloc fst snd].
    apply insertOutputEntry_ordered.
    apply (ordered_ext s); [reflexivity|reflexivity|exact Hs].
Qed.

Lemma ensureOutputEntryFromSnapshot_ordered k :
  preserves ordered (ensureOutputEntryFromSnapshot k).
Proof.
  intros s Hs. change (ordered (exec (ensureOutputEntryFromSnapshot k) s)).
  unfold ensureOutputEntryFromSnapshot.
  rewrite exec_bind. cbn [gets fst snd].
  destruct (snapshot_item k s) as [[r it]|]; [|exact Hs].
  rewrite exec_bind. cbn [gets fst snd].
  destruct (existing_entry k s) as [i|] eqn:He.
  - rewrite exec_bind. cbn [update_message modify fst snd].
    rewrite exec_bind.
    match goal with
    | |- context [(registerItemId ?a ?b ?s0).2] =>
        fold (exec (registerItemId a b) s0);
        destruct (registerItemId_frame a b s0) as [Hm Ho];
        apply (ordered_ext s0); [exact Hm|exact Ho|]
    end.
    apply ordered_alter; [|exact Hs].
    intros m _. destruct m; reflexivity.
  - rewrite exec_bind. apply insertOutputEntry_ordered. exact Hs.
Qed.

Lemma ordered_frame_stable : frame_stable ordered.
Proof.
  split; try (intros; eapply ordered_ext; [| |eassumption]; reflexivity).
  - intros i f s Hf Hs. apply ordered_alter; [|exact Hs].
    intros m _. apply same_shape_out_key, Hf.
  - apply ensureOutputEntry_ordered.
  - apply ensureOutputEntryFromSnapshot_ordered.
Qed.

Lemma ordered_lifecycle_stable : lifecycle_stable ordered.
Proof.
  split; try (intros; eapply ordered_ext; [| |eassumption]; reflexivity).
  intros s [Hsorted _]. split; [exact Hsorted|].
  intros k i Hk. simpl in Hk. rewrite lookup_empty in Hk. discriminate.
Qed.

Lemma ordered_call_stable : call_stable ordered.
Proof.
  split; try (intros; eapply ordered_ext; [| |eassumption]; reflexivity).
  - apply ordered_frame_stable.
  - apply ordered_lifecycle_stable.
  - intros x s [Hsorted Hmap]. split; simpl.
    + unfold output_indices in *. rewrite omap_app. simpl. by rewrite app_nil_r.
    + intros k i Hk. destruct (Hmap k i Hk) as (m & Hm & Hkey).
      exists m. split; [|exact Hkey]. by apply lookup_app_l_Some.
Qed.

Lemma fresh_session_ordered source : ordered (fresh_session source).
Proof.
  split; simpl; [constructor|].
  intros k i Hk. simpl in Hk. rewrite lookup_empty in Hk. discriminate.
Qed.

Lemma new_session_ordered source inputs response :
  ordered (new_session source inputs response).
Proof.
  unfold new_session. apply preserves_exec.
  - apply construct_pres, ordered_call_stable.
  - apply fresh_session_ordered.
Qed.

(** C1. Whatever the calls made on a session (inputs added, events
    ingested in any interleaving of output indices), after each call the
    output messages of the transcript appear in ascending order of their
    [outputIndex]. *)
Theorem transcript_outputs_sorted source inputs response (cs : list Call) :
  StronglySorted le
    (output_indices (getMessages (run cs (new_session source inputs response)))).
Proof.
  apply (run_pres ordered ordered_call_stable cs).
  apply new_session_ordered.
Qed.

(** ** The transcript after an entry is ensured *)

Lemma shift_mappings_messages ms i s :
  messages (exec (shift_mappings i ms) s) = messages s.
Proof. apply shift_mappings_spec. Qed.

Lemma insertOutputEntry_messages r id k s :
  messages (exec (insertOutputEntry r id k) s)
  = splice_in (findInsertionPoint k s) (MOutput r k [] None) (messages s).
Proof.
  unfold insertOutputEntry.
  rewrite exec_bind. cbn [gets fst snd].
  rewrite exec_bind. cbn [modify fst snd].
  rewrite exec_bind, exec_bind. cbn [ret exec fst snd].
  match goal with
  | |- context [(registerItemId ?a ?b ?s0).2] =>
      fold (exec (registerItemId a b) s0);
      rewrite (proj1 (registerItemId_frame a b s0))
  end.
  match goal with
  | |- context [(updateMappingsAfterInsertion ?a ?b ?s0).2] =>
      fold (exec (updateMappingsAfterInsertion a b) s0);
      rewrite (proj1 (updateMappingsAfterInsertion_spec a b s0))
  end.
  reflexivity.
Qed.

Lemma ensureOutputEntry_messages item k s :
  messages (exec (ensureOutputEntry item k) s)
  = match existing_entry k s with
    | Some i =>
        alter (λ m, match m with
                    | MOutput _ _ events aug => MOutput (length (heap s)) k events aug
                    | MInput _ => m
                    end) i (messages s)
    | None =>
        splice_in (findInsertionPoint k s) (MOutput (length (heap s)) k [] None)
          (messages s)
    end.
Proof.
  unfold ensureOutputEntry.
  rewrite exec_bind. cbn [gets fst snd].
  destruct (existing_entry k s) as [i|].
  - rewrite exec_bind. cbn [clone alloc fst snd].
    rewrite exec_bind. cbn [update_message modify fst snd].
    rewrite exec_bind. cbn [ret exec fst snd].
    match goal with
    | |- context [(registerItemId ?a ?b ?s0).2] =>
        fold (exec (registerItemId a b) s0);
        rewrite (proj1 (registerItemId_frame a b s0))
    end.
    reflexivity.
  - rewrite exec_bind. cbn [clone alloc fst snd].
    rewrite insertOutputEntry_messages. reflexivity.
Qed.

Lemma ensureOutputEntryFromSnapshot_messages k s :
  messages (exec (ensureOutputEntryFromSnapshot k) s)
  = match snapshot_item k s with
    | None => messages s
    | Some (r, _) =>
        match existing_entry k s with
        | Some i =>
            alter (λ m, match m with
                        | MOutput _ k' events aug => MOutput r k' events aug
                        | MInput _ => m
                        end) i (messages s)
        | None => splice_in (findInsertionPoint k s) (MOutput r k [] None) (messages s)
        end
    end.
Proof.
  unfold ensureOutputEntryFromSnapshot.
  rewrite exec_bind. cbn [gets fst snd].
  destruct (snapshot_item k s) as [[r it]|]; [|reflexivity].
  rewrite exec_bind. cbn [gets fst snd].
  destruct (existing_entry k s) as [i|].
  - rewrite exec_bind. cbn [update_message modify fst snd].
    rewrite exec_bind. cbn [ret exec fst snd].
    match goal with
    | |- context [(registerItemId ?a ?b ?s0).2] =>
        fold (exec (registerItemId a b) s0);
        rewrite (proj1 (registerItemId_frame a b s0))
    end.
    reflexivity.
  - rewrite exec_bind. cbn [ret exec fst snd].
    fold (exec (insertOutputEntry r (item_id it) k) s).
    apply insertOutputEntry_messages.
Qed.

(** ** Inputs that precede every output *)

Lemma input_prefix_ext pre s s' :
  messages s' = messages s → input_prefix pre s → input_prefix pre s'.
Proof. unfold input_prefix. intros ->. auto. Qed.

Lemma input_prefix_length pre s :
  input_prefix pre s → length pre ≤ length (messages s).
Proof.
  unfold input_prefix. intros H.
  apply (f_equal length) in H. rewrite length_take, length_fmap in H. lia.
Qed.

Lemma skip_inputs_prefix pre ms :
  take (length pre) ms = MInput <$> pre → length pre ≤ skip_inputs ms.
Proof.
  revert ms. induction pre as [|x pre IH]; intros ms H; simpl; [lia|].
  destruct ms as [|m ms]; simpl in H; [discriminate|].
  injection H as -> H. simpl. apply IH in H. lia.
Qed.

Lemma input_prefix_alter pre f i s :
  (∀ x, f (MInput x) = MInput x) →
  input_prefix pre s → input_prefix pre (set_messages (alter f i (messages s)) s).
Proof.
  unfold input_prefix. simpl. intros Hf H.
  destruct (decide (i < length pre)) as [Hlt|Hge].
  - rewrite take_alter_lt by exact Hlt. rewrite H.
    apply list_eq. intros j. destruct (decide (i = j)) as [->|Hne].
    + rewrite list_lookup_alter_eq, list_lookup_fmap.
      destruct (pre !! j); simpl; [|reflexivity]. by rewrite Hf.
    + by rewrite list_lookup_alter_ne.
  - rewrite take_alter_ge by lia. exact H.
Qed.

Lemma input_prefix_splice pre p entry s :
  length pre ≤ p →
  input_prefix pre s → input_prefix pre (set_messages (splice_in p entry (messages s)) s).
Proof.
  unfold input_prefix, splice_in. simpl. intros Hp H.
  pose proof (input_prefix_length pre s H) as Hlen.
  rewrite take_app_le by (rewrite length_take; lia).
  rewrite take_take, Nat.min_l by lia. exact H.
Qed.

Lemma input_prefix_frame_stable pre : frame_stable (input_prefix pre).
Proof.
  split; try (intros; eapply input_prefix_ext; [|eassumption]; reflexivity).
  - intros i f s Hf Hs. apply input_prefix_alter; [|exact Hs].
    intros x. specialize (Hf (MInput x)). destruct (f (MInput x)); simpl in Hf;
      [congruence|contradiction].
  - intros item k s Hs.
    apply (input_prefix_ext pre
             (set_messages (messages (exec (ensureOutputEntry item k) s)) s));
      [reflexivity|].
    rewrite ensureOutputEntry_messages. destruct (existing_entry k s).
    + apply input_prefix_alter; [reflexivity|exact Hs].
    + apply input_prefix_splice; [|exact Hs].
      etrans; [apply skip_inputs_prefix, Hs|apply findInsertionPoint_after_inputs].
  - intros k s Hs.
    apply (input_prefix_ext pre
             (set_messages (messages (exec (ensureOutputEntryFromSnapshot k) s)) s));
      [reflexivity|].
    rewrite ensureOutputEntryFromSnapshot_messages.
    destruct (snapshot_item k s) as [[r it]|];
      [|eapply input_prefix_ext; [|exact Hs]; reflexivity].
    destruct (existing_entry k s).
    + apply input_prefix_alter; [reflexivity|exact Hs].
    + apply input_prefix_splice; [|exact Hs].
      etrans; [apply skip_inputs_prefix, Hs|apply findInsertionPoint_after_inputs].
Qed.

Lemma input_prefix_call_stable pre : call_stable (input_prefix pre).
Proof.
  split; try (intros; eapply input_prefix_ext; [|eassumption]; reflexivity).
  - apply input_prefix_frame_stable.
  - split; (intros; eapply input_prefix_ext; [|eassumption]; reflexivity).
  - intros x s Hs. pose proof (input_prefix_length pre s Hs).
    unfold input_prefix in *. simpl. rewrite take_app_le by lia. exact Hs.
Qed.

(** C8. If the transcript consists of input messages only (no output
    message exists yet), then after any further calls those inputs still
    occupy the same leading positions and every output message of the
    final transcript sits at a later position. *)
Theorem inputs_stay_before_outputs (s : Session) (pre : list InputItem) (cs : list Call) :
  getMessages s = MInput <$> pre →
  take (length pre) (getMessages (run cs s)) = MInput <$> pre ∧
  ∀ i j x m,
    pre !! i = Some x → getMessages (run cs s) !! j = Some m → is_output m = true →
    getMessages (run cs s) !! i = Some (MInput x) ∧ i < j.
Proof.
  unfold getMessages. intros Hs.
  assert (Hpre : input_prefix pre (run cs s)).
  { apply (run_pres _ (input_prefix_call_stable pre)).
    unfold input_prefix. rewrite Hs, <- (length_fmap MInput pre). apply firstn_all. }
  split; [exact Hpre|].
  intros i j x m Hi Hj Hout.
  assert (Hix : messages (run cs s) !! i = Some (MInput x)).
  { rewrite <- (lookup_take_lt _ (length pre)) by (eapply lookup_lt_Some; exact Hi).
    rewrite Hpre, list_lookup_fmap, Hi. reflexivity. }
  split; [exact Hix|].
  destruct (decide (j < length pre)) as [Hlt|Hge].
  - exfalso. rewrite <- (lookup_take_lt _ (length pre)) in Hj by exact Hlt.
    rewrite Hpre, list_lookup_fmap in Hj.
    destruct (pre !! j); simpl in Hj; [|discriminate].
    injection Hj as <-. discriminate.
  - apply lookup_lt_Some in Hi. lia.
Qed.

(** ** Properties that ignore the transcript *)

Section Insensitive.
Variable I : Session → Prop.
Hypothesis Hmessages : ∀ v s, I s → I (set_messages v s).
Hypothesis Hpositions :
  ∀ k v s, I s → I (set_outputIndexToMessageIndex
                      (<[k:=v]> (outputIndexToMessageIndex s)) s).
Hypothesis Hheap : ∀ v s, I s → I (set_heap v s).
Hypothesis Hids : ∀ v s, I s → I (set_idToIndex v s).

Local Hint Resolve Hmessages Hpositions Hheap Hids : pres.

Lemma shift_mappings_insensitive ms i : preserves I (shift_mappings i ms).
Proof. revert i. induction ms as [|m ms IH]; intros i; simpl; pres. Qed.

Local Hint Resolve shift_mappings_insensitive : pres.

Lemma insertOutputEntry_insensitive r id k : preserves I (insertOutputEntry r id k).
Proof.
  unfold insertOutputEntry, updateMappingsAfterInsertion, registerItemId. pres.
Qed.

Local Hint Resolve insertOutputEntry_insensitive : pres.

Lemma ensureOutputEntry_insensitive item k : preserves I (ensureOutputEntry item k).
Proof.
  unfold ensureOutputEntry, registerItemId, update_message, clone.
  pres; intros s Hs; simpl; eauto with pres.
Qed.

Lemma ensureOutputEntryFromSnapshot_insensitive k :
  preserves I (ensureOutputEntryFromSnapshot k).
Proof. unfold ensureOutputEntryFromSnapshot, registerItemId, update_message. pres. Qed.

(** Such a property meets the frame conditions as soon as it also ignores
    the snapshot, the audio augmentations and the id clock. *)
Lemma insensitive_frame_stable :
  (∀ v s, I s → I (set_responseSnapshot v s)) →
  (∀ v s, I s → I (set_sessionAugmentations v s)) →
  (∀ v s, I s → I (set_ticks v s)) →
  frame_stable I.
Proof.
  intros Hsnapshot Haudio Hticks.
  split; auto using ensureOutputEntry_insensitive,
    ensureOutputEntryFromSnapshot_insensitive.
Qed.
End Insensitive.

(** The steps of the transcript projection, for a property that only a
    write to the response snapshot can break. *)
Section NoSnapshotWrite.
Variable I : Session → Prop.
Hypothesis Hmessages : ∀ v s, I s → I (set_messages v s).
Hypothesis Hpositions : ∀ v s, I s → I (set_outputIndexToMessageIndex v s).
Hypothesis Hheap : ∀ v s, I s → I (set_heap v s).
Hypothesis Hids : ∀ v s, I s → I (set_idToIndex v s).
Hypothesis Haudio : ∀ v s, I s → I (set_sessionAugmentations v s).
Hypothesis Hensure : ∀ k type itemId, preserves I (ensureSnapshotOutputItem k type itemId).

Local Hint Resolve Hmessages Hpositions Hheap Hids Haudio Hensure : pres.

Lemma ensureOutputEntry_unwritten item k : preserves I (ensureOutputEntry item k).
Proof. apply ensureOutputEntry_insensitive; auto. Qed.

Lemma ensureOutputEntryFromSnapshot_unwritten k :
  preserves I (ensureOutputEntryFromSnapshot k).
Proof. apply ensureOutputEntryFromSnapshot_insensitive; auto. Qed.

Lemma alloc_unwritten v : preserves I (alloc v).
Proof. intros s Hs. simpl. auto. Qed.

Local Hint Resolve ensureOutputEntry_unwritten ensureOutputEntryFromSnapshot_unwritten
  alloc_unwritten : pres.

Lemma ensureOutputItemPresence_unwritten k type itemId :
  preserves I (ensureOutputItemPresence k type itemId).
Proof. unfold ensureOutputItemPresence, deref. pres. Qed.

Lemma recordOutputEvent_unwritten k itemId event :
  preserves I (recordOutputEvent k itemId event).
Proof. unfold recordOutputEvent, push_event, update_message, registerItemId. pres. Qed.

Local Hint Resolve ensureOutputItemPresence_unwritten recordOutputEvent_unwritten : pres.

Lemma applyToMessages_unwritten ref event : preserves I (applyToMessages ref event).
Proof.
  unfold applyToMessages, whenEntryOfType, findOrEnsure, replace_entry_item,
    update_augmentations, push_event, update_message, update_item, clone,
    appendAudioChunk, appendAudioTranscript.
  destruct event; pres.
Qed.
End NoSnapshotWrite.

(** ** The terminal notification *)

Lemma emitter_frame_stable x : frame_stable (λ s, emitter_state s = x).
Proof. apply insensitive_frame_stable; intros; assumption. Qed.

Lemma log_frame_stable x : frame_stable (λ s, (endEmitted s, emitted s) = x).
Proof. apply insensitive_frame_stable; intros; assumption. Qed.

Lemma ended_frame_stable x : frame_stable (λ s, ended s = x).
Proof. apply insensitive_frame_stable; intros; assumption. Qed.

Lemma establishes_bind_r Q {A B} (m : M A) (k : A → M B) :
  (∀ a, establishes Q (k a)) → establishes Q (bind m k).
Proof. intros Hk s. rewrite exec_bind. apply Hk. Qed.

Lemma establishes_bind_l Q {A B} (m : M A) (k : A → M B) :
  establishes Q m → (∀ a, preserves Q (k a)) → establishes Q (bind m k).
Proof. intros Hm Hk s. rewrite exec_bind. apply Hk, Hm. Qed.

(** A lifecycle event sets [ended] from its type alone. *)
Lemma mutateSnapshot_lifecycle_ended kind response s :
  ended (exec (mutateSnapshot (EvLifecycle kind response)) s) = lifecycle_ends kind.
Proof.
  revert s. change (establishes (λ s, ended s = lifecycle_ends kind)
                      (mutateSnapshot (EvLifecycle kind response))).
  unfold mutateSnapshot.
  do 6 (apply establishes_bind_r; intros ?).
  apply establishes_bind_l.
  - intros s. reflexivity.
  - intros _. apply syncOutputsFromSnapshot_pres, ended_frame_stable.
Qed.

Lemma handleEvent_exec ref event s :
  exec (handleEvent ref event) s = exec emitChange (before_change ref event s).
Proof. unfold handleEvent, before_change. rewrite !exec_bind. reflexivity. Qed.

Lemma before_change_log ref event s :
  endEmitted (before_change ref event s) = endEmitted s ∧
  emitted (before_change ref event s)
  = emitted s ++ SigEvent ref ::
      match event with EvError _ _ _ _ => [SigError ref] | _ => [] end.
Proof.
  unfold before_change.
  set (s1 := exec (emit (SigEvent ref)) s).
  assert (H1 : (endEmitted s1, emitted s1) = (endEmitted s, emitted s ++ [SigEvent ref]))
    by reflexivity.
  apply (mutateSnapshot_pres _ (log_frame_stable _) event) in H1;
    [|split; intros; assumption].
  apply (applyToMessages_pres _ (log_frame_stable _) ref event) in H1.
  fold (exec (mutateSnapshot event) s1) in H1.
  fold (exec (applyToMessages ref event) (exec (mutateSnapshot event) s1)) in H1.
  set (s3 := exec (applyToMessages ref event) (exec (mutateSnapshot event) s1)) in *.
  injection H1 as He Hl.
  destruct event; simpl; rewrite ?He, ?Hl; rewrite <- ?app_assoc; auto.
Qed.

Lemma before_change_ended ref event s :
  ended (before_change ref event s)
  = match event with
    | EvLifecycle kind _ => lifecycle_ends kind
    | EvError _ _ _ _ => true
    | _ => ended s
    end.
Proof.
  unfold before_change.
  set (s1 := exec (emit (SigEvent ref)) s).
  destruct (is_lifecycle event) eqn:Hlc.
  - destruct event; try discriminate. simpl.
    apply mutateSnapshot_lifecycle_ended.
  - assert (H1 : ended s1 = ended s) by reflexivity.
    apply (mutateSnapshot_item_pres _ (ended_frame_stable _) event Hlc) in H1.
    apply (applyToMessages_pres _ (ended_frame_stable _) ref event) in H1.
    fold (exec (mutateSnapshot event) s1) in H1.
    fold (exec (applyToMessages ref event) (exec (mutateSnapshot event) s1)) in H1.
    destruct event; try discriminate; simpl; auto.
Qed.

Lemma emitChange_log s :
  ended (exec emitChange s) = ended s ∧
  endEmitted (exec emitChange s) = endEmitted s || ended s ∧
  emitted (exec emitChange s)
  = emitted s ++ [SigChange (getSnapshot s); SigStatus (status s)] ++
      (if ended s && negb (endEmitted s) then [SigEnd (responseSnapshot s)] else []).
Proof.
  unfold emitChange, exec, bind, gets, emit, modify. simpl.
  destruct (ended s) eqn:E1, (endEmitted s) eqn:E2; simpl;
    rewrite ?E1, ?E2, <- ?app_assoc; auto.
Qed.

Lemma count_end_app l1 l2 : count_end (l1 ++ l2) = count_end l1 + count_end l2.
Proof. induction l1 as [|sig l1 IH]; simpl; [reflexivity|]. rewrite IH. lia. Qed.

Lemma is_terminal_ended ref event s :
  (ended s = true → endEmitted s = true) →
  ended (before_change ref event s) && negb (endEmitted s)
  = is_terminal event && negb (endEmitted s).
Proof.
  intros Hg. rewrite before_change_ended.
  destruct (endEmitted s); [by rewrite !andb_false_r|].
  destruct event;
      try match goal with kind : LifecycleKind |- _ => destruct kind end;
    simpl; try reflexivity;
    destruct (ended s); try reflexivity; by discriminate Hg.
Qed.

(** One event: [end] is emitted exactly when the event is terminal and
    [end] was not emitted before. *)
Lemma handleEvent_end ref event s :
  end_guarded s →
  end_guarded (exec (handleEvent ref event) s) ∧
  endEmitted (exec (handleEvent ref event) s) = endEmitted s || is_terminal event ∧
  count_end (emitted (exec (handleEvent ref event) s))
  = count_end (emitted s) + (if is_terminal event && negb (endEmitted s) then 1 else 0).
Proof.
  intros [Hg Hc]. rewrite handleEvent_exec.
  destruct (emitChange_log (before_change ref event s)) as (He & Hee & Hl).
  destruct (before_change_log ref event s) as [Hb Hlog].
  pose proof (is_terminal_ended ref event s Hg) as Ht.
  rewrite Hb in *. rewrite Ht in Hl.
  assert (Hcount : count_end (emitted (exec emitChange (before_change ref event s)))
                   = count_end (emitted s)
                     + (if is_terminal event && negb (endEmitted s) then 1 else 0)).
  { rewrite Hl, Hlog, !count_end_app.
    assert (count_end (SigEvent ref ::
              match event with EvError _ _ _ _ => [SigError ref] | _ => [] end) = 0)
      as -> by (destruct event; reflexivity).
    destruct (is_terminal event && negb (endEmitted s)); simpl; lia. }
  assert (Hflag : endEmitted (exec emitChange (before_change ref event s))
                  = endEmitted s || is_terminal event).
  { rewrite Hee. destruct (endEmitted s) eqn:E; [reflexivity|]. simpl.
    simpl in Ht. rewrite !andb_true_r in Ht. exact Ht. }
  split; [split|split]; try assumption.
  - rewrite He, Hflag. intros E. rewrite before_change_ended in E.
    destruct event;
      try match goal with kind : LifecycleKind |- _ => destruct kind end;
      simpl in *; try (rewrite ?E; by rewrite ?orb_true_r);
      try (rewrite (Hg E); reflexivity); discriminate E.
  - rewrite Hcount, Hflag, Hc.
    destruct (endEmitted s), (is_terminal event); reflexivity.
Qed.

Lemma addInput_end input s :
  end_guarded s →
  end_guarded (exec (addInput input) s) ∧
  endEmitted (exec (addInput input) s) = endEmitted s ∧
  count_end (emitted (exec (addInput input) s)) = count_end (emitted s) ∧
  ended (exec (addInput input) s) = ended s.
Proof.
  intros [Hg Hc]. unfold addInput. rewrite !exec_bind. cbn [gets modify fst snd].
  match goal with
  | |- context [exec emitChange ?s0] =>
      set (s2 := s0); destruct (emitChange_log s2) as (He & Hee & Hl)
  end.
  assert (H2 : emitter_state s2 = emitter_state s).
  { subst s2. unfold registerItemId.
    destruct (input_id input) as [i|]; [destruct (String.eqb i ""%string)|];
      reflexivity. }
  injection H2 as E1 E2 E3. rewrite E1, E2, E3 in *.
  assert (Hoff : ended s && negb (endEmitted s) = false).
  { destruct (ended s); [rewrite (Hg eq_refl)|]; reflexivity. }
  rewrite Hoff in Hl.
  assert (Hflag : endEmitted (exec emitChange s2) = endEmitted s).
  { rewrite Hee. destruct (ended s); [rewrite (Hg eq_refl)|rewrite orb_false_r];
      reflexivity. }
  assert (Hcount : count_end (emitted (exec emitChange s2)) = count_end (emitted s)).
  { rewrite Hl, count_end_app. simpl. lia. }
  split; [split|split; [|split]]; try assumption.
  - rewrite He, Hflag. exact Hg.
  - rewrite Hcount, Hflag. exact Hc.
Qed.

Lemma run_end cs s :
  end_guarded s →
  end_guarded (run cs s) ∧
  endEmitted (run cs s) = endEmitted s || existsb call_is_terminal cs.
Proof.
  revert s. induction cs as [|c cs IH]; intros s Hs; simpl.
  - split; [exact Hs|]. by rewrite orb_false_r.
  - destruct c as [input|ref event]; simpl.
    + destruct (addInput_end input s Hs) as (Hg & Hflag & _ & _).
      destruct (IH _ Hg) as [Hg' Hflag']. split; [exact Hg'|].
      rewrite Hflag', Hflag. reflexivity.
    + destruct (handleEvent_end ref event s Hs) as (Hg & Hflag & _).
      destruct (IH _ Hg) as [Hg' Hflag']. split; [exact Hg'|].
      rewrite Hflag', Hflag. by rewrite orb_assoc.
Qed.

Lemma new_session_quiet source inputs response :
  emitter_state (new_session source inputs response)
  = (false, false, emitted (new_session source inputs response)) ∧
  count_end (emitted (new_session source inputs response)) = 0.
Proof.
  unfold new_session, construct. rewrite exec_bind.
  assert (Hin : ∀ s, end_guarded s → endEmitted s = false → ended s = false →
            let s' := exec (for_each inputs addInput) s in
            end_guarded s' ∧ endEmitted s' = false ∧ ended s' = false).
  { induction inputs as [|x xs IH]; intros s Hg He Hd; simpl; [by auto|].
    rewrite exec_bind.
    destruct (addInput_end x s Hg) as (Hg' & Hflag & _ & Hended).
    unfold exec in *. apply IH; [exact Hg'|congruence|congruence]. }
  destruct (Hin (fresh_session source)) as ((Hg & Hc) & He & Hd);
    [split; [discriminate|reflexivity]|reflexivity|reflexivity|].
  fold (exec (for_each inputs addInput) (fresh_session source)).
  set (s1 := exec (for_each inputs addInput) (fresh_session source)) in *.
  rewrite He in Hc.
  assert (H1 : emitter_state s1 = (false, false, emitted s1))
    by (unfold emitter_state; congruence).
  destruct response as [r|].
  - assert (H2 : preserves (λ s, emitter_state s = (false, false, emitted s1))
                   (snap <- clone_response r ;;
                    modify (set_responseSnapshot (Some snap)) ;;
                    modify (set_status (default Idle (rp_status r))) ;;
                    syncOutputsFromSnapshot)%session).
    { pose proof (clone_response_pres _ (emitter_frame_stable (false, false, emitted s1))).
      pose proof (syncOutputsFromSnapshot_pres _
                    (emitter_frame_stable (false, false, emitted s1))).
      apply preserves_bind; [auto|intros ?].
      apply preserves_bind; [apply preserves_modify; intros; assumption|intros ?].
      apply preserves_bind; [apply preserves_modify; intros; assumption|intros ?].
      auto. }
    specialize (H2 s1 H1).
    match goal with
    | |- context [exec ?m s1] => change (exec m s1) with (m s1).2
    end.
    injection H2 as E1 E2 E3. unfold emitter_state. rewrite E1, E2, E3. auto.
  - simpl. auto.
Qed.

(** C4. Over any sequence of calls on a new session, the [end]
    notification has been emitted once if a terminal event (a
    completed/failed/incomplete lifecycle event or an error event) is among
    the events ingested so far, and not at all otherwise.  As this holds
    after every call, [end] is emitted while the first terminal event is
    handled and never again. *)
Theorem end_emitted_exactly_once source inputs response (cs : list Call) :
  count_end (emitted (run cs (new_session source inputs response)))
  = if existsb call_is_terminal cs then 1 else 0.
Proof.
  destruct (new_session_quiet source inputs response) as [Hq Hc].
  injection Hq as Hd He.
  destruct (run_end cs (new_session source inputs response)) as [[_ Hcount] Hflag].
  - split; [intros E; congruence|]. rewrite He. exact Hc.
  - rewrite Hcount, Hflag, He. reflexivity.
Qed.

(** C5. An [error] event is recorded as the last error, marks the session
    ended, goes out on the [error] channel and on the [change] channel
    (whose snapshot carries the error), and [handleEvent] returns. *)
Theorem error_event_recorded ref message code param seq (s : Session) :
  let s' := exec (handleEvent ref (EvError message code param seq)) s in
  getError s' = Some ref ∧
  ended s' = true ∧
  emitted s'
  = emitted s ++
      [SigEvent ref; SigError ref;
       SigChange (mkSnapshot (messages s) (status s) (responseSnapshot s) (Some ref)
                    (sessionAugmentations s));
       SigStatus (status s)] ++
      (if endEmitted s then [] else [SigEnd (responseSnapshot s)]).
Proof.
  unfold handleEvent, emitChange, emitError, emit, exec, bind, gets, modify, getError.
  simpl. destruct (endEmitted s) eqn:E; simpl; rewrite ?E, <- ?app_assoc; auto.
Qed.

(** C10. An [error] event leaves the status enum as it was. *)
Theorem error_event_keeps_status ref message code param seq (s : Session) :
  getStatus (exec (handleEvent ref (EvError message code param seq)) s) = getStatus s.
Proof.
  unfold handleEvent, emitChange, emitError, emit, exec, bind, gets, modify, getStatus.
  simpl. destruct (endEmitted s); reflexivity.
Qed.

(** ** Response epochs: the reset of the position map *)

(** The loop of [resetCurrentResponseOutputs] only deletes ids: those of
    the output entries at the given positions. *)
Lemma reset_loop_spec (indices : list nat) s :
  let s' := exec (for_each indices (λ index,
                    e <- gets (entry_item index) ;;
                    match e ≫= (λ p, item_id p.2) with
                    | Some outputId =>
                        modify (λ s, set_idToIndex (delete outputId (idToIndex s)) s)
                    | None => ret tt
                    end)) s in
  (∃ ids, s' = set_idToIndex ids s) ∧
  (∀ j, idToIndex s !! j = None → idToIndex s' !! j = None) ∧
  (∀ index r it j,
     index ∈ indices → entry_item index s = Some (r, it) → item_id it = Some j →
     idToIndex s' !! j = None).
Proof.
  revert s. induction indices as [|index rest IH]; intros s; cbv zeta.
  - simpl. split; [|split; [auto|]].
    + exists (idToIndex s). by destruct s.
    + intros index r it j Hin. inversion Hin.
  - simpl for_each. rewrite exec_bind, bind_snd. cbn [gets fst snd].
    fold (exec (match entry_item index s ≫= (λ p, item_id p.2) with
                     | Some outputId =>
                         modify (λ s, set_idToIndex (delete outputId (idToIndex s)) s)
                     | None => ret tt
                     end) s).
    set (s1 := exec (match entry_item index s ≫= (λ p, item_id p.2) with
                     | Some outputId =>
                         modify (λ s, set_idToIndex (delete outputId (idToIndex s)) s)
                     | None => ret tt
                     end) s).
    assert (Hs1 : s1 = set_idToIndex
                         (match entry_item index s ≫= (λ p, item_id p.2) with
                          | Some outputId => delete outputId (idToIndex s)
                          | None => idToIndex s
                          end) s).
    { subst s1. destruct (entry_item index s ≫= (λ p, item_id p.2)); [reflexivity|].
      by destruct s. }
    specialize (IH s1). cbv zeta in IH. destruct IH as ((ids & Hids) & Hnone & Hdel).
    fold s1. split; [|split].
    + exists ids. rewrite Hids, Hs1. reflexivity.
    + intros j Hj. apply Hnone. rewrite Hs1. simpl.
      destruct (entry_item index s ≫= (λ p, item_id p.2)); [|exact Hj].
      rewrite lookup_delete_None. by right.
    + intros index' r it j Hin He Hj.
      apply elem_of_cons in Hin as [->|Hin].
      * apply Hnone. rewrite Hs1, He. simpl. rewrite Hj. simpl.
        apply lookup_delete_eq.
      * apply (Hdel index' r it j Hin); [|exact Hj]. rewrite Hs1. exact He.
Qed.

(** [resetCurrentResponseOutputs] empties the position map, forgets the
    ids of the output entries the map pointed at, adds no id, and touches
    nothing else. *)
Lemma resetCurrentResponseOutputs_spec s :
  let s' := exec resetCurrentResponseOutputs s in
  (∃ ids, s' = set_idToIndex ids (set_outputIndexToMessageIndex ∅ s)) ∧
  (∀ j, idToIndex s !! j = None → idToIndex s' !! j = None) ∧
  (∀ k i r it j,
     outputIndexToMessageIndex s !! k = Some i →
     entry_item i s = Some (r, it) → item_id it = Some j →
     idToIndex s' !! j = None).
Proof.
  cbv zeta. unfold resetCurrentResponseOutputs.
  rewrite exec_bind. cbn [gets fst snd].
  rewrite exec_bind. cbn [modify fst snd].
  match goal with
  | |- context [exec (for_each ?l _) ?s0] =>
      destruct (reset_loop_spec l s0) as ((ids & Hids) & Hnone & Hdel)
  end.
  cbv zeta in *. split; [|split].
  - exists ids. exact Hids.
  - intros j Hj. apply Hnone. exact Hj.
  - intros k i r it j Hk He Hj. apply (Hdel i r it j); [|exact He|exact Hj].
    apply list_elem_of_fmap. exists (k, i). split; [reflexivity|].
    apply elem_of_map_to_list. exact Hk.
Qed.

Lemma resetCurrentResponseOutputs_idem s :
  exec resetCurrentResponseOutputs (exec resetCurrentResponseOutputs s)
  = exec resetCurrentResponseOutputs s.
Proof.
  destruct (resetCurrentResponseOutputs_spec s) as ((ids & Hids) & _ & _).
  cbv zeta in Hids. rewrite Hids.
  unfold resetCurrentResponseOutputs at 1.
  rewrite exec_bind. cbn [gets fst snd].
  simpl outputIndexToMessageIndex. rewrite map_to_list_empty.
  reflexivity.
Qed.

(** The keys of the position map are never dropped outside a reset. *)
Lemma mapped_frame_stable k :
  frame_stable (λ s, is_Some (outputIndexToMessageIndex s !! k)).
Proof.
  apply insensitive_frame_stable; try (intros; assumption).
  intros k' v s Hs. simpl. rewrite lookup_insert_is_Some. 
  destruct (decide (k' = k)); [by left|by right].
Qed.

Lemma current_frame_stable x : frame_stable (λ s, currentResponseId s = x).
Proof. apply insensitive_frame_stable; intros; assumption. Qed.

Lemma mutateSnapshot_lifecycle_reset kind response s :
  resets kind response s = true →
  exec (mutateSnapshot (EvLifecycle kind response)) s
  = exec (mutateSnapshot (EvLifecycle kind response))
      (exec resetCurrentResponseOutputs s).
Proof.
  intros Hr. unfold mutateSnapshot.
  rewrite (exec_bind _ _ s), (exec_bind _ _ (exec resetCurrentResponseOutputs s)).
  cbn [gets fst snd].
  destruct (resetCurrentResponseOutputs_spec s) as ((ids & Hids) & _ & _).
  cbv zeta in Hids.
  assert (Hcur : currentResponseId (exec resetCurrentResponseOutputs s)
                 = currentResponseId s) by (rewrite Hids; reflexivity).
  rewrite Hcur. unfold resets in Hr. rewrite Hr.
  rewrite !(exec_bind_unit resetCurrentResponseOutputs).
  rewrite resetCurrentResponseOutputs_idem.
  reflexivity.
Qed.

Lemma mutateSnapshot_lifecycle_adopts kind response s id :
  rp_id response = Some id →
  currentResponseId (exec (mutateSnapshot (EvLifecycle kind response)) s) = Some id.
Proof.
  intros Hid. revert s.
  change (establishes (λ s, currentResponseId s = Some id)
            (mutateSnapshot (EvLifecycle kind response))).
  unfold mutateSnapshot.
  do 2 (apply establishes_bind_r; intros ?).
  apply establishes_bind_l.
  - intros s. simpl. rewrite Hid. reflexivity.
  - intros _.
    pose proof (clone_response_pres _ (current_frame_stable (Some id)) response).
    pose proof (syncOutputsFromSnapshot_pres _ (current_frame_stable (Some id))).
    apply preserves_bind; [assumption|intros ?].
    do 3 (apply preserves_bind; [apply preserves_modify; intros; assumption|intros ?]).
    assumption.
Qed.

Lemma mutateSnapshot_lifecycle_keeps kind response s k :
  resets kind response s = false →
  is_Some (outputIndexToMessageIndex s !! k) →
  is_Some (outputIndexToMessageIndex
             (exec (mutateSnapshot (EvLifecycle kind response)) s) !! k).
Proof.
  intros Hr. revert s Hr.
  intros s Hr Hk. unfold mutateSnapshot.
  rewrite exec_bind. cbn [gets fst snd].
  unfold resets in Hr. rewrite Hr.
  rewrite exec_bind. cbn [ret fst snd].
  pose proof (clone_response_pres _ (mapped_frame_stable k) response) as Hc.
  pose proof (syncOutputsFromSnapshot_pres _ (mapped_frame_stable k)) as Hsync.
  match goal with
  | |- is_Some (outputIndexToMessageIndex (exec ?m ?s0) !! k) =>
      assert (Hp : preserves (λ s, is_Some (outputIndexToMessageIndex s !! k)) m)
  end.
  { apply preserves_bind; [apply preserves_modify; intros; assumption|intros ?].
    apply preserves_bind; [assumption|intros ?].
    do 3 (apply preserves_bind; [apply preserves_modify; intros; assumption|intros ?]).
    assumption. }
  apply Hp. exact Hk.
Qed.

(** C6. A [response.created] event always resets the
    identity maps, and so does any other lifecycle event whose response id
    is a non-empty string different from the tracked one: the event then
    acts as on a session whose position map was just emptied and whose id
    map has lost the ids of the outputs the position map pointed at.  The
    event's response id becomes the tracked id.  A lifecycle event other
    than [created] whose response id is the tracked one (or is empty) does
    not reset: every key of the position map is kept. *)
Theorem lifecycle_reset kind response (s : Session) :
  let event := EvLifecycle kind response in
  let cleared := exec resetCurrentResponseOutputs s in
  (outputIndexToMessageIndex cleared = ∅ ∧
   ∀ k i r it j,
     outputIndexToMessageIndex s !! k = Some i →
     entry_item i s = Some (r, it) → item_id it = Some j →
     idToIndex cleared !! j = None) ∧
  (kind = LCreated ∨
   (truthy (rp_id response) = true ∧ rp_id response ≠ currentResponseId s) →
   exec (mutateSnapshot event) s = exec (mutateSnapshot event) cleared) ∧
  (∀ id, rp_id response = Some id →
     currentResponseId (exec (mutateSnapshot event) s) = Some id) ∧
  (kind ≠ LCreated →
   truthy (rp_id response) = false ∨ rp_id response = currentResponseId s →
   ∀ k, is_Some (outputIndexToMessageIndex s !! k) →
        is_Some (outputIndexToMessageIndex (exec (mutateSnapshot event) s) !! k)).
Proof.
  cbv zeta.
  destruct (resetCurrentResponseOutputs_spec s) as ((ids & Hids) & _ & Hdel).
  cbv zeta in *. split; [split|split; [|split]].
  - rewrite Hids. reflexivity.
  - exact Hdel.
  - intros Hc. apply mutateSnapshot_lifecycle_reset. unfold resets.
    destruct Hc as [->|[Ht Hne]]; [reflexivity|].
    rewrite Ht, (bool_decide_eq_false_2 _ Hne). by rewrite orb_true_r.
  - intros id. apply mutateSnapshot_lifecycle_adopts.
  - intros Hk Hc k. apply mutateSnapshot_lifecycle_keeps. unfold resets.
    rewrite (bool_decide_eq_false_2 _ Hk). simpl.
    destruct Hc as [->|Heq]; [reflexivity|].
    rewrite (bool_decide_eq_true_2 _ Heq). by rewrite andb_false_r.
Qed.

(** ** What the ensure-functions return *)

Lemma set_idToIndex_same s : set_idToIndex (idToIndex s) s = s.
Proof. by destruct s. Qed.

Lemma set_heap_same s : set_heap (heap s) s = s.
Proof. by destruct s. Qed.

Lemma alter_fix {A} (f : A → A) i (l : list A) x :
  l !! i = Some x → f x = x → alter f i l = l.
Proof.
  intros Hi Hx. apply list_eq. intros j. destruct (decide (i = j)) as [->|Hne].
  - rewrite list_lookup_alter_eq, Hi. simpl. by rewrite Hx.
  - by rewrite list_lookup_alter_ne.
Qed.

Lemma registerItemId_exec id index s :
  registerItemId id index s
  = (tt, set_idToIndex (registered id index (idToIndex s)) s).
Proof.
  unfold registerItemId, registered. destruct id as [i|].
  - destruct (String.eqb i ""%string); [|reflexivity].
    unfold ret. by rewrite set_idToIndex_same.
  - unfold ret. by rewrite set_idToIndex_same.
Qed.

Lemma ensureSnapshotOutputItem_none k type itemId s :
  responseSnapshot s = None →
  ensureSnapshotOutputItem k type itemId s = (None, s).
Proof.
  intros Hs. unfold ensureSnapshotOutputItem, bind, gets. rewrite Hs. reflexivity.
Qed.

Lemma adopt_id_type itemId it : item_type (adopt_id itemId it) = item_type it.
Proof.
  unfold adopt_id. destruct itemId as [i|], (item_id it) as [j|]; try reflexivity.
  destruct (truthy (Some i) && negb (String.eqb j i)); [|reflexivity].
  by destruct it.
Qed.

Lemma alter_lookup {A} (f : A → A) i (l : list A) x :
  l !! i = Some x → alter f i l = <[i := f x]> l.
Proof.
  intros Hi. apply list_eq. intros j. destruct (decide (i = j)) as [->|Hne].
  - rewrite list_lookup_alter_eq, Hi. simpl.
    by rewrite list_lookup_insert_eq by (eapply lookup_lt_Some; exact Hi).
  - by rewrite list_lookup_alter_ne, list_lookup_insert_ne.
Qed.

(** The stored item has the requested type: it is returned itself, after
    the event's id was written into it. *)
Lemma ensureSnapshotOutputItem_match k type itemId s r it :
  snapshot_item k s = Some (r, it) → item_type it = type →
  ensureSnapshotOutputItem k type itemId s
  = (Some r,
     set_idToIndex (registered (item_id (adopt_id itemId it)) k (idToIndex s))
       (set_heap (<[r := adopt_id itemId it]> (heap s)) s)).
Proof.
  intros Hst Hty.
  assert (Hr : heap s !! r = Some it).
  { unfold snapshot_item in Hst. destruct (responseSnapshot s) as [resp|]; [|done].
    destruct (arr_get (resp_output resp) k) as [r0|]; [|done].
    destruct (heap s !! r0) eqn:E; [|done]. by injection Hst as -> ->. }
  assert (Hsnap : is_Some (responseSnapshot s)).
  { unfold snapshot_item in Hst. destruct (responseSnapshot s); [eauto|done]. }
  destruct Hsnap as [resp Hresp].
  unfold ensureSnapshotOutputItem.
  unfold bind at 1. cbn [gets]. rewrite Hresp.
  unfold bind at 1. cbn [gets]. rewrite Hst.
  rewrite decide_True by exact Hty.
  assert (Hcases :
    (match itemId, item_id it with
     | Some i, Some j =>
         if truthy itemId && negb (String.eqb j i)
         then update_item r (set_item_id i) else ret tt
     | _, _ => ret tt
     end) s = (tt, set_heap (<[r := adopt_id itemId it]> (heap s)) s)).
  { unfold adopt_id. destruct itemId as [i|], (item_id it) as [j|];
      try (unfold ret; by rewrite list_insert_id, set_heap_same).
    destruct (truthy (Some i) && negb (String.eqb j i)).
    - unfold update_item, modify. by rewrite (alter_lookup _ _ _ it Hr).
    - unfold ret. by rewrite list_insert_id, set_heap_same. }
  unfold bind at 1. unfold bind at 1. rewrite Hcases. cbn [ret].
  unfold bind, deref, gets. cbn [heap set_heap].
  rewrite list_lookup_insert_eq by (eapply lookup_lt_Some; exact Hr). simpl.
  rewrite registerItemId_exec. reflexivity.
Qed.

Lemma adopt_id_idem itemId it : adopt_id itemId (adopt_id itemId it) = adopt_id itemId it.
Proof.
  unfold adopt_id. destruct itemId as [i|]; [|reflexivity].
  destruct (item_id it) as [j|] eqn:Hj; [|by rewrite Hj].
  destruct (truthy (Some i) && negb (String.eqb j i)) eqn:Hc.
  - assert (Hi : item_id (set_item_id i it) = Some i) by (by destruct it).
    rewrite Hi, String.eqb_refl, andb_false_r. reflexivity.
  - rewrite Hj, Hc. reflexivity.
Qed.

Lemma registered_idem id index ids :
  registered id index (registered id index ids) = registered id index ids.
Proof.
  unfold registered. destruct id as [i|]; [|reflexivity].
  destruct (String.eqb i ""%string); [reflexivity|]. apply insert_insert_eq.
Qed.

Lemma snapshot_item_Some k s r it :
  snapshot_item k s = Some (r, it) →
  heap s !! r = Some it ∧
  ∃ resp, responseSnapshot s = Some resp ∧ arr_get (resp_output resp) k = Some r.
Proof.
  unfold snapshot_item. destruct (responseSnapshot s) as [resp|]; [|done].
  destruct (arr_get (resp_output resp) k) as [r0|] eqn:Hk; [|done].
  destruct (heap s !! r0) eqn:E; [|done]. intros [= -> ->]. eauto.
Qed.

Lemma snapshot_item_intro k s r it resp :
  responseSnapshot s = Some resp → arr_get (resp_output resp) k = Some r →
  heap s !! r = Some it → snapshot_item k s = Some (r, it).
Proof. intros H1 H2 H3. unfold snapshot_item. by rewrite H1, H2, H3. Qed.

(** In the cases of [mutateSnapshot] the stored item of the right type is
    registered, cloned into its transcript entry, then mutated in place. *)
Lemma onSnapshotItem_match chk k type itemId f s r it :
  snapshot_item k s = Some (r, it) → item_type it = type →
  exec (onSnapshotItem chk k type itemId f) s
  = exec (update_item r f)
      (exec (ensureOutputEntry (adopt_id itemId it) k)
         (set_idToIndex (registered (item_id (adopt_id itemId it)) k (idToIndex s))
            (set_heap (<[r := adopt_id itemId it]> (heap s)) s))).
Proof.
  intros Hst Hty.
  destruct (snapshot_item_Some k s r it Hst) as (Hr & resp & Hresp & Hk).
  set (it' := adopt_id itemId it).
  set (s1 := set_idToIndex (registered (item_id it') k (idToIndex s))
               (set_heap (<[r := it']> (heap s)) s)).
  assert (Hlt : r < length (heap s)) by (eapply lookup_lt_Some; exact Hr).
  assert (Hst1 : snapshot_item k s1 = Some (r, it')).
  { apply (snapshot_item_intro k s1 r it' resp); [exact Hresp|exact Hk|].
    simpl. by rewrite list_lookup_insert_eq. }
  assert (Hty1 : item_type it' = type) by (subst it'; by rewrite adopt_id_type).
  unfold onSnapshotItem. rewrite exec_bind.
  rewrite (ensureSnapshotOutputItem_match k type itemId s r it Hst Hty).
  cbn [fst snd]. fold it'. fold s1.
  rewrite exec_bind. unfold deref. cbn [gets fst snd].
  assert (Hd : heap s1 !! r = Some it') by (simpl; by rewrite list_lookup_insert_eq).
  rewrite Hd. simpl fmap. rewrite Hty1, bool_decide_eq_true_2 by reflexivity.
  rewrite orb_true_r.
  rewrite exec_bind. f_equal.
  unfold ensureOutputItemPresence. rewrite bind_snd.
  rewrite (ensureSnapshotOutputItem_match k type itemId s1 r it' Hst1 Hty1).
  cbn [fst snd].
  assert (Hs2 : set_idToIndex
                  (registered (item_id (adopt_id itemId it')) k (idToIndex s1))
                  (set_heap (<[r := adopt_id itemId it']> (heap s1)) s1) = s1).
  { subst it'. rewrite adopt_id_idem. subst s1. cbn [idToIndex heap set_idToIndex set_heap].
    rewrite registered_idem, list_insert_insert_eq. reflexivity. }
  rewrite Hs2. rewrite bind_snd. unfold deref. cbn [gets fst snd].
  rewrite Hd. rewrite bind_snd. reflexivity.
Qed.

Lemma shift_mappings_shape ms i s :
  ∃ ids positions,
    exec (shift_mappings i ms) s
    = set_idToIndex ids (set_outputIndexToMessageIndex positions s).
Proof.
  revert i s. induction ms as [|m ms IH]; intros i s.
  - exists (idToIndex s), (outputIndexToMessageIndex s). by destruct s.
  - simpl shift_mappings. rewrite exec_bind.
    destruct (IH (S i) ((match m with
                 | MOutput _ k _ _ =>
                     modify (λ s0, set_outputIndexToMessageIndex
                                     (<[k:=i]> (outputIndexToMessageIndex s0)) s0)
                 | MInput _ => ret tt
                 end) s).2) as (ids & pos & Hshape).
    rewrite exec_bind. cbn [gets fst snd]. rewrite exec_bind.
    match goal with
    | |- context [exec (shift_mappings (S i) ms) ?s0] =>
        destruct (IH (S i) s0) as (ids' & pos' & ->)
    end.
    destruct m as [x|r k e a]; cbn [modify ret fst snd];
      match goal with
      | |- context [message_item_id ?m ?s0] =>
          destruct (message_item_id m s0) as [j|]; [destruct (String.eqb j ""%string)|]
      end; cbn [modify ret fst snd]; eexists _, _; reflexivity.
Qed.

Lemma insertOutputEntry_shape r id k s :
  (insertOutputEntry r id k s).1 = findInsertionPoint k s ∧
  ∃ ids positions,
    exec (insertOutputEntry r id k) s
    = set_idToIndex (registered id (findInsertionPoint k s) ids)
        (set_outputIndexToMessageIndex positions
           (set_messages
              (splice_in (findInsertionPoint k s) (MOutput r k [] None) (messages s)) s)).
Proof.
  unfold insertOutputEntry. split.
  - rewrite bind_fst. cbn [gets fst snd]. rewrite bind_fst. cbn [modify fst snd].
    rewrite bind_fst, bind_fst. reflexivity.
  - rewrite exec_bind. cbn [gets fst snd]. rewrite exec_bind. cbn [modify fst snd].
    rewrite exec_bind. unfold updateMappingsAfterInsertion at 1.
    rewrite bind_snd. cbn [modify fst snd]. rewrite bind_snd. cbn [gets fst snd].
    match goal with
    | |- context [(shift_mappings ?i ?ms ?s0).2] =>
        fold (exec (shift_mappings i ms) s0);
        destruct (shift_mappings_shape ms i s0) as (ids & pos & ->)
    end.
    rewrite exec_bind, registerItemId_exec. cbn [ret exec fst snd].
    exists ids, pos. reflexivity.
Qed.

(** In an ordered transcript every output from the insertion point on has
    a larger [outputIndex]. *)
Lemma after_insertion_larger k s j m k' :
  ordered s →
  drop (findInsertionPoint k s) (messages s) !! j = Some m → out_key m = Some k' →
  k < k'.
Proof.
  intros [Hsorted _] Hj Hkey.
  destruct (findInsertionPoint_stop k s)
    as [Hd|(r0 & k0 & e & a & rest & Hd & Hlt)]; rewrite Hd in Hj; [inversion Hj|].
  unfold output_indices in Hsorted.
  rewrite <- (take_drop (findInsertionPoint k s) (messages s)), omap_app, Hd in Hsorted.
  apply StronglySorted_app_1_r in Hsorted. simpl in Hsorted.
  apply StronglySorted_cons in Hsorted as [Hall _].
  destruct j as [|j]; simpl in Hj.
  - injection Hj as <-. simpl in Hkey. injection Hkey as <-. exact Hlt.
  - rewrite Forall_forall in Hall.
    assert (k0 ≤ k'); [|lia]. apply Hall.
    apply list_elem_of_omap. exists m. split; [|exact Hkey].
    eapply list_elem_of_lookup_2. exact Hj.
Qed.

Lemma insertOutputEntry_exec r id k s :
  exec (insertOutputEntry r id k) s
  = exec (registerItemId id (findInsertionPoint k s))
      (exec (updateMappingsAfterInsertion (findInsertionPoint k s) k)
         (set_messages
            (splice_in (findInsertionPoint k s) (MOutput r k [] None) (messages s)) s)).
Proof. unfold insertOutputEntry. rewrite !exec_bind. reflexivity. Qed.

(** When no shifted message carries [k], the position map sends [k] to
    the insertion point. *)
Lemma updateMappingsAfterInsertion_key p k s :
  (∀ j m, drop (S p) (messages s) !! j = Some m → out_key m ≠ Some k) →
  outputIndexToMessageIndex (exec (updateMappingsAfterInsertion p k) s) !! k = Some p.
Proof.
  intros Hnone.
  assert (Hsome : is_Some (outputIndexToMessageIndex
                             (exec (updateMappingsAfterInsertion p k) s) !! k)).
  { unfold updateMappingsAfterInsertion.
    rewrite exec_bind. cbn [modify fst snd]. rewrite exec_bind. cbn [gets fst snd].
    apply (shift_mappings_insensitive
             (λ s1, is_Some (outputIndexToMessageIndex s1 !! k))).
    - intros k' v s1 H1. simpl. rewrite lookup_insert_is_Some.
      destruct (decide (k' = k)); [by left|by right].
    - intros; assumption.
    - simpl. rewrite lookup_insert_eq. eauto. }
  destruct Hsome as [v Hv]. rewrite Hv. f_equal.
  destruct (updateMappingsAfterInsertion_spec p k s) as [_ Ho].
  destruct (Ho k v Hv) as [(j & m & Hj & Hkey & _)|[Hold _]].
  - exfalso. exact (Hnone j m Hj Hkey).
  - rewrite lookup_insert_eq in Hold. congruence.
Qed.

Lemma insertOutputEntry_spec r id k s :
  ordered s →
  let p := findInsertionPoint k s in
  let s' := exec (insertOutputEntry r id k) s in
  (insertOutputEntry r id k s).1 = p ∧
  messages s' = splice_in p (MOutput r k [] None) (messages s) ∧
  outputIndexToMessageIndex s' !! k = Some p ∧
  heap s' = heap s ∧ responseSnapshot s' = responseSnapshot s ∧
  (∀ i, id = Some i → i ≠ ""%string → idToIndex s' !! i = Some p).
Proof.
  intros Hs. cbv zeta.
  destruct (insertOutputEntry_shape r id k s) as (Hres & ids & pos & Hshape).
  pose proof (findInsertionPoint_le k s) as Hp.
  split; [exact Hres|].
  split; [rewrite Hshape; reflexivity|].
  split; [|split; [rewrite Hshape; reflexivity|split; [rewrite Hshape; reflexivity|]]].
  - rewrite insertOutputEntry_exec.
    rewrite (proj2 (registerItemId_frame _ _ _)).
    apply updateMappingsAfterInsertion_key.
    intros j m Hj Hkey. simpl messages in Hj.
    rewrite splice_in_drop in Hj by exact Hp.
    pose proof (after_insertion_larger k s j m k Hs Hj Hkey). lia.
  - intros i -> Hne. rewrite Hshape. simpl. unfold registered.
    rewrite (proj2 (String.eqb_neq i ""%string) Hne). apply lookup_insert_eq.
Qed.

Lemma ensureOutputEntry_existing item k s p :
  existing_entry k s = Some p →
  ensureOutputEntry item k s
  = (p, set_idToIndex (registered (item_id item) p (idToIndex s))
          (set_messages
             (alter (λ m, match m with
                          | MOutput _ _ events aug =>
                              MOutput (length (heap s)) k events aug
                          | MInput _ => m
                          end) p (messages s))
             (set_heap (heap s ++ [item]) s))).
Proof.
  intros He. unfold ensureOutputEntry, bind. cbn [gets]. rewrite He.
  cbn [clone alloc update_message modify]. rewrite registerItemId_exec. reflexivity.
Qed.

Lemma ensureOutputEntry_new item k s :
  existing_entry k s = None →
  ensureOutputEntry item k s
  = insertOutputEntry (length (heap s)) (item_id item) k (set_heap (heap s ++ [item]) s).
Proof.
  intros He. unfold ensureOutputEntry. unfold bind at 1. cbn [gets]. rewrite He.
  unfold bind at 1. cbn [clone alloc]. reflexivity.
Qed.

Lemma output_at_Some p s :
  output_at p s = Some p ↔ ∃ r k e a, messages s !! p = Some (MOutput r k e a).
Proof.
  unfold output_at. split.
  - destruct (messages s !! p) as [[x|r k e a]|]; try discriminate. eauto.
  - intros (r & k & e & a & ->). reflexivity.
Qed.

Lemma existing_entry_intro k s p r k' e a :
  outputIndexToMessageIndex s !! k = Some p →
  messages s !! p = Some (MOutput r k' e a) →
  existing_entry k s = Some p.
Proof. intros H1 H2. unfold existing_entry, output_at. by rewrite H1, H2. Qed.

(** What [ensureOutputEntry] leaves behind in an ordered session: the
    entry for [k] holds a fresh clone of the item and both maps point at
    it. *)
Lemma ensureOutputEntry_spec item k s :
  ordered s →
  let p := (ensureOutputEntry item k s).1 in
  let s' := exec (ensureOutputEntry item k) s in
  ordered s' ∧
  existing_entry k s' = Some p ∧
  (∃ e a, messages s' !! p = Some (MOutput (length (heap s)) k e a)) ∧
  heap s' = heap s ++ [item] ∧
  responseSnapshot s' = responseSnapshot s ∧
  (∀ i, item_id item = Some i → i ≠ ""%string → idToIndex s' !! i = Some p) ∧
  (∀ p0, existing_entry k s = Some p0 → p = p0).
Proof.
  intros Hs. cbv zeta.
  split; [apply ensureOutputEntry_ordered, Hs|].
  destruct (existing_entry k s) as [p|] eqn:He.
  - unfold exec. rewrite (ensureOutputEntry_existing item k s p He). cbn [fst snd].
    destruct (existing_entry_Some k s p He) as (Hk & r & k' & e & a & Hp).
    assert (Hp' : alter (λ m, match m with
                              | MOutput _ _ events aug =>
                                  MOutput (length (heap s)) k events aug
                              | MInput _ => m
                              end) p (messages s) !! p
                  = Some (MOutput (length (heap s)) k e a)).
    { by rewrite list_lookup_alter_eq, Hp. }
    split; [|split; [|split; [|split; [|split]]]]; try reflexivity.
    + eapply existing_entry_intro; [exact Hk|exact Hp'].
    + eauto.
    + intros i Hi Hne. simpl. rewrite Hi. unfold registered.
      rewrite (proj2 (String.eqb_neq i ""%string) Hne). apply lookup_insert_eq.
    + intros p0 [= ->]. reflexivity.
  - unfold exec. rewrite (ensureOutputEntry_new item k s He).
    set (s1 := set_heap (heap s ++ [item]) s).
    assert (Hs1 : ordered s1) by (eapply ordered_ext; [| |exact Hs]; reflexivity).
    destruct (insertOutputEntry_spec (length (heap s)) (item_id item) k s1 Hs1)
      as (Hres & Hm & Ho & Hh & Hsnap & Hids).
    cbv zeta in *. unfold exec in *. rewrite Hres.
    assert (Hp : messages (insertOutputEntry (length (heap s)) (item_id item) k s1).2
                 !! findInsertionPoint k s1
                 = Some (MOutput (length (heap s)) k [] None)).
    { rewrite Hm. apply splice_in_lookup_eq, findInsertionPoint_le. }
    split; [|split; [|split; [|split; [|split]]]].
    + eapply existing_entry_intro; [exact Ho|exact Hp].
    + eauto.
    + rewrite Hh. reflexivity.
    + rewrite Hsnap. reflexivity.
    + intros i Hi Hne. apply Hids; assumption.
    + intros p0 Hp0. discriminate.
Qed.

(** ** Delta and done events on a stored message *)

Lemma adopt_id_has_id i it j :
  item_id it = Some j → truthy (Some i) = true →
  item_id (adopt_id (Some i) it) = Some i.
Proof.
  intros Hj Ht. unfold adopt_id. rewrite Hj, Ht. simpl.
  destruct (String.eqb j i) eqn:E; simpl.
  - apply String.eqb_eq in E. congruence.
  - by destruct it.
Qed.

Lemma truthy_Some i : truthy (Some i) = true ↔ i ≠ ""%string.
Proof.
  unfold truthy. rewrite negb_true_iff. split.
  - intros H. by apply String.eqb_neq.
  - intros H. by apply String.eqb_neq.
Qed.

Lemma entry_item_intro p s r k e a it :
  messages s !! p = Some (MOutput r k e a) → heap s !! r = Some it →
  entry_item p s = Some (r, it).
Proof. intros H1 H2. unfold entry_item. by rewrite H1, H2. Qed.

(** An entry found through the position map is also what
    [findOutputEntry] returns when the id lookup gives the same entry or
    nothing. *)
Lemma findOutputEntry_by_position itemId k s p :
  existing_entry k s = Some p →
  (∀ i, itemId = Some i → i ≠ ""%string →
        idToIndex s !! i = Some p ∨ idToIndex s !! i = None) →
  findOutputEntry itemId (Some k) s = Some p.
Proof.
  intros He Hid. unfold findOutputEntry.
  destruct itemId as [i|]; [|exact He].
  destruct (truthy (Some i)) eqn:Ht; [|exact He].
  destruct (Hid i eq_refl (proj1 (truthy_Some i) Ht)) as [Hi|Hi]; rewrite Hi; [|exact He].
  apply existing_entry_Some in He as (_ & r & k' & e & a & Hp).
  unfold output_at. by rewrite Hp.
Qed.

Lemma findOrEnsure_found findId k type itemId s p :
  findOutputEntry findId (Some k) s = Some p →
  findOrEnsure findId k type itemId s = (Some p, s).
Proof. intros H. unfold findOrEnsure, bind, gets. rewrite H. reflexivity. Qed.

Lemma whenEntryOfType_hit p type body s r it :
  entry_item p s = Some (r, it) → item_type it = type →
  whenEntryOfType (Some p) type body s = body p r s.
Proof.
  intros He Hty. unfold whenEntryOfType, bind, gets. rewrite He.
  by rewrite decide_True.
Qed.

Lemma whenEntryOfType_miss p type body s r it :
  entry_item p s = Some (r, it) → item_type it ≠ type →
  whenEntryOfType (Some p) type body s = (tt, s).
Proof.
  intros He Hty. unfold whenEntryOfType, bind, gets. rewrite He.
  by rewrite decide_False.
Qed.

(** One content event on a message that the snapshot already stores at
    output index [k]: [fS] is what the snapshot case does to the content,
    [fT] what the transcript case does. *)
Lemma message_event_step (fS fT : OutputItem → OutputItem) k itemId ref s r it :
  ordered s →
  snapshot_item k s = Some (r, it) → item_type it = TMessage →
  let s2 :=
    exec (entry <- findOrEnsure itemId k TMessage itemId ;;
          whenEntryOfType entry TMessage (λ i r,
            update_item r fT ;; push_event i ref))
      (exec (onSnapshotItem false k TMessage itemId fS) s) in
  ordered s2 ∧
  snapshot_item k s2 = Some (r, fS (adopt_id itemId it)) ∧
  ∃ p rc, existing_entry k s2 = Some p ∧
          entry_item p s2 = Some (rc, fT (adopt_id itemId it)).
Proof.
  intros Hs Hst Hty. cbv zeta.
  destruct (snapshot_item_Some k s r it Hst) as (Hr & resp & Hresp & Hk).
  rewrite (onSnapshotItem_match false k TMessage itemId fS s r it Hst Hty).
  set (it' := adopt_id itemId it).
  set (s0 := set_idToIndex (registered (item_id it') k (idToIndex s))
               (set_heap (<[r := it']> (heap s)) s)).
  assert (Hty' : item_type it' = TMessage) by (subst it'; by rewrite adopt_id_type).
  assert (Hlt : r < length (heap s)) by (eapply lookup_lt_Some; exact Hr).
  assert (Hs0 : ordered s0) by (eapply ordered_ext; [| |exact Hs]; reflexivity).
  destruct (ensureOutputEntry_spec it' k s0 Hs0)
    as (Hord & Hex & (e & a & Hp) & Hheap & Hsnap & Hids & _).
  cbv zeta in *.
  set (p := (ensureOutputEntry it' k s0).1) in *.
  set (s' := exec (ensureOutputEntry it' k) s0) in *.
  assert (Hlen : length (heap s0) = length (heap s)) by (simpl; apply length_insert).
  rewrite Hlen in Hp.
  set (rc := length (heap s)) in *.
  set (s1 := exec (update_item r fS) s').
  assert (Hh1 : heap s1 = alter fS r (heap s')) by reflexivity.
  assert (Hr1 : heap s1 !! r = Some (fS it')).
  { rewrite Hh1, list_lookup_alter_eq, Hheap, lookup_app_l by lia.
    simpl. by rewrite list_lookup_insert_eq. }
  assert (Hrc1 : heap s1 !! rc = Some it').
  { rewrite Hh1, list_lookup_alter_ne, Hheap by (unfold rc; lia).
    rewrite lookup_app_r by (rewrite Hlen; unfold rc; lia).
    rewrite Hlen. unfold rc. by rewrite Nat.sub_diag. }
  assert (Hex1 : existing_entry k s1 = Some p) by exact Hex.
  assert (Hp1 : messages s1 !! p = Some (MOutput rc k e a)) by exact Hp.
  assert (Hfind : findOutputEntry itemId (Some k) s1 = Some p).
  { apply findOutputEntry_by_position; [exact Hex1|].
    intros i -> Hne. left.
    assert (Hid : item_id it' = Some i).
    { destruct it; try discriminate. subst it'.
      eapply adopt_id_has_id; [reflexivity|]. by apply truthy_Some. }
    apply (Hids i Hid Hne). }
  fold s'. fold s1.
  assert (Hfinal :
    exec (entry <- findOrEnsure itemId k TMessage itemId ;;
          whenEntryOfType entry TMessage (λ i r,
            update_item r fT ;; push_event i ref)) s1
    = set_messages
        (alter (λ m, match m with
                     | MOutput r0 k0 events aug => MOutput r0 k0 (events ++ [ref]) aug
                     | MInput _ => m
                     end) p (messages s1))
        (set_heap (alter fT rc (heap s1)) s1)).
  { rewrite exec_bind.
    rewrite (findOrEnsure_found itemId k TMessage itemId s1 p Hfind). cbn [fst snd].
    unfold exec.
    rewrite (whenEntryOfType_hit p TMessage _ s1 rc it'
               (entry_item_intro p s1 rc k e a it' Hp1 Hrc1) Hty').
    reflexivity. }
  rewrite Hfinal.
  assert (Hne : r ≠ rc) by (unfold rc; lia).
  assert (Hord1 : ordered s1) by (eapply ordered_ext; [| |exact Hord]; reflexivity).
  assert (Hsnap1 : responseSnapshot s1 = Some resp)
    by (rewrite <- Hresp; exact Hsnap).
  clearbody s1.
  split; [|split].
  - apply (ordered_alter _ p (set_heap (alter fT rc (heap s1)) s1));
      [intros m _; by destruct m|].
    eapply ordered_ext; [| |exact Hord1]; reflexivity.
  - apply (snapshot_item_intro k _ r (fS it') resp); [exact Hsnap1|exact Hk|].
    cbn [heap set_messages set_heap]. rewrite list_lookup_alter_ne by lia. exact Hr1.
  - exists p, rc. split.
    + apply existing_entry_Some in Hex1 as (Ho & _).
      eapply existing_entry_intro; [exact Ho|].
      cbn [messages set_messages]. rewrite list_lookup_alter_eq, Hp1. reflexivity.
    + eapply entry_item_intro.
      * cbn [messages set_messages]. rewrite list_lookup_alter_eq, Hp1. reflexivity.
      * cbn [heap set_messages set_heap]. rewrite list_lookup_alter_eq, Hrc1.
        reflexivity.
Qed.

(** ** Placeholders *)

Lemma placeholder_type type id : item_type (placeholder type id) = type.
Proof. by destruct type. Qed.

Lemma arr_get_set_eq {A} (a : list (option A)) i (v : A) :
  arr_get (arr_set a i v) i = Some v.
Proof.
  unfold arr_get, arr_set. destruct (decide (i < length a)) as [Hlt|Hge].
  - by rewrite list_lookup_insert_eq.
  - rewrite lookup_app_r by lia. rewrite lookup_app_r by (rewrite length_replicate; lia).
    rewrite length_replicate. by rewrite Nat.sub_diag.
Qed.

Lemma adopt_id_placeholder type itemId s :
  adopt_id itemId (placeholder type (placeholder_id type itemId s))
  = placeholder type (placeholder_id type itemId s).
Proof.
  unfold adopt_id, placeholder_id. destruct itemId as [i|]; [|reflexivity].
  destruct type; simpl; rewrite ?String.eqb_refl, ?andb_false_r; reflexivity.
Qed.

(** No stored item of the requested type: a placeholder is built, the
    snapshot gets a clone of it, and the placeholder itself is returned. *)
Lemma ensureSnapshotOutputItem_build k type itemId s resp :
  responseSnapshot s = Some resp →
  (∀ r it, snapshot_item k s = Some (r, it) → item_type it ≠ type) →
  ensureSnapshotOutputItem k type itemId s
  = (Some (length (heap s)), with_placeholder k type itemId resp s).
Proof.
  intros Hresp Hmiss.
  assert (Hbuild :
    (v <- createPlaceholderOutput type itemId ;;
     p <- alloc v ;;
     setSnapshotOutput k v ;;
     ret p) s
    = (length (heap s),
       set_responseSnapshot
         (Some (mkResponse (resp_id resp) (resp_status resp)
                  (arr_set (resp_output resp) k (S (length (heap s))))))
         (set_heap ((heap s ++ [placeholder type (placeholder_id type itemId s)])
                    ++ [placeholder type (placeholder_id type itemId s)])
            (match itemId with
             | Some _ => s
             | None => set_ticks (S (ticks s)) s
             end)))).
  { unfold createPlaceholderOutput, setSnapshotOutput, placeholder_id.
    destruct itemId as [i|]; unfold bind, ret, makeId, clone, alloc, gets, modify;
      cbn [fst snd responseSnapshot set_heap set_ticks heap]; rewrite Hresp;
      cbn [fst snd heap set_heap]; rewrite ?length_app; simpl length;
      rewrite ?Nat.add_1_r; reflexivity. }
  unfold ensureSnapshotOutputItem.
  unfold bind at 1. cbn [gets]. rewrite Hresp.
  unfold bind at 1. cbn [gets].
  assert (Hitem :
    (match snapshot_item k s with
     | Some (r, it) =>
         if decide (item_type it = type) then
           ((match itemId, item_id it with
             | Some i, Some j =>
                 if truthy itemId && negb (String.eqb j i)
                 then update_item r (set_item_id i) else ret tt
             | _, _ => ret tt
             end) ;; ret r)
         else
           (v <- createPlaceholderOutput type itemId ;;
            p <- alloc v ;;
            setSnapshotOutput k v ;;
            ret p)
     | None =>
         (v <- createPlaceholderOutput type itemId ;;
          p <- alloc v ;;
          setSnapshotOutput k v ;;
          ret p)
     end) = (v <- createPlaceholderOutput type itemId ;;
             p <- alloc v ;;
             setSnapshotOutput k v ;;
             ret p)).
  { destruct (snapshot_item k s) as [[r it]|] eqn:E; [|reflexivity].
    rewrite decide_False by (eapply Hmiss; reflexivity). reflexivity. }
  rewrite Hitem. unfold bind at 1. rewrite Hbuild.
  unfold bind, deref, gets. cbn [heap set_responseSnapshot set_heap].
  rewrite lookup_app_l by (rewrite length_app; simpl; lia).
  rewrite lookup_app_r by lia. rewrite Nat.sub_diag. simpl.
  rewrite registerItemId_exec. unfold with_placeholder.
  destruct itemId; reflexivity.
Qed.

Lemma with_placeholder_snapshot_item k type itemId resp s :
  snapshot_item k (with_placeholder k type itemId resp s)
  = Some (S (length (heap s)), placeholder type (placeholder_id type itemId s)).
Proof.
  unfold snapshot_item, with_placeholder. cbn [responseSnapshot set_idToIndex
    set_responseSnapshot resp_output heap set_heap].
  rewrite arr_get_set_eq.
  rewrite lookup_app_r by (rewrite length_app; simpl; lia).
  rewrite length_app. simpl length.
  replace (S (length (heap s)) - (length (heap s) + 1)) with 0 by lia.
  reflexivity.
Qed.

(** The placeholder case of the item cases of [mutateSnapshot]: the
    transcript entry gets a clone of the snapshot's clone, while the
    update [f] lands on the placeholder that neither of them holds. *)
Lemma onSnapshotItem_build chk k type itemId f s resp :
  responseSnapshot s = Some resp →
  (∀ r it, snapshot_item k s = Some (r, it) → item_type it ≠ type) →
  exec (onSnapshotItem chk k type itemId f) s
  = exec (update_item (length (heap s)) f)
      (exec (ensureOutputEntry (placeholder type (placeholder_id type itemId s)) k)
         (with_placeholder k type itemId resp s)).
Proof.
  intros Hresp Hmiss.
  set (v := placeholder type (placeholder_id type itemId s)).
  set (s1 := with_placeholder k type itemId resp s).
  assert (Hst1 : snapshot_item k s1 = Some (S (length (heap s)), v))
    by apply with_placeholder_snapshot_item.
  assert (Hty : item_type v = type) by apply placeholder_type.
  assert (Hh1 : heap s1 = (heap s ++ [v]) ++ [v])
    by (unfold s1, with_placeholder; destruct itemId; reflexivity).
  assert (Hd : heap s1 !! length (heap s) = Some v).
  { rewrite Hh1, lookup_app_l by (rewrite length_app; simpl; lia).
    rewrite lookup_app_r by lia. by rewrite Nat.sub_diag. }
  assert (Hd' : heap s1 !! S (length (heap s)) = Some v).
  { apply snapshot_item_Some in Hst1 as [H _]. exact H. }
  unfold onSnapshotItem. rewrite exec_bind.
  rewrite (ensureSnapshotOutputItem_build k type itemId s resp Hresp Hmiss).
  cbn [fst snd]. fold s1.
  rewrite exec_bind. unfold deref. cbn [gets fst snd].
  rewrite Hd. simpl fmap. rewrite Hty, bool_decide_eq_true_2 by reflexivity.
  rewrite orb_true_r.
  rewrite exec_bind. f_equal.
  unfold ensureOutputItemPresence. rewrite bind_snd.
  rewrite (ensureSnapshotOutputItem_match k type itemId s1 _ v Hst1 Hty).
  cbn [fst snd].
  assert (Hs2 : set_idToIndex (registered (item_id (adopt_id itemId v)) k (idToIndex s1))
                  (set_heap (<[S (length (heap s)) := adopt_id itemId v]> (heap s1)) s1)
                = s1).
  { unfold v at 1 2. rewrite adopt_id_placeholder. fold v.
    rewrite (list_insert_id _ _ _ Hd').
    unfold s1 at 1, with_placeholder. cbn [idToIndex set_idToIndex]. fold v.
    rewrite registered_idem.
    unfold s1, with_placeholder. fold v. destruct itemId; reflexivity. }
  rewrite Hs2. rewrite bind_snd. unfold deref. cbn [gets fst snd].
  rewrite Hd'. rewrite bind_snd. reflexivity.
Qed.

(** ** The transcript cases, once the entry exists *)

Lemma on_content_keeps f : keeps_identity (on_content f).
Proof. intros []; split; reflexivity. Qed.

Lemma on_summary_keeps f : keeps_identity (on_summary f).
Proof. intros []; split; reflexivity. Qed.

Lemma on_function_arguments_keeps f : keeps_identity (on_function_arguments f).
Proof. intros []; split; reflexivity. Qed.

Lemma on_input_keeps f : keeps_identity (on_input f).
Proof. intros []; split; reflexivity. Qed.

Lemma on_mcp_arguments_keeps f : keeps_identity (on_mcp_arguments f).
Proof. intros []; split; reflexivity. Qed.

Lemma on_code_keeps f : keeps_identity (on_code f).
Proof. intros []; split; reflexivity. Qed.

Lemma set_call_status_keeps st : keeps_identity (set_call_status st).
Proof. intros []; split; reflexivity. Qed.

Lemma id_keeps : keeps_identity id.
Proof. intros it; split; reflexivity. Qed.

Create HintDb keeps.

#[export] Hint Resolve on_content_keeps on_summary_keeps on_function_arguments_keeps
  on_input_keeps on_mcp_arguments_keeps on_code_keeps set_call_status_keeps
  id_keeps : keeps.

Lemma findOutputEntry_of_existing findId k s p :
  existing_entry k s = Some p → is_Some (findOutputEntry findId (Some k) s).
Proof.
  intros He. unfold findOutputEntry.
  destruct findId as [i|]; [|rewrite He; eauto].
  destruct (truthy (Some i)); [|rewrite He; eauto].
  destruct (idToIndex s !! i) as [idx|]; [|rewrite He; eauto].
  destruct (output_at idx s); [eauto|rewrite He; eauto].
Qed.

Section Quiet.
Variable I : Session → Prop.
Hypothesis HI : quiet_stable I.

Lemma update_item_quiet r g : keeps_identity g → preserves I (update_item r g).
Proof. intros Hg s Hs. apply (qs_item I HI); assumption. Qed.

Lemma push_event_quiet i event : preserves I (push_event i event).
Proof.
  intros s Hs. apply (qs_entry I HI); [|exact Hs].
  intros [x|r k e a]; simpl; auto.
Qed.

Lemma update_augmentations_quiet i f : preserves I (update_augmentations i f).
Proof.
  intros s Hs. apply (qs_entry I HI); [|exact Hs].
  intros [x|r k e a]; simpl; auto.
Qed.

Lemma whenEntryOfType_quiet entry type body :
  (∀ i r, preserves I (body i r)) → preserves I (whenEntryOfType entry type body).
Proof. intros Hb. unfold whenEntryOfType. pres; apply Hb. Qed.

Local Hint Resolve update_item_quiet push_event_quiet update_augmentations_quiet
  : pres.
Local Hint Extern 1 (keeps_identity _) => solve [auto with keeps] : pres.

(** With the entry for [k] in place, the transcript case of an item event
    only updates fields of an item and of an entry. *)
Lemma applyToMessages_quiet ref event k type itemId s :
  item_event event = Some (k, type, itemId) → is_mcp_status event = false →
  is_Some (existing_entry k s) →
  I s → I (exec (applyToMessages ref event) s).
Proof.
  intros Hev Hmcp [p Hp] Hs.
  destruct event; try discriminate; simpl in Hev; injection Hev as -> <- <-;
    unfold applyToMessages; rewrite exec_bind;
    first
      [ match goal with
        | |- context [findOrEnsure ?fid k ?ty ?iid s] =>
            destruct (findOutputEntry_of_existing fid k s p Hp) as [q Hq];
            rewrite (findOrEnsure_found fid k ty iid s q Hq)
        end
      | idtac ];
    cbn [gets fst snd];
    (apply preserves_exec; [|exact Hs]);
    apply whenEntryOfType_quiet; intros; pres.
Qed.
End Quiet.

(** ** Settling an output index *)

Lemma alter_keeps_lookup (g : OutputItem → OutputItem) r (h : list OutputItem) r' it :
  keeps_identity g → h !! r' = Some it →
  ∃ it', alter g r h !! r' = Some it' ∧
         item_type it' = item_type it ∧ item_id it' = item_id it.
Proof.
  intros Hg Hr. destruct (decide (r = r')) as [->|Hne].
  - exists (g it). rewrite list_lookup_alter_eq, Hr. split; [reflexivity|apply Hg].
  - exists it. rewrite list_lookup_alter_ne by done. auto.
Qed.

Lemma settled_quiet_stable k type oid p : quiet_stable (settled k type oid p).
Proof.
  split.
  - intros r g s Hg (He & (rs & its & Hst & Hty & Hid) & (rc & itc & Hen & Htc) & Hids).
    split; [exact He|]. split; [|split; [|exact Hids]].
    + destruct (snapshot_item_Some k s rs its Hst) as (Hr & resp & Hresp & Hk).
      destruct (alter_keeps_lookup g r (heap s) rs its Hg Hr) as (it' & H1 & H2 & H3).
      exists rs, it'. split; [|split; congruence].
      apply (snapshot_item_intro k _ rs it' resp); assumption.
    + unfold entry_item in Hen.
      destruct (messages s !! p) as [[x|r0 k0 e0 a0]|] eqn:Hp; try discriminate.
      destruct (heap s !! r0) as [it0|] eqn:Hr0; [|discriminate].
      injection Hen as <- <-.
      destruct (alter_keeps_lookup g r (heap s) r0 it0 Hg Hr0) as (it' & H1 & H2 & H3).
      exists r0, it'. split; [|congruence].
      apply (entry_item_intro p _ r0 k0 e0 a0 it'); assumption.
  - intros i f s Hf (He & Hsnap & (rc & itc & Hen & Htc) & Hids).
    assert (Hlook : ∀ j r0 k0 e0 a0, messages s !! j = Some (MOutput r0 k0 e0 a0) →
              ∃ e1 a1, alter f i (messages s) !! j = Some (MOutput r0 k0 e1 a1)).
    { intros j r0 k0 e0 a0 Hj. destruct (decide (i = j)) as [->|Hne].
      - rewrite list_lookup_alter_eq, Hj. simpl.
        pose proof (Hf (MOutput r0 k0 e0 a0)) as Hm. cbv beta iota in Hm.
        destruct (f (MOutput r0 k0 e0 a0)) as [x|r1 k1 e1 a1]; [contradiction|].
        destruct Hm as [Ha Hb]. subst r1 k1. eauto.
      - rewrite list_lookup_alter_ne by done. eauto. }
    split; [|split; [exact Hsnap|split; [|exact Hids]]].
    + destruct (existing_entry_Some k s p He) as (Ho & r0 & k0 & e0 & a0 & Hp).
      destruct (Hlook p r0 k0 e0 a0 Hp) as (e1 & a1 & Hp').
      eapply existing_entry_intro; [exact Ho|exact Hp'].
    + unfold entry_item in Hen.
      destruct (messages s !! p) as [[x|r0 k0 e0 a0]|] eqn:Hp; try discriminate.
      destruct (heap s !! r0) as [it0|] eqn:Hr0; [|discriminate].
      injection Hen as <- <-.
      destruct (Hlook p r0 k0 e0 a0 Hp) as (e1 & a1 & Hp').
      exists r0, it0. split; [|exact Htc].
      apply (entry_item_intro p _ r0 k0 e1 a1 it0); assumption.
Qed.

(** [ensureOutputEntry] on the item the snapshot stores at [k], followed
    by an in-place update of an older object, settles [k]. *)
Lemma ensure_then_update k type f ru s rs X resp :
  ordered s → responseSnapshot s = Some resp →
  snapshot_item k s = Some (rs, X) → item_type X = type →
  keeps_identity f → ru < length (heap s) →
  let s1 := exec (update_item ru f) (exec (ensureOutputEntry X k) s) in
  ordered s1 ∧ responseSnapshot s1 = Some resp ∧
  ∃ p, settled k type (item_id X) p s1 ∧
       ∀ p0, existing_entry k s = Some p0 → p = p0.
Proof.
  intros Hs Hresp Hst Hty Hf Hru. cbv zeta.
  destruct (snapshot_item_Some k s rs X Hst) as (Hrs & resp' & Hresp' & Hk).
  assert (resp' = resp) as -> by congruence.
  destruct (ensureOutputEntry_spec X k s Hs)
    as (Hord & Hex & (e & a & Hp) & Hheap & Hsnap & Hids & Hsame).
  cbv zeta in *.
  set (p := (ensureOutputEntry X k s).1) in *.
  set (s' := exec (ensureOutputEntry X k) s) in *.
  set (s1 := exec (update_item ru f) s').
  assert (Hh1 : heap s1 = alter f ru (heap s ++ [X]))
    by (unfold s1, update_item, exec, modify; simpl; by rewrite Hheap).
  assert (Hm1 : messages s1 = messages s') by reflexivity.
  assert (Ho1 : outputIndexToMessageIndex s1 = outputIndexToMessageIndex s')
    by reflexivity.
  assert (Hi1 : idToIndex s1 = idToIndex s') by reflexivity.
  assert (Hr1 : responseSnapshot s1 = Some resp) by (rewrite <- Hresp; exact Hsnap).
  assert (Hord1 : ordered s1) by (eapply ordered_ext; [| |exact Hord]; assumption).
  assert (Hex1 : existing_entry k s1 = Some p) by exact Hex.
  clearbody s1 s' p.
  split; [exact Hord1|]. split; [exact Hr1|].
  exists p. split; [|exact Hsame].
  split; [exact Hex1|]. split; [|split].
  - assert (Hl : (heap s ++ [X]) !! rs = Some X)
      by (apply lookup_app_l_Some; exact Hrs).
    destruct (alter_keeps_lookup f ru _ rs X Hf Hl) as (it' & H1 & H2 & H3).
    exists rs, it'. split; [|split; congruence].
    apply (snapshot_item_intro k s1 rs it' resp); [exact Hr1|exact Hk|].
    rewrite Hh1. exact H1.
  - exists (length (heap s)), X. split; [|exact Hty].
    apply (entry_item_intro p s1 _ k e a X); [rewrite Hm1; exact Hp|].
    rewrite Hh1, list_lookup_alter_ne by lia.
    rewrite lookup_app_r by lia. by rewrite Nat.sub_diag.
  - intros i Hi Hne. rewrite Hi1. apply Hids; assumption.
Qed.

Lemma ensureOutputItemPresence_match k type itemId s r it :
  snapshot_item k s = Some (r, it) → item_type it = type →
  exec (ensureOutputItemPresence k type itemId) s
  = exec (ensureOutputEntry (adopt_id itemId it) k)
      (set_idToIndex (registered (item_id (adopt_id itemId it)) k (idToIndex s))
         (set_heap (<[r := adopt_id itemId it]> (heap s)) s)).
Proof.
  intros Hst Hty.
  destruct (snapshot_item_Some k s r it Hst) as (Hr & _).
  unfold ensureOutputItemPresence. rewrite exec_bind.
  rewrite (ensureSnapshotOutputItem_match k type itemId s r it Hst Hty).
  cbn [fst snd]. rewrite exec_bind. unfold deref. cbn [gets fst snd heap set_idToIndex
    set_heap].
  rewrite list_lookup_insert_eq by (eapply lookup_lt_Some; exact Hr).
  rewrite exec_bind. reflexivity.
Qed.

Lemma ensureOutputItemPresence_build k type itemId s resp :
  responseSnapshot s = Some resp →
  (∀ r it, snapshot_item k s = Some (r, it) → item_type it ≠ type) →
  exec (ensureOutputItemPresence k type itemId) s
  = exec (ensureOutputEntry (placeholder type (placeholder_id type itemId s)) k)
      (with_placeholder k type itemId resp s).
Proof.
  intros Hresp Hmiss.
  unfold ensureOutputItemPresence. rewrite exec_bind.
  rewrite (ensureSnapshotOutputItem_build k type itemId s resp Hresp Hmiss).
  cbn [fst snd]. rewrite exec_bind. unfold deref. cbn [gets fst snd].
  assert (Hd : heap (with_placeholder k type itemId resp s) !! length (heap s)
               = Some (placeholder type (placeholder_id type itemId s))).
  { unfold with_placeholder. cbn [heap set_idToIndex set_responseSnapshot set_heap].
    rewrite lookup_app_l by (rewrite length_app; simpl; lia).
    rewrite lookup_app_r by lia. by rewrite Nat.sub_diag. }
  rewrite Hd. rewrite exec_bind. reflexivity.
Qed.

Lemma update_item_id r s : exec (update_item r id) s = s.
Proof.
  unfold update_item, exec, modify. simpl.
  rewrite list_alter_id by reflexivity. apply set_heap_same.
Qed.

Lemma with_placeholder_ordered k type itemId resp s :
  ordered s → ordered (with_placeholder k type itemId resp s).
Proof.
  intros Hs. eapply ordered_ext; [| |exact Hs];
    unfold with_placeholder; destruct itemId; reflexivity.
Qed.

Lemma with_placeholder_existing k' k type itemId resp s :
  existing_entry k' (with_placeholder k type itemId resp s) = existing_entry k' s.
Proof. unfold with_placeholder. destruct itemId; reflexivity. Qed.

(** Both cases at once: after [ensureSnapshotOutputItem], the clone into
    the transcript and an update [f] of the returned object, output index
    [k] is settled on the item of [ensured_item]. *)
Lemma ensured_settles (wrapped : M unit) k type itemId f s resp :
  ordered s → responseSnapshot s = Some resp → keeps_identity f →
  (∀ r it, snapshot_item k s = Some (r, it) → item_type it = type →
     exec wrapped s
     = exec (update_item r f)
         (exec (ensureOutputEntry (adopt_id itemId it) k)
            (set_idToIndex (registered (item_id (adopt_id itemId it)) k (idToIndex s))
               (set_heap (<[r := adopt_id itemId it]> (heap s)) s)))) →
  ((∀ r it, snapshot_item k s = Some (r, it) → item_type it ≠ type) →
     exec wrapped s
     = exec (update_item (length (heap s)) f)
         (exec (ensureOutputEntry (placeholder type (placeholder_id type itemId s)) k)
            (with_placeholder k type itemId resp s))) →
  ordered (exec wrapped s) ∧ is_Some (responseSnapshot (exec wrapped s)) ∧
  ∃ p, settled k type (item_id (ensured_item k type itemId s)) p (exec wrapped s) ∧
       ∀ p0, existing_entry k s = Some p0 → p = p0.
Proof.
  intros Hs Hresp Hf Hmatch Hbuild. unfold ensured_item.
  destruct (snapshot_item k s) as [[r it]|] eqn:Hst;
    [destruct (decide (item_type it = type)) as [Hty|Hty]|].
  - rewrite (Hmatch r it eq_refl Hty).
    destruct (snapshot_item_Some k s r it Hst) as (Hr & resp' & Hresp' & Hk).
    assert (resp' = resp) as -> by congruence.
    assert (Hlt : r < length (heap s)) by (eapply lookup_lt_Some; exact Hr).
    set (it' := adopt_id itemId it).
    set (s0 := set_idToIndex (registered (item_id it') k (idToIndex s))
                 (set_heap (<[r := it']> (heap s)) s)).
    assert (Hs0 : ordered s0) by (eapply ordered_ext; [| |exact Hs]; reflexivity).
    assert (Hst0 : snapshot_item k s0 = Some (r, it')).
    { apply (snapshot_item_intro k s0 r it' resp); [exact Hresp|exact Hk|].
      simpl. by rewrite list_lookup_insert_eq. }
    assert (Hty0 : item_type it' = type) by (subst it'; by rewrite adopt_id_type).
    destruct (ensure_then_update k type f r s0 r it' resp Hs0 Hresp Hst0 Hty0 Hf)
      as (Hord & Hsnap & p & Hset & Hsame);
      [simpl; rewrite length_insert; exact Hlt|].
    split; [exact Hord|]. split; [rewrite Hsnap; eauto|].
    exists p. split; [exact Hset|exact Hsame].
  - assert (Hmiss : ∀ r0 it0, Some (r, it) = Some (r0, it0) → item_type it0 ≠ type)
      by (intros r0 it0 [= <- <-]; exact Hty).
    rewrite (Hbuild Hmiss).
    set (v := placeholder type (placeholder_id type itemId s)).
    set (s1 := with_placeholder k type itemId resp s).
    assert (Hs1 : ordered s1) by apply with_placeholder_ordered, Hs.
    assert (Hr1 : responseSnapshot s1
                  = Some (mkResponse (resp_id resp) (resp_status resp)
                            (arr_set (resp_output resp) k (S (length (heap s))))))
      by reflexivity.
    assert (Hlen : length (heap s) < length (heap s1)).
    { unfold s1, with_placeholder. cbn [heap set_idToIndex set_responseSnapshot set_heap].
      rewrite !length_app. simpl. lia. }
    destruct (ensure_then_update k type f (length (heap s)) s1 _ v _ Hs1 Hr1
                (with_placeholder_snapshot_item k type itemId resp s)
                (placeholder_type _ _) Hf Hlen)
      as (Hord & Hsnap & p & Hset & Hsame).
    split; [exact Hord|]. split; [rewrite Hsnap; eauto|].
    exists p. split; [exact Hset|].
    intros p0 Hp0. apply Hsame. unfold s1. rewrite with_placeholder_existing.
    exact Hp0.
  - assert (Hmiss : ∀ (r0 : nat) (it0 : OutputItem),
              @None (nat * OutputItem) = Some (r0, it0) → item_type it0 ≠ type)
      by (intros r0 it0 H; discriminate H).
    rewrite (Hbuild Hmiss).
    set (v := placeholder type (placeholder_id type itemId s)).
    set (s1 := with_placeholder k type itemId resp s).
    assert (Hs1 : ordered s1) by apply with_placeholder_ordered, Hs.
    assert (Hr1 : responseSnapshot s1
                  = Some (mkResponse (resp_id resp) (resp_status resp)
                            (arr_set (resp_output resp) k (S (length (heap s))))))
      by reflexivity.
    assert (Hlen : length (heap s) < length (heap s1)).
    { unfold s1, with_placeholder. cbn [heap set_idToIndex set_responseSnapshot set_heap].
      rewrite !length_app. simpl. lia. }
    destruct (ensure_then_update k type f (length (heap s)) s1 _ v _ Hs1 Hr1
                (with_placeholder_snapshot_item k type itemId resp s)
                (placeholder_type _ _) Hf Hlen)
      as (Hord & Hsnap & p & Hset & Hsame).
    split; [exact Hord|]. split; [rewrite Hsnap; eauto|].
    exists p. split; [exact Hset|].
    intros p0 Hp0. apply Hsame. unfold s1. rewrite with_placeholder_existing.
    exact Hp0.
Qed.

Lemma onSnapshotItem_settles chk k type itemId f s resp :
  ordered s → responseSnapshot s = Some resp → keeps_identity f →
  let s1 := exec (onSnapshotItem chk k type itemId f) s in
  ordered s1 ∧ is_Some (responseSnapshot s1) ∧
  ∃ p, settled k type (item_id (ensured_item k type itemId s)) p s1 ∧
       ∀ p0, existing_entry k s = Some p0 → p = p0.
Proof.
  intros Hs Hresp Hf. cbv zeta.
  apply (ensured_settles _ k type itemId f s resp Hs Hresp Hf).
  - intros r it Hst Hty. apply onSnapshotItem_match; assumption.
  - intros Hmiss. apply onSnapshotItem_build; assumption.
Qed.

Lemma ensureOutputItemPresence_settles k type itemId s resp :
  ordered s → responseSnapshot s = Some resp →
  let s1 := exec (ensureOutputItemPresence k type itemId) s in
  ordered s1 ∧ is_Some (responseSnapshot s1) ∧
  ∃ p, settled k type (item_id (ensured_item k type itemId s)) p s1 ∧
       ∀ p0, existing_entry k s = Some p0 → p = p0.
Proof.
  intros Hs Hresp. cbv zeta.
  assert (Hret : exec (ensureOutputItemPresence k type itemId ;; ret tt) s
                 = exec (ensureOutputItemPresence k type itemId) s)
    by (rewrite exec_bind; reflexivity).
  rewrite <- Hret.
  apply (ensured_settles _ k type itemId id s resp Hs Hresp id_keeps).
  - intros r it Hst Hty. rewrite Hret, update_item_id.
    apply (ensureOutputItemPresence_match k type itemId s r it Hst Hty).
  - intros Hmiss. rewrite Hret, update_item_id.
    apply (ensureOutputItemPresence_build k type itemId s resp Hresp Hmiss).
Qed.

(** ** One item event, start to end *)

Lemma mutateSnapshot_item_event event k type itemId :
  item_event event = Some (k, type, itemId) → is_mcp_status event = false →
  ∃ chk f, mutateSnapshot event = onSnapshotItem chk k type itemId f ∧
           keeps_identity f.
Proof.
  intros Hev Hmcp.
  destruct event; try discriminate; simpl in Hev; injection Hev as <- <- <-;
    simpl; eexists _, _; (split; [reflexivity|]); auto with keeps.
  destruct part; auto with keeps.
Qed.

Lemma before_change_item ref event x s :
  item_event event = Some x →
  before_change ref event s
  = exec (applyToMessages ref event)
      (exec (mutateSnapshot event) (exec (emit (SigEvent ref)) s)).
Proof. intros Hev. destruct event; try discriminate; reflexivity. Qed.

Lemma emitChange_shape s :
  ∃ log flag, exec emitChange s = set_emitted log (set_endEmitted flag s).
Proof.
  unfold emitChange, exec, bind, gets, emit, modify. simpl.
  destruct (ended s && negb (endEmitted s)); simpl.
  - eexists _, _. reflexivity.
  - eexists _, (endEmitted s). by destruct s.
Qed.

Lemma presence_quiet_stable : quiet_stable (λ s, is_Some (responseSnapshot s)).
Proof. split; intros; assumption. Qed.

Lemma placeholder_has_id type id :
  (∀ n, type ≠ TOther n) → item_id (placeholder type id) = Some id.
Proof. intros H. destruct type; try reflexivity. by destruct (H name). Qed.

Lemma item_event_known event k type itemId :
  item_event event = Some (k, type, itemId) → ∀ n, type ≠ TOther n.
Proof.
  intros Hev n. destruct event; try discriminate; simpl in Hev;
    injection Hev as <- <- <-; try discriminate.
  destruct list_tools; discriminate.
Qed.

(** The id of the item an event with a non-empty id settles on, when the
    stored item (if of the right kind) has an id to overwrite. *)
Lemma ensured_item_adopts k type i s :
  (∀ n, type ≠ TOther n) → i ≠ ""%string →
  (∀ r it, snapshot_item k s = Some (r, it) → item_type it = type →
           is_Some (item_id it)) →
  item_id (ensured_item k type (Some i) s) = Some i.
Proof.
  intros Hknown Hne Hid. unfold ensured_item.
  destruct (snapshot_item k s) as [[r it]|] eqn:Hst;
    [destruct (decide (item_type it = type)) as [Hty|Hty]|];
    try (by apply placeholder_has_id).
  destruct (Hid r it eq_refl Hty) as [j Hj].
  eapply adopt_id_has_id; [exact Hj|]. by apply truthy_Some.
Qed.

Lemma mcp_item_has_id it :
  item_type it = TMcpCall ∨ item_type it = TMcpListTools → is_Some (item_id it).
Proof. destruct it; intros [H|H]; try discriminate H; simpl; eauto. Qed.

(** [recordOutputEvent] on a settled output index: the event is pushed on
    the settled entry. *)
Lemma recordOutputEvent_settled k type oid p itemId ref s :
  settled k type oid p s →
  (∀ i, itemId = Some i → i ≠ ""%string → oid = Some i) →
  settled k type oid p (exec (recordOutputEvent (Some k) itemId ref) s).
Proof.
  intros Hset Hid.
  pose proof Hset as (He & (rs & its & Hst & Hty & Hoid) & (rc & itc & Hen & Htc) & Hids).
  destruct (existing_entry_Some k s p He) as (Ho & r0 & k0 & e0 & a0 & Hp).
  unfold recordOutputEvent. rewrite exec_bind. cbn [gets fst snd].
  destruct (truthy itemId) eqn:Ht.
  - destruct itemId as [i|]; [|discriminate].
    pose proof (proj1 (truthy_Some i) Ht) as Hne.
    assert (Hfind : findOutputEntry (Some i) None s = Some p).
    { unfold findOutputEntry. rewrite Ht, (Hids i (Hid i eq_refl Hne) Hne).
      unfold output_at. by rewrite Hp. }
    rewrite Hfind. rewrite exec_bind. cbn [ret exec fst snd].
    apply (push_event_quiet _ (settled_quiet_stable k type oid p)). exact Hset.
  - assert (Hfind : findOutputEntry itemId None s = None).
    { unfold findOutputEntry. destruct itemId as [i|]; [|reflexivity].
      by rewrite Ht. }
    rewrite Hfind. rewrite exec_bind.
    assert (Hfrom : ensureOutputEntryFromSnapshot k s
              = (Some p,
                 set_idToIndex (registered oid p (idToIndex s))
                   (set_messages
                      (alter (λ m, match m with
                                   | MOutput _ k' events aug => MOutput rs k' events aug
                                   | MInput _ => m
                                   end) p (messages s)) s))).
    { unfold ensureOutputEntryFromSnapshot, bind, gets. rewrite Hst, He.
      unfold update_message, modify. rewrite registerItemId_exec, Hoid. reflexivity. }
    rewrite Hfrom. cbn [fst snd].
    rewrite exec_bind, exec_bind. cbn [ret exec fst snd].
    apply (push_event_quiet _ (settled_quiet_stable k type oid p)).
    destruct (snapshot_item_Some k s rs its Hst) as (Hrs & resp & Hresp & Hk).
    assert (Hp' : alter (λ m, match m with
                              | MOutput _ k' events aug => MOutput rs k' events aug
                              | MInput _ => m
                              end) p (messages s) !! p = Some (MOutput rs k0 e0 a0))
      by (by rewrite list_lookup_alter_eq, Hp).
    split; [|split; [|split]].
    + eapply existing_entry_intro; [exact Ho|exact Hp'].
    + exists rs, its. split; [|auto].
      apply (snapshot_item_intro k _ rs its resp); assumption.
    + exists rs, its. split; [|exact Hty].
      apply (entry_item_intro p _ rs k0 e0 a0 its); [exact Hp'|exact Hrs].
    + intros i Hi Hne. simpl. rewrite Hi. unfold registered.
      rewrite (proj2 (String.eqb_neq i ""%string) Hne). apply lookup_insert_eq.
Qed.

Lemma ensured_item_type k type itemId s :
  item_type (ensured_item k type itemId s) = type.
Proof.
  unfold ensured_item.
  destruct (snapshot_item k s) as [[r it]|];
    [destruct (decide (item_type it = type))|]; try apply placeholder_type.
  by rewrite adopt_id_type.
Qed.

(** An item event on a session with a response snapshot leaves its output
    index settled on [ensured_item], at the position the index already
    had, if any. *)
Lemma item_event_settles ref event k type itemId s resp :
  ordered s → responseSnapshot s = Some resp →
  item_event event = Some (k, type, itemId) →
  let s' := exec (handleEvent ref event) s in
  ordered s' ∧ is_Some (responseSnapshot s') ∧
  ∃ p, settled k type (item_id (ensured_item k type itemId s)) p s' ∧
       ∀ p0, existing_entry k s = Some p0 → p = p0.
Proof.
  intros Hs Hresp Hev. cbv zeta.
  rewrite handleEvent_exec, (before_change_item ref event _ s Hev).
  set (s0 := exec (emit (SigEvent ref)) s).
  assert (Hs0 : ordered s0) by exact Hs.
  assert (Hresp0 : responseSnapshot s0 = Some resp) by exact Hresp.
  assert (Hens : ensured_item k type itemId s0 = ensured_item k type itemId s)
    by reflexivity.
  assert (Hex0 : ∀ p0, existing_entry k s = Some p0 → existing_entry k s0 = Some p0)
    by (intros p0 H; exact H).
  clearbody s0.
  assert (Hmid : ordered (exec (applyToMessages ref event) (exec (mutateSnapshot event) s0))
                 ∧ is_Some (responseSnapshot
                     (exec (applyToMessages ref event) (exec (mutateSnapshot event) s0)))
                 ∧ ∃ p, settled k type (item_id (ensured_item k type itemId s)) p
                          (exec (applyToMessages ref event)
                             (exec (mutateSnapshot event) s0))
                        ∧ ∀ p0, existing_entry k s = Some p0 → p = p0).
  { rewrite <- Hens.
    destruct (is_mcp_status event) eqn:Hmcp.
    - destruct event; try discriminate. simpl in Hev. injection Hev as -> <- ->.
      cbn [mutateSnapshot ret exec snd]. unfold applyToMessages.
      rewrite exec_bind.
      fold (exec (ensureOutputItemPresence k (if list_tools then TMcpListTools else TMcpCall)
                    itemId) s0).
      destruct (ensureOutputItemPresence_settles k
                  (if list_tools then TMcpListTools else TMcpCall) itemId s0 resp Hs0 Hresp0)
        as (Hord & Hsnap & p & Hset & Hsame).
      set (s1 := exec (ensureOutputItemPresence k
                         (if list_tools then TMcpListTools else TMcpCall) itemId) s0) in *.
      rewrite exec_bind. cbn [ret exec fst snd].
      fold (exec (recordOutputEvent (Some k) itemId ref) s1).
      split; [|split].
      + apply (recordOutputEvent_pres _ ordered_frame_stable). exact Hord.
      + pose proof (recordOutputEvent_settled k _ _ p itemId ref s1 Hset) as Hrec.
        assert (Hq : ∀ s2, settled k (if list_tools then TMcpListTools else TMcpCall)
                            (item_id (ensured_item k
                               (if list_tools then TMcpListTools else TMcpCall) itemId s0))
                            p s2 → is_Some (responseSnapshot s2)).
        { intros s2 (_ & (rs & its & Hst & _) & _).
          apply snapshot_item_Some in Hst as (_ & r' & Hr' & _). eauto. }
        apply Hq, Hrec. intros i -> Hne.
        apply ensured_item_adopts; [by destruct list_tools|exact Hne|].
        intros r it _ Hty. apply mcp_item_has_id. destruct list_tools; auto.
      + exists p. split; [|intros p0 Hp0; apply Hsame, Hex0, Hp0].
        apply recordOutputEvent_settled; [exact Hset|].
        intros i -> Hne.
        apply ensured_item_adopts; [by destruct list_tools|exact Hne|].
        intros r it _ Hty. apply mcp_item_has_id. destruct list_tools; auto.
    - destruct (mutateSnapshot_item_event event k type itemId Hev Hmcp)
        as (chk & f & Hmut & Hf).
      rewrite Hmut.
      destruct (onSnapshotItem_settles chk k type itemId f s0 resp Hs0 Hresp0 Hf)
        as (Hord & Hsnap & p & Hset & Hsame).
      set (s1 := exec (onSnapshotItem chk k type itemId f) s0) in *.
      assert (Hex1 : is_Some (existing_entry k s1)) by (destruct Hset as [-> _]; eauto).
      split; [|split].
      + apply (applyToMessages_pres _ ordered_frame_stable). exact Hord.
      + apply (applyToMessages_quiet _ presence_quiet_stable ref event k type itemId);
          assumption.
      + exists p. split; [|intros p0 Hp0; apply Hsame, Hex0, Hp0].
        apply (applyToMessages_quiet _ (settled_quiet_stable k type _ p)
                 ref event k type itemId); assumption. }
  destruct (emitChange_shape
              (exec (applyToMessages ref event) (exec (mutateSnapshot event) s0)))
    as (log & flag & ->).
  exact Hmid.
Qed.

(** ** Identity of a placeholder *)

Lemma existing_entry_alter k s i f :
  (∀ m, same_shape (f m) m) →
  existing_entry k (set_messages (alter f i (messages s)) s) = existing_entry k s.
Proof.
  intros Hf. unfold existing_entry, output_at. simpl.
  destruct (outputIndexToMessageIndex s !! k) as [idx|]; [|reflexivity].
  destruct (decide (i = idx)) as [->|Hne].
  - rewrite list_lookup_alter_eq.
    destruct (messages s !! idx) as [m|]; [|reflexivity]. simpl.
    pose proof (Hf m) as Hm. unfold same_shape in Hm.
    destruct (f m), m; simpl in *; try discriminate; try contradiction; reflexivity.
  - by rewrite list_lookup_alter_ne.
Qed.

Lemma push_event_existing k j ref s :
  existing_entry k (exec (push_event j ref) s) = existing_entry k s.
Proof.
  unfold push_event, update_message, exec, modify. cbn [fst snd].
  apply existing_entry_alter. intros []; simpl; reflexivity.
Qed.

Lemma replace_entry_item_existing k j item s :
  existing_entry k (exec (replace_entry_item j item) s) = existing_entry k s.
Proof.
  unfold replace_entry_item, update_message, clone, alloc, exec, bind, modify.
  cbn [fst snd].
  rewrite <- (existing_entry_alter k s j
    (λ m, match m with
          | MOutput _ k0 events aug => MOutput (length (heap s)) k0 events aug
          | MInput _ => m
          end)) by (intros []; simpl; reflexivity).
  reflexivity.
Qed.

(** An [output_item] event on an output index that has its entry: the
    entry keeps its position and the id of the event's item resolves to
    it. *)
Lemma output_item_event_resolves ref k item (done : bool) i p s :
  ordered s → existing_entry k s = Some p →
  item_id item = Some i → i ≠ ""%string →
  let s' := exec (handleEvent ref (if done then EvOutputItemDone k item
                                   else EvOutputItemAdded k item)) s in
  existing_entry k s' = Some p ∧ idToIndex s' !! i = Some p.
Proof.
  intros Hs He Hi Hne. cbv zeta. rewrite handleEvent_exec.
  match goal with
  | |- context [exec emitChange ?x] => destruct (emitChange_shape x) as (log & flag & ->)
  end.
  cbn [existing_entry idToIndex set_emitted set_endEmitted].
  change (existing_entry k (set_emitted log (set_endEmitted flag ?x)))
    with (existing_entry k x).
  set (s0 := exec (emit (SigEvent ref)) s).
  set (s1 := exec (setSnapshotOutput k item) s0).
  assert (Hs1 : ordered s1).
  { apply (setSnapshotOutput_pres _ ordered_frame_stable). exact Hs. }
  assert (He1 : existing_entry k s1 = Some p).
  { unfold s1, setSnapshotOutput, exec, bind, gets.
    destruct (responseSnapshot s0); exact He. }
  destruct (ensureOutputEntry_spec item k s1 Hs1)
    as (Hord & Hex & _ & _ & _ & Hids & Hsame).
  cbv zeta in *. specialize (Hids i Hi Hne).
  rewrite <- (Hsame p He1) in *.
  assert (Hbefore :
    before_change ref (if done then EvOutputItemDone k item else EvOutputItemAdded k item) s
    = if done then
        exec (push_event (ensureOutputEntry item k s1).1 ref)
          (exec (replace_entry_item (ensureOutputEntry item k s1).1 item)
             (exec (ensureOutputEntry item k) s1))
      else
        exec (push_event (ensureOutputEntry item k s1).1 ref)
          (exec (ensureOutputEntry item k) s1)).
  { unfold before_change. destruct done; cbn [mutateSnapshot applyToMessages];
      fold s0; fold s1; rewrite ?exec_bind; reflexivity. }
  rewrite Hbefore.
  destruct done.
  - rewrite push_event_existing, replace_entry_item_existing. split; [exact Hex|].
    unfold push_event, replace_entry_item, update_message, clone, alloc, exec, bind,
      modify. cbn [fst snd]. exact Hids.
  - rewrite push_event_existing. split; [exact Hex|].
    unfold push_event, update_message, exec, modify. cbn [fst snd]. exact Hids.
Qed.

Lemma run_ordered source inputs response cs :
  ordered (run cs (new_session source inputs response)).
Proof. apply (run_pres ordered ordered_call_stable cs), new_session_ordered. Qed.

Lemma findOutputEntry_by_id i k p s :
  i ≠ ""%string → existing_entry k s = Some p → idToIndex s !! i = Some p →
  ∀ outputIndex, findOutputEntry (Some i) outputIndex s = Some p.
Proof.
  intros Hne He Hi outputIndex. unfold findOutputEntry.
  rewrite (proj2 (truthy_Some i) Hne), Hi.
  apply existing_entry_Some in He as (_ & r & k' & e & a & Hp).
  unfold output_at. by rewrite Hp.
Qed.

(** ** The entry that the position map tracks *)

Lemma count_key_app k (l1 l2 : list Message) :
  count_key k (l1 ++ l2) = count_key k l1 + count_key k l2.
Proof. unfold count_key. by rewrite filter_app, length_app. Qed.

Lemma count_key_alter k f i (ms : list Message) :
  (∀ m, ms !! i = Some m → out_key (f m) = out_key m) →
  count_key k (alter f i ms) = count_key k ms.
Proof.
  unfold count_key. revert i.
  induction ms as [|m ms IH]; intros i Hf; [reflexivity|].
  destruct i as [|i]; simpl.
  - rewrite !filter_cons, (Hf m eq_refl). by destruct (decide (out_key m = Some k)).
  - rewrite !filter_cons.
    destruct (decide (out_key m = Some k)); simpl; [f_equal|];
      apply IH; intros m' Hm'; apply Hf; exact Hm'.
Qed.

Lemma count_key_splice k p (entry : Message) (ms : list Message) :
  out_key entry ≠ Some k →
  count_key k (splice_in p entry ms) = count_key k ms.
Proof.
  intros Hne. unfold splice_in.
  rewrite <- (take_drop p ms) at 3. rewrite !count_key_app. f_equal.
  unfold count_key. rewrite filter_cons. by rewrite decide_False.
Qed.

Lemma count_key_none_after k p (ms : list Message) :
  (∀ j m, p < j → ms !! j = Some m → out_key m ≠ Some k) →
  count_key k (take (S p) ms) = count_key k ms.
Proof.
  intros Hnone. rewrite <- (take_drop (S p) ms) at 2. rewrite count_key_app.
  assert (Hd : count_key k (drop (S p) ms) = 0); [|lia].
  unfold count_key.
  assert (Hall : Forall (λ m, ¬ out_key m = Some k) (drop (S p) ms)).
  { apply Forall_forall. intros m Hm.
    apply list_elem_of_lookup in Hm as [j Hj]. rewrite lookup_drop in Hj.
    apply (Hnone (S p + j) m); [lia|exact Hj]. }
  clear Hnone. induction Hall as [|m l Hm _ IH]; [reflexivity|].
  rewrite filter_cons. by rewrite decide_False.
Qed.

(** [shift_mappings] leaves an output index that it writes at the last of
    the shifted messages that carry it. *)
Lemma shift_mappings_last ms i s k v :
  outputIndexToMessageIndex (exec (shift_mappings i ms) s) !! k = Some v →
  (∃ j m, ms !! j = Some m ∧ out_key m = Some k ∧ v = i + j ∧
          ∀ j' m', j < j' → ms !! j' = Some m' → out_key m' ≠ Some k) ∨
  (outputIndexToMessageIndex s !! k = Some v ∧
   ∀ j m, ms !! j = Some m → out_key m ≠ Some k).
Proof.
  revert i s. induction ms as [|m ms IH]; intros i s.
  - intros Hk. right. split; [exact Hk|]. intros j m Hj. inversion Hj.
  - simpl shift_mappings. rewrite exec_bind.
    set (s1 := ((match m with
                 | MOutput _ k _ _ =>
                     modify (λ s0, set_outputIndexToMessageIndex
                                     (<[k:=i]> (outputIndexToMessageIndex s0)) s0)
                 | MInput _ => ret tt
                 end) s).2).
    assert (Ho1 : outputIndexToMessageIndex s1 =
                    match out_key m with
                    | Some k => <[k:=i]> (outputIndexToMessageIndex s)
                    | None => outputIndexToMessageIndex s
                    end).
    { subst s1. destruct m; simpl; auto. }
    rewrite exec_bind. simpl (gets _ _).1. simpl (gets _ _).2.
    rewrite exec_bind.
    set (s2 := ((match message_item_id m s1 with
                 | Some j =>
                     if String.eqb j ""%string then ret tt
                     else modify (λ s0, set_idToIndex (<[j:=i]> (idToIndex s0)) s0)
                 | None => ret tt
                 end) s1).2).
    assert (Ho2 : outputIndexToMessageIndex s2 = outputIndexToMessageIndex s1).
    { subst s2. destruct (message_item_id m s1) as [j|]; [|auto].
      destruct (String.eqb j ""%string); auto. }
    intros Hk.
    destruct (IH (S i) s2 Hk) as [(j & m' & Hj & Hkey & -> & Hlast)|[Hold Hnone]].
    + left. exists (S j), m'. simpl. split; [exact Hj|]. split; [exact Hkey|].
      split; [lia|]. intros [|j'] m'' Hlt Hj'; [lia|]. simpl in Hj'.
      apply (Hlast j' m''); [lia|exact Hj'].
    + rewrite Ho2, Ho1 in Hold.
      destruct (out_key m) as [k0|] eqn:Hkm.
      * destruct (decide (k0 = k)) as [->|Hne].
        -- rewrite lookup_insert_eq in Hold. left. exists 0, m. simpl.
           split; [reflexivity|]. split; [exact Hkm|]. split; [inversion Hold; lia|].
           intros [|j'] m' Hlt Hj'; [lia|]. simpl in Hj'. eauto.
        -- rewrite lookup_insert_ne in Hold by done. right. split; [exact Hold|].
           intros [|j] m' Hj; simpl in Hj; [|eauto]. inversion Hj; subst. congruence.
      * right. split; [exact Hold|].
        intros [|j] m' Hj; simpl in Hj; [|eauto]. inversion Hj; subst. congruence.
Qed.

Lemma last_mapped_ext s s' :
  messages s' = messages s →
  outputIndexToMessageIndex s' = outputIndexToMessageIndex s →
  last_mapped s → last_mapped s'.
Proof. unfold last_mapped. intros -> ->. auto. Qed.

Lemma last_mapped_alter f i s :
  (∀ m, messages s !! i = Some m → out_key (f m) = out_key m) →
  last_mapped s → last_mapped (set_messages (alter f i (messages s)) s).
Proof.
  intros Hf Hl k p Hk j m Hlt Hj. simpl in Hk, Hj.
  destruct (decide (i = j)) as [->|Hne].
  - rewrite list_lookup_alter_eq in Hj.
    destruct (messages s !! j) as [m0|] eqn:Hm0; [|discriminate].
    simpl in Hj. injection Hj as <-. rewrite (Hf m0 eq_refl).
    exact (Hl k p Hk j m0 Hlt Hm0).
  - rewrite list_lookup_alter_ne in Hj by done. exact (Hl k p Hk j m Hlt Hj).
Qed.

Lemma insertOutputEntry_last r id k :
  preserves last_mapped (insertOutputEntry r id k).
Proof.
  intros s Hl. change (last_mapped (exec (insertOutputEntry r id k) s)).
  rewrite insertOutputEntry_exec.
  set (q := findInsertionPoint k s).
  set (s1 := set_messages (splice_in q (MOutput r k [] None) (messages s)) s).
  assert (Hq : q ≤ length (messages s)) by apply findInsertionPoint_le.
  destruct (registerItemId_frame id q (exec (updateMappingsAfterInsertion q k) s1))
    as [Hm3 Ho3].
  apply (last_mapped_ext (exec (updateMappingsAfterInsertion q k) s1)); [exact Hm3|exact Ho3|].
  destruct (updateMappingsAfterInsertion_spec q k s1) as [Hm _].
  intros κ v Hκ j m Hlt Hj. rewrite Hm in Hj. simpl messages in Hj.
  unfold updateMappingsAfterInsertion in Hκ.
  rewrite exec_bind in Hκ. cbn [modify fst snd] in Hκ.
  rewrite exec_bind in Hκ. cbn [gets fst snd] in Hκ.
  apply shift_mappings_last in Hκ.
  simpl messages in Hκ. rewrite splice_in_drop in Hκ by exact Hq.
  assert (Hafter : ∀ j0 m0, q < j0 →
            splice_in q (MOutput r k [] None) (messages s) !! j0 = Some m0 →
            drop q (messages s) !! (j0 - S q) = Some m0).
  { intros j0 m0 Hj0 Hm0.
    replace j0 with (S q + (j0 - S q)) in Hm0 by lia.
    rewrite splice_in_lookup_gt in Hm0 by exact Hq.
    by rewrite lookup_drop. }
  destruct Hκ as [(j0 & m0 & Hj0 & Hkey & -> & Hlast)|[Hold Hnone]].
  - apply (Hlast (j - S q) m); [lia|]. apply Hafter; [lia|exact Hj].
  - simpl outputIndexToMessageIndex in Hold.
    destruct (decide (q < j)) as [Hgt|Hle].
    { apply (Hnone (j - S q) m). by apply Hafter. }
    destruct (decide (k = κ)) as [<-|Hne].
    + rewrite lookup_insert_eq in Hold. inversion Hold. lia.
    + rewrite lookup_insert_ne in Hold by done.
      destruct (decide (j = q)) as [->|Hjq].
      * rewrite splice_in_lookup_eq in Hj by exact Hq. injection Hj as <-.
        simpl. congruence.
      * rewrite splice_in_lookup_lt in Hj by lia.
        exact (Hl κ v Hold j m Hlt Hj).
Qed.

Lemma last_frame_stable : frame_stable (λ s, ordered s ∧ last_mapped s).
Proof.
  destruct ordered_frame_stable as [Hh Hi Hsn Ha Ht Hsh Hen Hfr].
  split; try (intros v s [Hs Hl]; split; [auto|];
              eapply last_mapped_ext; [| |exact Hl]; reflexivity).
  - intros i f s Hf [Hs Hl]. split; [auto|].
    apply last_mapped_alter; [|exact Hl]. intros m _. apply same_shape_out_key, Hf.
  - intros item k s [Hs Hl]. split; [apply Hen, Hs|].
    change (last_mapped (exec (ensureOutputEntry item k) s)).
    destruct (existing_entry k s) as [i|] eqn:He.
    + unfold exec. rewrite (ensureOutputEntry_existing item k s i He). cbn [snd].
      apply (last_mapped_ext
               (set_messages
                  (alter (λ m, match m with
                               | MOutput _ _ events aug =>
                                   MOutput (length (heap s)) k events aug
                               | MInput _ => m
                               end) i (messages s)) s)); [reflexivity|reflexivity|].
      apply last_mapped_alter; [|exact Hl].
      intros m Hm.
      pose proof (existing_entry_key k s i m (proj2 Hs) He Hm) as Hk.
      destruct m; simpl in *; congruence.
    + unfold exec. rewrite (ensureOutputEntry_new item k s He).
      apply insertOutputEntry_last.
      eapply last_mapped_ext; [| |exact Hl]; reflexivity.
  - intros k s [Hs Hl]. split; [apply Hfr, Hs|].
    change (last_mapped (exec (ensureOutputEntryFromSnapshot k) s)).
    unfold ensureOutputEntryFromSnapshot.
    rewrite exec_bind. cbn [gets fst snd].
    destruct (snapshot_item k s) as [[r it]|]; [|exact Hl].
    rewrite exec_bind. cbn [gets fst snd].
    destruct (existing_entry k s) as [i|] eqn:He.
    + rewrite exec_bind. cbn [update_message modify fst snd].
      rewrite exec_bind.
      match goal with
      | |- context [(registerItemId ?a ?b ?s0).2] =>
          fold (exec (registerItemId a b) s0);
          destruct (registerItemId_frame a b s0) as [Hm Ho];
          apply (last_mapped_ext s0); [exact Hm|exact Ho|]
      end.
      apply last_mapped_alter; [|exact Hl]. intros m _. by destruct m.
    + rewrite exec_bind. cbn [ret exec fst snd].
      apply insertOutputEntry_last, Hl.
Qed.

Lemma last_call_stable : call_stable (λ s, ordered s ∧ last_mapped s).
Proof.
  destruct ordered_call_stable as [Hf [Hst Hed Hcu Hre] Hem Hee Hle Hin].
  split; [apply last_frame_stable|split| | | |];
    try (intros v s [Hs Hl]; split; [auto|];
         eapply last_mapped_ext; [| |exact Hl]; reflexivity).
  - intros s [Hs Hl]. split; [auto|].
    intros k p Hk. simpl in Hk. rewrite lookup_empty in Hk. discriminate.
  - intros x s [Hs Hl]. split; [auto|].
    intros k p Hk j m Hlt Hj. simpl in Hk, Hj.
    destruct (decide (j < length (messages s))) as [Hin'|Hout].
    + rewrite lookup_app_l in Hj by exact Hin'. exact (Hl k p Hk j m Hlt Hj).
    + rewrite lookup_app_r in Hj by lia.
      destruct (j - length (messages s)) as [|n]; simpl in Hj; [|by destruct n].
      injection Hj as <-. discriminate.
Qed.

Lemma run_last source inputs response cs :
  last_mapped (run cs (new_session source inputs response)).
Proof.
  apply (run_pres _ last_call_stable cs).
  unfold new_session. apply preserves_exec.
  - apply construct_pres, last_call_stable.
  - split; [apply fresh_session_ordered|].
    intros k p Hk. simpl in Hk. rewrite lookup_empty in Hk. discriminate.
Qed.

Lemma mapped_existing k s :
  ordered s → is_Some (outputIndexToMessageIndex s !! k) → is_Some (existing_entry k s).
Proof.
  intros [_ Hmap] [p Hp]. destruct (Hmap k p Hp) as (m & Hm & Hkey).
  destruct m as [x|r k' e a]; [discriminate|].
  exists p. eapply existing_entry_intro; eassumption.
Qed.

Lemma tracked_frame_stable k n : frame_stable (tracked k n).
Proof.
  destruct ordered_frame_stable as [Hh Hi Hsn Ha Ht Hsh Hen Hfr].
  destruct (mapped_frame_stable k) as [_ _ _ _ _ Msh Men Mfr].
  split; try (intros v s (Hs & Hk & Hn); split; [auto|split; [exact Hk|exact Hn]]).
  - intros i f s Hf (Hs & Hk & Hn). split; [auto|]. split; [exact Hk|].
    simpl. rewrite count_key_alter; [exact Hn|].
    intros m _. apply same_shape_out_key, Hf.
  - intros item k' s (Hs & Hk & Hn). split; [apply Hen, Hs|].
    split; [apply Men, Hk|].
    change (count_key k (messages (exec (ensureOutputEntry item k') s)) = n).
    rewrite ensureOutputEntry_messages.
    destruct (existing_entry k' s) as [i|] eqn:He.
    + rewrite count_key_alter; [exact Hn|]. intros m Hm.
      pose proof (existing_entry_key k' s i m (proj2 Hs) He Hm) as Hkey.
      destruct m; simpl in *; congruence.
    + rewrite count_key_splice; [exact Hn|]. simpl. intros [= ->].
      destruct (mapped_existing k s Hs Hk) as [p Hp]. congruence.
  - intros k' s (Hs & Hk & Hn). split; [apply Hfr, Hs|].
    split; [apply Mfr, Hk|].
    change (count_key k (messages (exec (ensureOutputEntryFromSnapshot k') s)) = n).
    rewrite ensureOutputEntryFromSnapshot_messages.
    destruct (snapshot_item k' s) as [[r it]|]; [|exact Hn].
    destruct (existing_entry k' s) as [i|] eqn:He.
    + rewrite count_key_alter; [exact Hn|]. intros m _. by destruct m.
    + rewrite count_key_splice; [exact Hn|]. simpl. intros [= ->].
      destruct (mapped_existing k s Hs Hk) as [p Hp]. congruence.
Qed.

(** *** Calls that do not reset the outputs of the current response *)

Section NoReset.
Variable I : Session → Prop.
Hypothesis Hframe : frame_stable I.
Hypothesis Hstatus : ∀ v s, I s → I (set_status v s).
Hypothesis Hended : ∀ v s, I s → I (set_ended v s).
Hypothesis Hcurrent : ∀ v s, I s → I (set_currentResponseId v s).
Hypothesis Hemitted : ∀ v s, I s → I (set_emitted v s).
Hypothesis HendEmitted : ∀ v s, I s → I (set_endEmitted v s).
Hypothesis HlastError : ∀ v s, I s → I (set_lastError v s).
Hypothesis Hinput : ∀ x s, I s → I (set_messages (messages s ++ [MInput x]) s).

Let Hids := fs_ids I Hframe.
Let Hsnapshot := fs_snapshot I Hframe.

Local Hint Resolve Hstatus Hended Hcurrent Hemitted HendEmitted HlastError Hinput
  Hids Hsnapshot : pres.

Lemma emit_no_reset sig : preserves I (emit sig).
Proof. unfold emit. pres. Qed.

Local Hint Resolve emit_no_reset : pres.

Lemma emitChange_no_reset : preserves I emitChange.
Proof. unfold emitChange. pres. Qed.

Lemma mutateSnapshot_no_reset kind response s :
  resets kind response s = false →
  I s → I (exec (mutateSnapshot (EvLifecycle kind response)) s).
Proof.
  intros Hr Hs. unfold mutateSnapshot.
  rewrite exec_bind. cbn [gets fst snd].
  unfold resets in Hr. rewrite Hr.
  rewrite exec_bind. cbn [ret fst snd].
  pose proof (clone_response_pres I Hframe response) as Hc.
  pose proof (syncOutputsFromSnapshot_pres I Hframe) as Hsync.
  match goal with
  | |- I (exec ?m ?s0) => assert (Hp : preserves I m)
  end.
  { apply preserves_bind; [apply preserves_modify; intros; auto|intros ?].
    apply preserves_bind; [assumption|intros ?].
    do 3 (apply preserves_bind; [apply preserves_modify; intros; auto|intros ?]).
    assumption. }
  apply Hp. exact Hs.
Qed.

Lemma call_no_reset (c : Call) s :
  no_reset [c] s = true → I s → I (exec (call c) s).
Proof.
  intros Hc Hs. destruct c as [input|ref event]; simpl call.
  - apply preserves_exec; [|exact Hs].
    unfold addInput, registerItemId.
    pose proof emitChange_no_reset. pres.
  - rewrite handleEvent_exec. apply (preserves_exec I emitChange);
      [apply emitChange_no_reset|].
    unfold before_change.
    set (s0 := exec (emit (SigEvent ref)) s).
    assert (Hs0 : I s0) by (apply (preserves_exec I); [apply emit_no_reset|exact Hs]).
    assert (Hm : I (exec (mutateSnapshot event) s0)).
    { destruct (is_lifecycle event) eqn:Hlc.
      - destruct event; try discriminate Hlc.
        apply mutateSnapshot_no_reset; [|exact Hs0].
        simpl in Hc. rewrite andb_true_r in Hc. apply negb_true_iff in Hc. exact Hc.
      - apply (preserves_exec I); [|exact Hs0].
        by apply (mutateSnapshot_item_pres I Hframe). }
    assert (Ha : I (exec (applyToMessages ref event) (exec (mutateSnapshot event) s0))).
    { apply (preserves_exec I); [|exact Hm]. apply (applyToMessages_pres I Hframe). }
    apply (preserves_exec I);
      [destruct event; pres|].
    apply (preserves_exec I); [|exact Ha].
    unfold emitError. destruct event; pres.
Qed.

Lemma run_no_reset cs s : no_reset cs s = true → I s → I (run cs s).
Proof.
  revert s. induction cs as [|c cs IH]; intros s Hc Hs; [exact Hs|].
  simpl in Hc. apply andb_true_iff in Hc as [Hc Hrest].
  simpl. apply IH; [exact Hrest|].
  apply call_no_reset; [|exact Hs]. simpl. by rewrite Hc.
Qed.
End NoReset.

Lemma run_tracked k n cs s :
  no_reset cs s = true → tracked k n s → tracked k n (run cs s).
Proof.
  apply run_no_reset; try (intros v s0 (Hs & Hk & Hn); split;
    [eapply ordered_ext; [| |exact Hs]; reflexivity|split; [exact Hk|exact Hn]]).
  - apply tracked_frame_stable.
  - intros x s0 (Hs & Hk & Hn). split; [apply (cs_input _ ordered_call_stable), Hs|].
    split; [exact Hk|]. simpl. rewrite count_key_app, Hn.
    assert (count_key k [MInput x] = 0) as -> by reflexivity. lia.
Qed.

(** *** The response snapshot, once there, stays *)

Lemma has_snapshot_same s s' :
  responseSnapshot s' = responseSnapshot s → has_snapshot s → has_snapshot s'.
Proof. unfold has_snapshot. by intros ->. Qed.

Lemma has_snapshot_set x s : has_snapshot (set_responseSnapshot (Some x) s).
Proof. unfold has_snapshot. simpl. eauto. Qed.

Section KeepsSnapshot.
Let Hmessages : ∀ v s, has_snapshot s → has_snapshot (set_messages v s).
Proof. intros v s. by apply has_snapshot_same. Qed.
Let Hpositions : ∀ v s, has_snapshot s → has_snapshot (set_outputIndexToMessageIndex v s).
Proof. intros v s. by apply has_snapshot_same. Qed.
Let Hheap : ∀ v s, has_snapshot s → has_snapshot (set_heap v s).
Proof. intros v s. by apply has_snapshot_same. Qed.
Let Hids : ∀ v s, has_snapshot s → has_snapshot (set_idToIndex v s).
Proof. intros v s. by apply has_snapshot_same. Qed.
Let Haudio : ∀ v s, has_snapshot s → has_snapshot (set_sessionAugmentations v s).
Proof. intros v s. by apply has_snapshot_same. Qed.
Let Hticks : ∀ v s, has_snapshot s → has_snapshot (set_ticks v s).
Proof. intros v s. by apply has_snapshot_same. Qed.
Let Hstatus : ∀ v s, has_snapshot s → has_snapshot (set_status v s).
Proof. intros v s. by apply has_snapshot_same. Qed.
Let Hended : ∀ v s, has_snapshot s → has_snapshot (set_ended v s).
Proof. intros v s. by apply has_snapshot_same. Qed.
Let Hcurrent : ∀ v s, has_snapshot s → has_snapshot (set_currentResponseId v s).
Proof. intros v s. by apply has_snapshot_same. Qed.
Let Hemitted : ∀ v s, has_snapshot s → has_snapshot (set_emitted v s).
Proof. intros v s. by apply has_snapshot_same. Qed.
Let HendEmitted : ∀ v s, has_snapshot s → has_snapshot (set_endEmitted v s).
Proof. intros v s. by apply has_snapshot_same. Qed.
Let HlastError : ∀ v s, has_snapshot s → has_snapshot (set_lastError v s).
Proof. intros v s. by apply has_snapshot_same. Qed.

Local Hint Resolve Hmessages Hpositions Hheap Hids Haudio Hticks Hstatus Hended Hcurrent
  Hemitted HendEmitted HlastError has_snapshot_set : pres.

Lemma ensureSnapshotOutputItem_keeps_snapshot k type itemId :
  preserves has_snapshot (ensureSnapshotOutputItem k type itemId).
Proof.
  unfold ensureSnapshotOutputItem, createPlaceholderOutput, setSnapshotOutput,
    registerItemId, update_item, deref, clone.
  assert (Halloc : ∀ v, preserves has_snapshot (alloc v))
    by (intros v s Hs; simpl; auto with pres).
  assert (Hmake : ∀ prefix, preserves has_snapshot (makeId prefix))
    by (intros v s Hs; simpl; auto with pres).
  pres.
Qed.

Lemma call_keeps_snapshot (c : Call) s :
  has_snapshot s → has_snapshot (exec (call c) s).
Proof.
  assert (Halloc : ∀ v, preserves has_snapshot (alloc v))
    by (intros v s0 Hs0; simpl; auto with pres).
  pose proof ensureSnapshotOutputItem_keeps_snapshot as Hensure.
  pose proof (ensureOutputItemPresence_unwritten has_snapshot
                Hmessages Hpositions Hheap Hids Hensure) as Hpresence.
  pose proof (ensureOutputEntryFromSnapshot_unwritten has_snapshot
                Hmessages Hpositions Hids) as Hfrom.
  pose proof (applyToMessages_unwritten has_snapshot
                Hmessages Hpositions Hheap Hids Haudio Hensure) as Happly.
  assert (Hitems : ∀ items, preserves has_snapshot (clone_items items))
    by (induction items as [|it rest IH]; simpl; unfold clone; pres).
  assert (Hemit : ∀ sig, preserves has_snapshot (emit sig)) by (intros sig; unfold emit; pres).
  assert (Hchange : preserves has_snapshot emitChange) by (unfold emitChange; pres).
  assert (Hmutate : ∀ event, preserves has_snapshot (mutateSnapshot event)).
  { intros event.
    unfold mutateSnapshot, onSnapshotItem, setSnapshotOutput, resetCurrentResponseOutputs,
      syncOutputsFromSnapshot, clone_response, deref, update_item, clone.
    destruct event; pres. }
  intros Hs. apply preserves_exec; [|exact Hs].
  destruct c as [input|ref event]; simpl call.
  - unfold addInput, registerItemId. pres.
  - unfold handleEvent, emitError. pres.
Qed.

Lemma run_keeps_snapshot cs s : has_snapshot s → has_snapshot (run cs s).
Proof.
  revert s. induction cs as [|c cs IH]; intros s Hs; [exact Hs|].
  simpl. apply IH, call_keeps_snapshot, Hs.
Qed.
End KeepsSnapshot.

Lemma run_app cs1 cs2 s : run (cs1 ++ cs2) s = run cs2 (run cs1 s).
Proof. unfold run. apply foldl_app. Qed.

Lemma entry_rank_last k p s :
  last_mapped s → outputIndexToMessageIndex s !! k = Some p →
  entry_rank k p s = count_key k (messages s).
Proof. intros Hl Hk. apply count_key_none_after. exact (Hl k p Hk). Qed.

(** C7. On a session with a response snapshot, let an item event for
    output index [k] find no stored item of its kind there, so that a
    placeholder is built.  Let further calls follow, none of which resets
    the outputs of the current response, and then an event that supplies
    the item id [i] for the same output index, as the [item_id] of an
    item event (the snapshot's item of that kind at [k], if there is one,
    having an id to overwrite, as a placeholder has) or as the id of the
    item of an [output_item.added] or [output_item.done] event.  Then the
    lookup by [i] and the lookup by [k] resolve to one entry, and it is
    the placeholder's: it has the rank, among the messages of output
    index [k], that the placeholder's entry had when it was built. *)
Theorem placeholder_id_adopted source inputs response cs
    ref1 e1 mid ref2 e2 k type1 itemId1 i :
  let s := run cs (new_session source inputs response) in
  let s1 := exec (handleEvent ref1 e1) s in
  let s' := run mid s1 in
  let s2 := exec (handleEvent ref2 e2) s' in
  is_Some (responseSnapshot s) →
  item_event e1 = Some (k, type1, itemId1) →
  (∀ r it, snapshot_item k s = Some (r, it) → item_type it ≠ type1) →
  no_reset mid s1 = true →
  supplies_id e2 k i → i ≠ ""%string →
  (∀ type2 r it, item_event e2 = Some (k, type2, Some i) →
     snapshot_item k s' = Some (r, it) → item_type it = type2 →
     is_Some (item_id it)) →
  ∃ p1 p2, findOutputEntry None (Some k) s1 = Some p1 ∧
           findOutputEntry (Some i) None s2 = Some p2 ∧
           findOutputEntry None (Some k) s2 = Some p2 ∧
           findOutputEntry (Some i) (Some k) s2 = Some p2 ∧
           entry_rank k p2 s2 = entry_rank k p1 s1.
Proof.
  intros s s1 s' s2 [resp Hresp] Hev1 Hmiss Hmid Hsup Hne Hid.
  pose proof (run_ordered source inputs response cs) as Hs. fold s in Hs.
  assert (Hrun1 : s1 = run (cs ++ [CallHandleEvent ref1 e1])
                         (new_session source inputs response))
    by (by rewrite run_app).
  assert (Hrun' : s' = run ((cs ++ [CallHandleEvent ref1 e1]) ++ mid)
                         (new_session source inputs response))
    by (by rewrite run_app, <- Hrun1).
  assert (Hrun2 : s2 = run (((cs ++ [CallHandleEvent ref1 e1]) ++ mid)
                              ++ [CallHandleEvent ref2 e2])
                         (new_session source inputs response))
    by (by rewrite run_app, <- Hrun').
  assert (Hl1 : last_mapped s1) by (rewrite Hrun1; apply run_last).
  assert (Hl2 : last_mapped s2) by (rewrite Hrun2; apply run_last).
  assert (Hs' : ordered s') by (rewrite Hrun'; apply run_ordered).
  destruct (item_event_settles ref1 e1 k type1 itemId1 s resp Hs Hresp Hev1)
    as (Hs1 & Hsn1 & p1 & (He1 & _) & _).
  fold s1 in Hs1, Hsn1, He1.
  pose proof (proj1 (existing_entry_Some k s1 p1 He1)) as Hk1.
  assert (Ht1 : tracked k (count_key k (messages s1)) s1).
  { split; [exact Hs1|]. split; [rewrite Hk1; eauto|reflexivity]. }
  pose proof (run_tracked k _ mid s1 Hmid Ht1) as Ht'. fold s' in Ht'.
  assert (Hnr : no_reset [CallHandleEvent ref2 e2] s' = true).
  { simpl. rewrite andb_true_r. apply negb_true_iff.
    destruct Hsup as [[type2 Hev2]|(item & [->| ->] & _)]; [|reflexivity|reflexivity].
    destruct e2; try discriminate Hev2; reflexivity. }
  pose proof (run_tracked k _ [CallHandleEvent ref2 e2] s' Hnr Ht') as Ht2.
  change (run [CallHandleEvent ref2 e2] s') with s2 in Ht2.
  destruct Ht' as (_ & Hk' & _).
  destruct (mapped_existing k s' Hs' Hk') as [p2 He'].
  assert (Hsn' : has_snapshot s') by (apply run_keeps_snapshot; exact Hsn1).
  destruct Hsn' as [resp' Hresp'].
  assert (Hgoal : existing_entry k s2 = Some p2 ∧ idToIndex s2 !! i = Some p2).
  { destruct Hsup as [[type2 Hev2]|(item & Hitem & Hi)].
    - destruct (item_event_settles ref2 e2 k type2 (Some i) s' resp' Hs' Hresp' Hev2)
        as (_ & _ & q & Hset2 & Hsame).
      fold s2 in Hset2. rewrite (Hsame p2 He') in Hset2.
      destruct Hset2 as (He2 & _ & _ & Hids).
      split; [exact He2|]. apply Hids; [|exact Hne].
      apply ensured_item_adopts; [exact (item_event_known _ _ _ _ Hev2)|exact Hne|].
      intros r it Hst Hty. exact (Hid type2 r it Hev2 Hst Hty).
    - destruct Hitem as [->| ->].
      + exact (output_item_event_resolves ref2 k item false i p2 s' Hs' He' Hi Hne).
      + exact (output_item_event_resolves ref2 k item true i p2 s' Hs' He' Hi Hne). }
  destruct Hgoal as [He2 Hi2].
  exists p1, p2.
  split; [exact He1|].
  split; [exact (findOutputEntry_by_id i k p2 s2 Hne He2 Hi2 None)|].
  split; [exact He2|].
  split; [exact (findOutputEntry_by_id i k p2 s2 Hne He2 Hi2 (Some k))|].
  rewrite (entry_rank_last k p2 s2 Hl2 (proj1 (existing_entry_Some k s2 p2 He2))).
  rewrite (entry_rank_last k p1 s1 Hl1 Hk1).
  exact (proj2 (proj2 Ht2)).
Qed.

(** C7, the claim as first stated fails in two ways.  Across a
    [response.created] event, which resets the position map: the text
    delta that supplies the id [msg_1] for output index 0 after it builds
    a second entry, to which both lookups resolve, and the placeholder's
    entry, at position 0, is left as it was.  And on an item that has no
    id to overwrite: after an [output_item.added] event has put a
    function call without id at output index 0, the delta that supplies
    the id [fc_9] is applied to the entry of output index 0, but the id
    is not adopted, and the lookup by it finds nothing. *)
Lemma placeholder_not_resolved :
  (let s1 := exec (handleEvent 1 (EvOutputTextDelta 0 None 0 "Hel"%string)) sample_session in
   let s' := exec (handleEvent 2 (EvLifecycle LCreated (sample_response []))) s1 in
   let s2 := exec (handleEvent 3 (EvOutputTextDelta 0 (Some "msg_1"%string) 0 "lo"%string))
               s' in
   findOutputEntry None (Some 0) s1 = Some 0 ∧
   findOutputEntry (Some "msg_1"%string) None s2 = Some 1 ∧
   findOutputEntry None (Some 0) s2 = Some 1 ∧
   getMessages s2 !! 0 = getMessages s1 !! 0 ∧
   entry_rank 0 0 s1 = 1 ∧ entry_rank 0 1 s2 = 2) ∧
  (let call := IFunctionCall None "call_1" "lookup" "" (Some "in_progress") in
   let s1 := exec (handleEvent 1 (EvFunctionCallArgumentsDelta 0 None "{"%string))
               sample_session in
   let mid := [CallHandleEvent 2 (EvOutputItemAdded 0 call)] in
   let s' := run mid s1 in
   let s2 := exec (handleEvent 3 (EvFunctionCallArgumentsDelta 0 (Some "fc_9"%string)
                                    "}"%string)) s' in
   no_reset mid s1 = true ∧
   findOutputEntry None (Some 0) s1 = Some 0 ∧
   (snd <$> snapshot_item 0 s') = Some call ∧
   findOutputEntry None (Some 0) s2 = Some 0 ∧
   (snd <$> entry_item 0 s2) = Some (IFunctionCall None "call_1" "lookup" "}"
                                       (Some "in_progress")) ∧
   findOutputEntry (Some "fc_9"%string) None s2 = None).
Proof. vm_compute. repeat split; reflexivity. Qed.

(** An id that arrives on a [partial_image] event only: [recordOutputEvent]
    registers the id of the entry's item, here the generated id of the
    placeholder, and the lookup by the supplied id finds nothing. *)
Example partial_image_id_not_adopted :
  let s1 := exec (handleEvent 1 (EvImageGenerationCall PhInProgress 0 None))
              sample_session in
  let s2 := exec (handleEvent 2 (EvPartialImage 0 (Some "ig_1"%string) "b64"%string)) s1 in
  snapshot_item 0 sample_session = None ∧
  findOutputEntry None (Some 0) s1 = Some 0 ∧
  findOutputEntry None (Some 0) s2 = Some 0 ∧
  findOutputEntry (Some "ig_1"%string) None s2 = None.
Proof. vm_compute. repeat split; reflexivity. Qed.

Lemma placeholder_id_adopted_witness :
  let s1 := exec (handleEvent 1 (EvOutputTextDelta 1 None 0 "Hel"%string))
              (run [] sample_session) in
  let s' := run [CallHandleEvent 2 (EvOutputItemAdded 0 sample_call)] s1 in
  let s2 := exec (handleEvent 3 (EvOutputTextDelta 1 (Some "msg_1"%string) 0 "lo"%string))
              s' in
  ∃ p1 p2, findOutputEntry None (Some 1) s1 = Some p1 ∧
           findOutputEntry (Some "msg_1"%string) None s2 = Some p2 ∧
           findOutputEntry None (Some 1) s2 = Some p2 ∧
           findOutputEntry (Some "msg_1"%string) (Some 1) s2 = Some p2 ∧
           entry_rank 1 p2 s2 = entry_rank 1 p1 s1.
Proof.
  apply (placeholder_id_adopted sample_ids [] (Some (sample_response [])) []
           1 (EvOutputTextDelta 1 None 0 "Hel"%string)
           [CallHandleEvent 2 (EvOutputItemAdded 0 sample_call)]
           3 (EvOutputTextDelta 1 (Some "msg_1"%string) 0 "lo"%string)
           1 TMessage None "msg_1"%string).
  - vm_compute. eauto.
  - reflexivity.
  - intros r it H. vm_compute in H. discriminate H.
  - reflexivity.
  - left. exists TMessage. reflexivity.
  - discriminate.
  - intros type2 r it _ H _. vm_compute in H. injection H as _ <-. simpl. eauto.
Defined.

(** ** A delta on an item of another kind *)

Lemma delta_item_event event x : delta_event event = Some x → item_event event = Some x.
Proof. destruct event; try discriminate; exact id. Qed.

Lemma onSnapshotItem_none chk k type itemId f s :
  responseSnapshot s = None → onSnapshotItem chk k type itemId f s = (tt, s).
Proof.
  intros Hs. unfold onSnapshotItem, bind.
  by rewrite ensureSnapshotOutputItem_none.
Qed.

Lemma mutateSnapshot_no_snapshot event s :
  is_lifecycle event = false → responseSnapshot s = None →
  mutateSnapshot event s = (tt, s).
Proof.
  intros Hev Hs.
  destruct event; try discriminate; try reflexivity;
    unfold mutateSnapshot;
    first [ by apply onSnapshotItem_none
          | unfold setSnapshotOutput, bind, gets; by rewrite Hs ].
Qed.

(** *** Without a response snapshot *)

Lemma touches_only_bind i r (m1 m2 : M unit) :
  touches_only i r m1 → touches_only i r m2 → touches_only i r (m1 ;; m2)%session.
Proof.
  intros H1 H2 s. rewrite exec_bind_unit.
  destruct (H1 s) as (Ha & Hb & Hc & Hd).
  destruct (H2 (exec m1 s)) as (Ha' & Hb' & Hc' & Hd').
  split; [|split; [|split]].
  - intros j Hj. rewrite Ha' by exact Hj. by apply Ha.
  - intros r' Hr'. rewrite Hb' by exact Hr'. by apply Hb.
  - by rewrite Hc'.
  - by rewrite Hd'.
Qed.

Lemma update_item_touches i r f : touches_only i r (update_item r f).
Proof.
  intros s. unfold update_item, exec, modify. simpl.
  repeat split; try reflexivity. intros r' Hr'. by rewrite list_lookup_alter_ne.
Qed.

Lemma update_message_touches i r f : touches_only i r (update_message i f).
Proof.
  intros s. unfold update_message, exec, modify. simpl.
  repeat split; try reflexivity. intros j Hj. by rewrite list_lookup_alter_ne.
Qed.

Lemma push_event_touches i r ref : touches_only i r (push_event i ref).
Proof. apply update_message_touches. Qed.

Lemma update_augmentations_touches i r f : touches_only i r (update_augmentations i f).
Proof. apply update_message_touches. Qed.

Create HintDb touches.
#[local] Hint Resolve touches_only_bind update_item_touches push_event_touches
  update_augmentations_touches : touches.

Section Mismatch.
Variables (k : nat) (type : ItemType) (p : nat) (r : Ref) (it : OutputItem) (s : Session).
Hypothesis Hnone : responseSnapshot s = None.
Hypothesis Hentry : entry_item p s = Some (r, it).
Hypothesis Hmiss : item_type it ≠ type.

(** What a transcript case leaves alone when the entry at [p] holds an
    item of another kind. *)
Let kept (s' : Session) : Prop :=
  messages s' !! p = messages s !! p ∧ heap s' !! r = heap s !! r ∧
  outputIndexToMessageIndex s' = outputIndexToMessageIndex s ∧
  responseSnapshot s' = None.

Lemma whenEntryOfType_mismatch entry body :
  (∀ i r', touches_only i r' (body i r')) →
  kept (exec (whenEntryOfType entry type body) s).
Proof.
  intros Hbody. unfold kept.
  assert (Hsame : kept s) by (unfold kept; auto).
  destruct entry as [q|]; [|exact Hsame].
  unfold whenEntryOfType, exec, bind, gets. cbn [fst snd].
  destruct (entry_item q s) as [[rq itq]|] eqn:Hq; [|exact Hsame].
  destruct (decide (item_type itq = type)) as [Hty|]; [|exact Hsame].
  assert (Hqp : p ≠ q).
  { intros ->. rewrite Hentry in Hq. injection Hq as _ <-. contradiction. }
  assert (Hr : r ≠ rq).
  { intros ->. unfold entry_item in Hentry, Hq.
    destruct (messages s !! p) as [[x|r1 k1 e1 a1]|]; try discriminate Hentry.
    destruct (messages s !! q) as [[x|r2 k2 e2 a2]|]; try discriminate Hq.
    destruct (heap s !! r1) as [v1|] eqn:E1; [|discriminate Hentry].
    destruct (heap s !! r2) as [v2|] eqn:E2; [|discriminate Hq].
    injection Hentry as -> ->. injection Hq as -> ->.
    rewrite E1 in E2. injection E2 as ->. contradiction. }
  destruct (Hbody q rq s) as (Ha & Hb & Hc & Hd).
  split; [by apply Ha|]. split; [by apply Hb|]. split; [exact Hc|].
  by rewrite <- Hnone.
Qed.

Lemma find_mismatch findId body :
  (∀ i r', touches_only i r' (body i r')) →
  kept (exec (entry <- gets (findOutputEntry findId (Some k)) ;;
              whenEntryOfType entry type body)%session s).
Proof. intros Hbody. rewrite exec_bind. by apply whenEntryOfType_mismatch. Qed.

Lemma findOrEnsure_mismatch findId itemId body :
  (∀ i r', touches_only i r' (body i r')) →
  kept (exec (entry <- findOrEnsure findId k type itemId ;;
              whenEntryOfType entry type body)%session s).
Proof.
  intros Hbody. rewrite exec_bind.
  assert (Hfind : findOrEnsure findId k type itemId s
                  = (findOutputEntry findId (Some k) s, s)).
  { unfold findOrEnsure, bind, gets. cbn [fst snd].
    destruct (findOutputEntry findId (Some k) s) as [q|]; [reflexivity|].
    unfold ensureOutputItemPresence, bind.
    by rewrite ensureSnapshotOutputItem_none. }
  rewrite Hfind. by apply whenEntryOfType_mismatch.
Qed.

Lemma applyToMessages_mismatch ref event itemId :
  delta_event event = Some (k, type, itemId) →
  kept (exec (applyToMessages ref event) s).
Proof.
  intros Hev.
  destruct event; try discriminate Hev; simpl in Hev; injection Hev as Hk Hty Hid;
    cbn [applyToMessages]; rewrite Hk, Hty;
    first [ apply findOrEnsure_mismatch | apply find_mismatch ];
    intros i r'; auto 6 with touches.
Qed.
End Mismatch.

Lemma delta_without_snapshot k type p r it s ref event itemId :
  responseSnapshot s = None → entry_item p s = Some (r, it) → item_type it ≠ type →
  delta_event event = Some (k, type, itemId) →
  let s' := exec (handleEvent ref event) s in
  messages s' !! p = messages s !! p ∧ heap s' !! r = heap s !! r ∧
  outputIndexToMessageIndex s' = outputIndexToMessageIndex s ∧
  responseSnapshot s' = None.
Proof.
  intros Hnone Hentry Hmiss Hev. cbv zeta.
  rewrite handleEvent_exec, (before_change_item ref event _ s (delta_item_event _ _ Hev)).
  match goal with
  | |- context [exec emitChange ?x] => destruct (emitChange_shape x) as (log & flag & ->)
  end.
  set (s0 := exec (emit (SigEvent ref)) s).
  assert (Hm : exec (mutateSnapshot event) s0 = s0).
  { unfold exec. rewrite mutateSnapshot_no_snapshot; [reflexivity| |exact Hnone].
    by destruct event. }
  rewrite Hm.
  exact (applyToMessages_mismatch k type p r it s0 Hnone Hentry Hmiss ref event itemId Hev).
Qed.

Lemma ensured_item_mismatch k type itemId s :
  (∀ r it, snapshot_item k s = Some (r, it) → item_type it ≠ type) →
  ensured_item k type itemId s = placeholder type (placeholder_id type itemId s).
Proof.
  intros Hmiss. unfold ensured_item.
  destruct (snapshot_item k s) as [[r it]|]; [|reflexivity].
  destruct (decide (item_type it = type)) as [Heq|]; [|reflexivity].
  by destruct (Hmiss r it eq_refl).
Qed.

(** C3. A delta event for output index [k] that implies an item of kind
    [type], handled in any reachable session.  Without a response
    snapshot, if the transcript entry of [k] holds an item of another
    kind, the event is a no-op on it: there is still no snapshot, the
    entry keeps its position, its item object and all that it records,
    and the item is as it was.  With a response snapshot the output index
    is settled on the event's kind: afterwards the snapshot stores at [k]
    an item of that kind, the transcript entry of [k], at the position it
    had if it existed, holds an item of that kind, and where it was the
    snapshot's item that had another kind, the snapshot's new item
    carries the placeholder's id.  So an item of another kind is
    replaced.  In both cases the call returns. *)
Theorem mismatched_delta_outcome source inputs response cs ref event k type itemId :
  let s := run cs (new_session source inputs response) in
  let s' := exec (handleEvent ref event) s in
  delta_event event = Some (k, type, itemId) →
  (getResponse s = None →
   ∀ p r it, existing_entry k s = Some p → entry_item p s = Some (r, it) →
     item_type it ≠ type →
     getResponse s' = None ∧ existing_entry k s' = Some p ∧
     getMessages s' !! p = getMessages s !! p ∧ entry_item p s' = Some (r, it)) ∧
  (is_Some (getResponse s) →
   ∃ p rs its rc itc,
     existing_entry k s' = Some p ∧
     snapshot_item k s' = Some (rs, its) ∧ item_type its = type ∧
     entry_item p s' = Some (rc, itc) ∧ item_type itc = type ∧
     (∀ p0, existing_entry k s = Some p0 → p = p0) ∧
     (∀ r it, snapshot_item k s = Some (r, it) → item_type it ≠ type →
        item_id its = Some (placeholder_id type itemId s))).
Proof.
  intros s s' Hev. unfold getResponse, getMessages. split.
  - intros Hnone p r it He Hen Hty.
    destruct (delta_without_snapshot k type p r it s ref event itemId Hnone Hen Hty Hev)
      as (Hm & Hh & Ho & Hr).
    fold s' in Hm, Hh, Ho, Hr.
    assert (Hen' : entry_item p s' = Some (r, it)).
    { unfold entry_item in Hen.
      destruct (messages s !! p) as [[x|r1 k1 e1 a1]|] eqn:Emsg; try discriminate Hen.
      destruct (heap s !! r1) as [v|] eqn:E; [|discriminate Hen].
      injection Hen as -> ->.
      unfold entry_item. by rewrite Hm, Hh, E. }
    split; [exact Hr|]. split; [|split; [exact Hm|exact Hen']].
    unfold existing_entry, output_at in He |- *. rewrite Ho.
    destruct (outputIndexToMessageIndex s !! k) as [idx|]; [|discriminate He].
    destruct (messages s !! idx) as [[x|r1 k1 e1 a1]|] eqn:E; try discriminate He.
    injection He as ->. by rewrite Hm, E.
  - intros [resp Hresp].
    pose proof (run_ordered source inputs response cs) as Hs. fold s in Hs.
    destruct (item_event_settles ref event k type itemId s resp Hs Hresp
                (delta_item_event _ _ Hev))
      as (_ & _ & p & (He & (rs & its & Hst' & Hty' & Hid') & (rc & itc & Hen & Htc) & _)
          & Hsame).
    fold s' in He, Hst', Hen.
    exists p, rs, its, rc, itc. repeat split; try assumption.
    intros r it Hst Hty.
    rewrite Hid', ensured_item_mismatch.
    + apply placeholder_has_id, (item_event_known event k type itemId),
        delta_item_event, Hev.
    + intros r0 it0 Hst0. rewrite Hst in Hst0. by injection Hst0 as <- <-.
Qed.

(** C3, the claim as first stated fails once a response snapshot exists:
    a text delta for output index 0, where a function call is stored,
    replaces the function call by a message in the snapshot and in the
    transcript entry. *)
Lemma mismatched_delta_replaces_item :
  let s := new_session sample_ids [] (Some (sample_response [sample_call])) in
  let s' := exec (handleEvent 1 (EvOutputTextDelta 0 (Some "fc_1"%string) 0 "Hi"%string)) s in
  (snd <$> snapshot_item 0 s) = Some sample_call ∧
  (snd <$> entry_item 0 s) = Some sample_call ∧
  (item_type ∘ snd <$> snapshot_item 0 s') = Some TMessage ∧
  (item_type ∘ snd <$> entry_item 0 s') = Some TMessage ∧
  (snd <$> entry_item 0 s')
    = Some (IMessage "fc_1" "assistant" "in_progress" [Some (OutputText "Hi" (Some []))]).
Proof. vm_compute. repeat split; reflexivity. Qed.

Lemma mismatched_delta_outcome_witness :
  (let s := run [CallHandleEvent 1 (EvOutputItemAdded 0 sample_call);
                 CallHandleEvent 2
                   (EvOutputItemAdded 1 (IMessage "msg_1" "assistant" "in_progress" []))]
              (new_session sample_ids [] None) in
   let s' := exec (handleEvent 3 (EvOutputTextDelta 0 (Some "msg_1"%string) 0 "Hi"%string))
               s in
   getResponse s' = None ∧ existing_entry 0 s' = Some 0 ∧
   getMessages s' !! 0 = getMessages s !! 0 ∧ entry_item 0 s' = Some (0, sample_call)) ∧
  (let s := run [] (new_session sample_ids [] (Some (sample_response [sample_call]))) in
   let s' := exec (handleEvent 1 (EvOutputTextDelta 0 (Some "fc_1"%string) 0 "Hi"%string))
               s in
   ∃ p rs its rc itc,
     existing_entry 0 s' = Some p ∧
     snapshot_item 0 s' = Some (rs, its) ∧ item_type its = TMessage ∧
     entry_item p s' = Some (rc, itc) ∧ item_type itc = TMessage ∧
     (∀ p0, existing_entry 0 s = Some p0 → p = p0) ∧
     (∀ r it, snapshot_item 0 s = Some (r, it) → item_type it ≠ TMessage →
        item_id its = Some (placeholder_id TMessage (Some "fc_1"%string) s))).
Proof.
  split.
  - apply (proj1 (mismatched_delta_outcome sample_ids [] None
                    [CallHandleEvent 1 (EvOutputItemAdded 0 sample_call);
                     CallHandleEvent 2
                       (EvOutputItemAdded 1 (IMessage "msg_1" "assistant" "in_progress" []))]
                    3 (EvOutputTextDelta 0 (Some "msg_1"%string) 0 "Hi"%string)
                    0 TMessage (Some "msg_1"%string) eq_refl) eq_refl 0 0 sample_call).
    + reflexivity.
    + reflexivity.
    + discriminate.
  - apply (proj2 (mismatched_delta_outcome sample_ids [] (Some (sample_response [sample_call]))
                    [] 1 (EvOutputTextDelta 0 (Some "fc_1"%string) 0 "Hi"%string)
                    0 TMessage (Some "fc_1"%string) eq_refl)).
    vm_compute. eauto.
Defined.

(** ** Text deltas, then the final text *)

Lemma arr_get_at_index {A} (f : A → A) i (a : list (option A)) :
  arr_get (at_index i f a) i = f <$> arr_get a i.
Proof.
  unfold arr_get, at_index. rewrite list_lookup_alter_eq.
  destruct (a !! i) as [[v|]|]; reflexivity.
Qed.

Lemma ensureSnapshotText_slot content ci :
  ∃ t a, arr_get (ensureSnapshotText content ci) ci = Some (OutputText t a).
Proof.
  unfold ensureSnapshotText. cbv zeta.
  destruct (arr_get (pad_to content ci empty_text) ci) as [[t a|r]|] eqn:E.
  - rewrite arr_get_at_index, E. simpl. eauto.
  - rewrite arr_get_set_eq. unfold empty_text. eauto.
  - rewrite arr_get_set_eq. unfold empty_text. eauto.
Qed.

Lemma ensureMessageText_slot content ci :
  ∃ t a, arr_get (ensureMessageText content ci) ci = Some (OutputText t a).
Proof.
  unfold ensureMessageText, ensureMessageContentSlot. cbv zeta.
  rewrite arr_get_at_index.
  destruct (arr_get (pad_to content ci empty_text) ci) as [[t a|r]|] eqn:E.
  - simpl. rewrite E. simpl. eauto.
  - simpl. rewrite arr_get_set_eq. simpl. eauto.
  - rewrite arr_get_set_eq. simpl. eauto.
Qed.

Lemma snapshot_done_text ci text it :
  item_type it = TMessage →
  item_text ci (on_content (λ content,
    at_index ci (with_text (λ _, text)) (ensureSnapshotText content ci)) it) = Some text.
Proof.
  intros Hty. destruct it; try discriminate. simpl.
  rewrite arr_get_at_index.
  destruct (ensureSnapshotText_slot content ci) as (t & a & ->). reflexivity.
Qed.

Lemma transcript_done_text ci text it :
  item_type it = TMessage →
  item_text ci (on_content (λ content,
    at_index ci (with_text (λ _, text)) (ensureMessageText content ci)) it) = Some text.
Proof.
  intros Hty. destruct it; try discriminate. simpl.
  rewrite arr_get_at_index.
  destruct (ensureMessageText_slot content ci) as (t & a & ->). reflexivity.
Qed.

Lemma on_content_type f it : item_type (on_content f it) = item_type it.
Proof. by destruct it. Qed.

Lemma text_delta_step ref k itemId ci delta s :
  ordered s → stores_message k s →
  let s' := exec (handleEvent ref (EvOutputTextDelta k itemId ci delta)) s in
  ordered s' ∧ stores_message k s'.
Proof.
  intros Hs (r & it & Hst & Hty). cbv zeta.
  rewrite handleEvent_exec.
  rewrite (before_change_item ref (EvOutputTextDelta k itemId ci delta)
             (k, TMessage, itemId) s eq_refl).
  cbn [mutateSnapshot applyToMessages].
  match goal with
  | |- context [exec emitChange ?x] =>
      destruct (emitChange_shape x) as (log & flag & ->); set (s2 := x)
  end.
  destruct (message_event_step
    (on_content (λ content,
       at_index ci (with_text (λ t, t +:+ delta)) (ensureSnapshotText content ci)))
    (on_content (λ content,
       at_index ci (with_text (λ t, t +:+ delta)) (ensureMessageText content ci)))
    k itemId ref (exec (emit (SigEvent ref)) s) r it Hs Hst Hty)
    as (Hord & Hst2 & _).
  split; [exact Hord|].
  eexists _, _. split; [exact Hst2|].
  by rewrite on_content_type, adopt_id_type.
Qed.

Lemma text_done_step ref k itemId ci text s :
  ordered s → stores_message k s →
  let s' := exec (handleEvent ref (EvOutputTextDone k itemId ci text)) s in
  snapshot_text k ci s' = Some text ∧ transcript_text k ci s' = Some text.
Proof.
  intros Hs (r & it & Hst & Hty). cbv zeta.
  rewrite handleEvent_exec.
  rewrite (before_change_item ref (EvOutputTextDone k itemId ci text)
             (k, TMessage, itemId) s eq_refl).
  cbn [mutateSnapshot applyToMessages].
  match goal with
  | |- context [exec emitChange ?x] =>
      destruct (emitChange_shape x) as (log & flag & ->); set (s2 := x)
  end.
  destruct (message_event_step
    (on_content (λ content,
       at_index ci (with_text (λ _, text)) (ensureSnapshotText content ci)))
    (on_content (λ content,
       at_index ci (with_text (λ _, text)) (ensureMessageText content ci)))
    k itemId ref (exec (emit (SigEvent ref)) s) r it Hs Hst Hty)
    as (_ & Hst2 & p & rc & He2 & Hen2).
  fold s2 in Hst2, He2, Hen2.
  assert (Hty' : item_type (adopt_id itemId it) = TMessage) by by rewrite adopt_id_type.
  split.
  - change (snapshot_text k ci s2 = Some text).
    unfold snapshot_text. rewrite Hst2. by apply snapshot_done_text.
  - change (transcript_text k ci s2 = Some text).
    unfold transcript_text. rewrite He2, Hen2. by apply transcript_done_text.
Qed.

Lemma text_deltas_run k ci deltas s :
  ordered s → stores_message k s →
  ordered (run (text_delta k ci <$> deltas) s) ∧
  stores_message k (run (text_delta k ci <$> deltas) s).
Proof.
  revert s. induction deltas as [|[[ref itemId] delta] ds IH]; intros s Hs Hst.
  - split; assumption.
  - simpl. destruct (text_delta_step ref k itemId ci delta s Hs Hst) as [Hs' Hst'].
    apply IH; assumption.
Qed.

(** *** Text events on a session without a response snapshot *)

(** The transcript case of an item event that resolves to an entry of its
    kind: the entry's item is updated in place and the event is recorded
    on the entry. *)
Lemma found_entry_update findId k type itemId (f : OutputItem → OutputItem) ref p r it s :
  findOutputEntry findId (Some k) s = Some p →
  entry_item p s = Some (r, it) → item_type it = type →
  (entry <- findOrEnsure findId k type itemId ;;
   whenEntryOfType entry type (λ i r, update_item r f ;; push_event i ref))%session s
  = (tt, set_messages
           (alter (λ m, match m with
                        | MOutput r0 k0 events aug => MOutput r0 k0 (events ++ [ref]) aug
                        | MInput _ => m
                        end) p (messages s))
           (set_heap (alter f r (heap s)) s)).
Proof.
  intros Hfind He Hty. unfold bind at 1.
  rewrite (findOrEnsure_found findId k type itemId s p Hfind).
  rewrite (whenEntryOfType_hit p type _ s r it He Hty). reflexivity.
Qed.

Lemma output_at_alter f i idx s :
  (∀ m, same_shape (f m) m) →
  output_at idx (set_messages (alter f i (messages s)) s) = output_at idx s.
Proof.
  intros Hf. unfold output_at. simpl.
  destruct (decide (i = idx)) as [->|Hne].
  - rewrite list_lookup_alter_eq. destruct (messages s !! idx) as [m|]; [|reflexivity].
    simpl. pose proof (Hf m) as Hm. unfold same_shape in Hm.
    destruct (f m), m; try contradiction; reflexivity.
  - by rewrite list_lookup_alter_ne.
Qed.

Lemma findOutputEntry_alter fid outputIndex f i s :
  (∀ m, same_shape (f m) m) →
  findOutputEntry fid outputIndex (set_messages (alter f i (messages s)) s)
  = findOutputEntry fid outputIndex s.
Proof.
  intros Hf. unfold findOutputEntry.
  assert (Hex : ∀ k, existing_entry k (set_messages (alter f i (messages s)) s)
                     = existing_entry k s)
    by (intros k; by apply existing_entry_alter).
  assert (Hout : ∀ idx, output_at idx (set_messages (alter f i (messages s)) s)
                        = output_at idx s)
    by (intros idx; by apply output_at_alter).
  cbn [idToIndex set_messages].
  destruct fid as [j|]; [|by destruct outputIndex; rewrite ?Hex].
  destruct (truthy (Some j)); [|by destruct outputIndex; rewrite ?Hex].
  destruct (idToIndex s !! j) as [idx|]; [|by destruct outputIndex; rewrite ?Hex].
  rewrite Hout. destruct (output_at idx s); [reflexivity|].
  by destruct outputIndex; rewrite ?Hex.
Qed.

(** One text event, handled without a response snapshot, on an entry it
    resolves to: [g] is what the event does to the text. *)
Lemma text_event_without_snapshot ref event k fid ci (g : string → string) ids p s :
  item_event event = Some (k, TMessage, fid) →
  applyToMessages ref event
  = (entry <- findOrEnsure fid k TMessage fid ;;
     whenEntryOfType entry TMessage (λ i r,
       update_item r (on_content (λ content,
         at_index ci (with_text g) (ensureMessageText content ci))) ;;
       push_event i ref))%session →
  responseSnapshot s = None →
  resolve_to_message k ids p s → fid ∈ ids →
  let s' := exec (handleEvent ref event) s in
  responseSnapshot s' = None ∧ resolve_to_message k ids p s' ∧
  ∀ r it, entry_item p s = Some (r, it) →
    entry_item p s'
    = Some (r, on_content (λ content,
                 at_index ci (with_text g) (ensureMessageText content ci)) it).
Proof.
  intros Hev Happly Hnone [(r & it & He & Hty) Hall] Hin. cbv zeta.
  pose proof (proj1 (Forall_forall _ _) Hall fid Hin) as Hfind.
  rewrite handleEvent_exec, (before_change_item ref event _ s Hev).
  match goal with
  | |- context [exec emitChange ?x] => destruct (emitChange_shape x) as (log & flag & ->)
  end.
  set (s0 := exec (emit (SigEvent ref)) s).
  assert (Hm : exec (mutateSnapshot event) s0 = s0).
  { unfold exec. rewrite mutateSnapshot_no_snapshot; [reflexivity| |exact Hnone].
    by destruct event. }
  rewrite Hm, Happly. unfold exec.
  rewrite (found_entry_update fid k TMessage fid _ ref p r it s0 Hfind He Hty).
  cbn [snd].
  set (push := λ m, match m with
                    | MOutput r0 k0 events aug => MOutput r0 k0 (events ++ [ref]) aug
                    | MInput _ => m
                    end).
  set (f := on_content (λ content, at_index ci (with_text g) (ensureMessageText content ci))).
  assert (Hpush : ∀ m, same_shape (push m) m) by (by intros [x|r0 k0 e0 a0]).
  assert (Hentry : entry_item p
            (set_emitted log (set_endEmitted flag
               (set_messages (alter push p (messages s0))
                  (set_heap (alter f r (heap s0)) s0)))) = Some (r, f it)).
  { unfold entry_item in He |- *. cbn [messages heap set_emitted set_endEmitted
      set_messages set_heap]. change (messages s0) with (messages s).
    change (heap s0) with (heap s). rewrite list_lookup_alter_eq.
    destruct (messages s !! p) as [[x|r0 k0 e0 a0]|]; try discriminate He.
    simpl. destruct (heap s !! r0) as [it0|] eqn:Hr0; [|discriminate He].
    injection He as <- <-. by rewrite list_lookup_alter_eq, Hr0. }
  split; [exact Hnone|]. split; [split|].
  - exists r, (f it). split; [exact Hentry|]. unfold f. by rewrite on_content_type.
  - apply Forall_forall. intros fid' Hin'.
    pose proof (proj1 (Forall_forall _ _) Hall fid' Hin') as Hfind'.
    rewrite <- Hfind'.
    set (s1 := set_heap (alter f r (heap s0)) s0).
    change (findOutputEntry fid' (Some k) (set_messages (alter push p (messages s1)) s1)
            = findOutputEntry fid' (Some k) s1).
    by apply findOutputEntry_alter.
  - intros r' it' He'. rewrite He in He'. injection He' as <- <-. exact Hentry.
Qed.

Lemma text_deltas_without_snapshot k ci deltas ids p s :
  responseSnapshot s = None → resolve_to_message k ids p s →
  (∀ d, d ∈ deltas → d.1.2 ∈ ids) →
  responseSnapshot (run (text_delta k ci <$> deltas) s) = None ∧
  resolve_to_message k ids p (run (text_delta k ci <$> deltas) s).
Proof.
  revert s. induction deltas as [|[[ref fid] delta] ds IH]; intros s Hnone Hres Hids.
  - split; assumption.
  - simpl.
    destruct (text_event_without_snapshot ref (EvOutputTextDelta k fid ci delta) k fid ci
                (λ t, t +:+ delta) ids p s eq_refl eq_refl Hnone Hres)
      as (Hnone' & Hres' & _).
    { apply (Hids (ref, fid, delta)). apply list_elem_of_here. }
    apply IH; [exact Hnone'|exact Hres'|].
    intros d Hd. apply Hids. by apply list_elem_of_further.
Qed.

(** C2. Any sequence of [response.output_text.delta] events for content
    index [ci] of output index [k], followed by a
    [response.output_text.done] event with text [text], ingested in a
    reachable session.  If the response snapshot stores a message at [k],
    that content part's text is [text] afterwards in the response snapshot
    and in the transcript: the final text replaces what the deltas built.
    If the session has no response snapshot, it has none afterwards, and
    when the events resolve to a transcript entry that holds a message,
    that content part's text in the entry is [text]. *)
Theorem done_text_wins source inputs response cs k ci deltas ref itemId text p :
  let s := run cs (new_session source inputs response) in
  let s' := exec (handleEvent ref (EvOutputTextDone k itemId ci text))
              (run (text_delta k ci <$> deltas) s) in
  (stores_message k s →
   snapshot_text k ci s' = Some text ∧ transcript_text k ci s' = Some text) ∧
  (getResponse s = None →
   resolve_to_message k (itemId :: (deltas.*1).*2) p s →
   getResponse s' = None ∧ entry_text p ci s' = Some text).
Proof.
  intros s s'. split.
  - intros Hst.
    pose proof (run_ordered source inputs response cs) as Hs. fold s in Hs.
    destruct (text_deltas_run k ci deltas s Hs Hst) as [Hord Hst'].
    by apply text_done_step.
  - unfold getResponse. intros Hnone Hres.
    destruct (text_deltas_without_snapshot k ci deltas _ p s Hnone Hres) as [Hnone1 Hres1].
    { intros d Hd. apply list_elem_of_further.
      apply list_elem_of_fmap. exists d.1. split; [reflexivity|].
      apply list_elem_of_fmap. by exists d. }
    destruct (text_event_without_snapshot ref (EvOutputTextDone k itemId ci text) k itemId ci
                (λ _, text) _ p _ eq_refl eq_refl Hnone1 Hres1)
      as (Hnone2 & _ & Hen); [apply list_elem_of_here|].
    split; [exact Hnone2|].
    destruct Hres1 as [(r & it & He & Hty) _].
    unfold entry_text. fold s'. unfold s'. rewrite (Hen r it He).
    by apply transcript_done_text.
Qed.

(** C2, the claim as first stated fails on a session that has no response
    snapshot, as when the stream carries no lifecycle event: the deltas
    and the [done] event for an output message that an
    [output_item.added] event created reach the transcript, and there is
    no snapshot to hold the text. *)
Lemma done_text_without_snapshot :
  let s := run [CallHandleEvent 0
                  (EvOutputItemAdded 0
                     (IMessage "msg_1" "assistant" "in_progress" []))]
             (new_session sample_ids [] None) in
  let s' := exec (handleEvent 3 (EvOutputTextDone 0 (Some "msg_1"%string) 0 "Hello"%string))
              (run (text_delta 0 0 <$> [(1, Some "msg_1"%string, "Hel"%string);
                                        (2, Some "msg_1"%string, "lo"%string)]) s) in
  transcript_text 0 0 s' = Some "Hello"%string ∧
  getResponse s' = None ∧ snapshot_text 0 0 s' = None.
Proof. vm_compute. repeat split; reflexivity. Qed.

(** A [done] event that is the first event for an output index, on a
    session whose response snapshot stores no item there: the placeholder
    branch of [ensureSnapshotOutputItem] returns the object it built, of
    which the snapshot holds a copy, so the text reaches the transcript
    and not the snapshot. *)
Example done_text_on_new_placeholder :
  let s := run [CallHandleEvent 0 (EvLifecycle LCreated (sample_response []))]
             (new_session sample_ids [] None) in
  let s' := exec (handleEvent 1 (EvOutputTextDone 0 (Some "msg_1"%string) 0 "Hello"%string))
              s in
  transcript_text 0 0 s' = Some "Hello"%string ∧
  (snd <$> snapshot_item 0 s') = Some (IMessage "msg_1" "assistant" "in_progress" []).
Proof. vm_compute. repeat split; reflexivity. Qed.

Lemma done_text_wins_witness :
  (let s' := exec (handleEvent 3 (EvOutputTextDone 0 (Some "msg_1"%string) 0 "Hello"%string))
               (run (text_delta 0 0 <$> [(1, Some "msg_1"%string, "Hel"%string);
                                         (2, Some "msg_1"%string, "lo"%string)])
                  (run [CallHandleEvent 1
                          (EvOutputItemAdded 0
                             (IMessage "msg_1" "assistant" "in_progress" []))]
                     (new_session sample_ids [] (Some (sample_response []))))) in
   snapshot_text 0 0 s' = Some "Hello"%string ∧
   transcript_text 0 0 s' = Some "Hello"%string) ∧
  (let s' := exec (handleEvent 3 (EvOutputTextDone 0 (Some "msg_1"%string) 0 "Hello"%string))
               (run (text_delta 0 0 <$> [(1, Some "msg_1"%string, "Hel"%string);
                                         (2, Some "msg_1"%string, "lo"%string)])
                  (run [CallHandleEvent 1
                          (EvOutputItemAdded 0
                             (IMessage "msg_1" "assistant" "in_progress" []))]
                     (new_session sample_ids [] None))) in
   getResponse s' = None ∧ entry_text 0 0 s' = Some "Hello"%string).
Proof.
  split.
  - apply (proj1 (done_text_wins sample_ids [] (Some (sample_response []))
                    [CallHandleEvent 1
                       (EvOutputItemAdded 0
                          (IMessage "msg_1" "assistant" "in_progress" []))]
                    0 0
                    [(1, Some "msg_1"%string, "Hel"%string);
                     (2, Some "msg_1"%string, "lo"%string)]
                    3 (Some "msg_1"%string) "Hello"%string 0)).
    vm_compute. eauto.
  - apply (proj2 (done_text_wins sample_ids [] None
                    [CallHandleEvent 1
                       (EvOutputItemAdded 0
                          (IMessage "msg_1" "assistant" "in_progress" []))]
                    0 0
                    [(1, Some "msg_1"%string, "Hel"%string);
                     (2, Some "msg_1"%string, "lo"%string)]
                    3 (Some "msg_1"%string) "Hello"%string 0)).
    + reflexivity.
    + split; [vm_compute; eauto|].
      repeat constructor.
Defined.

(** ** Lifecycle events on a sample session *)

(** C6, the claim as first stated fails for a response id that is the
    empty string: it differs from the tracked id [resp_1], yet nothing is
    reset, and the entry of output index 0 stays reachable by position
    and by id. *)
Lemma empty_response_id_no_reset :
  let event := EvLifecycle LCompleted (mkResponsePayload (Some ""%string) (Some Completed) []) in
  let s' := exec (handleEvent 2 event) sample_stream in
  currentResponseId sample_stream = Some "resp_1"%string ∧
  outputIndexToMessageIndex (exec resetCurrentResponseOutputs sample_stream) !! 0 = None ∧
  idToIndex (exec resetCurrentResponseOutputs sample_stream) !! "msg_1"%string = None ∧
  outputIndexToMessageIndex s' !! 0 = Some 0 ∧
  idToIndex s' !! "msg_1"%string = Some 0.
Proof. vm_compute. repeat split; reflexivity. Qed.

Lemma lifecycle_reset_witness :
  let event := EvLifecycle LInProgress
                 (mkResponsePayload (Some "resp_2"%string) (Some InProgress) []) in
  exec (mutateSnapshot event) sample_stream
  = exec (mutateSnapshot event) (exec resetCurrentResponseOutputs sample_stream) ∧
  currentResponseId (exec (mutateSnapshot event) sample_stream) = Some "resp_2"%string ∧
  is_Some (outputIndexToMessageIndex
             (exec (mutateSnapshot
                      (EvLifecycle LInProgress (sample_response []))) sample_stream) !! 0).
Proof.
  destruct (lifecycle_reset LInProgress
              (mkResponsePayload (Some "resp_2"%string) (Some InProgress) [])
              sample_stream) as (_ & Hreset & Hadopt & _).
  destruct (lifecycle_reset LInProgress (sample_response []) sample_stream)
    as (_ & _ & _ & Hkeep).
  split; [|split].
  - apply Hreset. right. split; [reflexivity|]. vm_compute. discriminate.
  - apply Hadopt. reflexivity.
  - apply Hkeep.
    + discriminate.
    + right. vm_compute. reflexivity.
    + vm_compute. eauto.
Defined.

Lemma inputs_stay_before_outputs_witness :
  let x := mkInputItem (Some "in_1"%string) "hi"%string in
  let cs := [CallHandleEvent 0 (EvLifecycle LCreated (sample_response []));
             CallHandleEvent 1 (EvOutputItemAdded 1 sample_call);
             CallHandleEvent 2
               (EvOutputItemAdded 0 (IMessage "msg_1" "assistant" "in_progress" []));
             CallAddInput (mkInputItem None "more"%string)] in
  let s := new_session sample_ids [x] None in
  take 1 (getMessages (run cs s)) = [MInput x] ∧
  ∀ i j y m,
    [x] !! i = Some y → getMessages (run cs s) !! j = Some m → is_output m = true →
    getMessages (run cs s) !! i = Some (MInput y) ∧ i < j.
Proof.
  intros x cs s.
  apply (inputs_stay_before_outputs s [x] cs). reflexivity.
Defined.

(** ** Copies and references *)

Lemma setSnapshotOutput_exec k item s :
  exec (setSnapshotOutput k item) s
  = match responseSnapshot s with
    | None => s
    | Some resp =>
        set_responseSnapshot
          (Some (mkResponse (resp_id resp) (resp_status resp)
                   (arr_set (resp_output resp) k (length (heap s)))))
          (set_heap (heap s ++ [item]) s)
    end.
Proof.
  unfold setSnapshotOutput, exec, bind, gets. simpl.
  destruct (responseSnapshot s); reflexivity.
Qed.



(** Events for output indices 2, 0 and 1, in that order of arrival, give
    a transcript whose outputs read 0, 1, 2. *)
Example arrival_order_2_0_1 :
  output_indices
    (getMessages
       (run [CallHandleEvent 1 (EvOutputItemAdded 2 sample_call);
             CallHandleEvent 2
               (EvOutputItemAdded 0 (IMessage "msg_1" "assistant" "in_progress" []));
             CallHandleEvent 3 (EvOutputItemAdded 1 sample_call)]
          (new_session sample_ids [] None)))
  = [0; 1; 2].
Proof. vm_compute. reflexivity. Qed.

(** * Session-wide properties *)

(** ** Which events write which field *)

Section ByKind.
Variable I : Session → Prop.
Hypothesis HI : frame_stable I.
Hypothesis Hemitted : ∀ v s, I s → I (set_emitted v s).
Hypothesis HendEmitted : ∀ v s, I s → I (set_endEmitted v s).

Local Hint Resolve Hemitted HendEmitted : pres.

Lemma emit_by_kind sig : preserves I (emit sig).
Proof. unfold emit. pres. Qed.

Local Hint Resolve emit_by_kind : pres.

Lemma emitChange_by_kind : preserves I emitChange.
Proof. unfold emitChange. pres. Qed.

(** [handleEvent] needs of [I] only what the event at hand can write. *)
Lemma handleEvent_by_kind ref event :
  (is_lifecycle event = true → lifecycle_stable I) →
  (is_error event = true →
   (∀ v s, I s → I (set_lastError v s)) ∧ (∀ v s, I s → I (set_ended v s))) →
  (is_queued event = true → ∀ v s, I s → I (set_status v s)) →
  preserves I (handleEvent ref event).
Proof.
  intros Hlife Herr Hqueued.
  assert (Hm : preserves I (mutateSnapshot event)).
  { destruct (is_lifecycle event) eqn:E.
    - apply (mutateSnapshot_pres I HI), Hlife. reflexivity.
    - apply (mutateSnapshot_item_pres I HI), E. }
  pose proof (applyToMessages_pres I HI ref event) as Ha.
  pose proof emitChange_by_kind as Hc.
  unfold handleEvent, emitError.
  apply preserves_bind; [apply emit_by_kind|intros _].
  apply preserves_bind; [exact Hm|intros _].
  apply preserves_bind; [exact Ha|intros _].
  apply preserves_bind; [|intros _; apply preserves_bind; [|intros _; exact Hc]].
  - destruct event; try apply preserves_ret.
    destruct (Herr eq_refl) as [Hlast Hended]. pres.
  - destruct event; try apply preserves_ret.
    specialize (Hqueued eq_refl). pres.
Qed.

Lemma addInput_by_kind input :
  (∀ x s, I s → I (set_messages (messages s ++ [MInput x]) s)) →
  preserves I (addInput input).
Proof.
  intros Hinput. pose proof (fs_ids I HI) as Hids.
  pose proof emitChange_by_kind as Hc.
  unfold addInput, registerItemId. pres.
Qed.
End ByKind.

Lemma status_frame_stable x : frame_stable (λ s, status s = x).
Proof. apply insensitive_frame_stable; intros; assumption. Qed.

Lemma lastError_frame_stable x : frame_stable (λ s, lastError s = x).
Proof. apply insensitive_frame_stable; intros; assumption. Qed.

Lemma mutateSnapshot_lifecycle_status kind response s :
  status (exec (mutateSnapshot (EvLifecycle kind response)) s)
  = default Idle (rp_status response).
Proof.
  revert s. change (establishes (λ s, status s = default Idle (rp_status response))
                      (mutateSnapshot (EvLifecycle kind response))).
  unfold mutateSnapshot.
  do 5 (apply establishes_bind_r; intros ?).
  apply establishes_bind_l.
  - intros s. reflexivity.
  - intros _. apply preserves_bind.
    + apply preserves_modify. intros s Hs. exact Hs.
    + intros _. apply syncOutputsFromSnapshot_pres, status_frame_stable.
Qed.

(** The status after a call: a lifecycle event sets it to the status of
    its response ([idle] when the response has none), a
    [response.queued] event to [queued], and no other event and no added
    input changes it. *)
Theorem status_written_by_lifecycle (c : Call) (s : Session) :
  getStatus (exec (call c) s)
  = match c with
    | CallHandleEvent _ (EvLifecycle _ response) => default Idle (rp_status response)
    | CallHandleEvent _ (EvQueued _) => Queued
    | _ => getStatus s
    end.
Proof.
  unfold getStatus. destruct c as [input|ref event]; simpl call.
  - apply (addInput_by_kind _ (status_frame_stable (status s))); auto.
  - destruct (is_lifecycle event) eqn:Hl; [|destruct (is_queued event) eqn:Hq].
    + destruct event; try discriminate.
      rewrite handleEvent_exec.
      destruct (emitChange_shape (before_change ref (EvLifecycle kind response) s))
        as (log & flag & ->).
      apply mutateSnapshot_lifecycle_status.
    + destruct event; try discriminate.
      rewrite handleEvent_exec.
      destruct (emitChange_shape (before_change ref (EvQueued response) s))
        as (log & flag & ->).
      reflexivity.
    + transitivity (status s); [|destruct event; try discriminate; reflexivity].
      apply (handleEvent_by_kind _ (status_frame_stable (status s))); auto;
        try (intros; congruence).
Qed.

Lemma call_lastError (c : Call) (s : Session) :
  lastError (exec (call c) s)
  = match c with
    | CallHandleEvent ref event => if is_error event then Some ref else lastError s
    | CallAddInput _ => lastError s
    end.
Proof.
  destruct c as [input|ref event]; simpl call.
  - apply (addInput_by_kind _ (lastError_frame_stable (lastError s))); auto.
  - destruct (is_error event) eqn:He.
    + destruct event; try discriminate.
      unfold handleEvent, emitChange, emitError, emit, exec, bind, gets, modify.
      simpl. destruct (endEmitted s); reflexivity.
    + apply (handleEvent_by_kind _ (lastError_frame_stable (lastError s))); auto;
        try (intros; congruence).
      intros _. split; intros; assumption.
Qed.

Lemma last_cons_default {A} (x : A) (l : list A) :
  last (x :: l) = Some (default x (last l)).
Proof.
  revert x. induction l as [|y l IH]; intros x; [reflexivity|].
  change (last (x :: y :: l)) with (last (y :: l)). rewrite IH.
  simpl. destruct l; reflexivity.
Qed.

(** [getError] returns the most recent [error] event that was ingested:
    no other call replaces or clears it. *)
Theorem last_error_is_latest (cs : list Call) (s : Session) :
  getError (run cs s)
  = match last (error_refs cs) with
    | Some ref => Some ref
    | None => getError s
    end.
Proof.
  unfold getError. revert s. induction cs as [|c cs IH]; intros s; [reflexivity|].
  simpl run. rewrite IH, call_lastError.
  destruct c as [input|ref event]; simpl error_refs; [reflexivity|].
  destruct (is_error event); [|reflexivity].
  rewrite last_cons_default. destruct (last (error_refs cs)); reflexivity.
Qed.

Lemma emitChange_snapshot s :
  getSnapshot (exec emitChange s) = getSnapshot s ∧
  status (exec emitChange s) = status s ∧
  responseSnapshot (exec emitChange s) = responseSnapshot s.
Proof. destruct (emitChange_shape s) as (log & flag & ->). auto. Qed.

(** What one call passes to the emitter, in order: the event (and, for
    an [error] event, the error), then one change carrying the snapshot
    [getSnapshot] returns after the call, then the status, and then
    [end] with the response when the call leaves the session ended and
    [end] was not emitted before. *)
Theorem call_notifications (c : Call) (s : Session) :
  let s' := exec (call c) s in
  emitted s'
  = emitted s ++ announced c ++
      [SigChange (getSnapshot s'); SigStatus (getStatus s')] ++
      (if ended s' && negb (endEmitted s) then [SigEnd (getResponse s')] else []).
Proof.
  cbv zeta. unfold getStatus, getResponse.
  destruct c as [input|ref event]; simpl call.
  - unfold addInput. rewrite !exec_bind. cbn [gets modify fst snd].
    match goal with
    | |- context [exec emitChange ?s0] =>
        set (s2 := s0); destruct (emitChange_log s2) as (He & _ & Hl);
        destruct (emitChange_snapshot s2) as (Hsnap & Hst & Hresp)
    end.
    assert (H2 : (endEmitted s2, emitted s2) = (endEmitted s, emitted s)).
    { subst s2. unfold registerItemId.
      destruct (input_id input) as [i|]; [destruct (String.eqb i ""%string)|];
        reflexivity. }
    injection H2 as H2e H2l.
    rewrite Hl, Hsnap, Hst, Hresp, He, H2e, H2l. reflexivity.
  - rewrite handleEvent_exec.
    set (b := before_change ref event s).
    destruct (emitChange_log b) as (He & _ & Hl).
    destruct (emitChange_snapshot b) as (Hsnap & Hst & Hresp).
    destruct (before_change_log ref event s) as [Hb Hlog]. fold b in Hb, Hlog.
    rewrite Hl, Hsnap, Hst, Hresp, He, Hb, Hlog. simpl announced.
    rewrite <- !app_assoc. f_equal. simpl. f_equal.
    destruct event; reflexivity.
Qed.

(** ** The transcript only grows *)

Lemma same_shape_place m m' : same_shape m m' → place m = place m'.
Proof. destruct m, m'; simpl; intros H; try contradiction; congruence. Qed.

Lemma places_alter f i (ms : list Message) :
  (∀ m, ms !! i = Some m → place (f m) = place m) →
  place <$> alter f i ms = place <$> ms.
Proof.
  intros Hf. apply list_eq. intros j. rewrite !list_lookup_fmap.
  destruct (decide (i = j)) as [->|Hne].
  - rewrite list_lookup_alter_eq. destruct (ms !! j) as [m|] eqn:E; [|reflexivity].
    simpl. by rewrite (Hf m).
  - by rewrite list_lookup_alter_ne.
Qed.

Lemma places_splice p entry (ms : list Message) :
  sublist (place <$> ms) (place <$> splice_in p entry ms).
Proof.
  unfold splice_in. rewrite <- (take_drop p ms) at 1.
  rewrite !fmap_app, fmap_cons.
  apply sublist_app; [reflexivity|]. by apply sublist_cons.
Qed.

Lemma out_key_place m m' : out_key m = out_key m' → is_output m = true → place m = place m'.
Proof. destruct m, m'; simpl; intros H Ho; try discriminate; congruence. Qed.

Lemma grown_call_stable l :
  call_stable (λ s, ordered s ∧ sublist l (place <$> messages s)).
Proof.
  destruct ordered_call_stable as [[Hh Hi Hsn Ha Ht Hsh Hen Hfr] [Hst Hed Hcu Hre] Hem Hee Hle Hin].
  split; [split|split| | | |]; try (intros v s [Hs Hl]; split; [auto|exact Hl]).
  - intros i f s Hf [Hs Hl]. split; [auto|]. simpl.
    rewrite places_alter; [exact Hl|]. intros m _. apply same_shape_place, Hf.
  - intros item k s [Hs Hl]. split; [apply Hen, Hs|].
    change (sublist l (place <$> messages (exec (ensureOutputEntry item k) s))).
    rewrite ensureOutputEntry_messages.
    destruct (existing_entry k s) as [i|] eqn:He.
    + rewrite places_alter; [exact Hl|]. intros m Hm.
      pose proof (existing_entry_key k s i m (proj2 Hs) He Hm) as Hk.
      destruct m; simpl in *; congruence.
    + etrans; [exact Hl|apply places_splice].
  - intros k s [Hs Hl]. split; [apply Hfr, Hs|].
    change (sublist l (place <$> messages (exec (ensureOutputEntryFromSnapshot k) s))).
    rewrite ensureOutputEntryFromSnapshot_messages.
    destruct (snapshot_item k s) as [[r it]|]; [|exact Hl].
    destruct (existing_entry k s) as [i|].
    + rewrite places_alter; [exact Hl|]. intros m _. by destruct m.
    + etrans; [exact Hl|apply places_splice].
  - intros s [Hs Hl]. split; [auto|exact Hl].
  - intros x s [Hs Hl]. split; [auto|]. simpl. rewrite fmap_app.
    by apply sublist_inserts_r.
Qed.

(** No call removes or reorders a message, or changes the [outputIndex]
    of an output message: the transcript before any further calls,
    read as inputs and output indices, is a subsequence of the
    transcript after them. *)
Theorem transcript_only_grows source inputs response (cs more : list Call) :
  let s := run cs (new_session source inputs response) in
  sublist (place <$> getMessages s) (place <$> getMessages (run more s)).
Proof.
  intros s. unfold getMessages.
  apply (run_pres _ (grown_call_stable (place <$> messages s)) more s).
  split; [apply run_ordered|reflexivity].
Qed.

(** ** The inputs of the transcript *)

Lemma input_items_alter f i (ms : list Message) :
  (∀ x, f (MInput x) = MInput x) →
  (∀ r k e a, is_output (f (MOutput r k e a)) = true) →
  input_items (alter f i ms) = input_items ms.
Proof.
  intros Hin Hout. unfold input_items. revert i.
  induction ms as [|m ms IH]; intros i; [reflexivity|].
  destruct i as [|i]; simpl.
  - destruct m as [x|r k e a]; [by rewrite Hin|].
    specialize (Hout r k e a). destruct (f (MOutput r k e a)); [discriminate|reflexivity].
  - destruct m; [f_equal|]; apply IH.
Qed.

Lemma input_items_splice p r k e a (ms : list Message) :
  input_items (splice_in p (MOutput r k e a) ms) = input_items ms.
Proof.
  unfold splice_in, input_items. rewrite omap_app. simpl.
  by rewrite <- omap_app, take_drop.
Qed.

Lemma inputs_frame_stable l : frame_stable (λ s, input_items (messages s) = l).
Proof.
  split; try (intros; assumption).
  - intros i f s Hf Hs. simpl. rewrite input_items_alter; [exact Hs| |].
    + intros x. specialize (Hf (MInput x)).
      destruct (f (MInput x)); simpl in Hf; [congruence|contradiction].
    + intros r k e a. specialize (Hf (MOutput r k e a)).
      destruct (f (MOutput r k e a)); simpl in Hf; [contradiction|reflexivity].
  - intros item k s Hs.
    change (input_items (messages (exec (ensureOutputEntry item k) s)) = l).
    rewrite ensureOutputEntry_messages. destruct (existing_entry k s).
    + rewrite input_items_alter; [exact Hs|reflexivity|reflexivity].
    + by rewrite input_items_splice.
  - intros k s Hs.
    change (input_items (messages (exec (ensureOutputEntryFromSnapshot k) s)) = l).
    rewrite ensureOutputEntryFromSnapshot_messages.
    destruct (snapshot_item k s) as [[r it]|]; [|exact Hs].
    destruct (existing_entry k s).
    + rewrite input_items_alter; [exact Hs|reflexivity|reflexivity].
    + by rewrite input_items_splice.
Qed.

Lemma addInput_messages input s :
  messages (exec (addInput input) s) = messages s ++ [MInput input].
Proof.
  unfold addInput. rewrite !exec_bind. cbn [gets modify fst snd].
  match goal with
  | |- context [exec emitChange ?s0] => destruct (emitChange_shape s0) as (log & flag & ->)
  end.
  unfold registerItemId.
  destruct (input_id input) as [i|]; [destruct (String.eqb i ""%string)|]; reflexivity.
Qed.

Lemma call_input_items (c : Call) (s : Session) :
  input_items (messages (exec (call c) s))
  = input_items (messages s) ++ added_inputs [c].
Proof.
  destruct c as [input|ref event]; simpl call.
  - rewrite addInput_messages. unfold input_items. by rewrite omap_app.
  - simpl added_inputs. rewrite app_nil_r.
    apply (handleEvent_by_kind _ (inputs_frame_stable (input_items (messages s))));
      auto; intros _; split; intros; assumption.
Qed.

Lemma run_input_items (cs : list Call) (s : Session) :
  input_items (messages (run cs s)) = input_items (messages s) ++ added_inputs cs.
Proof.
  revert s. induction cs as [|c cs IH]; intros s; simpl run.
  - by rewrite app_nil_r.
  - rewrite IH, call_input_items, <- app_assoc. f_equal.
    unfold added_inputs. simpl. by destruct c.
Qed.

Lemma new_session_input_items source inputs response :
  input_items (messages (new_session source inputs response)) = inputs.
Proof.
  unfold new_session, construct. rewrite exec_bind_unit.
  assert (Hin : ∀ s, input_items (messages (exec (for_each inputs addInput) s))
                     = input_items (messages s) ++ inputs).
  { induction inputs as [|x xs IH]; intros s; simpl.
    - by rewrite app_nil_r.
    - rewrite exec_bind_unit, IH, addInput_messages.
      unfold input_items at 1. rewrite omap_app, <- app_assoc. reflexivity. }
  set (s1 := exec (for_each inputs addInput) (fresh_session source)).
  assert (H1 : input_items (messages s1) = inputs) by apply Hin.
  destruct response as [r|]; [|exact H1].
  revert H1. generalize s1. clear s1.
  change (preserves (λ s, input_items (messages s) = inputs)
            (snap <- clone_response r ;;
             modify (set_responseSnapshot (Some snap)) ;;
             modify (set_status (default Idle (rp_status r))) ;;
             syncOutputsFromSnapshot)%session).
  pose proof (inputs_frame_stable inputs) as HI.
  apply preserves_bind; [apply clone_response_pres, HI|intros snap].
  apply preserves_bind; [apply preserves_modify; intros; assumption|intros _].
  apply preserves_bind; [apply preserves_modify; intros; assumption|intros _].
  apply syncOutputsFromSnapshot_pres, HI.
Qed.

(** The input messages of the transcript are the inputs the session was
    constructed with followed by the inputs added since, in that order:
    no event adds, drops, changes or reorders an input. *)
Theorem inputs_are_those_added source inputs response (cs : list Call) :
  input_items (getMessages (run cs (new_session source inputs response)))
  = inputs ++ added_inputs cs.
Proof.
  unfold getMessages. by rewrite run_input_items, new_session_input_items.
Qed.

(** ** The position map of a reachable session *)

(** In a reachable session the position map is exact: the position it
    gives for an output index holds an output message with that output
    index, the lookup by that output index returns that position, and no
    other output index is sent to it. *)
Theorem position_map_exact source inputs response (cs : list Call) k p :
  let s := run cs (new_session source inputs response) in
  outputIndexToMessageIndex s !! k = Some p →
  (∃ r e a, getMessages s !! p = Some (MOutput r k e a)) ∧
  findOutputEntry None (Some k) s = Some p ∧
  (∀ k', outputIndexToMessageIndex s !! k' = Some p → k' = k).
Proof.
  intros s Hk. destruct (run_ordered source inputs response cs) as [_ Hmap].
  fold s in Hmap. destruct (Hmap k p Hk) as (m & Hm & Hkey).
  destruct m as [x|r k0 e a]; [discriminate|]. injection Hkey as ->.
  split; [by exists r, e, a|]. split.
  - unfold findOutputEntry, existing_entry, output_at. simpl. by rewrite Hk, Hm.
  - intros k' Hk'. destruct (Hmap k' p Hk') as (m' & Hm' & Hkey').
    rewrite Hm in Hm'. injection Hm' as <-. simpl in Hkey'. congruence.
Qed.

Lemma position_map_exact_witness :
  (∃ r e a, getMessages sample_stream !! 0 = Some (MOutput r 0 e a)) ∧
  findOutputEntry None (Some 0) sample_stream = Some 0 ∧
  (∀ k', outputIndexToMessageIndex sample_stream !! k' = Some 0 → k' = 0).
Proof.
  apply (position_map_exact sample_ids [] None
           [CallHandleEvent 0 (EvLifecycle LCreated (sample_response []));
            CallHandleEvent 1
              (EvOutputItemAdded 0 (IMessage "msg_1" "assistant" "in_progress" []))]
           0 0).
  vm_compute. reflexivity.
Defined.

(** ** Audio *)

(** The steps of the two projections, for a property that nothing but
    the session's audio can break. *)
Section NotAudio.
Variable I : Session → Prop.
Hypothesis Hmessages : ∀ v s, I s → I (set_messages v s).
Hypothesis Hpositions : ∀ v s, I s → I (set_outputIndexToMessageIndex v s).
Hypothesis Hheap : ∀ v s, I s → I (set_heap v s).
Hypothesis Hids : ∀ v s, I s → I (set_idToIndex v s).
Hypothesis Hsnapshot : ∀ v s, I s → I (set_responseSnapshot v s).
Hypothesis Hticks : ∀ v s, I s → I (set_ticks v s).
Hypothesis Hstatus : ∀ v s, I s → I (set_status v s).
Hypothesis Hended : ∀ v s, I s → I (set_ended v s).
Hypothesis Hcurrent : ∀ v s, I s → I (set_currentResponseId v s).
Hypothesis Hemitted : ∀ v s, I s → I (set_emitted v s).
Hypothesis HendEmitted : ∀ v s, I s → I (set_endEmitted v s).
Hypothesis HlastError : ∀ v s, I s → I (set_lastError v s).

Local Hint Resolve Hmessages Hpositions Hheap Hids Hsnapshot Hticks Hstatus Hended
  Hcurrent Hemitted HendEmitted HlastError : pres.

Lemma ensureOutputEntry_quiet item k : preserves I (ensureOutputEntry item k).
Proof. apply ensureOutputEntry_insensitive; auto. Qed.

Lemma ensureOutputEntryFromSnapshot_quiet k :
  preserves I (ensureOutputEntryFromSnapshot k).
Proof. apply ensureOutputEntryFromSnapshot_insensitive; auto. Qed.

Lemma makeId_quiet prefix : preserves I (makeId prefix).
Proof. intros s Hs. simpl. auto. Qed.

Lemma alloc_quiet v : preserves I (alloc v).
Proof. intros s Hs. simpl. auto. Qed.

Local Hint Resolve ensureOutputEntry_quiet ensureOutputEntryFromSnapshot_quiet
  makeId_quiet alloc_quiet : pres.

Lemma ensureSnapshotOutputItem_quiet k type itemId :
  preserves I (ensureSnapshotOutputItem k type itemId).
Proof.
  unfold ensureSnapshotOutputItem, createPlaceholderOutput, setSnapshotOutput,
    registerItemId, update_item, clone, deref. pres.
Qed.

Local Hint Resolve ensureSnapshotOutputItem_quiet : pres.

Lemma ensureOutputItemPresence_quiet k type itemId :
  preserves I (ensureOutputItemPresence k type itemId).
Proof. unfold ensureOutputItemPresence, deref. pres. Qed.

Lemma recordOutputEvent_quiet k itemId event :
  preserves I (recordOutputEvent k itemId event).
Proof. unfold recordOutputEvent, push_event, update_message, registerItemId. pres. Qed.

Lemma clone_items_quiet items : preserves I (clone_items items).
Proof. induction items as [|it rest IH]; simpl; unfold clone; pres. Qed.

Local Hint Resolve ensureOutputItemPresence_quiet recordOutputEvent_quiet
  clone_items_quiet : pres.

Lemma mutateSnapshot_not_audio event : preserves I (mutateSnapshot event).
Proof.
  unfold mutateSnapshot, onSnapshotItem, setSnapshotOutput, clone_response,
    syncOutputsFromSnapshot, resetCurrentResponseOutputs, update_item, clone, deref.
  destruct event; pres.
Qed.

Lemma applyToMessages_not_audio ref event :
  is_audio_delta event = false → preserves I (applyToMessages ref event).
Proof.
  intros Hev.
  unfold applyToMessages, whenEntryOfType, findOrEnsure, replace_entry_item,
    update_augmentations, push_event, update_message, update_item, clone.
  destruct event; try discriminate; pres.
Qed.

Lemma emitChange_not_audio : preserves I emitChange.
Proof. unfold emitChange, emit. pres. Qed.

Lemma call_not_audio (c : Call) :
  match c with
  | CallHandleEvent _ event => is_audio_delta event = false
  | CallAddInput _ => True
  end →
  preserves I (call c).
Proof.
  destruct c as [input|ref event]; simpl call; intros Hc.
  - pose proof emitChange_not_audio. unfold addInput, registerItemId. pres.
  - pose proof emitChange_not_audio.
    pose proof (mutateSnapshot_not_audio event).
    pose proof (applyToMessages_not_audio ref event Hc).
    unfold handleEvent, emitError, emit. pres.
Qed.
End NotAudio.

Lemma call_sessionAugmentations (c : Call) (s : Session) :
  sessionAugmentations (exec (call c) s)
  = match c with
    | CallHandleEvent ref (EvAudioDelta _) =>
        Some (mkSessionAug (Some (mkAudio (audio_chunks s ++ [ref]) (audio_transcript s))))
    | CallHandleEvent ref (EvAudioTranscriptDelta _) =>
        Some (mkSessionAug (Some (mkAudio (audio_chunks s) (audio_transcript s ++ [ref]))))
    | _ => sessionAugmentations s
    end.
Proof.
  assert (Hkeep : match c with
                  | CallHandleEvent _ event => is_audio_delta event = false
                  | CallAddInput _ => True
                  end →
                  sessionAugmentations (exec (call c) s) = sessionAugmentations s).
  { intros Hc.
    apply (call_not_audio (λ s', sessionAugmentations s' = sessionAugmentations s));
      auto. }
  destruct c as [input|ref event]; [by apply Hkeep|].
  destruct event; try (by apply Hkeep); simpl call; rewrite handleEvent_exec;
    match goal with
    | |- context [exec emitChange ?x] => destruct (emitChange_shape x) as (log & flag & ->)
    end; reflexivity.
Qed.

(** The session's audio collects the [response.audio.delta] events and
    the [response.audio.transcript.delta] events in their order of
    arrival; no other call, not even the start of a new response, drops
    or changes what was collected. *)
Theorem audio_collected (cs : list Call) (s : Session) :
  audio_chunks (run cs s) = audio_chunks s ++ chunk_refs cs ∧
  audio_transcript (run cs s) = audio_transcript s ++ transcript_refs cs.
Proof.
  revert s. induction cs as [|c cs IH]; intros s; simpl run.
  - by rewrite !app_nil_r.
  - destruct (IH (exec (call c) s)) as [Hc Ht]. rewrite Hc, Ht.
    assert (Hstep : audio_chunks (exec (call c) s) = audio_chunks s ++ chunk_refs [c] ∧
                    audio_transcript (exec (call c) s)
                    = audio_transcript s ++ transcript_refs [c]).
    { unfold audio_chunks at 1, audio_transcript at 1.
      rewrite call_sessionAugmentations.
      destruct c as [input|ref event]; [by rewrite !app_nil_r|].
      destruct event; simpl; rewrite ?app_nil_r; auto. }
    destruct Hstep as [-> ->]. rewrite <- !app_assoc.
    split; f_equal; unfold chunk_refs, transcript_refs; simpl;
      destruct c as [input|ref event]; try reflexivity; destruct event; reflexivity.
Qed.

(** ** The content parts of a message *)

Lemma arr_set_lookup_eq {A} (a : list (option A)) i (v : A) :
  arr_set a i v !! i = Some (Some v).
Proof.
  unfold arr_set. destruct (decide (i < length a)) as [Hlt|Hge].
  - by rewrite list_lookup_insert_eq.
  - rewrite lookup_app_r by lia. rewrite lookup_app_r by (rewrite length_replicate; lia).
    rewrite length_replicate. by rewrite Nat.sub_diag.
Qed.

Lemma arr_set_lookup_ne {A} (a : list (option A)) i j (v w : A) :
  j ≠ i → arr_set a i v !! j = arr_set a i w !! j.
Proof.
  intros Hne. unfold arr_set. destruct (decide (i < length a)) as [Hlt|Hge].
  - by rewrite !list_lookup_insert_ne.
  - destruct (decide (j < length a)) as [Hj|Hj].
    + by rewrite !lookup_app_l.
    + rewrite !(lookup_app_r a) by lia.
      destruct (decide (j - length a < i - length a)) as [Hin|Hout].
      * by rewrite !lookup_app_l by (rewrite length_replicate; lia).
      * rewrite !lookup_app_r by (rewrite length_replicate; lia).
        rewrite length_replicate.
        destruct (j - length a - (i - length a)) as [|n] eqn:E; [lia|reflexivity].
Qed.

Lemma arr_set_lookup_old {A} (a : list (option A)) i j (v : A) :
  j ≠ i → j < length a → arr_set a i v !! j = a !! j.
Proof.
  intros Hne Hj. unfold arr_set. destruct (decide (i < length a)).
  - by rewrite list_lookup_insert_ne.
  - by rewrite lookup_app_l.
Qed.

Lemma arr_set_length {A} (a : list (option A)) i (v : A) :
  length (arr_set a i v) = max (length a) (S i).
Proof.
  unfold arr_set. destruct (decide (i < length a)).
  - rewrite length_insert. lia.
  - rewrite !length_app, length_replicate. simpl. lia.
Qed.

Lemma at_index_arr_set {A} (f : A → A) (a : list (option A)) i (v : A) :
  at_index i f (arr_set a i v) = arr_set a i (f v).
Proof.
  unfold at_index. apply list_eq. intros j. destruct (decide (i = j)) as [<-|Hne].
  - by rewrite list_lookup_alter_eq, !arr_set_lookup_eq.
  - rewrite list_lookup_alter_ne by done. by apply arr_set_lookup_ne.
Qed.

Lemma pad_to_length {A} (a : list (option A)) i (d : A) :
  length (pad_to a i d) = max (length a) (S i).
Proof. unfold pad_to. rewrite length_app, length_replicate. lia. Qed.

Lemma pad_to_lookup_old {A} (a : list (option A)) i j (d : A) :
  j < length a → pad_to a i d !! j = a !! j.
Proof. intros Hj. unfold pad_to. by rewrite lookup_app_l. Qed.

Lemma pad_to_lookup_new {A} (a : list (option A)) i j (d : A) :
  length a ≤ j → j ≤ i → pad_to a i d !! j = Some (Some d).
Proof.
  intros Hj Hi. unfold pad_to. rewrite lookup_app_r by lia.
  apply lookup_replicate_2. lia.
Qed.

Lemma pad_to_full {A} (a : list (option A)) i (d : A) :
  i < length a → pad_to a i d = a.
Proof.
  intros Hi. unfold pad_to. replace (S i - length a) with 0 by lia.
  apply app_nil_r.
Qed.

(** For text parts, the snapshot and the transcript prepare a content
    array in the same way. *)
Lemma ensure_text_agree content ci :
  ensureSnapshotText content ci = ensureMessageText content ci.
Proof.
  unfold ensureSnapshotText, ensureMessageText, ensureMessageContentSlot. cbv zeta.
  destruct (arr_get (pad_to content ci empty_text) ci) as [[t a|r]|] eqn:E; simpl.
  - reflexivity.
  - by rewrite at_index_arr_set.
  - by rewrite at_index_arr_set.
Qed.

(** The slot that [ensureMessageContentSlot] prepares: the array reaches
    the index, with empty text parts in the places it had to add; the
    parts it held at other places stay; the part at the index is kept
    when it already has the requested kind and is otherwise replaced by
    an empty part of that kind. *)
Theorem content_slot_prepared content index (refusal : bool) :
  let c := ensureMessageContentSlot content index refusal in
  length c = max (length content) (S index) ∧
  (∀ j, j < length content → j ≠ index → c !! j = content !! j) ∧
  (∀ j, length content ≤ j → j < index → c !! j = Some (Some empty_text)) ∧
  arr_get c index
  = Some (match arr_get content index with
          | Some current =>
              if bool_decide (is_refusal current = refusal) then current
              else if refusal then Refusal "" else empty_text
          | None => if refusal then Refusal "" else empty_text
          end).
Proof.
  cbv zeta. unfold ensureMessageContentSlot. cbv zeta.
  set (c := pad_to content index empty_text).
  assert (Hlen : length c = max (length content) (S index)) by apply pad_to_length.
  assert (Hold : ∀ j, j < length content → c !! j = content !! j)
    by (intros; by apply pad_to_lookup_old).
  assert (Hnew : ∀ j, length content ≤ j → j ≤ index → c !! j = Some (Some empty_text))
    by (intros; by apply pad_to_lookup_new).
  assert (Hget : arr_get c index
                 = if decide (index < length content) then arr_get content index
                   else Some empty_text).
  { unfold arr_get. destruct (decide (index < length content)).
    - by rewrite Hold.
    - by rewrite Hnew by lia. }
  assert (Hset : ∀ v,
    length (arr_set c index v) = max (length content) (S index) ∧
    (∀ j, j < length content → j ≠ index → arr_set c index v !! j = content !! j) ∧
    (∀ j, length content ≤ j → j < index →
          arr_set c index v !! j = Some (Some empty_text)) ∧
    arr_get (arr_set c index v) index = Some v).
  { intros v. rewrite arr_set_length, Hlen. split; [lia|]. split; [|split].
    - intros j Hj Hne. rewrite arr_set_lookup_old by (rewrite ?Hlen; lia). by apply Hold.
    - intros j Hj Hi. rewrite arr_set_lookup_old by (rewrite ?Hlen; lia).
      apply Hnew; lia.
    - apply arr_get_set_eq. }
  rewrite Hget.
  destruct (decide (index < length content)) as [Hin|Hout].
  - destruct (arr_get content index) as [current|] eqn:E.
    + destruct (bool_decide (is_refusal current = refusal)).
      * split; [exact Hlen|]. split; [intros; by apply Hold|].
        split; [intros; apply Hnew; lia|]. by rewrite Hget.
      * apply Hset.
    + apply Hset.
  - assert (E : arr_get content index = None).
    { unfold arr_get. by rewrite lookup_ge_None_2 by lia. }
    rewrite E.
    destruct refusal; simpl.
    + apply Hset.
    + split; [exact Hlen|]. split; [intros; by apply Hold|].
      split; [intros; apply Hnew; lia|]. by rewrite Hget.
Qed.

(** The refusal helpers agree as long as no place has to be added before
    the index; beyond that the snapshot adds empty refusal parts where
    the transcript adds empty text parts. *)
Lemma ensure_refusal_agree content ci :
  ci ≤ length content →
  ensureSnapshotRefusal content ci = ensureMessageRefusal content ci.
Proof.
  intros Hci. unfold ensureSnapshotRefusal, ensureMessageRefusal, ensureMessageContentSlot.
  cbv zeta. destruct (decide (ci < length content)) as [Hlt|Hge].
  - rewrite !pad_to_full by exact Hlt.
    destruct (arr_get content ci) as [[t a|r]|]; reflexivity.
  - assert (ci = length content) as -> by lia.
    unfold pad_to. replace (S (length content) - length content) with 1 by lia. simpl.
    unfold arr_get. rewrite !lookup_app_r, Nat.sub_diag by lia. simpl.
    unfold arr_set. rewrite !decide_True by (rewrite length_app; simpl; lia).
    apply list_eq. intros j. destruct (decide (j = length content)) as [->|Hne].
    + rewrite list_lookup_insert_eq by (rewrite length_app; simpl; lia).
      by rewrite lookup_app_r, Nat.sub_diag by lia.
    + rewrite list_lookup_insert_ne by done.
      destruct (decide (j < length content)).
      * by rewrite !lookup_app_l.
      * rewrite !lookup_app_r by lia.
        destruct (j - length content) as [|j'] eqn:E; [lia|reflexivity].
Qed.

Lemma message_event_sync (fS fT : OutputItem → OutputItem) k itemId ref s :
  ordered s → stores_message k s →
  (∀ it, fS it = fT it) → (∀ it, item_type (fS it) = item_type it) →
  let s2 :=
    exec (entry <- findOrEnsure itemId k TMessage itemId ;;
          whenEntryOfType entry TMessage (λ i r,
            update_item r fT ;; push_event i ref))
      (exec (onSnapshotItem false k TMessage itemId fS) s) in
  ∃ p rs rt it,
    existing_entry k s2 = Some p ∧ snapshot_item k s2 = Some (rs, it) ∧
    entry_item p s2 = Some (rt, it) ∧ item_type it = TMessage.
Proof.
  intros Hs (r & it & Hst & Hty) Heq Hkeep.
  destruct (message_event_step fS fT k itemId ref s r it Hs Hst Hty)
    as (_ & Hst2 & p & rc & He2 & Hen2).
  cbv zeta in *. rewrite <- Heq in Hen2.
  exists p, r, rc, (fS (adopt_id itemId it)).
  repeat split; try assumption. by rewrite Hkeep, adopt_id_type.
Qed.

(** A text delta, a final text or an annotation for an output index
    whose message the response snapshot already stores leaves the
    transcript entry of that index and the snapshot with equal items:
    the two projections apply the event to the same message in the same
    way. *)
Theorem text_projections_agree source inputs response (cs : list Call)
    ref event k itemId :
  let s := run cs (new_session source inputs response) in
  let s' := exec (handleEvent ref event) s in
  text_event event = Some (k, itemId) → stores_message k s →
  ∃ p rs rt it,
    findOutputEntry None (Some k) s' = Some p ∧
    snapshot_item k s' = Some (rs, it) ∧
    entry_item p s' = Some (rt, it) ∧ item_type it = TMessage.
Proof.
  intros s s' Hev Hst. subst s'.
  pose proof (run_ordered source inputs response cs) as Hs. fold s in Hs.
  assert (Hitem : item_event event = Some (k, TMessage, itemId)).
  { destruct event; try discriminate; simpl in Hev; injection Hev as -> ->; reflexivity. }
  rewrite handleEvent_exec, (before_change_item ref event _ s Hitem).
  match goal with
  | |- context [exec emitChange ?x] => destruct (emitChange_shape x) as (log & flag & ->)
  end.
  assert (Hagree : ∀ g it,
    on_content (λ content, at_index (fst g) (snd g) (ensureSnapshotText content (fst g))) it
    = on_content (λ content, at_index (fst g) (snd g) (ensureMessageText content (fst g))) it).
  { intros g it. destruct it; try reflexivity. simpl. by rewrite ensure_text_agree. }
  destruct event; try discriminate; simpl in Hev; injection Hev as -> ->;
    cbn [mutateSnapshot applyToMessages].
  - apply (message_event_sync _ _ k itemId ref (exec (emit (SigEvent ref)) s) Hs Hst
             (Hagree (content_index, with_text (λ t, t +:+ delta)))).
    intros it. apply on_content_type.
  - apply (message_event_sync _ _ k itemId ref (exec (emit (SigEvent ref)) s) Hs Hst
             (Hagree (content_index, with_text (λ _, text)))).
    intros it. apply on_content_type.
  - apply (message_event_sync _ _ k itemId ref (exec (emit (SigEvent ref)) s) Hs Hst
             (Hagree (content_index, put_annotation annotation_index annotation))).
    intros it. apply on_content_type.
Qed.

(** ** Synchronising the transcript with a response *)

Lemma clone_items_spec items s :
  clone_items items s
  = (Some <$> seq (length (heap s)) (length items), set_heap (heap s ++ items) s).
Proof.
  revert s. induction items as [|it rest IH]; intros s.
  - simpl. unfold ret. rewrite app_nil_r. by rewrite set_heap_same.
  - simpl clone_items. unfold bind at 1. cbn [clone alloc].
    unfold bind at 1. rewrite IH. cbn [ret heap set_heap length].
    rewrite length_app. simpl. replace (length (heap s) + 1) with (S (length (heap s))) by lia.
    rewrite <- app_assoc. reflexivity.
Qed.

Lemma insertOutputEntry_keeps_key r id k i s :
  is_Some (outputIndexToMessageIndex s !! i) →
  is_Some (outputIndexToMessageIndex (exec (insertOutputEntry r id k) s) !! i).
Proof.
  apply (insertOutputEntry_insensitive
           (λ s, is_Some (outputIndexToMessageIndex s !! i))); try (intros; assumption).
  intros k' v s' H. simpl. rewrite lookup_insert_is_Some.
  destruct (decide (k' = i)); [by left|by right].
Qed.

Lemma holds_object_insert r' id k i r s :
  ordered s → i < k → holds_object i r s →
  holds_object i r (exec (insertOutputEntry r' id k) s).
Proof.
  intros Hs Hik (p & e & a & He & Hp).
  pose proof (findInsertionPoint_le k s) as Hip.
  destruct (existing_entry_Some i s p He) as (Hi & _).
  assert (Hlt : p < findInsertionPoint k s).
  { destruct (decide (p < findInsertionPoint k s)) as [|Hge]; [assumption|exfalso].
    assert (Hd : drop (findInsertionPoint k s) (messages s)
                   !! (p - findInsertionPoint k s) = Some (MOutput r i e a)).
    { rewrite lookup_drop. rewrite <- Hp. f_equal. lia. }
    pose proof (after_insertion_larger k s _ _ i Hs Hd eq_refl). lia. }
  destruct (insertOutputEntry_keeps_key r' id k i s) as [v Hv]; [eauto|].
  exists p, e, a.
  assert (Hmsg : messages (exec (insertOutputEntry r' id k) s) !! p
                 = Some (MOutput r i e a)).
  { rewrite insertOutputEntry_messages. by rewrite splice_in_lookup_lt. }
  split; [|exact Hmsg].
  eapply existing_entry_intro; [|exact Hmsg].
  rewrite Hv. f_equal.
  rewrite insertOutputEntry_exec in Hv.
  rewrite (proj2 (registerItemId_frame _ _ _)) in Hv.
  match type of Hv with
  | outputIndexToMessageIndex (exec (updateMappingsAfterInsertion ?q k) ?s0) !! i = _ =>
      destruct (proj2 (updateMappingsAfterInsertion_spec q k s0) i v Hv)
        as [(j & m & Hj & Hkey & _)|[Hold _]]
  end.
  - exfalso. simpl messages in Hj. rewrite splice_in_drop in Hj by exact Hip.
    pose proof (after_insertion_larger k s j m i Hs Hj Hkey). lia.
  - simpl in Hold. rewrite lookup_insert_ne in Hold by lia. congruence.
Qed.

Lemma snapshot_item_same k s s' :
  heap s' = heap s → responseSnapshot s' = responseSnapshot s →
  snapshot_item k s' = snapshot_item k s.
Proof. intros Hh Hr. unfold snapshot_item. by rewrite Hh, Hr. Qed.

(** One step of [syncOutputsFromSnapshot]: the entry of the output index
    takes the snapshot's object, and the entries of smaller output
    indices keep theirs. *)
Lemma ensureOutputEntryFromSnapshot_step k s :
  ordered s →
  let s' := exec (ensureOutputEntryFromSnapshot k) s in
  ordered s' ∧ heap s' = heap s ∧ responseSnapshot s' = responseSnapshot s ∧
  (∀ r it, snapshot_item k s = Some (r, it) → holds_object k r s') ∧
  (∀ i r, i < k → holds_object i r s → holds_object i r s').
Proof.
  intros Hs. cbv zeta.
  split; [apply ensureOutputEntryFromSnapshot_ordered, Hs|].
  unfold ensureOutputEntryFromSnapshot. rewrite exec_bind. cbn [gets fst snd].
  destruct (snapshot_item k s) as [[r it]|] eqn:Hst.
  2: { repeat split; try reflexivity; [discriminate|auto]. }
  rewrite exec_bind. cbn [gets fst snd].
  destruct (existing_entry k s) as [q|] eqn:He.
  - rewrite exec_bind. cbn [update_message modify fst snd].
    rewrite exec_bind. unfold exec at 1. rewrite registerItemId_exec. cbn [ret fst snd].
    destruct (existing_entry_Some k s q He) as (Hk & r0 & k0 & e0 & a0 & Hq).
    assert (Hk0 : k0 = k).
    { pose proof (existing_entry_key k s q _ (proj2 Hs) He Hq) as H. simpl in H. congruence. }
    subst k0.
    split; [reflexivity|]. split; [reflexivity|]. split.
    + intros r1 it1 [= <- <-]. exists q, e0, a0. split.
      * eapply existing_entry_intro; [exact Hk|].
        simpl. rewrite list_lookup_alter_eq, Hq. reflexivity.
      * simpl. rewrite list_lookup_alter_eq, Hq. reflexivity.
    + intros i ri Hik (p & e & a & Hei & Hp).
      assert (Hne : q ≠ p).
      { intros ->. rewrite Hq in Hp. injection Hp as _ Hki _ _. lia. }
      exists p, e, a.
      assert (Hp' : messages
                (set_idToIndex (registered (item_id it) q (idToIndex
                   (set_messages (alter (λ m, match m with
                                              | MOutput _ k1 events aug =>
                                                  MOutput r k1 events aug
                                              | MInput _ => m
                                              end) q (messages s)) s)))
                   (set_messages (alter (λ m, match m with
                                              | MOutput _ k1 events aug =>
                                                  MOutput r k1 events aug
                                              | MInput _ => m
                                              end) q (messages s)) s)) !! p
                = Some (MOutput ri i e a)).
      { simpl. by rewrite list_lookup_alter_ne. }
      split; [|exact Hp'].
      eapply existing_entry_intro; [|exact Hp'].
      apply existing_entry_Some in Hei as [Hi _]. exact Hi.
  - rewrite exec_bind. cbn [ret exec fst snd].
    change ((insertOutputEntry r (item_id it) k s).2)
      with (exec (insertOutputEntry r (item_id it) k) s).
    destruct (insertOutputEntry_spec r (item_id it) k s Hs)
      as (_ & Hmsg & Hkey & Hheap & Hsnap & _).
    cbv zeta in *.
    split; [exact Hheap|]. split; [exact Hsnap|]. split.
    + intros r1 it1 [= <- <-].
      exists (findInsertionPoint k s), [], None.
      assert (Hp : messages (exec (insertOutputEntry r (item_id it) k) s)
                     !! findInsertionPoint k s = Some (MOutput r k [] None)).
      { rewrite Hmsg. apply splice_in_lookup_eq, findInsertionPoint_le. }
      split; [|exact Hp]. eapply existing_entry_intro; [exact Hkey|exact Hp].
    + intros i ri Hik Hi. by apply holds_object_insert.
Qed.

Lemma sync_loop a n s :
  ordered s →
  let s' := exec (for_each (seq a n)
                    (λ index, ensureOutputEntryFromSnapshot index ;; ret tt)%session) s in
  ordered s' ∧ heap s' = heap s ∧ responseSnapshot s' = responseSnapshot s ∧
  (∀ i r, i < a → holds_object i r s → holds_object i r s') ∧
  (∀ i r it, a ≤ i < a + n → snapshot_item i s = Some (r, it) → holds_object i r s').
Proof.
  revert a s. induction n as [|n IH]; intros a s Hs; cbv zeta.
  - simpl. split; [exact Hs|]. split; [reflexivity|]. split; [reflexivity|].
    split; [auto|]. intros i r it Hi. lia.
  - simpl seq. simpl for_each. rewrite exec_bind_unit. cbv beta.
    assert (Hbody : exec (ensureOutputEntryFromSnapshot a ;; ret tt)%session s
                    = exec (ensureOutputEntryFromSnapshot a) s)
      by (by rewrite exec_bind).
    rewrite Hbody. clear Hbody.
    destruct (ensureOutputEntryFromSnapshot_step a s Hs)
      as (Hs1 & Hh1 & Hr1 & Hnew & Hold).
    cbv zeta in *.
    set (s1 := exec (ensureOutputEntryFromSnapshot a) s) in *.
    destruct (IH (S a) s1 Hs1) as (Hs2 & Hh2 & Hr2 & Hold2 & Hnew2).
    cbv zeta in *.
    split; [exact Hs2|]. split; [congruence|]. split; [congruence|]. split.
    + intros i r Hi Hobj. apply Hold2; [lia|]. by apply Hold.
    + intros i r it Hi Hst. destruct (decide (i = a)) as [->|Hne].
      * apply Hold2; [lia|]. by apply (Hnew r it).
      * apply (Hnew2 i r it); [lia|].
        by rewrite (snapshot_item_same i s s1 Hh1 Hr1).
Qed.

Lemma clone_response_spec response s :
  clone_response response s
  = (mkResponse (rp_id response) (rp_status response)
       (Some <$> seq (length (heap s)) (length (rp_output response))),
     set_heap (heap s ++ rp_output response) s).
Proof. unfold clone_response, bind. rewrite clone_items_spec. reflexivity. Qed.

(** [syncOutputsFromSnapshot] over a response whose items were just
    cloned into the item store: every output index of the response gets
    a transcript entry that holds the snapshot's copy of the item. *)
Lemma sync_installs rid rst (old items : list OutputItem) s :
  ordered s → heap s = old ++ items →
  responseSnapshot s
  = Some (mkResponse rid rst (Some <$> seq (length old) (length items))) →
  let s' := exec syncOutputsFromSnapshot s in
  ordered s' ∧
  ∀ i item, items !! i = Some item →
    ∃ p, existing_entry i s' = Some p ∧
         entry_item p s' = Some (length old + i, item) ∧
         snapshot_item i s' = Some (length old + i, item).
Proof.
  intros Hs Hheap Hsnap. cbv zeta.
  unfold syncOutputsFromSnapshot. rewrite exec_bind. cbn [gets fst snd].
  rewrite Hsnap. cbn [resp_output]. rewrite length_fmap, length_seq.
  destruct (sync_loop 0 (length items) s Hs) as (Hs' & Hh' & Hr' & _ & Hnew).
  cbv zeta in *. split; [exact Hs'|].
  intros i item Hi.
  assert (Hlt : i < length items) by (eapply lookup_lt_Some; exact Hi).
  assert (Hst : snapshot_item i s = Some (length old + i, item)).
  { eapply snapshot_item_intro; [exact Hsnap| |].
    - cbn [resp_output]. unfold arr_get. rewrite list_lookup_fmap.
      by rewrite lookup_seq_lt.
    - rewrite Hheap, lookup_app_r by lia. rewrite <- Hi. f_equal. lia. }
  destruct (Hnew i _ _ ltac:(lia) Hst) as (p & e & a & He & Hp).
  exists p. split; [exact He|]. split.
  - eapply entry_item_intro; [exact Hp|].
    rewrite Hh'. by apply snapshot_item_Some in Hst as [Hr _].
  - by rewrite (snapshot_item_same i s _ Hh' Hr').
Qed.

Lemma resetCurrentResponseOutputs_heap s :
  heap (exec resetCurrentResponseOutputs s) = heap s.
Proof.
  destruct (resetCurrentResponseOutputs_spec s) as ((ids & Hids) & _).
  cbv zeta in Hids. by rewrite Hids.
Qed.

(** A lifecycle event stores the output items of its response as
    objects that did not exist before the call: the one at output index
    [i] is the [i]-th object allocated by the call. *)
Lemma lifecycle_event_copies ref kind (r : ResponsePayload) s :
  ordered s →
  let s' := exec (handleEvent ref (EvLifecycle kind r)) s in
  ∀ i item, rp_output r !! i = Some item →
    ∃ p, existing_entry i s' = Some p ∧
         entry_item p s' = Some (length (heap s) + i, item) ∧
         snapshot_item i s' = Some (length (heap s) + i, item).
Proof.
  intros Hs s' i item Hi. subst s'.
  rewrite handleEvent_exec.
  destruct (emitChange_shape (before_change ref (EvLifecycle kind r) s))
    as (log & flag & ->).
  unfold before_change. cbn [applyToMessages ret exec snd].
  change ((mutateSnapshot (EvLifecycle kind r) (emit (SigEvent ref) s).2).2)
    with (exec (mutateSnapshot (EvLifecycle kind r)) (exec (emit (SigEvent ref)) s)).
  set (s0 := exec (emit (SigEvent ref)) s).
  assert (Hs0 : ordered s0) by exact Hs.
  unfold mutateSnapshot. rewrite exec_bind. cbn [gets fst snd].
  rewrite exec_bind_unit.
  set (sR := exec (if bool_decide (kind = LCreated)
                      || truthy (rp_id r)
                         && negb (bool_decide (rp_id r = currentResponseId s0))
                   then resetCurrentResponseOutputs else ret tt) s0).
  assert (HsR : ordered sR).
  { subst sR. destruct (_ || _); [|exact Hs0].
    apply (resetCurrentResponseOutputs_pres _ ordered_frame_stable);
      [apply ordered_lifecycle_stable|exact Hs0]. }
  assert (HhR : heap sR = heap s).
  { subst sR. destruct (_ || _); [|reflexivity].
    by rewrite resetCurrentResponseOutputs_heap. }
  rewrite exec_bind_unit. cbn [modify exec snd].
  rewrite exec_bind. rewrite clone_response_spec. cbn [fst snd].
  rewrite !exec_bind_unit. cbn [modify exec snd].
  match goal with
  | |- context [exec syncOutputsFromSnapshot ?x] => set (s3 := x)
  end.
  assert (Hs3 : ordered s3) by (eapply ordered_ext; [| |exact HsR]; reflexivity).
  destruct (sync_installs (rp_id r) (rp_status r) (heap sR) (rp_output r) s3 Hs3
              eq_refl eq_refl) as [_ Hall].
  destruct (Hall i item Hi) as (p & He & Hen & Hst).
  rewrite HhR in Hen, Hst. exists p. auto.
Qed.

(** A lifecycle event makes its response authoritative: the response
    snapshot becomes a copy of the event's response, and for every
    output item of that response the transcript entry of its output
    index holds the snapshot's copy of the item. *)
Theorem lifecycle_response_installed source inputs response (cs : list Call)
    ref kind (r : ResponsePayload) i item :
  let s := run cs (new_session source inputs response) in
  let s' := exec (handleEvent ref (EvLifecycle kind r)) s in
  rp_output r !! i = Some item →
  ∃ p object,
    findOutputEntry None (Some i) s' = Some p ∧
    entry_item p s' = Some (object, item) ∧
    snapshot_item i s' = Some (object, item).
Proof.
  intros s s' Hi. subst s'.
  destruct (lifecycle_event_copies ref kind r s
              (run_ordered source inputs response cs) i item Hi)
    as (p & He & Hen & Hst).
  exists p, (length (heap s) + i). auto.
Qed.

(** A session constructed over a persisted response starts with the
    status of that response ([idle] when it has none) and, for every
    output item of the response, with a transcript entry for its output
    index that holds the snapshot's copy of the item. *)
Theorem resumed_from_response source inputs (r : ResponsePayload) :
  let s := new_session source inputs (Some r) in
  getStatus s = default Idle (rp_status r) ∧
  ∀ i item, rp_output r !! i = Some item →
    ∃ p object,
      findOutputEntry None (Some i) s = Some p ∧
      entry_item p s = Some (object, item) ∧
      snapshot_item i s = Some (object, item).
Proof.
  cbv zeta. unfold new_session, construct. rewrite exec_bind_unit.
  set (s1 := exec (for_each inputs addInput) (fresh_session source)).
  assert (Hs1 : ordered s1).
  { apply preserves_exec; [|apply fresh_session_ordered].
    apply preserves_for_each. intros x. apply addInput_pres, ordered_call_stable. }
  rewrite exec_bind. rewrite clone_response_spec. cbn [fst snd].
  rewrite !exec_bind_unit. cbn [modify exec snd].
  match goal with
  | |- context [exec syncOutputsFromSnapshot ?x] => set (s3 := x)
  end.
  assert (Hs3 : ordered s3) by (eapply ordered_ext; [| |exact Hs1]; reflexivity).
  split.
  - unfold getStatus.
    apply (syncOutputsFromSnapshot_pres _ (status_frame_stable _) s3). reflexivity.
  - intros i item Hi.
    destruct (sync_installs (rp_id r) (rp_status r) (heap s1) (rp_output r) s3 Hs3
                eq_refl eq_refl) as [_ Hall].
    destruct (Hall i item Hi) as (p & He & Hen & Hst).
    exists p, (length (heap s1) + i). auto.
Qed.

(** ** The objects of the session and those of its caller *)

Lemma entry_refs_app ms ms' : entry_refs (ms ++ ms') = entry_refs ms ++ entry_refs ms'.
Proof. apply omap_app. Qed.

Lemma entry_refs_lookup ms i r k e a :
  ms !! i = Some (MOutput r k e a) → r ∈ entry_refs ms.
Proof.
  intros H. apply list_elem_of_omap. exists (MOutput r k e a).
  split; [eapply list_elem_of_lookup_2; exact H|reflexivity].
Qed.

Lemma entry_refs_splice i r k e a ms x :
  x ∈ entry_refs (splice_in i (MOutput r k e a) ms) → x = r ∨ x ∈ entry_refs ms.
Proof.
  unfold splice_in. rewrite entry_refs_app. intros H.
  assert (Hms : entry_refs ms = entry_refs (take i ms) ++ entry_refs (drop i ms))
    by (by rewrite <- entry_refs_app, take_drop).
  rewrite Hms.
  apply elem_of_app in H as [H|H]; [right; apply elem_of_app; by left|].
  apply elem_of_cons in H as [->|H]; [by left|right; apply elem_of_app; by right].
Qed.

(** An entry rewritten in place brings in the address it now holds, and no other. *)
Lemma entry_refs_alter f i ms x :
  x ∈ entry_refs (alter f i ms) →
  x ∈ entry_refs ms ∨ ∃ m r k e a, ms !! i = Some m ∧ f m = MOutput r k e a ∧ x = r.
Proof.
  revert i. induction ms as [|m ms IH]; intros i H; [by left|].
  destruct i as [|i]; simpl in H.
  - destruct (f m) as [y|r k e a] eqn:Hf.
    + left. destruct m; simpl; [exact H|by apply list_elem_of_further].
    + apply elem_of_cons in H as [->|H].
      * right. exists m, r, k, e, a. auto.
      * left. destruct m; simpl; [exact H|by apply list_elem_of_further].
  - destruct m as [y|r k e a]; simpl in *.
    + destruct (IH i H) as [?|?]; [by left|by right].
    + apply elem_of_cons in H as [->|H]; [left; apply list_elem_of_here|].
      destruct (IH i H) as [?|?]; [left; by apply list_elem_of_further|by right].
Qed.

Lemma snapshot_refs_lookup resp k r :
  arr_get (resp_output resp) k = Some r → r ∈ snapshot_refs (Some resp).
Proof.
  unfold arr_get. intros H. destruct (resp_output resp !! k) as [[x|]|] eqn:E; try discriminate.
  injection H as ->. apply list_elem_of_omap. exists (Some r).
  split; [eapply list_elem_of_lookup_2; exact E|reflexivity].
Qed.

Lemma snapshot_refs_set rid rst out k r x :
  x ∈ snapshot_refs (Some (mkResponse rid rst (arr_set out k r))) →
  x = r ∨ x ∈ omap (λ y, y) out.
Proof.
  simpl. intros H. apply list_elem_of_omap in H as (y & Hy & Hx). simpl in Hx. subst y.
  unfold arr_set in Hy. destruct (decide (k < length out)).
  - apply list_elem_of_lookup in Hy as [j Hj].
    apply list_lookup_insert_Some in Hj as [(_ & Heq & _)|[_ Hj]]; [left; congruence|].
    right. apply list_elem_of_omap. exists (Some x).
    split; [eapply list_elem_of_lookup_2; exact Hj|reflexivity].
  - apply elem_of_app in Hy as [Hy|Hy].
    + right. apply list_elem_of_omap. by exists (Some x).
    + apply elem_of_app in Hy as [Hy|Hy].
      * apply elem_of_replicate in Hy as [? _]. discriminate.
      * apply list_elem_of_singleton in Hy. left. congruence.
Qed.

Lemma entry_item_stored p s r it : entry_item p s = Some (r, it) → r ∈ stored_refs s.
Proof.
  unfold entry_item, stored_refs. intros H.
  destruct (messages s !! p) as [[x|r' k e a]|] eqn:E; try discriminate.
  destruct (heap s !! r'); try discriminate. injection H as -> _.
  apply elem_of_app. left. eapply entry_refs_lookup. exact E.
Qed.

Lemma snapshot_item_stored k s r it : snapshot_item k s = Some (r, it) → r ∈ stored_refs s.
Proof.
  unfold snapshot_item, stored_refs. intros H.
  destruct (responseSnapshot s) as [resp|]; try discriminate.
  destruct (arr_get (resp_output resp) k) as [r'|] eqn:E; try discriminate.
  destruct (heap s !! r'); try discriminate. injection H as -> _.
  apply elem_of_app. right. eapply snapshot_refs_lookup. exact E.
Qed.

(** A step that allocates, or writes in place, and stores only what was
    stored or what it has allocated, keeps the two sides apart. *)
Lemma apart_step O s s' :
  length (heap s) ≤ length (heap s') →
  (∀ r, r ∈ stored_refs s' → r ∈ stored_refs s ∨ length (heap s) ≤ r < length (heap s')) →
  apart O s → apart O s'.
Proof.
  intros Hlen Hst [HO Hs]. rewrite Forall_forall in HO, Hs. split; apply Forall_forall.
  - intros a Ha. specialize (HO a Ha). lia.
  - intros r Hr. destruct (Hst r Hr) as [Hold|Hnew].
    + destruct (Hs r Hold). split; [lia|assumption].
    + split; [lia|]. intros Ha. specialize (HO r Ha). lia.
Qed.

Lemma apart_same O s s' :
  messages s' = messages s → responseSnapshot s' = responseSnapshot s →
  length (heap s) ≤ length (heap s') → apart O s → apart O s'.
Proof.
  intros Hm Hr Hl. apply apart_step; [exact Hl|].
  intros r. unfold stored_refs. rewrite Hm, Hr. by left.
Qed.

Lemma apart_stores O s s' :
  length (heap s) ≤ length (heap s') →
  (∀ r, r ∈ entry_refs (messages s') →
        r ∈ stored_refs s ∨ length (heap s) ≤ r < length (heap s')) →
  (∀ r, r ∈ snapshot_refs (responseSnapshot s') →
        r ∈ stored_refs s ∨ length (heap s) ≤ r < length (heap s')) →
  apart O s → apart O s'.
Proof.
  intros Hlen He Hr. apply apart_step; [exact Hlen|].
  intros r H. apply elem_of_app in H as [H|H]; auto.
Qed.

Lemma stored_entry s r : r ∈ entry_refs (messages s) → r ∈ stored_refs s.
Proof. intros H. apply elem_of_app. by left. Qed.

Lemma stored_snapshot s r : r ∈ snapshot_refs (responseSnapshot s) → r ∈ stored_refs s.
Proof. intros H. apply elem_of_app. by right. Qed.

Section Apart.
Variable O : list Ref.

Lemma world_ok_intro {A} (m : M A) :
  preserves ordered m →
  (∀ s, ordered s → apart O s → apart O (m s).2) →
  preserves (world_ok O) m.
Proof. intros Ho Ha s [H1 H2]. split; [by apply Ho|by apply Ha]. Qed.

Lemma world_ok_ids v s : world_ok O s → world_ok O (set_idToIndex v s).
Proof. intros [Ho Ha]. split; [by apply ordered_frame_stable|exact Ha]. Qed.

Lemma world_ok_audio v s : world_ok O s → world_ok O (set_sessionAugmentations v s).
Proof. intros [Ho Ha]. split; [by apply ordered_frame_stable|exact Ha]. Qed.

Lemma world_ok_ticks v s : world_ok O s → world_ok O (set_ticks v s).
Proof. intros [Ho Ha]. split; [by apply ordered_frame_stable|exact Ha]. Qed.

Lemma world_ok_status v s : world_ok O s → world_ok O (set_status v s).
Proof. intros [Ho Ha]. split; [by apply ordered_lifecycle_stable|exact Ha]. Qed.

Lemma world_ok_ended v s : world_ok O s → world_ok O (set_ended v s).
Proof. intros [Ho Ha]. split; [by apply ordered_lifecycle_stable|exact Ha]. Qed.

Lemma world_ok_current v s : world_ok O s → world_ok O (set_currentResponseId v s).
Proof. intros [Ho Ha]. split; [by apply ordered_lifecycle_stable|exact Ha]. Qed.

Lemma world_ok_reset s : world_ok O s → world_ok O (set_outputIndexToMessageIndex ∅ s).
Proof. intros [Ho Ha]. split; [by apply ordered_lifecycle_stable|exact Ha]. Qed.

Lemma world_ok_emitted v s : world_ok O s → world_ok O (set_emitted v s).
Proof. intros [Ho Ha]. split; [by apply ordered_call_stable|exact Ha]. Qed.

Lemma world_ok_endEmitted v s : world_ok O s → world_ok O (set_endEmitted v s).
Proof. intros [Ho Ha]. split; [by apply ordered_call_stable|exact Ha]. Qed.

Lemma world_ok_lastError v s : world_ok O s → world_ok O (set_lastError v s).
Proof. intros [Ho Ha]. split; [by apply ordered_call_stable|exact Ha]. Qed.

Local Hint Resolve world_ok_ids world_ok_audio world_ok_ticks world_ok_status
  world_ok_ended world_ok_current world_ok_reset world_ok_emitted
  world_ok_endEmitted world_ok_lastError : pres.

Lemma alloc_apart v : preserves (world_ok O) (alloc v).
Proof.
  apply world_ok_intro; [apply (alloc_pres _ ordered_frame_stable)|].
  intros s _ Ha. eapply apart_same; [..|exact Ha]; simpl; try reflexivity.
  rewrite length_app. lia.
Qed.

Lemma clone_apart v : preserves (world_ok O) (clone v).
Proof. apply alloc_apart. Qed.

Lemma update_item_apart r f : preserves (world_ok O) (update_item r f).
Proof.
  apply world_ok_intro; [apply (update_item_pres _ ordered_frame_stable)|].
  intros s _ Ha. eapply apart_same; [..|exact Ha]; simpl; try reflexivity.
  by rewrite length_alter.
Qed.

(** An entry rewritten in place, which keeps the object it holds. *)
Lemma update_message_apart i f :
  (∀ m, same_shape (f m) m) →
  (∀ m r k e a, f m = MOutput r k e a → ∃ k' e' a', m = MOutput r k' e' a') →
  preserves (world_ok O) (update_message i f).
Proof.
  intros Hshape Hkeep.
  apply world_ok_intro; [by apply (update_message_pres _ ordered_frame_stable)|].
  intros s _ Ha. eapply apart_stores; [| | |exact Ha]; simpl.
  - lia.
  - intros r Hr. left. apply entry_refs_alter in Hr as [Hr|(m & r' & k & e & a & Hm & Hf & ->)].
    + by apply stored_entry.
    + destruct (Hkeep _ _ _ _ _ Hf) as (k' & e' & a' & ->).
      apply stored_entry. eapply entry_refs_lookup. exact Hm.
  - intros r Hr. left. by apply stored_snapshot.
Qed.

Lemma push_event_apart i event : preserves (world_ok O) (push_event i event).
Proof.
  apply update_message_apart.
  - intros [x|r k e a]; simpl; reflexivity.
  - intros [x|r0 k0 e0 a0] r k e a; [discriminate|]. intros [= <- <- <- <-]. eauto.
Qed.

Lemma update_augmentations_apart i f : preserves (world_ok O) (update_augmentations i f).
Proof.
  apply update_message_apart.
  - intros [x|r k e a]; simpl; reflexivity.
  - intros [x|r0 k0 e0 a0] r k e a; [discriminate|]. intros [= <- <- <- <-]. eauto.
Qed.

Lemma replace_entry_item_apart i item : preserves (world_ok O) (replace_entry_item i item).
Proof.
  apply world_ok_intro; [apply (replace_entry_item_pres _ ordered_frame_stable)|].
  intros s _ Ha. unfold replace_entry_item, clone, alloc, update_message, bind, modify.
  cbn [fst snd]. eapply apart_stores; [| | |exact Ha]; simpl.
  - rewrite length_app. lia.
  - intros r Hr. apply entry_refs_alter in Hr as [Hr|(m & r' & k & e & a & Hm & Hf & ->)].
    + left. by apply stored_entry.
    + right. destruct m; [discriminate|]. injection Hf as <- _ _ _.
      rewrite length_app. simpl. lia.
  - intros r Hr. left. by apply stored_snapshot.
Qed.

Lemma setSnapshotOutput_apart k item : preserves (world_ok O) (setSnapshotOutput k item).
Proof.
  apply world_ok_intro; [apply (setSnapshotOutput_pres _ ordered_frame_stable)|].
  intros s _ Ha. fold (exec (setSnapshotOutput k item) s). rewrite setSnapshotOutput_exec.
  destruct (responseSnapshot s) as [resp|] eqn:Hresp; [|exact Ha].
  eapply apart_stores; [| | |exact Ha]; simpl.
  - rewrite length_app. lia.
  - intros r Hr. left. by apply stored_entry.
  - intros r Hr.
    apply (snapshot_refs_set (resp_id resp) (resp_status resp)) in Hr as [->|Hr].
    + right. rewrite length_app. simpl. lia.
    + left. apply stored_snapshot. by rewrite Hresp.
Qed.

Lemma ensureOutputEntry_apart item k : preserves (world_ok O) (ensureOutputEntry item k).
Proof.
  apply world_ok_intro; [apply ordered_frame_stable|].
  intros s Hs Ha. fold (exec (ensureOutputEntry item k) s).
  destruct (ensureOutputEntry_spec item k s Hs) as (_ & _ & _ & Hheap & Hsnap & _).
  cbv zeta in *. eapply apart_stores; [| | |exact Ha].
  - rewrite Hheap, length_app. lia.
  - intros r. rewrite ensureOutputEntry_messages, Hheap, length_app. simpl.
    destruct (existing_entry k s) as [i|]; intros Hr.
    + apply entry_refs_alter in Hr as [Hr|(m & r' & k' & e & a & Hm & Hf & ->)].
      * left. by apply stored_entry.
      * right. destruct m; [discriminate|]. injection Hf as <- _ _ _. lia.
    + apply entry_refs_splice in Hr as [->|Hr]; [right; lia|left; by apply stored_entry].
  - intros r. rewrite Hsnap. intros Hr. left. by apply stored_snapshot.
Qed.

Lemma ensureOutputEntryFromSnapshot_apart k :
  preserves (world_ok O) (ensureOutputEntryFromSnapshot k).
Proof.
  apply world_ok_intro; [apply ordered_frame_stable|].
  intros s Hs Ha. fold (exec (ensureOutputEntryFromSnapshot k) s).
  destruct (ensureOutputEntryFromSnapshot_step k s Hs) as (_ & Hheap & Hsnap & _).
  cbv zeta in *. eapply apart_stores; [| | |exact Ha].
  - rewrite Hheap. lia.
  - intros r. rewrite ensureOutputEntryFromSnapshot_messages.
    destruct (snapshot_item k s) as [[r0 it]|] eqn:Hst;
      [|intros Hr; left; by apply stored_entry].
    apply snapshot_item_stored in Hst.
    destruct (existing_entry k s) as [i|]; intros Hr; left.
    + apply entry_refs_alter in Hr as [Hr|(m & r' & k' & e & a & Hm & Hf & ->)].
      * by apply stored_entry.
      * destruct m; [discriminate|]. by injection Hf as <- _ _ _.
    + apply entry_refs_splice in Hr as [->|Hr]; [exact Hst|by apply stored_entry].
  - intros r. rewrite Hsnap. intros Hr. left. by apply stored_snapshot.
Qed.

Local Hint Resolve alloc_apart clone_apart update_item_apart push_event_apart
  update_augmentations_apart replace_entry_item_apart setSnapshotOutput_apart
  ensureOutputEntry_apart ensureOutputEntryFromSnapshot_apart : pres.

Lemma registerItemId_apart id index : preserves (world_ok O) (registerItemId id index).
Proof. unfold registerItemId. pres. Qed.

Lemma makeId_apart prefix : preserves (world_ok O) (makeId prefix).
Proof. intros s Hs. simpl. eauto with pres. Qed.

Local Hint Resolve registerItemId_apart makeId_apart : pres.

Lemma createPlaceholderOutput_apart type itemId :
  preserves (world_ok O) (createPlaceholderOutput type itemId).
Proof. unfold createPlaceholderOutput. pres. Qed.

Local Hint Resolve createPlaceholderOutput_apart : pres.

Lemma ensureSnapshotOutputItem_apart k type itemId :
  preserves (world_ok O) (ensureSnapshotOutputItem k type itemId).
Proof. unfold ensureSnapshotOutputItem, deref. pres. Qed.

Local Hint Resolve ensureSnapshotOutputItem_apart : pres.

Lemma ensureOutputItemPresence_apart k type itemId :
  preserves (world_ok O) (ensureOutputItemPresence k type itemId).
Proof. unfold ensureOutputItemPresence, deref. pres. Qed.

Local Hint Resolve ensureOutputItemPresence_apart : pres.

Lemma recordOutputEvent_apart k itemId event :
  preserves (world_ok O) (recordOutputEvent k itemId event).
Proof. unfold recordOutputEvent. pres. Qed.

Lemma resetCurrentResponseOutputs_apart : preserves (world_ok O) resetCurrentResponseOutputs.
Proof. unfold resetCurrentResponseOutputs. pres. Qed.

Lemma syncOutputsFromSnapshot_apart : preserves (world_ok O) syncOutputsFromSnapshot.
Proof. unfold syncOutputsFromSnapshot. pres. Qed.

Lemma onSnapshotItem_apart checked k type itemId f :
  preserves (world_ok O) (onSnapshotItem checked k type itemId f).
Proof. unfold onSnapshotItem, deref. pres. Qed.

Lemma findOrEnsure_apart findId k type itemId :
  preserves (world_ok O) (findOrEnsure findId k type itemId).
Proof. unfold findOrEnsure. pres. Qed.

Lemma appendAudioChunk_apart event : preserves (world_ok O) (appendAudioChunk event).
Proof. unfold appendAudioChunk. pres. Qed.

Lemma appendAudioTranscript_apart event : preserves (world_ok O) (appendAudioTranscript event).
Proof. unfold appendAudioTranscript. pres. Qed.

Local Hint Resolve recordOutputEvent_apart resetCurrentResponseOutputs_apart
  syncOutputsFromSnapshot_apart onSnapshotItem_apart findOrEnsure_apart
  appendAudioChunk_apart appendAudioTranscript_apart : pres.

(** [this.responseSnapshot = clone(response)]: the snapshot now stores
    the copies just allocated, and nothing else. *)
Lemma install_response_apart response (rest : M unit) :
  preserves (world_ok O) rest →
  preserves (world_ok O)
    (snap <- clone_response response ;;
     modify (set_responseSnapshot (Some snap)) ;;
     rest).
Proof.
  intros Hrest s [Hs Ha]. rewrite bind_snd, clone_response_spec. cbn [fst snd].
  rewrite bind_snd. cbn [modify fst snd]. apply Hrest. split.
  - apply (fs_snapshot _ ordered_frame_stable), (fs_heap _ ordered_frame_stable), Hs.
  - eapply apart_stores; [| | |exact Ha]; simpl.
    + rewrite length_app. lia.
    + intros r Hr. left. by apply stored_entry.
    + intros r Hr. right. apply list_elem_of_omap in Hr as (y & Hy & Hr). simpl in Hr. subst y.
      apply list_elem_of_fmap in Hy as (j & [= <-] & Hj).
      apply elem_of_seq in Hj. rewrite length_app. lia.
Qed.

Lemma mutateSnapshot_apart event : preserves (world_ok O) (mutateSnapshot event).
Proof.
  unfold mutateSnapshot. destruct event.
  1: { apply preserves_bind; [pres|intros current].
       apply preserves_bind; [pres|intros _].
       apply preserves_bind; [pres|intros _].
       apply install_response_apart. pres. }
  all: pres.
Qed.

Lemma applyToMessages_apart ref event : preserves (world_ok O) (applyToMessages ref event).
Proof. unfold applyToMessages, whenEntryOfType. destruct event; pres. Qed.

Lemma emit_apart sig : preserves (world_ok O) (emit sig).
Proof. unfold emit. pres. Qed.

Local Hint Resolve emit_apart : pres.

Lemma emitChange_apart : preserves (world_ok O) emitChange.
Proof. unfold emitChange. pres. Qed.

Local Hint Resolve emitChange_apart mutateSnapshot_apart applyToMessages_apart : pres.



End Apart.

(** ** The session in the hands of its caller *)










(** What the theorem excludes: were a transcript entry to hold an item
    object of the caller's, a write of the caller to that object would
    show in the transcript. *)
Example aliased_entry_follows_caller :
  let msg := IMessage "msg_1" "assistant" "in_progress" [] in
  let s := set_heap [msg] (set_messages [MOutput 0 0 [] None] (fresh_session sample_ids)) in
  let w := mkWorld ∅ [0] s in
  entry_item 0 (session w) = Some (0, msg) ∧
  entry_item 0 (session (move (SetItem 0 sample_call) w)) = Some (0, sample_call).
Proof. vm_compute. split; reflexivity. Qed.



(** ** Sessions without a response snapshot *)

Lemma findOutputEntry_None_by_id itemId k s :
  findOutputEntry itemId (Some k) s = None →
  findOutputEntry itemId None s = None ∧ findOutputEntry None (Some k) s = None.
Proof.
  unfold findOutputEntry.
  destruct itemId as [i|]; [|by auto].
  destruct (truthy (Some i)); [|by auto].
  destruct (idToIndex s !! i) as [idx|]; [|by auto].
  destruct (output_at idx s); [discriminate|by auto].
Qed.

Lemma applyToMessages_unresolved ref event k type itemId s :
  item_event event = Some (k, type, itemId) →
  responseSnapshot s = None → findOutputEntry itemId (Some k) s = None →
  applyToMessages ref event s = (tt, s).
Proof.
  intros Hev Hs Hfind.
  destruct (findOutputEntry_None_by_id itemId k s Hfind) as [Hid Hpos].
  assert (Hst : snapshot_item k s = None) by (unfold snapshot_item; by rewrite Hs).
  destruct event; try discriminate Hev; simpl in Hev;
    injection Hev as Hk Hty Hi; subst;
    unfold applyToMessages, findOrEnsure, whenEntryOfType, ensureOutputItemPresence,
      recordOutputEvent, ensureOutputEntryFromSnapshot, bind, gets, ret;
    repeat (first [ rewrite Hfind | rewrite Hpos | rewrite Hid | rewrite Hst
                  | rewrite (ensureSnapshotOutputItem_none _ _ _ s Hs) ];
            cbv beta iota zeta);
    reflexivity.
Qed.

(** Without a response snapshot, an item event whose item id and output
    index resolve to no transcript entry is dropped: no placeholder is
    built and nothing that is stored changes. *)
Theorem item_event_needs_snapshot ref event k type itemId (s : Session) :
  item_event event = Some (k, type, itemId) →
  getResponse s = None → findOutputEntry itemId (Some k) s = None →
  store (exec (handleEvent ref event) s) = store s.
Proof.
  unfold getResponse. intros Hev Hs Hfind.
  rewrite handleEvent_exec, (before_change_item ref event _ s Hev).
  match goal with
  | |- context [exec emitChange ?x] => destruct (emitChange_shape x) as (log & flag & ->)
  end.
  assert (Hlc : is_lifecycle event = false) by (destruct event; try discriminate; reflexivity).
  unfold exec at 2.
  rewrite (mutateSnapshot_no_snapshot event _ Hlc) by exact Hs. cbn [snd].
  unfold exec at 1.
  rewrite (applyToMessages_unresolved ref event k type itemId) by assumption.
  reflexivity.
Qed.

Lemma item_event_needs_snapshot_witness :
  store (exec (handleEvent 1 (EvOutputTextDelta 0 (Some "msg_1"%string) 0 "Hi"%string))
           (new_session sample_ids [] None))
  = store (new_session sample_ids [] None).
Proof.
  apply (item_event_needs_snapshot 1 _ 0 TMessage (Some "msg_1"%string)); reflexivity.
Defined.

Lemma call_keeps_no_snapshot (c : Call) (s : Session) :
  match c with
  | CallHandleEvent _ event => is_lifecycle event = false
  | CallAddInput _ => True
  end →
  responseSnapshot s = None → responseSnapshot (exec (call c) s) = None.
Proof.
  intros Hc Hs. destruct c as [input|ref event]; simpl call.
  - unfold addInput. rewrite !exec_bind. cbn [gets modify fst snd].
    match goal with
    | |- context [exec emitChange ?x] => destruct (emitChange_shape x) as (log & flag & ->)
    end.
    unfold registerItemId.
    destruct (input_id input) as [i|]; [destruct (String.eqb i ""%string)|]; exact Hs.
  - rewrite handleEvent_exec.
    destruct (emitChange_shape (before_change ref event s)) as (log & flag & ->).
    unfold before_change.
    set (s0 := exec (emit (SigEvent ref)) s).
    assert (Hs0 : responseSnapshot s0 = None) by exact Hs.
    assert (Hm : exec (mutateSnapshot event) s0 = s0)
      by (unfold exec; by rewrite mutateSnapshot_no_snapshot).
    rewrite Hm.
    assert (Ha : responseSnapshot (exec (applyToMessages ref event) s0) = None).
    { apply (applyToMessages_unwritten (λ s, responseSnapshot s = None)); auto.
      intros k type itemId s1 H1. by rewrite ensureSnapshotOutputItem_none. }
    destruct event; try discriminate; exact Ha.
Qed.

(** Only a lifecycle event gives a session its response snapshot: as
    long as none is ingested, [getResponse] stays undefined, whatever
    items and deltas arrive, and [consume] returns undefined. *)
Theorem snapshot_needs_lifecycle (stream : list (EvRef * Event)) (s : Session) :
  getResponse s = None →
  forallb (λ e, negb (is_lifecycle e.2)) stream = true →
  (consume stream s).1 = None ∧ getResponse (exec (consume stream) s) = None.
Proof.
  unfold getResponse, consume. intros Hs Hall.
  assert (H : responseSnapshot
                (exec (for_each stream (λ e, handleEvent e.1 e.2)) s) = None).
  { revert s Hs. induction stream as [|[ref event] rest IH]; intros s Hs; [exact Hs|].
    simpl in Hall. apply andb_true_iff in Hall as [Hev Hrest].
    simpl for_each. rewrite exec_bind_unit. apply IH; [exact Hrest|].
    apply (call_keeps_no_snapshot (CallHandleEvent ref event)); [|exact Hs].
    by apply negb_true_iff in Hev. }
  split.
  - rewrite bind_fst. exact H.
  - rewrite exec_bind. exact H.
Qed.

Lemma snapshot_needs_lifecycle_witness :
  let stream :=
    [(1, EvOutputItemAdded 0 sample_call);
     (2, EvFunctionCallArgumentsDelta 0 (Some "fc_1"%string) "{"%string)] in
  (consume stream (new_session sample_ids [] None)).1 = None ∧
  getResponse (exec (consume stream) (new_session sample_ids [] None)) = None.
Proof.
  apply (snapshot_needs_lifecycle
           [(1, EvOutputItemAdded 0 sample_call);
            (2, EvFunctionCallArgumentsDelta 0 (Some "fc_1"%string) "{"%string)]);
    reflexivity.
Defined.

(** * The emitter *)

Section EmitterProperties.
Context {L P : Type} `{EqDecision L}.
Implicit Types (listeners : gmap string (list L)) (listener : L) (event : string).

Lemma set_add_elem listener x (bucket : list L) :
  x ∈ TinyEmitter.set_add listener bucket ↔ x = listener ∨ x ∈ bucket.
Proof.
  unfold TinyEmitter.set_add. destruct (decide (listener ∈ bucket)) as [Hin|Hout].
  - split; [auto|]. intros [->|Hx]; assumption.
  - rewrite elem_of_app, list_elem_of_singleton. tauto.
Qed.

Lemma set_add_NoDup listener (bucket : list L) :
  NoDup bucket → NoDup (TinyEmitter.set_add listener bucket).
Proof.
  intros Hnd. unfold TinyEmitter.set_add.
  destruct (decide (listener ∈ bucket)) as [Hin|Hout]; [exact Hnd|].
  apply NoDup_app. split; [exact Hnd|]. split; [|apply NoDup_singleton].
  intros x Hx Hx'. apply list_elem_of_singleton in Hx' as ->. contradiction.
Qed.

Lemma set_delete_elem listener x (bucket : list L) :
  x ∈ TinyEmitter.set_delete listener bucket ↔ x ∈ bucket ∧ x ≠ listener.
Proof. unfold TinyEmitter.set_delete. rewrite list_elem_of_filter. tauto. Qed.

Lemma set_delete_absent listener (bucket : list L) :
  listener ∉ bucket → TinyEmitter.set_delete listener bucket = bucket.
Proof.
  intros Hout. unfold TinyEmitter.set_delete.
  induction bucket as [|x rest IH]; [reflexivity|].
  apply not_elem_of_cons in Hout as [Hne Hrest].
  rewrite filter_cons_True by congruence. by rewrite IH.
Qed.

Lemma set_delete_added listener (bucket : list L) :
  listener ∉ bucket →
  TinyEmitter.set_delete listener (bucket ++ [listener]) = bucket.
Proof.
  intros Hout. unfold TinyEmitter.set_delete. rewrite filter_app.
  fold (TinyEmitter.set_delete listener bucket). rewrite set_delete_absent by exact Hout.
  rewrite filter_cons_False by (intros Hne; by apply Hne).
  rewrite filter_nil. apply app_nil_r.
Qed.

(** The listeners of an event, none when the map has no bucket for it. *)
Lemma on_bucket event listener listeners e :
  default [] (TinyEmitter.on event listener listeners !! e)
  = if decide (e = event)
    then TinyEmitter.set_add listener (default [] (listeners !! event))
    else default [] (listeners !! e).
Proof.
  unfold TinyEmitter.on. cbv zeta. destruct (decide (e = event)) as [->|Hne].
  - by rewrite lookup_insert_eq.
  - by rewrite lookup_insert_ne.
Qed.

Lemma off_bucket event listener listeners e :
  default [] (TinyEmitter.off event listener listeners !! e)
  = if decide (e = event)
    then TinyEmitter.set_delete listener (default [] (listeners !! event))
    else default [] (listeners !! e).
Proof.
  unfold TinyEmitter.off. destruct (listeners !! event) as [bucket|] eqn:Hb.
  - cbv zeta. destruct (TinyEmitter.set_delete listener bucket) as [|x rest] eqn:Hd.
    + destruct (decide (e = event)) as [->|Hne].
      * by rewrite lookup_delete_eq.
      * by rewrite lookup_delete_ne.
    + destruct (decide (e = event)) as [->|Hne].
      * by rewrite lookup_insert_eq.
      * by rewrite lookup_insert_ne.
  - destruct (decide (e = event)) as [->|Hne]; [|reflexivity].
    by rewrite Hb.
Qed.

Lemma emit_bucket event (payload : P) listeners :
  TinyEmitter.emit event payload listeners
  = (λ listener, (listener, payload)) <$> default [] (listeners !! event).
Proof. unfold TinyEmitter.emit. by destruct (listeners !! event). Qed.

Lemma on_tidy event listener listeners :
  TinyEmitter.tidy listeners → TinyEmitter.tidy (TinyEmitter.on event listener listeners).
Proof.
  intros Ht e bucket. unfold TinyEmitter.on. cbv zeta.
  destruct (decide (e = event)) as [->|Hne].
  - rewrite lookup_insert_eq. intros [= <-]. split.
    + intros Hnil.
      assert (Hin : listener ∈ TinyEmitter.set_add listener (default [] (listeners !! event)))
        by (apply set_add_elem; by left).
      rewrite Hnil in Hin. by apply elem_of_nil in Hin.
    + apply set_add_NoDup. destruct (listeners !! event) as [b|] eqn:Hb; simpl.
      * by destruct (Ht event b Hb).
      * apply NoDup_nil_2.
  - rewrite lookup_insert_ne by done. apply Ht.
Qed.

Lemma off_tidy event listener listeners :
  TinyEmitter.tidy listeners → TinyEmitter.tidy (TinyEmitter.off event listener listeners).
Proof.
  intros Ht e bucket. unfold TinyEmitter.off.
  destruct (listeners !! event) as [b|] eqn:Hb; [|apply Ht].
  cbv zeta. destruct (TinyEmitter.set_delete listener b) as [|x rest] eqn:Hd.
  - destruct (decide (e = event)) as [->|Hne].
    + by rewrite lookup_delete_eq.
    + rewrite lookup_delete_ne by done. apply Ht.
  - destruct (decide (e = event)) as [->|Hne].
    + rewrite lookup_insert_eq. intros [= <-]. split; [discriminate|].
      rewrite <- Hd. unfold TinyEmitter.set_delete. apply NoDup_filter.
      by destruct (Ht event b Hb).
    + rewrite lookup_insert_ne by done. apply Ht.
Qed.

Lemma after_snoc (ops : list (@TinyEmitter.Op L)) op :
  TinyEmitter.after (ops ++ [op]) = TinyEmitter.apply op (TinyEmitter.after ops).
Proof. unfold TinyEmitter.after. by rewrite foldl_app. Qed.

Lemma after_tidy (ops : list (@TinyEmitter.Op L)) :
  TinyEmitter.tidy (TinyEmitter.after ops).
Proof.
  induction ops as [|op ops IH] using rev_ind.
  - intros e bucket H0. unfold TinyEmitter.after in H0. simpl in H0.
    by rewrite lookup_empty in H0.
  - rewrite after_snoc. destruct op; simpl; [by apply on_tidy|by apply off_tidy].
Qed.

Lemma subscribed_snoc event listener (ops : list (@TinyEmitter.Op L)) op now :
  TinyEmitter.subscribed event listener (ops ++ [op]) now
  = match op with
    | TinyEmitter.On e l =>
        if decide (e = event ∧ l = listener) then true
        else TinyEmitter.subscribed event listener ops now
    | TinyEmitter.Off e l =>
        if decide (e = event ∧ l = listener) then false
        else TinyEmitter.subscribed event listener ops now
    end.
Proof.
  revert now. induction ops as [|o ops IH]; intros now.
  - simpl. destruct op; reflexivity.
  - destruct o; simpl; apply IH.
Qed.

Lemma bucket_subscribed (ops : list (@TinyEmitter.Op L)) event listener :
  listener ∈ default [] (TinyEmitter.after ops !! event)
  ↔ TinyEmitter.subscribed event listener ops false = true.
Proof.
  induction ops as [|op ops IH] using rev_ind.
  - unfold TinyEmitter.after. simpl. rewrite lookup_empty. simpl.
    split; [intros Hin; by apply elem_of_nil in Hin|discriminate].
  - rewrite after_snoc, subscribed_snoc. destruct op as [e l|e l]; simpl.
    + rewrite on_bucket. destruct (decide (event = e)) as [->|Hne].
      * rewrite set_add_elem. destruct (decide (e = e ∧ l = listener)) as [[_ ->]|Hno].
        -- split; auto.
        -- rewrite <- IH. split; [|auto]. intros [->|Hin]; [|exact Hin].
           exfalso. apply Hno. auto.
      * rewrite decide_False by (intros [-> _]; congruence). exact IH.
    + rewrite off_bucket. destruct (decide (event = e)) as [->|Hne].
      * rewrite set_delete_elem. destruct (decide (e = e ∧ l = listener)) as [[_ ->]|Hno].
        -- split; [intros [_ Hne]; congruence|discriminate].
        -- rewrite <- IH. split; [tauto|]. intros Hin. split; [exact Hin|].
           intros ->. apply Hno. auto.
      * rewrite decide_False by (intros [-> _]; congruence). exact IH.
Qed.

(** [emit] calls exactly the listeners whose last operation for the
    event was a subscription, each of them once, with the payload. *)
Theorem emit_calls_the_subscribed (ops : list (@TinyEmitter.Op L)) event
    (payload : P) listener :
  let calls := TinyEmitter.emit event payload (TinyEmitter.after ops) in
  NoDup calls ∧
  ((listener, payload) ∈ calls ↔
   TinyEmitter.subscribed event listener ops false = true) ∧
  ∀ call, call ∈ calls → call.2 = payload.
Proof.
  cbv zeta. rewrite emit_bucket. split; [|split].
  - apply NoDup_fmap_2; [intros x y [= ->]; reflexivity|].
    destruct (TinyEmitter.after ops !! event) as [b|] eqn:Hb; simpl.
    + by destruct (after_tidy ops event b Hb).
    + apply NoDup_nil_2.
  - rewrite <- bucket_subscribed. rewrite list_elem_of_fmap. split.
    + intros (x & [= ->] & Hx). exact Hx.
    + intros Hl. by exists listener.
  - intros call Hin. apply list_elem_of_fmap in Hin as (x & -> & _). reflexivity.
Qed.

(** Subscribing a listener that is not yet subscribed to the event and
    then calling the function [on] returned puts the emitter back as it
    was. *)
Theorem unsubscribe_restores (ops : list (@TinyEmitter.Op L)) event listener :
  TinyEmitter.subscribed event listener ops false = false →
  TinyEmitter.off event listener (TinyEmitter.on event listener (TinyEmitter.after ops))
  = TinyEmitter.after ops.
Proof.
  intros Hsub.
  pose proof (after_tidy ops) as Ht.
  set (listeners := TinyEmitter.after ops) in *.
  assert (Hout : listener ∉ default [] (listeners !! event)).
  { intros Hin.
    apply bucket_subscribed in Hin. congruence. }
  unfold TinyEmitter.off, TinyEmitter.on. cbv zeta. rewrite lookup_insert_eq.
  unfold TinyEmitter.set_add. rewrite decide_False by exact Hout.
  rewrite set_delete_added by exact Hout.
  destruct (listeners !! event) as [b|] eqn:Hb; simpl.
  - destruct b as [|x rest]; [by destruct (Ht event [] Hb)|].
    rewrite insert_insert_eq. by apply insert_id.
  - by rewrite delete_insert_eq, delete_id.
Qed.
End EmitterProperties.

Section EmitterOrder.
Context {L P : Type} `{EqDecision L}.

(** Listeners are called in the order of their subscription: a further
    [on] adds the listener's call after the calls made before, and adds
    nothing when the listener is already subscribed to the event. *)
Theorem subscription_order (ops : list (@TinyEmitter.Op L)) (event : string)
    (payload : P) (listener : L) :
  TinyEmitter.emit event payload (TinyEmitter.after (ops ++ [TinyEmitter.On event listener]))
  = TinyEmitter.emit event payload (TinyEmitter.after ops) ++
      (if TinyEmitter.subscribed event listener ops false then []
       else [(listener, payload)]).
Proof.
  rewrite after_snoc. simpl TinyEmitter.apply. rewrite !emit_bucket, on_bucket.
  rewrite decide_True by reflexivity. unfold TinyEmitter.set_add.
  pose proof (bucket_subscribed ops event listener) as Hsub.
  destruct (decide (listener ∈ default [] (TinyEmitter.after ops !! event))) as [Hin|Hout].
  - rewrite (proj1 Hsub Hin). by rewrite app_nil_r.
  - destruct (TinyEmitter.subscribed event listener ops false) eqn:E.
    + exfalso. apply Hout, Hsub. reflexivity.
    + by rewrite fmap_app.
Qed.
End EmitterOrder.

Lemma unsubscribe_restores_witness :
  TinyEmitter.off "change" 2
    (TinyEmitter.on "change" 2 (TinyEmitter.after [TinyEmitter.On "change"%string 1]))
  = TinyEmitter.after [TinyEmitter.On "change"%string 1].
Proof.
  apply (unsubscribe_restores [TinyEmitter.On "change"%string 1] "change"%string 2).
  reflexivity.
Defined.

Lemma text_projections_agree_witness :
  let s' := exec (handleEvent 2 (EvOutputTextDelta 0 (Some "msg_1"%string) 0 "Hi"%string))
              sample_stream in
  ∃ p rs rt it,
    findOutputEntry None (Some 0) s' = Some p ∧
    snapshot_item 0 s' = Some (rs, it) ∧
    entry_item p s' = Some (rt, it) ∧ item_type it = TMessage.
Proof.
  apply (text_projections_agree sample_ids [] None
           [CallHandleEvent 0 (EvLifecycle LCreated (sample_response []));
            CallHandleEvent 1
              (EvOutputItemAdded 0 (IMessage "msg_1" "assistant" "in_progress" []))]
           2 (EvOutputTextDelta 0 (Some "msg_1"%string) 0 "Hi"%string)
           0 (Some "msg_1"%string)).
  - reflexivity.
  - eexists _, _. vm_compute. split; reflexivity.
Defined.

Lemma lifecycle_response_installed_witness :
  let s' := exec (handleEvent 2 (EvLifecycle LCompleted (sample_response [sample_call])))
              (run [] (new_session sample_ids [] None)) in
  ∃ p object,
    findOutputEntry None (Some 0) s' = Some p ∧
    entry_item p s' = Some (object, sample_call) ∧
    snapshot_item 0 s' = Some (object, sample_call).
Proof.
  apply (lifecycle_response_installed sample_ids [] None [] 2 LCompleted
           (sample_response [sample_call]) 0 sample_call).
  reflexivity.
Defined.

(** ** The arguments of a function call *)

(** One item event on an item that the snapshot stores at its output
    index, with an id: [fS] is what the snapshot case does to the item,
    [fT] what the transcript case does. *)
Lemma item_event_step chk type (fS fT : OutputItem → OutputItem) k findId itemId ref s r it :
  ordered s →
  snapshot_item k s = Some (r, it) → item_type it = type →
  is_Some (item_id it) → findId = itemId ∨ findId = None →
  let s2 :=
    exec (entry <- findOrEnsure findId k type itemId ;;
          whenEntryOfType entry type (λ i r,
            update_item r fT ;; push_event i ref))
      (exec (onSnapshotItem chk k type itemId fS) s) in
  ordered s2 ∧
  snapshot_item k s2 = Some (r, fS (adopt_id itemId it)) ∧
  ∃ p rc, existing_entry k s2 = Some p ∧
          entry_item p s2 = Some (rc, fT (adopt_id itemId it)).
Proof.
  intros Hs Hst Hty [j Hj] Hfid. cbv zeta.
  destruct (snapshot_item_Some k s r it Hst) as (Hr & resp & Hresp & Hk).
  rewrite (onSnapshotItem_match chk k type itemId fS s r it Hst Hty).
  set (it' := adopt_id itemId it).
  set (s0 := set_idToIndex (registered (item_id it') k (idToIndex s))
               (set_heap (<[r := it']> (heap s)) s)).
  assert (Hty' : item_type it' = type) by (subst it'; by rewrite adopt_id_type).
  assert (Hlt : r < length (heap s)) by (eapply lookup_lt_Some; exact Hr).
  assert (Hs0 : ordered s0) by (eapply ordered_ext; [| |exact Hs]; reflexivity).
  destruct (ensureOutputEntry_spec it' k s0 Hs0)
    as (Hord & Hex & (e & a & Hp) & Hheap & Hsnap & Hids & _).
  cbv zeta in *.
  set (p := (ensureOutputEntry it' k s0).1) in *.
  set (s' := exec (ensureOutputEntry it' k) s0) in *.
  assert (Hlen : length (heap s0) = length (heap s)) by (simpl; apply length_insert).
  rewrite Hlen in Hp.
  set (rc := length (heap s)) in *.
  set (s1 := exec (update_item r fS) s').
  assert (Hh1 : heap s1 = alter fS r (heap s')) by reflexivity.
  assert (Hr1 : heap s1 !! r = Some (fS it')).
  { rewrite Hh1, list_lookup_alter_eq, Hheap, lookup_app_l by lia.
    simpl. by rewrite list_lookup_insert_eq. }
  assert (Hrc1 : heap s1 !! rc = Some it').
  { rewrite Hh1, list_lookup_alter_ne, Hheap by (unfold rc; lia).
    rewrite lookup_app_r by (rewrite Hlen; unfold rc; lia).
    rewrite Hlen. unfold rc. by rewrite Nat.sub_diag. }
  assert (Hex1 : existing_entry k s1 = Some p) by exact Hex.
  assert (Hp1 : messages s1 !! p = Some (MOutput rc k e a)) by exact Hp.
  assert (Hfind : findOutputEntry findId (Some k) s1 = Some p).
  { apply findOutputEntry_by_position; [exact Hex1|].
    intros i Hi Hne. left. destruct Hfid as [->| ->]; [|discriminate]. subst itemId.
    assert (Hid : item_id it' = Some i).
    { subst it'. eapply adopt_id_has_id; [exact Hj|]. by apply truthy_Some. }
    apply (Hids i Hid Hne). }
  fold s'. fold s1.
  assert (Hfinal :
    exec (entry <- findOrEnsure findId k type itemId ;;
          whenEntryOfType entry type (λ i r,
            update_item r fT ;; push_event i ref)) s1
    = set_messages
        (alter (λ m, match m with
                     | MOutput r0 k0 events aug => MOutput r0 k0 (events ++ [ref]) aug
                     | MInput _ => m
                     end) p (messages s1))
        (set_heap (alter fT rc (heap s1)) s1)).
  { rewrite exec_bind.
    rewrite (findOrEnsure_found findId k type itemId s1 p Hfind). cbn [fst snd].
    unfold exec.
    rewrite (whenEntryOfType_hit p type _ s1 rc it'
               (entry_item_intro p s1 rc k e a it' Hp1 Hrc1) Hty').
    reflexivity. }
  rewrite Hfinal.
  assert (Hne : r ≠ rc) by (unfold rc; lia).
  assert (Hord1 : ordered s1) by (eapply ordered_ext; [| |exact Hord]; reflexivity).
  assert (Hsnap1 : responseSnapshot s1 = Some resp)
    by (rewrite <- Hresp; exact Hsnap).
  clearbody s1.
  split; [|split].
  - apply (ordered_alter _ p (set_heap (alter fT rc (heap s1)) s1));
      [intros m _; by destruct m|].
    eapply ordered_ext; [| |exact Hord1]; reflexivity.
  - apply (snapshot_item_intro k _ r (fS it') resp); [exact Hsnap1|exact Hk|].
    cbn [heap set_messages set_heap]. rewrite list_lookup_alter_ne by lia. exact Hr1.
  - exists p, rc. split.
    + apply existing_entry_Some in Hex1 as (Ho & _).
      eapply existing_entry_intro; [exact Ho|].
      cbn [messages set_messages]. rewrite list_lookup_alter_eq, Hp1. reflexivity.
    + eapply entry_item_intro.
      * cbn [messages set_messages]. rewrite list_lookup_alter_eq, Hp1. reflexivity.
      * cbn [heap set_messages set_heap]. rewrite list_lookup_alter_eq, Hrc1.
        reflexivity.
Qed.

Lemma item_arguments_type it a : item_arguments it = Some a → item_type it = TFunctionCall.
Proof. destruct it; try discriminate; reflexivity. Qed.

Lemma adopt_id_arguments itemId it : item_arguments (adopt_id itemId it) = item_arguments it.
Proof.
  unfold adopt_id. destruct itemId as [i|]; [|reflexivity].
  destruct (item_id it) as [j|]; [|reflexivity].
  destruct (truthy (Some i) && negb (String.eqb j i)); [|reflexivity].
  by destruct it.
Qed.

Lemma adopt_id_keeps_id itemId it : is_Some (item_id it) → is_Some (item_id (adopt_id itemId it)).
Proof.
  intros [j Hj]. unfold adopt_id. rewrite Hj. destruct itemId as [i|]; [|eauto].
  destruct (truthy (Some i) && negb (String.eqb j i)); [|eauto].
  destruct it; simpl; eauto.
Qed.

Lemma arguments_event_step (g : string → string) ref event k itemId s a :
  (event = EvFunctionCallArgumentsDelta k itemId (g ""%string) ∧ g = (λ t, t +:+ g ""%string)
   ∨ ∃ final, event = EvFunctionCallArgumentsDone k itemId final ∧ g = (λ _, final)) →
  ordered s → stores_call k a s →
  let s' := exec (handleEvent ref event) s in
  ordered s' ∧ stores_call k (g a) s' ∧ transcript_arguments k s' = Some (g a).
Proof.
  intros Hev Hs (r & it & Hst & Hid & Ha). cbv zeta.
  pose proof (item_arguments_type it a Ha) as Hty.
  assert (Hitem : item_event event = Some (k, TFunctionCall, itemId)).
  { destruct Hev as [[-> _]|(final & -> & _)]; reflexivity. }
  rewrite handleEvent_exec, (before_change_item ref event _ s Hitem).
  match goal with
  | |- context [exec emitChange ?x] => destruct (emitChange_shape x) as (log & flag & ->)
  end.
  assert (Hstep :
    exec (applyToMessages ref event) (exec (mutateSnapshot event) (exec (emit (SigEvent ref)) s))
    = exec (entry <- findOrEnsure itemId k TFunctionCall itemId ;;
            whenEntryOfType entry TFunctionCall (λ i r,
              update_item r (on_function_arguments g) ;; push_event i ref))
        (exec (onSnapshotItem true k TFunctionCall itemId (on_function_arguments g))
           (exec (emit (SigEvent ref)) s))).
  { destruct Hev as [[-> Hg]|(final & -> & ->)]; [|reflexivity].
    cbn [mutateSnapshot applyToMessages]. rewrite <- Hg. reflexivity. }
  rewrite Hstep.
  destruct (item_event_step true TFunctionCall (on_function_arguments g)
              (on_function_arguments g) k itemId itemId ref
              (exec (emit (SigEvent ref)) s) r it Hs Hst Hty Hid (or_introl eq_refl))
    as (Hord & Hst2 & p & rc & He2 & Hen2).
  cbv zeta in *.
  assert (Hg : item_arguments (on_function_arguments g (adopt_id itemId it)) = Some (g a)).
  { pose proof (adopt_id_arguments itemId it) as Hk. rewrite Ha in Hk.
    destruct (adopt_id itemId it); try discriminate. simpl in *. congruence. }
  split; [exact Hord|]. split.
  - eexists _, _. split; [exact Hst2|]. split; [|exact Hg].
    pose proof (adopt_id_keeps_id itemId it Hid) as [j Hj].
    destruct (adopt_id itemId it); simpl in *; eauto.
  - unfold transcript_arguments.
    change (existing_entry k (set_emitted log (set_endEmitted flag ?x)))
      with (existing_entry k x).
    rewrite He2.
    change (entry_item p (set_emitted log (set_endEmitted flag ?x)))
      with (entry_item p x).
    by rewrite Hen2.
Qed.

Lemma arguments_deltas_run k (deltas : list (EvRef * option string * string)) d s a :
  ordered s → stores_call k a s →
  let s' := run (arguments_delta k <$> (d :: deltas)) s in
  let a' := foldl (λ acc x, acc +:+ x) a ((d :: deltas).*2) in
  ordered s' ∧ stores_call k a' s' ∧ transcript_arguments k s' = Some a'.
Proof.
  revert d s a. induction deltas as [|d' rest IH]; intros [[ref itemId] delta] s a Hs Hst.
  - cbv zeta. simpl.
    apply (arguments_event_step (λ t, t +:+ delta) ref _ k itemId s a); auto.
  - destruct (arguments_event_step (λ t, t +:+ delta) ref
                (EvFunctionCallArgumentsDelta k itemId delta) k itemId s a)
      as (Hs1 & Hst1 & _); auto.
    cbv zeta in *. apply (IH d' _ _ Hs1 Hst1).
Qed.

(** Function call arguments accumulate and are then settled.  Where the
    response snapshot stores a function call with an id, a run of
    [response.function_call_arguments.delta] events appends the deltas
    in order to its arguments, in the snapshot and in the transcript
    alike; a [response.function_call_arguments.done] event after them
    replaces the arguments by its own in both. *)
Theorem function_arguments_accumulate source inputs response (cs : list Call)
    k a d deltas ref itemId final :
  let s := run cs (new_session source inputs response) in
  let s1 := run (arguments_delta k <$> (d :: deltas)) s in
  let s2 := exec (handleEvent ref (EvFunctionCallArgumentsDone k itemId final)) s1 in
  let a1 := foldl (λ acc x, acc +:+ x) a ((d :: deltas).*2) in
  stores_call k a s →
  (snapshot_arguments k s1 = Some a1 ∧ transcript_arguments k s1 = Some a1) ∧
  (snapshot_arguments k s2 = Some final ∧ transcript_arguments k s2 = Some final).
Proof.
  intros s s1 s2 a1 Hst.
  pose proof (run_ordered source inputs response cs) as Hs. fold s in Hs.
  destruct (arguments_deltas_run k deltas d s a Hs Hst) as (Hs1 & Hst1 & Ht1).
  cbv zeta in *. fold s1 in Hs1, Hst1, Ht1. fold a1 in Hst1, Ht1.
  assert (Hsnap : ∀ x b, stores_call k b x → snapshot_arguments k x = Some b).
  { intros x b (r & it & Hx & _ & Hb). unfold snapshot_arguments. by rewrite Hx. }
  split; [split; [by apply Hsnap|exact Ht1]|].
  assert (Hdone : ∃ final0, EvFunctionCallArgumentsDone k itemId final
                            = EvFunctionCallArgumentsDone k itemId final0 ∧
                            (λ _ : string, final) = (λ _, final0)) by eauto.
  destruct (arguments_event_step (λ _, final) ref
              (EvFunctionCallArgumentsDone k itemId final) k itemId s1 a1
              (or_intror Hdone) Hs1 Hst1)
    as (_ & Hst2 & Ht2).
  split; [by apply Hsnap|exact Ht2].
Qed.

Lemma function_arguments_accumulate_witness :
  let s := run [CallHandleEvent 0 (EvLifecycle LCreated (sample_response [sample_call]))]
             (new_session sample_ids [] None) in
  let s1 := run (arguments_delta 0 <$> [(1, Some "fc_1"%string, "a"%string);
                                        (2, Some "fc_1"%string, "b"%string)]) s in
  let s2 := exec (handleEvent 3 (EvFunctionCallArgumentsDone 0 (Some "fc_1"%string)
                                   "done"%string)) s1 in
  (snapshot_arguments 0 s1 = Some "{}ab"%string ∧
   transcript_arguments 0 s1 = Some "{}ab"%string) ∧
  (snapshot_arguments 0 s2 = Some "done"%string ∧
   transcript_arguments 0 s2 = Some "done"%string).
Proof.
  apply (function_arguments_accumulate sample_ids [] None
           [CallHandleEvent 0 (EvLifecycle LCreated (sample_response [sample_call]))]
           0 "{}"%string (1, Some "fc_1"%string, "a"%string)
           [(2, Some "fc_1"%string, "b"%string)] 3 (Some "fc_1"%string) "done"%string).
  eexists _, _. vm_compute. repeat split; eauto.
Defined.

(** ** Output item events on an entry that exists *)

Lemma alter_as_insert {A} (f : A → A) i (l : list A) x :
  l !! i = Some x → alter f i l = <[i := f x]> l.
Proof.
  intros Hx. apply list_eq. intros j. destruct (decide (i = j)) as [<-|Hne].
  - rewrite list_lookup_alter_eq, Hx.
    rewrite list_lookup_insert_eq by (eapply lookup_lt_Some; exact Hx). reflexivity.
  - by rewrite list_lookup_alter_ne, list_lookup_insert_ne.
Qed.

(** An [output_item.added] or [output_item.done] event for an output
    index that already has its transcript entry changes the transcript
    at that entry only: the entry keeps its place, its output index, its
    recorded events and its augmentations, the event is appended to the
    recorded events, and the item becomes a new copy of the event's
    item. *)
Theorem output_item_updates_in_place source inputs response (cs : list Call)
    ref k item (done : bool) p r e a :
  let s := run cs (new_session source inputs response) in
  let s' := exec (handleEvent ref (if done then EvOutputItemDone k item
                                   else EvOutputItemAdded k item)) s in
  outputIndexToMessageIndex s !! k = Some p →
  getMessages s !! p = Some (MOutput r k e a) →
  ∃ r', getMessages s' = <[p := MOutput r' k (e ++ [ref]) a]> (getMessages s) ∧
        heap s' !! r' = Some item ∧ length (heap s) ≤ r'.
Proof.
  intros s s' Hk Hp. subst s'. unfold getMessages in *.
  rewrite handleEvent_exec.
  match goal with
  | |- context [exec emitChange ?x] => destruct (emitChange_shape x) as (log & flag & ->)
  end.
  cbn [messages heap set_emitted set_endEmitted].
  set (s0 := exec (emit (SigEvent ref)) s).
  set (s1 := exec (setSnapshotOutput k item) s0).
  assert (Hm1 : messages s1 = messages s ∧
                outputIndexToMessageIndex s1 = outputIndexToMessageIndex s ∧
                ∃ more, heap s1 = heap s ++ more).
  { unfold s1. rewrite setSnapshotOutput_exec.
    destruct (responseSnapshot s0); repeat split; try reflexivity;
      [by exists [item]|exists []; by rewrite app_nil_r]. }
  destruct Hm1 as (Hm1 & Ho1 & more & Hh1).
  assert (He1 : existing_entry k s1 = Some p).
  { eapply existing_entry_intro; [by rewrite Ho1|by rewrite Hm1]. }
  assert (Hbefore :
    before_change ref (if done then EvOutputItemDone k item else EvOutputItemAdded k item) s
    = if done then
        exec (push_event (ensureOutputEntry item k s1).1 ref)
          (exec (replace_entry_item (ensureOutputEntry item k s1).1 item)
             (exec (ensureOutputEntry item k) s1))
      else
        exec (push_event (ensureOutputEntry item k s1).1 ref)
          (exec (ensureOutputEntry item k) s1)).
  { unfold before_change. destruct done; cbn [mutateSnapshot applyToMessages];
      fold s0; fold s1; rewrite ?exec_bind; reflexivity. }
  rewrite Hbefore. unfold exec.
  rewrite !(ensureOutputEntry_existing item k s1 p He1). cbn [fst snd].
  rewrite (alter_as_insert _ p (messages s1) (MOutput r k e a)) by (by rewrite Hm1).
  destruct done.
  - exists (S (length (heap s1))).
    unfold push_event, replace_entry_item, update_message, clone, alloc, exec, bind, modify.
    cbn [fst snd messages heap set_messages set_heap set_idToIndex].
    assert (Hlt : p < length (messages s1)) by (rewrite Hm1; eapply lookup_lt_Some; exact Hp).
    split; [|split].
    + rewrite (alter_as_insert _ p (<[p:=_]> (messages s1))
                 (MOutput (length (heap s1)) k e a))
        by (by rewrite list_lookup_insert_eq).
      rewrite list_insert_insert_eq.
      rewrite (alter_as_insert _ p _ (MOutput (length (heap s1 ++ [item])) k e a))
        by (by rewrite list_lookup_insert_eq).
      rewrite list_insert_insert_eq, Hm1.
      rewrite length_app. simpl. by replace (length (heap s1) + 1) with (S (length (heap s1))) by lia.
    + rewrite lookup_app_r by (rewrite length_app; simpl; lia).
      rewrite length_app. simpl.
      by replace (S (length (heap s1)) - (length (heap s1) + 1)) with 0 by lia.
    + rewrite Hh1, length_app. lia.
  - exists (length (heap s1)).
    unfold push_event, update_message, exec, modify.
    cbn [fst snd messages heap set_messages set_heap set_idToIndex].
    assert (Hlt : p < length (messages s1)) by (rewrite Hm1; eapply lookup_lt_Some; exact Hp).
    split; [|split].
    + rewrite (alter_as_insert _ p _ (MOutput (length (heap s1)) k e a))
        by (by rewrite list_lookup_insert_eq).
      by rewrite list_insert_insert_eq, Hm1.
    + by rewrite lookup_app_r, Nat.sub_diag.
    + rewrite Hh1, length_app. lia.
Qed.

Lemma output_item_updates_in_place_witness :
  let s' := exec (handleEvent 2 (EvOutputItemDone 0 sample_call)) sample_stream in
  ∃ r', getMessages s' = <[0 := MOutput r' 0 ([1] ++ [2]) None]> (getMessages sample_stream) ∧
        heap s' !! r' = Some sample_call ∧ length (heap sample_stream) ≤ r'.
Proof.
  apply (output_item_updates_in_place sample_ids [] None
           [CallHandleEvent 0 (EvLifecycle LCreated (sample_response []));
            CallHandleEvent 1
              (EvOutputItemAdded 0 (IMessage "msg_1" "assistant" "in_progress" []))]
           2 0 sample_call true 0 1 [1] None); reflexivity.
Defined.

(** ** Events of a type the session does not interpret *)

(** [ensureOutputEntryFromSnapshot] at an output index whose snapshot item
    exists returns the position of the entry of that index, which now
    holds the snapshot's object. *)
Lemma ensureOutputEntryFromSnapshot_returns k s r it :
  ordered s → snapshot_item k s = Some (r, it) →
  ∃ p e a,
    ensureOutputEntryFromSnapshot k s
    = (Some p, exec (ensureOutputEntryFromSnapshot k) s) ∧
    outputIndexToMessageIndex (exec (ensureOutputEntryFromSnapshot k) s) !! k = Some p ∧
    messages (exec (ensureOutputEntryFromSnapshot k) s) !! p = Some (MOutput r k e a) ∧
    responseSnapshot (exec (ensureOutputEntryFromSnapshot k) s) = responseSnapshot s.
Proof.
  intros Hs Hst.
  destruct (ensureOutputEntryFromSnapshot_step k s Hs) as (_ & _ & Hsnap & Hnew & _).
  cbv zeta in *. destruct (Hnew r it Hst) as (p & e & a & He & Hp).
  exists p, e, a.
  split; [|split; [by apply existing_entry_Some in He as [? _]|split; [exact Hp|exact Hsnap]]].
  assert (Hfst : (ensureOutputEntryFromSnapshot k s).1 = Some p).
  { apply existing_entry_Some in He as [Hk _]. revert Hk.
    unfold exec, ensureOutputEntryFromSnapshot, bind. cbn [gets fst snd]. rewrite Hst.
    cbn [gets fst snd].
    destruct (existing_entry k s) as [q|] eqn:Hq.
    - apply existing_entry_Some in Hq as [Hq _].
      unfold update_message, modify. cbn [fst snd]. rewrite registerItemId_exec.
      cbn [ret fst snd]. simpl. intros Hk. congruence.
    - destruct (insertOutputEntry_spec r (item_id it) k s Hs) as (Hres & _ & Hkey & _).
      cbv zeta in *. unfold exec in Hkey.
      destruct (insertOutputEntry r (item_id it) k s) as [i s1]. cbn [ret fst snd] in *.
      intros Hk. congruence. }
  unfold exec. destruct (ensureOutputEntryFromSnapshot k s) as [o s1].
  simpl in *. by subst o.
Qed.

(** An event of a type the session does not interpret, carrying an output
    index, never changes the response snapshot.  When its item id is
    registered to a transcript entry, that entry records the event and
    the rest of the transcript is untouched.  Otherwise, when the snapshot
    has an item at the output index, the entry of that index takes the
    snapshot's object and records the event last; and when the snapshot
    has no such item the event leaves the transcript as it was. *)
Theorem unknown_event_recorded source inputs response (cs : list Call)
    ref type k itemId :
  let s := run cs (new_session source inputs response) in
  let s' := exec (handleEvent ref (EvOther type (Some k) itemId)) s in
  getResponse s' = getResponse s ∧
  match findOutputEntry itemId None s with
  | Some i =>
      ∃ r k' e a, getMessages s !! i = Some (MOutput r k' e a) ∧
                  getMessages s' = <[i := MOutput r k' (e ++ [ref]) a]> (getMessages s)
  | None =>
      match snapshot_item k s with
      | Some (r, _) =>
          ∃ p e a, outputIndexToMessageIndex s' !! k = Some p ∧
                   getMessages s' !! p = Some (MOutput r k (e ++ [ref]) a)
      | None => getMessages s' = getMessages s
      end
  end.
Proof.
  intros s s'. subst s'. unfold getResponse, getMessages.
  pose proof (run_ordered source inputs response cs) as Hs. fold s in Hs.
  rewrite handleEvent_exec.
  match goal with
  | |- context [exec emitChange ?x] => destruct (emitChange_shape x) as (log & flag & ->)
  end.
  cbn [messages responseSnapshot outputIndexToMessageIndex set_emitted set_endEmitted].
  set (s0 := exec (emit (SigEvent ref)) s).
  assert (Hbefore : before_change ref (EvOther type (Some k) itemId) s
                    = exec (recordOutputEvent (Some k) itemId ref) s0).
  { unfold before_change. cbn [mutateSnapshot applyToMessages]. fold s0.
    by rewrite exec_bind. }
  rewrite Hbefore. clear Hbefore.
  assert (Hs0 : ordered s0) by (eapply ordered_ext; [| |exact Hs]; reflexivity).
  change (findOutputEntry itemId None s) with (findOutputEntry itemId None s0).
  change (snapshot_item k s) with (snapshot_item k s0).
  change (messages s) with (messages s0).
  change (responseSnapshot s) with (responseSnapshot s0).
  clearbody s0. clear Hs.
  unfold recordOutputEvent. rewrite exec_bind. cbn [gets fst snd].
  destruct (findOutputEntry itemId None s0) as [i|] eqn:Hfind.
  - rewrite exec_bind_unit. cbn [ret exec fst snd].
    split; [reflexivity|].
    assert (Hout : output_at i s0 = Some i).
    { revert Hfind. unfold findOutputEntry.
      destruct itemId as [j|]; [|discriminate].
      destruct (truthy (Some j)); [|discriminate].
      destruct (idToIndex s0 !! j) as [idx|]; [|discriminate].
      destruct (output_at idx s0) as [q|] eqn:Hq; [|discriminate].
      intros [= <-]. unfold output_at in Hq |- *.
      destruct (messages s0 !! idx) as [[x|r0 k0 e0 a0]|] eqn:Hm; try discriminate.
      injection Hq as <-. by rewrite Hm. }
    apply output_at_Some in Hout as (r0 & k0 & e0 & a0 & Hi).
    exists r0, k0, e0, a0. split; [exact Hi|].
    unfold push_event, update_message, modify, exec.
    cbn [fst snd messages set_messages].
    by rewrite (alter_as_insert _ i _ _ Hi).
  - destruct (snapshot_item k s0) as [[r it]|] eqn:Hst.
    + rewrite exec_bind.
      destruct (ensureOutputEntryFromSnapshot_returns k s0 r it Hs0 Hst)
        as (p & e & a & Hres & Hk & Hp & Hsnap).
      rewrite Hres. cbn [fst snd].
      set (s1 := exec (ensureOutputEntryFromSnapshot k) s0) in *.
      rewrite exec_bind_unit, exec_bind_unit. cbn [ret exec fst snd].
      assert (Hreg : ∀ x,
        messages ((if truthy itemId
                   then (idx <- gets (λ s, default p (outputIndexToMessageIndex s !! k)) ;;
                         e <- gets (entry_item p) ;;
                         registerItemId (e ≫= (λ q, item_id q.2)) idx)%session
                   else ret tt) x).2 = messages x ∧
        outputIndexToMessageIndex
                 ((if truthy itemId
                   then (idx <- gets (λ s, default p (outputIndexToMessageIndex s !! k)) ;;
                         e <- gets (entry_item p) ;;
                         registerItemId (e ≫= (λ q, item_id q.2)) idx)%session
                   else ret tt) x).2 = outputIndexToMessageIndex x ∧
        responseSnapshot
                 ((if truthy itemId
                   then (idx <- gets (λ s, default p (outputIndexToMessageIndex s !! k)) ;;
                         e <- gets (entry_item p) ;;
                         registerItemId (e ≫= (λ q, item_id q.2)) idx)%session
                   else ret tt) x).2 = responseSnapshot x).
      { intros x. destruct (truthy itemId); [|auto].
        unfold bind. cbn [gets fst snd]. rewrite registerItemId_exec. auto. }
      destruct (Hreg (exec (push_event p ref) s1)) as (Hm & Ho & Hr).
      unfold exec at 1 3 5. rewrite Hm, Ho, Hr.
      unfold push_event, update_message, modify, exec at 1 2 3.
      cbn [fst snd messages outputIndexToMessageIndex responseSnapshot set_messages].
      split; [exact Hsnap|].
      exists p, e, a. split; [exact Hk|].
      by rewrite list_lookup_alter_eq, Hp.
    + assert (Hnone : ensureOutputEntryFromSnapshot k s0 = (None, s0)).
      { unfold ensureOutputEntryFromSnapshot, bind. cbn [gets fst snd]. by rewrite Hst. }
      rewrite exec_bind, Hnone. cbn [ret exec fst snd]. auto.
Qed.
